(** * Sequencer strip effects (sequencer/intern/effects.cc)

    A shallow embedding of the pixel algorithms and of the effect registry of
    the video sequencer, with the properties of its specification.

    Conventions of the embedding:
    - [float] of the C++ code is IEEE binary32, modelled by [spec_float] at
      precision 24 and maximal exponent 128 (module [F32]); [spec_float] has
      one NaN where binary32 has many, so nothing is said bit for bit of a
      channel that holds a NaN;
    - a loop that may not end has a result of type [option], [None] standing
      for a run that does not return;
    - [uchar] is [byte]; [int] is [Z] (no claim below drives an [int]
      computation out of the 32-bit range);
    - a pixel buffer is a list of channels, four per pixel; a read out of range
      yields a default and a write out of range does nothing (both are
      undefined behaviour in C++, and every theorem assumes buffers of the
      right size). *)

From Stdlib Require Import ZArith List Lia Bool.
From Stdlib Require Import Floats.SpecFloat.
From Stdlib Require Import Strings.Byte.
From stdpp Require Import base option list gmap.

Local Open Scope Z_scope.

(** ** IEEE binary32 *)

Module F32.

Definition prec : Z := 24.
Definition emax : Z := 128.

Abbreviation float := spec_float.

Definition add : float -> float -> float := SFadd prec emax.
Definition sub : float -> float -> float := SFsub prec emax.
Definition mul : float -> float -> float := SFmul prec emax.
Definition div : float -> float -> float := SFdiv prec emax.
Definition eqb : float -> float -> bool := SFeqb.
Definition ltb : float -> float -> bool := SFltb.

Definition zero : float := S754_zero false.
Definition neg_zero : float := S754_zero true.
Definition one : float := S754_finite false 8388608 (-23).
Definition half : float := S754_finite false 8388608 (-24).

(** A value of the C++ type: canonical mantissa, exponent in range. *)
Definition valid (f : float) : bool := valid_binary prec emax f.

Definition is_finite (f : float) : bool :=
  match f with
  | S754_zero _ | S754_finite _ _ _ => true
  | _ => false
  end.

Definition is_neg_zero (f : float) : bool :=
  match f with
  | S754_zero true => true
  | _ => false
  end.

Definition is_nan (f : float) : bool :=
  match f with
  | S754_nan => true
  | _ => false
  end.

(** [float(i)] for an integer [i]: rounding to nearest, ties to even. *)
Definition of_int (z : Z) : float := binary_normalize prec emax z 0 false.

(** [int(f)]: truncation toward zero.  Out of the [int] range, and on
    infinities and NaN, the cast is undefined in C++; the model returns the
    "integer indefinite" value of the x86 conversion. *)
Definition INT_MIN : Z := - 2 ^ 31.

Definition trunc (f : float) : option Z :=
  match f with
  | S754_zero _ => Some 0
  | S754_finite s m e =>
      let v := match e with
               | Z0 => Zpos m
               | Zpos _ => Zpos m * 2 ^ e
               | Zneg p => Zpos m / 2 ^ Zpos p
               end in
      Some (if s then - v else v)
  | _ => None
  end.

Definition to_int (f : float) : Z :=
  match trunc f with
  | Some v => if (INT_MIN <=? v) && (v <? 2 ^ 31) then v else INT_MIN
  | None => INT_MIN
  end.

(** Multiplying by [1.0f] is exact. *)
Lemma round_mul_one s m e :
  bounded prec emax m e = true ->
  binary_round_aux prec emax s (Zpos (8388608 * m)) (e + -23) loc_Exact
  = S754_finite s m e.
Proof.
  intros Hb. unfold bounded, canonical_mantissa in Hb.
  apply andb_prop in Hb as [Hc He].
  apply Z.eqb_eq in Hc. apply Z.leb_le in He.
  unfold binary_round_aux, shr_fexp.
  let t := eval lazy beta iota zeta delta [Pos.mul] in (8388608 * m)%positive in
  change (8388608 * m)%positive with t.
  cbn [Zdigits2 digits2_pos].
  rewrite !Pos2Z.inj_succ.
  match goal with
  | |- context [fexp prec emax ?a - ?b] =>
      replace (fexp prec emax a - b) with 23
        by (replace a with (Z.pos (digits2_pos m) + e) by lia; lia)
  end.
  cbn [shr shr_record_of_loc].
  match goal with
  | |- context [SpecFloat.iter_pos shr_1 23 ?r] =>
      change (SpecFloat.iter_pos shr_1 23 r)
        with {| shr_m := Z.pos m; shr_r := false; shr_s := false |}
  end.
  cbn [loc_of_shr_record shr_m round_nearest_even Zdigits2].
  replace (e + -23 + 23) with e by lia.
  rewrite Hc, Z.sub_diag. cbn [shr shr_m].
  apply Z.leb_le in He. now rewrite He.
Qed.

Lemma mul_one_l (f : float) : valid f = true -> mul one f = f.
Proof.
  destruct f as [s|s| |s m e]; try reflexivity.
  intros Hv. cbn in Hv. unfold mul, one. cbn [SFmul xorb].
  replace (-23 + e) with (e + -23) by lia. now apply round_mul_one.
Qed.

Lemma mul_one_r (f : float) : valid f = true -> mul f one = f.
Proof.
  destruct f as [s|s| |s m e]; try (destruct s; reflexivity); try reflexivity.
  intros Hv. cbn in Hv. unfold mul, one. cbn [SFmul].
  rewrite xorb_false_r, Pos.mul_comm. now apply round_mul_one.
Qed.

(** Multiplying a finite value by a positive zero leaves a signed zero. *)
Lemma mul_zero_l (f : float) :
  is_finite f = true -> exists s, mul zero f = S754_zero s.
Proof. destruct f; try discriminate; intros _; eexists; reflexivity. Qed.

Lemma mul_zero_r (f : float) :
  is_finite f = true -> exists s, mul f zero = S754_zero s.
Proof. destruct f; try discriminate; intros _; eexists; reflexivity. Qed.

(** Adding a signed zero changes nothing but the sign of a negative zero. *)
Lemma add_zero_r (f : float) s :
  is_neg_zero f = false -> add f (S754_zero s) = f.
Proof. destruct f as [[]|[]| |]; destruct s; try reflexivity; discriminate. Qed.

Lemma add_zero_l (f : float) s :
  is_neg_zero f = false -> add (S754_zero s) f = f.
Proof. destruct f as [[]|[]| |]; destruct s; try reflexivity; discriminate. Qed.

End F32.

Abbreviation float := spec_float.

(** ** Pixel buffers *)

#[global] Instance byte_inhabited : Inhabited byte := populate "000"%byte.
#[global] Instance float_inhabited : Inhabited float := populate F32.zero.

(** [uchar] to [int], and back with the wrap-around of the narrowing store. *)
Definition uchar_to_int (b : byte) : Z := Z.of_N (Byte.to_N b).
Definition int_to_uchar (z : Z) : byte :=
  default "000"%byte (Byte.of_N (Z.to_N (z mod 256))).

Lemma uchar_to_int_range b : 0 <= uchar_to_int b < 256.
Proof.
  unfold uchar_to_int. pose proof (Byte.to_N_bounded b) as Hb.
  lia.
Qed.

Lemma int_to_uchar_to_int b : int_to_uchar (uchar_to_int b) = b.
Proof.
  unfold int_to_uchar. rewrite Z.mod_small by apply uchar_to_int_range.
  unfold uchar_to_int. now rewrite N2Z.id, Byte.of_to_N.
Qed.

(** [for (int i = 0; i < n; i++) body], for a body that does not read [i]. *)
Definition for_n {St : Type} (n : Z) (body : St -> St) : St -> St :=
  Nat.iter (Z.to_nat n) body.

Lemma iter_mul {St : Type} (f : St -> St) (a b : nat) (s : St) :
  Nat.iter a (Nat.iter b f) s = Nat.iter (a * b) f s.
Proof.
  induction a as [|a IH]; [reflexivity|].
  change (Nat.iter (S a) (Nat.iter b f) s)
    with (Nat.iter b f (Nat.iter a (Nat.iter b f) s)).
  rewrite IH. change (S a * b)%nat with (b + a * b)%nat.
  symmetry. apply Nat.iter_add.
Qed.

Section PixelLoop.
Context {T : Type} `{!Inhabited T}.

Definition pixel : Type := T * T * T * T.

(** [dst[0] = v0; dst[1] = v1; dst[2] = v2; dst[3] = v3] at offset [p]. *)
Definition store4 (p : nat) (v : pixel) (dst : list T) : list T :=
  let '(v0, v1, v2, v3) := v in
  <[(p + 3)%nat := v3]> (<[(p + 2)%nat := v2]> (<[(p + 1)%nat := v1]> (<[p := v0]> dst))).

Definition load4 (src : list T) (p : nat) : pixel :=
  (src !!! p, src !!! (p + 1)%nat, src !!! (p + 2)%nat, src !!! (p + 3)%nat).

Definition pixel_list (v : pixel) : list T :=
  let '(v0, v1, v2, v3) := v in [v0; v1; v2; v3].

(** The body shared by the per-pixel effects: write one pixel computed from
    the inputs at the running offset, then advance every pointer by 4. *)
Definition pixel_step (px : nat -> pixel) (st : nat * list T) : nat * list T :=
  let '(p, dst) := st in ((p + 4)%nat, store4 p (px p) dst).

Definition pixel_loop (x y : Z) (px : nat -> pixel) (dst : list T) : list T :=
  snd (for_n y (for_n x (pixel_step px)) (0%nat, dst)).

Lemma store4_app (l r : list T) (v : pixel) :
  (4 <= length r)%nat ->
  store4 (length l) v (l ++ r) = l ++ pixel_list v ++ drop 4 r.
Proof.
  destruct v as [[[v0 v1] v2] v3]. intros Hr.
  destruct r as [|r0 [|r1 [|r2 [|r3 r]]]]; cbn in Hr; try lia.
  unfold store4, pixel_list.
  rewrite !insert_app_r_alt by lia.
  replace (length l - length l)%nat with 0%nat by lia.
  replace (length l + 1 - length l)%nat with 1%nat by lia.
  replace (length l + 2 - length l)%nat with 2%nat by lia.
  replace (length l + 3 - length l)%nat with 3%nat by lia.
  reflexivity.
Qed.

Definition pixels_of (px : nat -> pixel) (n : nat) : list T :=
  flat_map (fun q => pixel_list (px (4 * q)%nat)) (seq 0 n).

Lemma length_pixels_of px n : length (pixels_of px n) = (4 * n)%nat.
Proof.
  unfold pixels_of. induction n as [|n IH]; [reflexivity|].
  rewrite seq_S, flat_map_app, length_app, IH. cbn [flat_map].
  destruct (px (4 * (0 + n))%nat) as [[[? ?] ?] ?]. cbn. lia.
Qed.

Lemma pixel_iter_spec px n dst :
  (4 * n <= length dst)%nat ->
  Nat.iter n (pixel_step px) (0%nat, dst)
  = ((4 * n)%nat, pixels_of px n ++ drop (4 * n) dst).
Proof.
  induction n as [|n IH]; intros Hn.
  - cbn. now rewrite drop_0.
  - rewrite Nat.iter_succ, IH by lia. unfold pixel_step.
    f_equal; [lia|].
    rewrite <- (length_pixels_of px n) at 1.
    rewrite store4_app by (rewrite length_drop; lia).
    unfold pixels_of at 2. rewrite seq_S, flat_map_app. cbn [flat_map].
    rewrite app_nil_r, drop_drop, <- app_assoc.
    do 3 f_equal. lia.
Qed.

Lemma pixel_loop_spec x y px dst :
  (4 * (Z.to_nat y * Z.to_nat x) <= length dst)%nat ->
  pixel_loop x y px dst
  = pixels_of px (Z.to_nat y * Z.to_nat x)
      ++ drop (4 * (Z.to_nat y * Z.to_nat x)) dst.
Proof.
  intros Hn. unfold pixel_loop, for_n.
  now rewrite iter_mul, pixel_iter_spec.
Qed.

(** Copying a buffer pixel by pixel gives the buffer. *)
Lemma pixels_of_load4 (src : list T) n :
  (4 * n <= length src)%nat -> pixels_of (load4 src) n = take (4 * n) src.
Proof.
  induction n as [|n IH]; intros Hn; [reflexivity|].
  unfold pixels_of in *. rewrite seq_S, flat_map_app, IH by lia.
  cbn [flat_map Nat.add]. rewrite app_nil_r.
  replace (4 * S n)%nat with (4 * n + 4)%nat by lia.
  rewrite <- take_take_drop. f_equal.
  unfold load4, pixel_list.
  assert (Hl : forall c, (c < 4)%nat ->
            src !!! (4 * n + c)%nat = drop (4 * n) src !!! c).
  { intros c Hc. now rewrite lookup_total_drop. }
  rewrite <- (Nat.add_0_r (4 * n)) at 1.
  rewrite !Hl by lia.
  pose proof (length_drop src (4 * n)) as Hd.
  destruct (drop (4 * n) src) as [|a [|b [|c [|d r]]]]; cbn in Hd; try lia.
  reflexivity.
Qed.

Lemma pixels_of_ext px px' n :
  (forall q, (q < n)%nat -> px (4 * q)%nat = px' (4 * q)%nat) ->
  pixels_of px n = pixels_of px' n.
Proof.
  intros He. unfold pixels_of. induction n as [|n IH]; [reflexivity|].
  rewrite seq_S, !flat_map_app, IH by (intros; apply He; lia).
  cbn [flat_map Nat.add]. now rewrite He by lia.
Qed.

Lemma pixels_of_lookup px n q c :
  (q < n)%nat -> (c < 4)%nat ->
  pixels_of px n !! (4 * q + c)%nat = pixel_list (px (4 * q)%nat) !! c.
Proof.
  intros Hq Hc. induction n as [|n IH]; [lia|].
  unfold pixels_of in *. rewrite seq_S, flat_map_app. cbn [flat_map Nat.add].
  rewrite app_nil_r.
  pose proof (length_pixels_of px n) as Hl. unfold pixels_of in Hl.
  destruct (decide (q < n)%nat) as [Hlt|Hge].
  - rewrite lookup_app_l by lia. now apply IH.
  - assert (q = n) by lia. subst q.
    rewrite lookup_app_r by lia. f_equal. lia.
Qed.

(** The alpha channel the loop leaves at pixel [q]. *)
Lemma pixel_loop_alpha x y px dst q :
  (4 * (Z.to_nat y * Z.to_nat x) <= length dst)%nat ->
  (q < Z.to_nat y * Z.to_nat x)%nat ->
  pixel_loop x y px dst !! (4 * q + 3)%nat = Some (snd (px (4 * q)%nat)).
Proof.
  intros Hn Hq. rewrite pixel_loop_spec by assumption.
  rewrite lookup_app_l by (rewrite length_pixels_of; lia).
  rewrite pixels_of_lookup by lia.
  now destruct (px (4 * q)%nat) as [[[? ?] ?] ?].
Qed.

End PixelLoop.

Lemma forallb_lookup_total {T : Type} `{!Inhabited T} (P : T -> bool) (l : list T) i :
  forallb P l = true -> (i < length l)%nat -> P (l !!! i) = true.
Proof.
  intros Hall Hi. rewrite forallb_forall in Hall. apply Hall.
  apply list_elem_of_In, list_elem_of_lookup. exists i.
  now apply list_lookup_lookup_total_lt.
Qed.

(** ** Early-out policies *)

Inductive StripEarlyOut : Type :=
  | NoInput | UseInput1 | UseInput2 | DoEffect.

Module EarlyOut.

Definition early_out_noop (fac : float) : StripEarlyOut := DoEffect.

Definition early_out_fade (fac : float) : StripEarlyOut :=
  if F32.eqb fac F32.zero then UseInput1
  else if F32.eqb fac F32.one then UseInput2
  else DoEffect.

Definition early_out_mul_input2 (fac : float) : StripEarlyOut :=
  if F32.eqb fac F32.zero then UseInput1 else DoEffect.

Definition early_out_mul_input1 (fac : float) : StripEarlyOut :=
  if F32.eqb fac F32.zero then UseInput2 else DoEffect.

(** Modelled from the spec: the dispatcher that consumes the early-out
    answer is not part of the sources at hand.  Section 4.5 of the spec:
    [UseInput1] and [UseInput2] short-circuit to a direct duplicate of the
    chosen input, and no effect code runs. *)
Definition early_out_result {T : Type} (e : StripEarlyOut) (ibuf1 ibuf2 : list T)
  : option (list T) :=
  match e with
  | UseInput1 => Some ibuf1
  | UseInput2 => Some ibuf2
  | NoInput | DoEffect => None
  end.

End EarlyOut.

(** ** Cross effect *)

(** The inputs of the examples: one pixel each. *)
Definition sample_bytes1 : list byte := ["010"; "020"; "030"; "255"]%byte.
Definition sample_bytes2 : list byte := ["200"; "100"; "000"; "128"]%byte.
Definition sample_floats1 : list float :=
  [F32.one; F32.half; F32.zero; F32.one].
Definition sample_floats2 : list float :=
  [F32.half; F32.of_int 3; F32.of_int (-2); F32.half].

Module Cross.

Definition do_cross_effect_byte (fac : float) (x y : Z)
    (rect1 rect2 out : list byte) : list byte :=
  let temp_fac := F32.to_int (F32.mul (F32.of_int 256) fac) in
  let temp_mfac := 256 - temp_fac in
  let rt (p : nat) : byte :=
    int_to_uchar
      (Z.shiftr (temp_mfac * uchar_to_int (rect1 !!! p)
                 + temp_fac * uchar_to_int (rect2 !!! p)) 8) in
  pixel_loop x y
    (fun p => (rt p, rt (p + 1)%nat, rt (p + 2)%nat, rt (p + 3)%nat)) out.

Definition do_cross_effect_float (fac : float) (x y : Z)
    (rect1 rect2 out : list float) : list float :=
  let mfac := F32.sub F32.one fac in
  let rt (p : nat) : float :=
    F32.add (F32.mul mfac (rect1 !!! p)) (F32.mul fac (rect2 !!! p)) in
  pixel_loop x y
    (fun p => (rt p, rt (p + 1)%nat, rt (p + 2)%nat, rt (p + 3)%nat)) out.

(** A channel the interpolation arithmetic reproduces bit for bit when its
    weight is [1.0f]: a value of the type that is neither a NaN, whose bits
    the arithmetic need not keep, nor the negative zero. *)
Definition keeps (f : float) : bool :=
  F32.valid f && negb (F32.is_nan f) && negb (F32.is_neg_zero f).

Example cross_byte_half :
  do_cross_effect_byte F32.half 1 1
    ["010"; "020"; "030"; "255"]%byte ["020"; "040"; "050"; "255"]%byte
    ["000"; "000"; "000"; "000"]%byte
  = ["015"; "030"; "040"; "255"]%byte.
Proof. vm_compute. reflexivity. Qed.

Lemma byte_channel_first (a b : byte) :
  int_to_uchar (Z.shiftr (256 * uchar_to_int a + 0 * uchar_to_int b) 8) = a.
Proof.
  rewrite Z.mul_0_l, Z.add_0_r, Z.shiftr_div_pow2 by lia.
  change (2 ^ 8) with 256. rewrite Z.mul_comm, Z.div_mul by lia.
  apply int_to_uchar_to_int.
Qed.

Lemma byte_channel_second (a b : byte) :
  int_to_uchar (Z.shiftr (0 * uchar_to_int a + 256 * uchar_to_int b) 8) = b.
Proof.
  rewrite Z.mul_0_l, Z.add_0_l, Z.shiftr_div_pow2 by lia.
  change (2 ^ 8) with 256. rewrite Z.mul_comm, Z.div_mul by lia.
  apply int_to_uchar_to_int.
Qed.

Lemma do_cross_effect_byte_zero x y rect1 rect2 out :
  length rect1 = (4 * (Z.to_nat y * Z.to_nat x))%nat ->
  length out = length rect1 ->
  do_cross_effect_byte F32.zero x y rect1 rect2 out = rect1.
Proof.
  intros H1 Ho. unfold do_cross_effect_byte.
  rewrite pixel_loop_spec by lia.
  rewrite drop_ge, app_nil_r by lia.
  change (F32.to_int (F32.mul (F32.of_int 256) F32.zero)) with 0.
  change (256 - 0) with 256.
  erewrite pixels_of_ext.
  - rewrite (pixels_of_load4 rect1) by lia. apply take_ge. lia.
  - intros q Hq. cbv beta. unfold load4.
    now rewrite !byte_channel_first.
Qed.

Lemma do_cross_effect_byte_one x y rect1 rect2 out :
  length rect2 = (4 * (Z.to_nat y * Z.to_nat x))%nat ->
  length out = length rect2 ->
  do_cross_effect_byte F32.one x y rect1 rect2 out = rect2.
Proof.
  intros H2 Ho. unfold do_cross_effect_byte.
  rewrite pixel_loop_spec by lia.
  rewrite drop_ge, app_nil_r by lia.
  change (F32.to_int (F32.mul (F32.of_int 256) F32.one)) with 256.
  change (256 - 256) with 0.
  erewrite pixels_of_ext.
  - rewrite (pixels_of_load4 rect2) by lia. apply take_ge. lia.
  - intros q Hq. cbv beta. unfold load4.
    now rewrite !byte_channel_second.
Qed.

Lemma float_channel_first (a b : float) :
  keeps a = true -> F32.is_finite b = true ->
  F32.add (F32.mul F32.one a) (F32.mul F32.zero b) = a.
Proof.
  unfold keeps. intros Ha Hb. apply andb_prop in Ha as [Hv Hz].
  apply andb_prop in Hv as [Hv _]. apply negb_true_iff in Hz.
  rewrite F32.mul_one_l by assumption.
  destruct (F32.mul_zero_l b Hb) as [s ->].
  now apply F32.add_zero_r.
Qed.

Lemma float_channel_second (a b : float) :
  F32.is_finite a = true -> keeps b = true ->
  F32.add (F32.mul F32.zero a) (F32.mul F32.one b) = b.
Proof.
  unfold keeps. intros Ha Hb. apply andb_prop in Hb as [Hv Hz].
  apply andb_prop in Hv as [Hv _]. apply negb_true_iff in Hz.
  rewrite F32.mul_one_l by assumption.
  destruct (F32.mul_zero_l a Ha) as [s ->].
  now apply F32.add_zero_l.
Qed.

(** The channel at index [i] of what the float loop leaves. *)
Lemma do_cross_effect_float_channel (fac : float) (x y : Z)
    (rect1 rect2 out : list float) (i : nat) :
  (4 * (Z.to_nat y * Z.to_nat x) <= length out)%nat ->
  (i < 4 * (Z.to_nat y * Z.to_nat x))%nat ->
  do_cross_effect_float fac x y rect1 rect2 out !!! i
  = F32.add (F32.mul (F32.sub F32.one fac) (rect1 !!! i))
      (F32.mul fac (rect2 !!! i)).
Proof.
  intros Hn Hi. unfold do_cross_effect_float. cbv zeta.
  assert (Hrt : forall rt : nat -> float,
            pixel_loop x y
              (fun p => (rt p, rt (p + 1)%nat, rt (p + 2)%nat, rt (p + 3)%nat))
              out !!! i = rt i).
  { intros rt. apply list_lookup_total_correct.
    rewrite pixel_loop_spec by exact Hn.
    pose proof (Nat.div_mod_eq i 4) as Hdm.
    pose proof (Nat.mod_upper_bound i 4 ltac:(lia)) as Hmod.
    rewrite lookup_app_l by (rewrite length_pixels_of; lia).
    set (q := (i / 4)%nat) in *. set (c := (i mod 4)%nat) in *.
    clearbody q c. subst i.
    rewrite pixels_of_lookup by lia. cbn [pixel_list].
    destruct c as [|[|[|[|c]]]]; try lia; cbn [lookup list_lookup];
      do 2 f_equal; lia. }
  apply (Hrt (fun p => F32.add (F32.mul (F32.sub F32.one fac) (rect1 !!! p))
                         (F32.mul fac (rect2 !!! p)))).
Qed.

Lemma do_cross_effect_float_length (fac : float) (x y : Z)
    (rect1 rect2 out : list float) :
  (4 * (Z.to_nat y * Z.to_nat x) <= length out)%nat ->
  length (do_cross_effect_float fac x y rect1 rect2 out) = length out.
Proof.
  intros Hn. unfold do_cross_effect_float. cbv zeta.
  rewrite pixel_loop_spec by exact Hn.
  rewrite length_app, length_pixels_of, length_drop. lia.
Qed.

(** C2, as amended.  For equally sized inputs the byte cross effect returns
    input 1 at factor 0 and input 2 at factor 1, byte for byte.  The float
    cross effect keeps the size of the output and, at factor 0, writes at a
    channel the bits of input 1 whenever that channel of input 1 is neither
    a NaN nor the negative zero and that channel of input 2 is finite; at
    factor 1 it does so with the inputs exchanged.  The early-out policy of
    the effect answers "use input 1" at factor 0 and "use input 2" at
    factor 1, which hands the chosen input over untouched. *)
Theorem cross_effect_endpoints (x y : Z)
    (b1 b2 bout : list byte) (f1 f2 fout : list float) :
  let n := (4 * (Z.to_nat y * Z.to_nat x))%nat in
  length b1 = n -> length b2 = n -> length bout = n ->
  length f1 = n -> length f2 = n -> length fout = n ->
  (do_cross_effect_byte F32.zero x y b1 b2 bout = b1
   /\ do_cross_effect_byte F32.one x y b1 b2 bout = b2)
  /\ (length (do_cross_effect_float F32.zero x y f1 f2 fout) = n
      /\ forall i, (i < n)%nat ->
           keeps (f1 !!! i) = true -> F32.is_finite (f2 !!! i) = true ->
           do_cross_effect_float F32.zero x y f1 f2 fout !!! i = f1 !!! i)
  /\ (length (do_cross_effect_float F32.one x y f1 f2 fout) = n
      /\ forall i, (i < n)%nat ->
           F32.is_finite (f1 !!! i) = true -> keeps (f2 !!! i) = true ->
           do_cross_effect_float F32.one x y f1 f2 fout !!! i = f2 !!! i)
  /\ (EarlyOut.early_out_result (EarlyOut.early_out_fade F32.zero) b1 b2 = Some b1
      /\ EarlyOut.early_out_result (EarlyOut.early_out_fade F32.one) b1 b2 = Some b2
      /\ EarlyOut.early_out_result (EarlyOut.early_out_fade F32.zero) f1 f2 = Some f1
      /\ EarlyOut.early_out_result (EarlyOut.early_out_fade F32.one) f1 f2 = Some f2).
Proof.
  intros n Hb1 Hb2 Hbo Hf1 Hf2 Hfo. subst n.
  split; [split|split; [split|split; [split|repeat split]]].
  - apply do_cross_effect_byte_zero; congruence.
  - apply do_cross_effect_byte_one; congruence.
  - rewrite do_cross_effect_float_length; lia.
  - intros i Hi Hk Hf.
    rewrite do_cross_effect_float_channel by lia.
    change (F32.sub F32.one F32.zero) with F32.one.
    now apply float_channel_first.
  - rewrite do_cross_effect_float_length; lia.
  - intros i Hi Hf Hk.
    rewrite do_cross_effect_float_channel by lia.
    change (F32.sub F32.one F32.one) with F32.zero.
    now apply float_channel_second.
Qed.

Lemma cross_effect_endpoints_witness :
  (do_cross_effect_byte F32.zero 1 1 sample_bytes1 sample_bytes2 sample_bytes2
   = sample_bytes1
   /\ do_cross_effect_byte F32.one 1 1 sample_bytes1 sample_bytes2 sample_bytes2
      = sample_bytes2)
  /\ do_cross_effect_float F32.zero 1 1 sample_floats1 sample_floats2
       sample_floats2 !!! 1%nat
     = sample_floats1 !!! 1%nat
  /\ do_cross_effect_float F32.one 1 1 sample_floats1 sample_floats2
       sample_floats2 !!! 2%nat
     = sample_floats2 !!! 2%nat.
Proof.
  destruct (cross_effect_endpoints 1 1 sample_bytes1 sample_bytes2 sample_bytes2
              sample_floats1 sample_floats2 sample_floats2
              eq_refl eq_refl eq_refl eq_refl eq_refl eq_refl)
    as (Hb & [_ H0] & [_ H1] & _).
  split; [exact Hb|]. split.
  - apply H0; [vm_compute; lia|vm_compute; reflexivity..].
  - apply H1; [vm_compute; lia|vm_compute; reflexivity..].
Defined.

(** C2 as stated fails on the float path: with the channels of input 2 at
    [1.0f], a channel of input 1 that holds [-0.0f] comes out as [+0.0f] at
    factor 0. *)
Lemma cross_float_negative_zero :
  do_cross_effect_float F32.zero 1 1
    [F32.neg_zero; F32.neg_zero; F32.neg_zero; F32.neg_zero]
    [F32.one; F32.one; F32.one; F32.one]
    [F32.zero; F32.zero; F32.zero; F32.zero]
  = [F32.zero; F32.zero; F32.zero; F32.zero]
  /\ do_cross_effect_float F32.zero 1 1
       [F32.neg_zero; F32.neg_zero; F32.neg_zero; F32.neg_zero]
       [F32.one; F32.one; F32.one; F32.one]
       [F32.zero; F32.zero; F32.zero; F32.zero]
     <> [F32.neg_zero; F32.neg_zero; F32.neg_zero; F32.neg_zero].
Proof. split; [vm_compute; reflexivity | vm_compute; discriminate]. Qed.

End Cross.

(** ** Effect type identifiers

    The enumerators [SEQ_TYPE_*] come from a header that is not among the
    sources at hand, so the embedding takes them as a parameter.  A C++
    [switch] over them is a first-match lookup in the list of its case labels
    (the labels of a [switch] are distinct, or the code would not compile). *)

Record SeqTypeIds : Type := {
  SEQ_TYPE_EFFECT : Z;
  SEQ_TYPE_CROSS : Z;
  SEQ_TYPE_ADD : Z;
  SEQ_TYPE_SUB : Z;
  SEQ_TYPE_ALPHAOVER : Z;
  SEQ_TYPE_ALPHAUNDER : Z;
  SEQ_TYPE_GAMCROSS : Z;
  SEQ_TYPE_MUL : Z;
  SEQ_TYPE_OVERDROP : Z;
  SEQ_TYPE_WIPE : Z;
  SEQ_TYPE_GLOW : Z;
  SEQ_TYPE_TRANSFORM : Z;
  SEQ_TYPE_COLOR : Z;
  SEQ_TYPE_SPEED : Z;
  SEQ_TYPE_MULTICAM : Z;
  SEQ_TYPE_ADJUSTMENT : Z;
  SEQ_TYPE_GAUSSIAN_BLUR : Z;
  SEQ_TYPE_TEXT : Z;
  SEQ_TYPE_COLORMIX : Z;
  SEQ_TYPE_SCREEN : Z;
  SEQ_TYPE_LIGHTEN : Z;
  SEQ_TYPE_DODGE : Z;
  SEQ_TYPE_DARKEN : Z;
  SEQ_TYPE_COLOR_BURN : Z;
  SEQ_TYPE_LINEAR_BURN : Z;
  SEQ_TYPE_OVERLAY : Z;
  SEQ_TYPE_HARD_LIGHT : Z;
  SEQ_TYPE_SOFT_LIGHT : Z;
  SEQ_TYPE_PIN_LIGHT : Z;
  SEQ_TYPE_LIN_LIGHT : Z;
  SEQ_TYPE_VIVID_LIGHT : Z;
  SEQ_TYPE_HUE : Z;
  SEQ_TYPE_SATURATION : Z;
  SEQ_TYPE_VALUE : Z;
  SEQ_TYPE_BLEND_COLOR : Z;
  SEQ_TYPE_DIFFERENCE : Z;
  SEQ_TYPE_EXCLUSION : Z
}.

(** One assignment of the identifiers, used to run the model on examples. *)
Definition sample_ids : SeqTypeIds := {|
  SEQ_TYPE_EFFECT := 8;
  SEQ_TYPE_CROSS := 8; SEQ_TYPE_ADD := 9; SEQ_TYPE_SUB := 10;
  SEQ_TYPE_ALPHAOVER := 11; SEQ_TYPE_ALPHAUNDER := 12;
  SEQ_TYPE_GAMCROSS := 13; SEQ_TYPE_MUL := 14; SEQ_TYPE_OVERDROP := 15;
  SEQ_TYPE_WIPE := 25; SEQ_TYPE_GLOW := 26; SEQ_TYPE_TRANSFORM := 27;
  SEQ_TYPE_COLOR := 28; SEQ_TYPE_SPEED := 29; SEQ_TYPE_MULTICAM := 30;
  SEQ_TYPE_ADJUSTMENT := 31; SEQ_TYPE_GAUSSIAN_BLUR := 40;
  SEQ_TYPE_TEXT := 41; SEQ_TYPE_COLORMIX := 42;
  SEQ_TYPE_SCREEN := 43; SEQ_TYPE_LIGHTEN := 44; SEQ_TYPE_DODGE := 45;
  SEQ_TYPE_DARKEN := 46; SEQ_TYPE_COLOR_BURN := 47;
  SEQ_TYPE_LINEAR_BURN := 48; SEQ_TYPE_OVERLAY := 49;
  SEQ_TYPE_HARD_LIGHT := 50; SEQ_TYPE_SOFT_LIGHT := 51;
  SEQ_TYPE_PIN_LIGHT := 52; SEQ_TYPE_LIN_LIGHT := 53;
  SEQ_TYPE_VIVID_LIGHT := 54; SEQ_TYPE_HUE := 55;
  SEQ_TYPE_SATURATION := 56; SEQ_TYPE_VALUE := 57;
  SEQ_TYPE_BLEND_COLOR := 58; SEQ_TYPE_DIFFERENCE := 59;
  SEQ_TYPE_EXCLUSION := 60
|}.

(** [switch (k) { case l1: r1; ... default: d }] *)
Fixpoint switch {A : Type} (k : Z) (cases : list (Z * A)) (dflt : A) : A :=
  match cases with
  | [] => dflt
  | (l, r) :: rest => if k =? l then r else switch k rest dflt
  end.

Lemma switch_default {A : Type} (k : Z) (cases : list (Z * A)) (dflt : A) :
  Forall (fun c => k <> fst c) cases -> switch k cases dflt = dflt.
Proof.
  induction 1 as [|[l r] rest Hne _ IH]; [reflexivity|].
  cbn in *. destruct (Z.eqb_spec k l); [contradiction|exact IH].
Qed.

Lemma switch_case {A : Type} (k : Z) (cases : list (Z * A)) (dflt : A) :
  In k (map fst cases) -> exists r, In (k, r) cases /\ switch k cases dflt = r.
Proof.
  induction cases as [|[l r] rest IH]; [intros []|].
  cbn. destruct (Z.eqb_spec k l) as [->|Hne].
  - intros _. exists r. auto.
  - intros [Heq|Hin]; [congruence|].
    destruct (IH Hin) as (r' & Hr & Hs). exists r'. auto.
Qed.

(** ** Blend mode effects *)

(** The channel types the effect templates are instantiated at:
    - [scale_channel] is the conversion [T(achannel * fac)] of
      [apply_blend_function];
    - [channel_to_float] is the conversion to [float] done by [float4(ptr)];
    - [channel_of_blur] is the store at the end of a blur pass, the
      [if constexpr] of the template: the accumulated value for [float], and
      the narrowing of [accum + 0.5f] for [uchar]. *)
Class Channel (T : Type) : Type := {
  scale_channel : T -> float -> T;
  channel_to_float : T -> float;
  channel_of_blur : float -> T
}.

#[global] Instance byte_channel : Channel byte :=
  {| scale_channel b fac :=
       int_to_uchar (F32.to_int (F32.mul (F32.of_int (uchar_to_int b)) fac));
     channel_to_float b := F32.of_int (uchar_to_int b);
     channel_of_blur a := int_to_uchar (F32.to_int (F32.add a F32.half)) |}.

#[global] Instance float_channel : Channel float :=
  {| scale_channel a fac := F32.mul a fac;
     channel_to_float a := a;
     channel_of_blur a := a |}.

(** The per-mode blend functions ([blend_color_*_byte], [blend_color_*_float])
    live in a library that is not among the sources at hand: the embedding
    names them and takes their bodies as a parameter, a pure function from
    the two source pixels to the destination pixel. *)
Inductive BlendFn : Type :=
  | blend_color_add | blend_color_sub | blend_color_mul
  | blend_color_darken | blend_color_burn | blend_color_linearburn
  | blend_color_screen | blend_color_lighten | blend_color_dodge
  | blend_color_overlay | blend_color_softlight | blend_color_hardlight
  | blend_color_pinlight | blend_color_linearlight | blend_color_vividlight
  | blend_color_color | blend_color_hue | blend_color_saturation
  | blend_color_luminosity | blend_color_difference | blend_color_exclusion.

Module Blend.

Section Generic.
Context {T : Type} `{!Inhabited T} `{!Channel T}.
Variable ids : SeqTypeIds.
Variable blend_impl : BlendFn -> @pixel T -> @pixel T -> @pixel T.

(** One turn of the pixel loop of [apply_blend_function]; the state is the
    running offset, the second input and the destination. *)
Definition blend_step (fac : float) (src1 : list T)
    (blend_function : @pixel T -> @pixel T -> @pixel T)
    (st : nat * list T * list T) : nat * list T * list T :=
  let '(p, src2, dst) := st in
  let achannel := src2 !!! (p + 3)%nat in
  let src2 := <[(p + 3)%nat := scale_channel achannel fac]> src2 in
  let dst := store4 p (blend_function (load4 src1 p) (load4 src2 p)) dst in
  let src2 := <[(p + 3)%nat := achannel]> src2 in
  let dst := <[(p + 3)%nat := src1 !!! (p + 3)%nat]> dst in
  ((p + 4)%nat, src2, dst).

(** Returns the second input and the destination as the call leaves them. *)
Definition apply_blend_function (fac : float) (width height : Z)
    (src1 src2 dst : list T)
    (blend_function : @pixel T -> @pixel T -> @pixel T) : list T * list T :=
  let '(_, src2, dst) :=
    for_n height (for_n width (blend_step fac src1 blend_function))
      (0%nat, src2, dst) in
  (src2, dst).

Definition blend_cases : list (Z * BlendFn) :=
  [ (SEQ_TYPE_ADD ids, blend_color_add);
    (SEQ_TYPE_SUB ids, blend_color_sub);
    (SEQ_TYPE_MUL ids, blend_color_mul);
    (SEQ_TYPE_DARKEN ids, blend_color_darken);
    (SEQ_TYPE_COLOR_BURN ids, blend_color_burn);
    (SEQ_TYPE_LINEAR_BURN ids, blend_color_linearburn);
    (SEQ_TYPE_SCREEN ids, blend_color_screen);
    (SEQ_TYPE_LIGHTEN ids, blend_color_lighten);
    (SEQ_TYPE_DODGE ids, blend_color_dodge);
    (SEQ_TYPE_OVERLAY ids, blend_color_overlay);
    (SEQ_TYPE_SOFT_LIGHT ids, blend_color_softlight);
    (SEQ_TYPE_HARD_LIGHT ids, blend_color_hardlight);
    (SEQ_TYPE_PIN_LIGHT ids, blend_color_pinlight);
    (SEQ_TYPE_LIN_LIGHT ids, blend_color_linearlight);
    (SEQ_TYPE_VIVID_LIGHT ids, blend_color_vividlight);
    (SEQ_TYPE_BLEND_COLOR ids, blend_color_color);
    (SEQ_TYPE_HUE ids, blend_color_hue);
    (SEQ_TYPE_SATURATION ids, blend_color_saturation);
    (SEQ_TYPE_VALUE ids, blend_color_luminosity);
    (SEQ_TYPE_DIFFERENCE ids, blend_color_difference);
    (SEQ_TYPE_EXCLUSION ids, blend_color_exclusion) ].

(** [do_blend_effect_byte] and [do_blend_effect_float]: the same [switch],
    over the byte and the float variants of the blend functions. *)
Definition do_blend_effect (fac : float) (x y : Z) (rect1 rect2 : list T)
    (btype : Z) (out : list T) : list T * list T :=
  match switch btype (map (fun c => (fst c, Some (snd c))) blend_cases) None with
  | Some f => apply_blend_function fac x y rect1 rect2 out (blend_impl f)
  | None => (rect2, out)
  end.

(** What the loop writes for the pixel at offset [p]: the blend function's
    colour, and the alpha of the first input. *)
Definition blended_pixel (fac : float) (src1 src2 : list T)
    (blend_function : @pixel T -> @pixel T -> @pixel T) (p : nat) : @pixel T :=
  let achannel := src2 !!! (p + 3)%nat in
  let scaled := <[(p + 3)%nat := scale_channel achannel fac]> src2 in
  let '(b0, b1, b2, _) := blend_function (load4 src1 p) (load4 scaled p) in
  (b0, b1, b2, src1 !!! (p + 3)%nat).

Lemma insert_restore (l : list T) (i : nat) (v : T) :
  <[i := l !!! i]> (<[i := v]> l) = l.
Proof.
  destruct (decide (i < length l)%nat) as [Hi|Hi].
  - rewrite list_insert_insert_eq. apply list_insert_id.
    now apply list_lookup_lookup_total_lt.
  - rewrite !list_insert_ge; try reflexivity; try lia.
    rewrite list_insert_ge; lia.
Qed.

Lemma blend_step_pixel fac src1 f p src2 dst :
  blend_step fac src1 f (p, src2, dst)
  = ((p + 4)%nat, src2, store4 p (blended_pixel fac src1 src2 f p) dst).
Proof.
  unfold blend_step, blended_pixel.
  rewrite insert_restore. f_equal.
  destruct (f _ _) as [[[b0 b1] b2] b3]. unfold store4.
  now rewrite list_insert_insert_eq.
Qed.

Lemma blend_iter fac src1 f n src2 dst :
  Nat.iter n (blend_step fac src1 f) (0%nat, src2, dst)
  = (fst (Nat.iter n (pixel_step (blended_pixel fac src1 src2 f)) (0%nat, dst)),
     src2,
     snd (Nat.iter n (pixel_step (blended_pixel fac src1 src2 f)) (0%nat, dst))).
Proof.
  induction n as [|n IH]; [reflexivity|].
  rewrite !Nat.iter_succ, IH.
  destruct (Nat.iter n _ (0%nat, dst)) as [p d]. cbn [fst snd].
  now rewrite blend_step_pixel.
Qed.

Lemma apply_blend_function_spec fac w h src1 src2 dst f :
  apply_blend_function fac w h src1 src2 dst f
  = (src2, pixel_loop w h (blended_pixel fac src1 src2 f) dst).
Proof.
  unfold apply_blend_function, pixel_loop, for_n.
  rewrite !iter_mul, blend_iter. reflexivity.
Qed.

(** [slice_get_byte_buffers] and [slice_get_float_buffers] advance the three
    buffer pointers by [4 * start_line * rectx] channels; the effect then
    runs on what follows, and what precedes is out of its reach. *)
Definition on_slice (rectx start_line : Z)
    (effect : list T -> list T -> list T -> list T * list T)
    (ibuf1 ibuf2 out : list T) : list T * list T :=
  let offset := Z.to_nat (4 * start_line * rectx) in
  let '(rect2, rect_out) :=
    effect (drop offset ibuf1) (drop offset ibuf2) (drop offset out) in
  (take offset ibuf2 ++ rect2, take offset out ++ rect_out).

(** [do_blend_mode_effect] on the buffers of the representation of [out]. *)
Definition do_blend_mode_effect (rectx : Z) (blend_mode : Z) (fac : float)
    (ibuf1 ibuf2 : list T) (start_line total_lines : Z) (out : list T)
  : list T * list T :=
  on_slice rectx start_line
    (fun rect1 rect2 rect_out =>
       do_blend_effect fac rectx total_lines rect1 rect2 blend_mode rect_out)
    ibuf1 ibuf2 out.

(** The parameter block of the colour mix effect. *)
Record ColorMixVars : Type := { blend_effect : Z; factor : float }.

(** [do_colormix_effect]: the strip factor is ignored for the block's own. *)
Definition do_colormix_effect (rectx : Z) (data : ColorMixVars) (fac : float)
    (ibuf1 ibuf2 : list T) (start_line total_lines : Z) (out : list T)
  : list T * list T :=
  let fac := factor data in
  on_slice rectx start_line
    (fun rect1 rect2 rect_out =>
       do_blend_effect fac rectx total_lines rect1 rect2 (blend_effect data)
         rect_out)
    ibuf1 ibuf2 out.

Lemma do_blend_effect_input2 fac x y rect1 rect2 btype out :
  fst (do_blend_effect fac x y rect1 rect2 btype out) = rect2.
Proof.
  unfold do_blend_effect. destruct (switch _ _ _); [|reflexivity].
  now rewrite apply_blend_function_spec.
Qed.

Lemma on_slice_input2 rectx start_line effect ibuf1 ibuf2 out :
  (forall r1 r2 o, fst (effect r1 r2 o) = r2) ->
  fst (on_slice rectx start_line effect ibuf1 ibuf2 out) = ibuf2.
Proof.
  intros He. unfold on_slice.
  specialize (He (drop (Z.to_nat (4 * start_line * rectx)) ibuf1)
                 (drop (Z.to_nat (4 * start_line * rectx)) ibuf2)
                 (drop (Z.to_nat (4 * start_line * rectx)) out)).
  destruct (effect _ _ _) as [r2 o]. cbn in *. subst r2.
  apply take_drop.
Qed.

Lemma do_blend_effect_alpha fac x y rect1 rect2 btype out q :
  In btype (map fst blend_cases) ->
  (4 * (Z.to_nat y * Z.to_nat x) <= length out)%nat ->
  (q < Z.to_nat y * Z.to_nat x)%nat ->
  snd (do_blend_effect fac x y rect1 rect2 btype out) !! (4 * q + 3)%nat
  = Some (rect1 !!! (4 * q + 3)%nat).
Proof.
  intros Hin Hn Hq. unfold do_blend_effect.
  destruct (switch_case btype (map (fun c => (fst c, Some (snd c))) blend_cases)
              None) as (r & Hr & ->).
  { rewrite map_map. exact Hin. }
  apply in_map_iff in Hr as ([l f] & [= _ <-] & _).
  rewrite apply_blend_function_spec. cbn [snd].
  rewrite pixel_loop_alpha by assumption.
  unfold blended_pixel. now destruct (blend_impl _ _ _) as [[[? ?] ?] ?].
Qed.

Lemma on_slice_alpha rectx start_line effect ibuf1 ibuf2 out n q :
  let offset := Z.to_nat (4 * start_line * rectx) in
  (forall r1 r2 o, (4 * n <= length o)%nat ->
     snd (effect r1 r2 o) !! (4 * q + 3)%nat = Some (r1 !!! (4 * q + 3)%nat)) ->
  (offset + 4 * n <= length out)%nat ->
  snd (on_slice rectx start_line effect ibuf1 ibuf2 out)
    !! (offset + (4 * q + 3))%nat
  = Some (ibuf1 !!! (offset + (4 * q + 3))%nat).
Proof.
  intros offset He Hn. unfold on_slice. fold offset.
  specialize (He (drop offset ibuf1) (drop offset ibuf2) (drop offset out)).
  destruct (effect _ _ _) as [r2 o]. cbn [snd] in *.
  rewrite lookup_app_r by (rewrite length_take; lia).
  rewrite length_take, Nat.min_l by lia.
  replace (offset + (4 * q + 3) - offset)%nat with (4 * q + 3)%nat by lia.
  rewrite He by (rewrite length_drop; lia).
  now rewrite lookup_total_drop.
Qed.

End Generic.

Definition do_blend_effect_byte ids impl :=
  do_blend_effect (T := byte) ids impl.
Definition do_blend_effect_float ids impl :=
  do_blend_effect (T := float) ids impl.

End Blend.

(** ** Colour add and subtract effects *)

Module AddSub.

(** [max_ff] of the maths library: [(a > b) ? a : b]. *)
Definition max_ff (a b : float) : float := if F32.ltb b a then a else b.

Definition do_add_effect_byte (fac : float) (x y : Z)
    (rect1 rect2 out : list byte) : list byte :=
  let temp_fac := F32.to_int (F32.mul (F32.of_int 256) fac) in
  let rt (p : nat) (c : nat) : byte :=
    let temp_fac2 := temp_fac * uchar_to_int (rect2 !!! (p + 3)%nat) in
    int_to_uchar
      (Z.min (uchar_to_int (rect1 !!! (p + c)%nat)
              + Z.shiftr (temp_fac2 * uchar_to_int (rect2 !!! (p + c)%nat)) 16)
             255) in
  pixel_loop x y
    (fun p => (rt p 0%nat, rt p 1%nat, rt p 2%nat, rect1 !!! (p + 3)%nat)) out.

Definition do_add_effect_float (fac : float) (x y : Z)
    (rect1 rect2 out : list float) : list float :=
  let rt (p : nat) (c : nat) : float :=
    let temp_fac :=
      F32.mul (F32.sub F32.one
                 (F32.mul (rect1 !!! (p + 3)%nat) (F32.sub F32.one fac)))
              (rect2 !!! (p + 3)%nat) in
    F32.add (rect1 !!! (p + c)%nat) (F32.mul temp_fac (rect2 !!! (p + c)%nat)) in
  pixel_loop x y
    (fun p => (rt p 0%nat, rt p 1%nat, rt p 2%nat, rect1 !!! (p + 3)%nat)) out.

Definition do_sub_effect_byte (fac : float) (x y : Z)
    (rect1 rect2 out : list byte) : list byte :=
  let temp_fac := F32.to_int (F32.mul (F32.of_int 256) fac) in
  let rt (p : nat) (c : nat) : byte :=
    let temp_fac2 := temp_fac * uchar_to_int (rect2 !!! (p + 3)%nat) in
    int_to_uchar
      (Z.max (uchar_to_int (rect1 !!! (p + c)%nat)
              - Z.shiftr (temp_fac2 * uchar_to_int (rect2 !!! (p + c)%nat)) 16)
             0) in
  pixel_loop x y
    (fun p => (rt p 0%nat, rt p 1%nat, rt p 2%nat, rect1 !!! (p + 3)%nat)) out.

Definition do_sub_effect_float (fac : float) (x y : Z)
    (rect1 rect2 out : list float) : list float :=
  let mfac := F32.sub F32.one fac in
  let rt (p : nat) (c : nat) : float :=
    let temp_fac :=
      F32.mul (F32.sub F32.one (F32.mul (rect1 !!! (p + 3)%nat) mfac))
              (rect2 !!! (p + 3)%nat) in
    max_ff (F32.sub (rect1 !!! (p + c)%nat)
              (F32.mul temp_fac (rect2 !!! (p + c)%nat)))
           F32.zero in
  pixel_loop x y
    (fun p => (rt p 0%nat, rt p 1%nat, rt p 2%nat, rect1 !!! (p + 3)%nat)) out.

Example add_byte_full :
  do_add_effect_byte F32.one 1 1
    ["010"; "020"; "250"; "077"]%byte ["100"; "000"; "100"; "255"]%byte
    ["000"; "000"; "000"; "000"]%byte
  = ["109"; "020"; "255"; "077"]%byte.
Proof. vm_compute. reflexivity. Qed.

Example sub_byte_full :
  do_sub_effect_byte F32.one 1 1
    ["010"; "020"; "250"; "077"]%byte ["100"; "000"; "100"; "255"]%byte
    ["000"; "000"; "000"; "000"]%byte
  = ["000"; "020"; "151"; "077"]%byte.
Proof. vm_compute. reflexivity. Qed.

End AddSub.

(** ** Blend effects: what happens to the inputs and to alpha *)

Module BlendFacts.

Import Blend.

(** C3.  Whatever the blend mode, the factor, the slice and the blend
    functions, a blend-mode or colour-mix execution hands back the second
    input exactly as it received it, on the byte and on the float path: every
    turn of the pixel loop leaves the buffer as it found it, the alpha it
    scaled for the blend function being written back. *)
Theorem blend_effects_restore_input2 (ids : SeqTypeIds)
    (impl_byte : BlendFn -> @pixel byte -> @pixel byte -> @pixel byte)
    (impl_float : BlendFn -> @pixel float -> @pixel float -> @pixel float)
    (fac : float) (rectx blend_mode start_line total_lines : Z)
    (data : ColorMixVars)
    (b1 b2 bout : list byte) (f1 f2 fout : list float) :
  fst (do_blend_mode_effect ids impl_byte rectx blend_mode fac b1 b2
         start_line total_lines bout) = b2
  /\ fst (do_blend_mode_effect ids impl_float rectx blend_mode fac f1 f2
            start_line total_lines fout) = f2
  /\ fst (do_colormix_effect ids impl_byte rectx data fac b1 b2
            start_line total_lines bout) = b2
  /\ fst (do_colormix_effect ids impl_float rectx data fac f1 f2
            start_line total_lines fout) = f2
  /\ (forall fn p src2 dst,
        snd (fst (blend_step fac b1 (impl_byte fn) (p, src2, dst))) = src2)
  /\ (forall fn p src2 dst,
        snd (fst (blend_step fac f1 (impl_float fn) (p, src2, dst))) = src2).
Proof.
  repeat split.
  - apply on_slice_input2. intros. apply do_blend_effect_input2.
  - apply on_slice_input2. intros. apply do_blend_effect_input2.
  - apply on_slice_input2. intros. apply do_blend_effect_input2.
  - apply on_slice_input2. intros. apply do_blend_effect_input2.
  - intros. now rewrite blend_step_pixel.
  - intros. now rewrite blend_step_pixel.
Qed.

(** C10.  For every pixel [q] of the processed slice, every registered blend
    mode and every factor, the blend-mode and colour-mix effects, and the add
    and subtract effects, store the alpha of input 1 in the alpha channel of
    the output pixel, on the byte and on the float path; the alpha computed
    by the blend function is overwritten. *)
Theorem blend_effects_keep_alpha (ids : SeqTypeIds)
    (impl_byte : BlendFn -> @pixel byte -> @pixel byte -> @pixel byte)
    (impl_float : BlendFn -> @pixel float -> @pixel float -> @pixel float)
    (fac : float) (rectx blend_mode start_line total_lines : Z)
    (data : ColorMixVars)
    (b1 b2 bout : list byte) (f1 f2 fout : list float) (q : nat) :
  let offset := Z.to_nat (4 * start_line * rectx) in
  let n := (Z.to_nat total_lines * Z.to_nat rectx)%nat in
  (q < n)%nat ->
  In blend_mode (map fst (blend_cases ids)) ->
  In (blend_effect data) (map fst (blend_cases ids)) ->
  (offset + 4 * n <= length bout)%nat ->
  (offset + 4 * n <= length fout)%nat ->
  snd (do_blend_mode_effect ids impl_byte rectx blend_mode fac b1 b2
         start_line total_lines bout) !! (offset + (4 * q + 3))%nat
  = Some (b1 !!! (offset + (4 * q + 3))%nat)
  /\ snd (do_blend_mode_effect ids impl_float rectx blend_mode fac f1 f2
            start_line total_lines fout) !! (offset + (4 * q + 3))%nat
     = Some (f1 !!! (offset + (4 * q + 3))%nat)
  /\ snd (do_colormix_effect ids impl_byte rectx data fac b1 b2
            start_line total_lines bout) !! (offset + (4 * q + 3))%nat
     = Some (b1 !!! (offset + (4 * q + 3))%nat)
  /\ snd (do_colormix_effect ids impl_float rectx data fac f1 f2
            start_line total_lines fout) !! (offset + (4 * q + 3))%nat
     = Some (f1 !!! (offset + (4 * q + 3))%nat)
  /\ AddSub.do_add_effect_byte fac rectx total_lines b1 b2 bout
       !! (4 * q + 3)%nat = Some (b1 !!! (4 * q + 3)%nat)
  /\ AddSub.do_add_effect_float fac rectx total_lines f1 f2 fout
       !! (4 * q + 3)%nat = Some (f1 !!! (4 * q + 3)%nat)
  /\ AddSub.do_sub_effect_byte fac rectx total_lines b1 b2 bout
       !! (4 * q + 3)%nat = Some (b1 !!! (4 * q + 3)%nat)
  /\ AddSub.do_sub_effect_float fac rectx total_lines f1 f2 fout
       !! (4 * q + 3)%nat = Some (f1 !!! (4 * q + 3)%nat).
Proof.
  intros offset n Hq Hmode Hmix Hb Hf.
  repeat split.
  - apply (on_slice_alpha _ _ _ _ _ _ n); [|exact Hb].
    intros. now apply do_blend_effect_alpha.
  - apply (on_slice_alpha _ _ _ _ _ _ n); [|exact Hf].
    intros. now apply do_blend_effect_alpha.
  - apply (on_slice_alpha _ _ _ _ _ _ n); [|exact Hb].
    intros. now apply do_blend_effect_alpha.
  - apply (on_slice_alpha _ _ _ _ _ _ n); [|exact Hf].
    intros. now apply do_blend_effect_alpha.
  - unfold AddSub.do_add_effect_byte.
    rewrite pixel_loop_alpha by (fold n; lia). reflexivity.
  - unfold AddSub.do_add_effect_float.
    rewrite pixel_loop_alpha by (fold n; lia). reflexivity.
  - unfold AddSub.do_sub_effect_byte.
    rewrite pixel_loop_alpha by (fold n; lia). reflexivity.
  - unfold AddSub.do_sub_effect_float.
    rewrite pixel_loop_alpha by (fold n; lia). reflexivity.
Qed.

(** A stand-in for the blend functions in the examples: the second source
    pixel, whose alpha is the scaled one. *)
Definition sample_blend {T : Type} (fn : BlendFn) (src1 src2 : @pixel T)
  : @pixel T := src2.

Lemma blend_effects_keep_alpha_witness :
  let data := {| blend_effect := 49; factor := F32.one |} in
  snd (do_blend_mode_effect sample_ids sample_blend 1 9 F32.half
         sample_bytes1 sample_bytes2 0 1 sample_bytes2) !! 3%nat
  = Some ("255"%byte)
  /\ snd (do_colormix_effect sample_ids sample_blend 1 data F32.half
            sample_floats1 sample_floats2 0 1 sample_floats2) !! 3%nat
     = Some F32.one
  /\ AddSub.do_sub_effect_float F32.half 1 1 sample_floats1 sample_floats2
       sample_floats2 !! 3%nat = Some F32.one.
Proof.
  intros data.
  destruct (blend_effects_keep_alpha sample_ids sample_blend sample_blend
              F32.half 1 9 0 1 data
              sample_bytes1 sample_bytes2 sample_bytes2
              sample_floats1 sample_floats2 sample_floats2 0%nat)
    as (H1 & _ & _ & H4 & _ & _ & _ & H8).
  - vm_compute. lia.
  - cbn. lia.
  - cbn. lia.
  - vm_compute. lia.
  - vm_compute. lia.
  - split; [exact H1 | split; [exact H4 | exact H8]].
Defined.

End BlendFacts.

(** ** Effect registry *)

Module Registry.

(** The functions a handle can point to, by signature. *)
Inductive InitFn : Type :=
  | init_noop | init_colormix_effect | init_alpha_over_or_under
  | init_wipe_effect | init_glow_effect | init_transform_effect
  | init_speed_effect | init_solid_color | init_gaussian_blur_effect
  | init_text_effect.

Inductive NumInputsFn : Type :=
  | num_inputs_default | num_inputs_wipe | num_inputs_transform
  | num_inputs_glow | num_inputs_color | num_inputs_multicam
  | num_inputs_adjustment | num_inputs_speed | num_inputs_gaussian_blur
  | num_inputs_text.

Inductive LoadFn : Type := load_noop | load_speed_effect | load_text_effect.

Inductive FreeFn : Type :=
  | free_noop | free_effect_default | free_wipe_effect | free_glow_effect
  | free_transform_effect | free_speed_effect | free_solid_color
  | free_gaussian_blur_effect | free_text_effect.

Inductive CopyFn : Type :=
  | copy_effect_default | copy_wipe_effect | copy_glow_effect
  | copy_transform_effect | copy_speed_effect | copy_solid_color
  | copy_gaussian_blur_effect | copy_text_effect.

Inductive EarlyOutFn : Type :=
  | early_out_noop | early_out_fade | early_out_mul_input2
  | early_out_mul_input1 | early_out_speed | early_out_color
  | early_out_multicam | early_out_adjustment | early_out_gaussian_blur
  | early_out_text.

Inductive DefaultFacFn : Type := get_default_fac_noop | get_default_fac_fade.

Inductive ExecuteFn : Type :=
  | do_wipe_effect | do_glow_effect | do_speed_effect | do_solid_color
  | do_multicam | do_adjustment | do_gaussian_blur_effect | do_text_effect.

Inductive ExecuteSliceFn : Type :=
  | do_cross_effect | do_gammacross_effect | do_add_effect | do_sub_effect
  | do_mul_effect | do_blend_mode_effect | do_colormix_effect
  | do_alphaover_effect | do_overdrop_effect | do_alphaunder_effect
  | do_transform_effect.

(** The function [init_execution]; the field of the same name holds it. *)
Inductive InitExecutionFn : Type := fn_init_execution.

(** A handle; [None] is the null function pointer. *)
Record SeqEffectHandle : Type := {
  multithreaded : bool;
  supports_mask : bool;
  init : option InitFn;
  num_inputs : option NumInputsFn;
  load : option LoadFn;
  free : option FreeFn;
  early_out : option EarlyOutFn;
  get_default_fac : option DefaultFacFn;
  execute : option ExecuteFn;
  init_execution : option InitExecutionFn;
  execute_slice : option ExecuteSliceFn;
  copy : option CopyFn
}.

(** Field assignments [rval.f = v]. *)
Definition set_multithreaded v h :=
  {| multithreaded := v; supports_mask := supports_mask h; init := init h;
     num_inputs := num_inputs h; load := load h; free := free h;
     early_out := early_out h; get_default_fac := get_default_fac h;
     execute := execute h; init_execution := init_execution h;
     execute_slice := execute_slice h; copy := copy h |}.
Definition set_supports_mask v h :=
  {| multithreaded := multithreaded h; supports_mask := v; init := init h;
     num_inputs := num_inputs h; load := load h; free := free h;
     early_out := early_out h; get_default_fac := get_default_fac h;
     execute := execute h; init_execution := init_execution h;
     execute_slice := execute_slice h; copy := copy h |}.
Definition set_init v h :=
  {| multithreaded := multithreaded h; supports_mask := supports_mask h;
     init := Some v; num_inputs := num_inputs h; load := load h; free := free h;
     early_out := early_out h; get_default_fac := get_default_fac h;
     execute := execute h; init_execution := init_execution h;
     execute_slice := execute_slice h; copy := copy h |}.
Definition set_num_inputs v h :=
  {| multithreaded := multithreaded h; supports_mask := supports_mask h;
     init := init h; num_inputs := Some v; load := load h; free := free h;
     early_out := early_out h; get_default_fac := get_default_fac h;
     execute := execute h; init_execution := init_execution h;
     execute_slice := execute_slice h; copy := copy h |}.
Definition set_load v h :=
  {| multithreaded := multithreaded h; supports_mask := supports_mask h;
     init := init h; num_inputs := num_inputs h; load := Some v; free := free h;
     early_out := early_out h; get_default_fac := get_default_fac h;
     execute := execute h; init_execution := init_execution h;
     execute_slice := execute_slice h; copy := copy h |}.
Definition set_free v h :=
  {| multithreaded := multithreaded h; supports_mask := supports_mask h;
     init := init h; num_inputs := num_inputs h; load := load h; free := Some v;
     early_out := early_out h; get_default_fac := get_default_fac h;
     execute := execute h; init_execution := init_execution h;
     execute_slice := execute_slice h; copy := copy h |}.
Definition set_early_out v h :=
  {| multithreaded := multithreaded h; supports_mask := supports_mask h;
     init := init h; num_inputs := num_inputs h; load := load h; free := free h;
     early_out := Some v; get_default_fac := get_default_fac h;
     execute := execute h; init_execution := init_execution h;
     execute_slice := execute_slice h; copy := copy h |}.
Definition set_get_default_fac v h :=
  {| multithreaded := multithreaded h; supports_mask := supports_mask h;
     init := init h; num_inputs := num_inputs h; load := load h; free := free h;
     early_out := early_out h; get_default_fac := Some v;
     execute := execute h; init_execution := init_execution h;
     execute_slice := execute_slice h; copy := copy h |}.
Definition set_execute v h :=
  {| multithreaded := multithreaded h; supports_mask := supports_mask h;
     init := init h; num_inputs := num_inputs h; load := load h; free := free h;
     early_out := early_out h; get_default_fac := get_default_fac h;
     execute := Some v; init_execution := init_execution h;
     execute_slice := execute_slice h; copy := copy h |}.
Definition set_execute_slice v h :=
  {| multithreaded := multithreaded h; supports_mask := supports_mask h;
     init := init h; num_inputs := num_inputs h; load := load h; free := free h;
     early_out := early_out h; get_default_fac := get_default_fac h;
     execute := execute h; init_execution := init_execution h;
     execute_slice := Some v; copy := copy h |}.
Definition set_copy v h :=
  {| multithreaded := multithreaded h; supports_mask := supports_mask h;
     init := init h; num_inputs := num_inputs h; load := load h; free := free h;
     early_out := early_out h; get_default_fac := get_default_fac h;
     execute := execute h; init_execution := init_execution h;
     execute_slice := execute_slice h; copy := Some v |}.

(** A case body: its assignments, applied in the order of the source. *)
Definition assign (fs : list (SeqEffectHandle -> SeqEffectHandle))
    (h : SeqEffectHandle) : SeqEffectHandle :=
  fold_left (fun h f => f h) fs h.

(** The values [rval] holds before the [switch]. *)
Definition default_handle : SeqEffectHandle :=
  {| multithreaded := false; supports_mask := false;
     init := Some init_noop; num_inputs := Some num_inputs_default;
     load := Some load_noop; free := Some free_noop;
     early_out := Some early_out_noop;
     get_default_fac := Some get_default_fac_noop;
     execute := None; init_execution := Some fn_init_execution;
     execute_slice := None; copy := None |}.

Section Impl.
Variable ids : SeqTypeIds.

Definition blend_mode_case : list (SeqEffectHandle -> SeqEffectHandle) :=
  [ set_multithreaded true; set_execute_slice do_blend_mode_effect;
    set_early_out early_out_mul_input2 ].

Definition effect_cases
  : list (Z * list (SeqEffectHandle -> SeqEffectHandle)) :=
  [ (SEQ_TYPE_CROSS ids,
     [ set_multithreaded true; set_execute_slice do_cross_effect;
       set_early_out early_out_fade; set_get_default_fac get_default_fac_fade ]);
    (SEQ_TYPE_GAMCROSS ids,
     [ set_multithreaded true; set_early_out early_out_fade;
       set_get_default_fac get_default_fac_fade;
       set_execute_slice do_gammacross_effect ]);
    (SEQ_TYPE_ADD ids,
     [ set_multithreaded true; set_execute_slice do_add_effect;
       set_early_out early_out_mul_input2 ]);
    (SEQ_TYPE_SUB ids,
     [ set_multithreaded true; set_execute_slice do_sub_effect;
       set_early_out early_out_mul_input2 ]);
    (SEQ_TYPE_MUL ids,
     [ set_multithreaded true; set_execute_slice do_mul_effect;
       set_early_out early_out_mul_input2 ]);
    (SEQ_TYPE_SCREEN ids, blend_mode_case);
    (SEQ_TYPE_OVERLAY ids, blend_mode_case);
    (SEQ_TYPE_COLOR_BURN ids, blend_mode_case);
    (SEQ_TYPE_LINEAR_BURN ids, blend_mode_case);
    (SEQ_TYPE_DARKEN ids, blend_mode_case);
    (SEQ_TYPE_LIGHTEN ids, blend_mode_case);
    (SEQ_TYPE_DODGE ids, blend_mode_case);
    (SEQ_TYPE_SOFT_LIGHT ids, blend_mode_case);
    (SEQ_TYPE_HARD_LIGHT ids, blend_mode_case);
    (SEQ_TYPE_PIN_LIGHT ids, blend_mode_case);
    (SEQ_TYPE_LIN_LIGHT ids, blend_mode_case);
    (SEQ_TYPE_VIVID_LIGHT ids, blend_mode_case);
    (SEQ_TYPE_BLEND_COLOR ids, blend_mode_case);
    (SEQ_TYPE_HUE ids, blend_mode_case);
    (SEQ_TYPE_SATURATION ids, blend_mode_case);
    (SEQ_TYPE_VALUE ids, blend_mode_case);
    (SEQ_TYPE_DIFFERENCE ids, blend_mode_case);
    (SEQ_TYPE_EXCLUSION ids, blend_mode_case);
    (SEQ_TYPE_COLORMIX ids,
     [ set_multithreaded true; set_init init_colormix_effect;
       set_free free_effect_default; set_copy copy_effect_default;
       set_execute_slice do_colormix_effect;
       set_early_out early_out_mul_input2 ]);
    (SEQ_TYPE_ALPHAOVER ids,
     [ set_multithreaded true; set_init init_alpha_over_or_under;
       set_execute_slice do_alphaover_effect;
       set_early_out early_out_mul_input1 ]);
    (SEQ_TYPE_OVERDROP ids,
     [ set_multithreaded true; set_execute_slice do_overdrop_effect ]);
    (SEQ_TYPE_ALPHAUNDER ids,
     [ set_multithreaded true; set_init init_alpha_over_or_under;
       set_execute_slice do_alphaunder_effect ]);
    (SEQ_TYPE_WIPE ids,
     [ set_init init_wipe_effect; set_num_inputs num_inputs_wipe;
       set_free free_wipe_effect; set_copy copy_wipe_effect;
       set_early_out early_out_fade; set_get_default_fac get_default_fac_fade;
       set_execute do_wipe_effect ]);
    (SEQ_TYPE_GLOW ids,
     [ set_init init_glow_effect; set_num_inputs num_inputs_glow;
       set_free free_glow_effect; set_copy copy_glow_effect;
       set_execute do_glow_effect ]);
    (SEQ_TYPE_TRANSFORM ids,
     [ set_multithreaded true; set_init init_transform_effect;
       set_num_inputs num_inputs_transform; set_free free_transform_effect;
       set_copy copy_transform_effect;
       set_execute_slice do_transform_effect ]);
    (SEQ_TYPE_SPEED ids,
     [ set_init init_speed_effect; set_num_inputs num_inputs_speed;
       set_load load_speed_effect; set_free free_speed_effect;
       set_copy copy_speed_effect; set_execute do_speed_effect;
       set_early_out early_out_speed ]);
    (SEQ_TYPE_COLOR ids,
     [ set_init init_solid_color; set_num_inputs num_inputs_color;
       set_early_out early_out_color; set_free free_solid_color;
       set_copy copy_solid_color; set_execute do_solid_color ]);
    (SEQ_TYPE_MULTICAM ids,
     [ set_num_inputs num_inputs_multicam; set_early_out early_out_multicam;
       set_execute do_multicam ]);
    (SEQ_TYPE_ADJUSTMENT ids,
     [ set_supports_mask true; set_num_inputs num_inputs_adjustment;
       set_early_out early_out_adjustment; set_execute do_adjustment ]);
    (SEQ_TYPE_GAUSSIAN_BLUR ids,
     [ set_init init_gaussian_blur_effect;
       set_num_inputs num_inputs_gaussian_blur;
       set_free free_gaussian_blur_effect; set_copy copy_gaussian_blur_effect;
       set_early_out early_out_gaussian_blur;
       set_execute do_gaussian_blur_effect ]);
    (SEQ_TYPE_TEXT ids,
     [ set_num_inputs num_inputs_text; set_init init_text_effect;
       set_free free_text_effect; set_load load_text_effect;
       set_copy copy_text_effect; set_early_out early_out_text;
       set_execute do_text_effect ]) ].

(** The case labels: the registered effect types. *)
Definition registered_types : list Z := map fst effect_cases.

Definition get_sequence_effect_impl (seq_type : Z) : SeqEffectHandle :=
  let rval := default_handle in
  assign (switch seq_type effect_cases []) rval.

(** A pointer in a condition. *)
Definition non_null {A : Type} (p : option A) : bool :=
  match p with Some _ => true | None => false end.

(** The result of calling a [num_inputs] function. *)
Definition call_num_inputs (f : NumInputsFn) : Z :=
  match f with
  | num_inputs_default | num_inputs_wipe => 2
  | num_inputs_transform | num_inputs_glow | num_inputs_speed
  | num_inputs_gaussian_blur => 1
  | num_inputs_color | num_inputs_multicam | num_inputs_adjustment
  | num_inputs_text => 0
  end.

(** The call through a null pointer is undefined; no handle built above has
    a null [num_inputs]. *)
Definition SEQ_effect_get_num_inputs (seq_type : Z) : Z :=
  let rval := get_sequence_effect_impl seq_type in
  let count := from_option call_num_inputs 0 (num_inputs rval) in
  if non_null (execute rval) || (non_null (execute_slice rval)
                                 && non_null (init_execution rval))
  then count else 0.

End Impl.

Example num_inputs_cross : SEQ_effect_get_num_inputs sample_ids 8 = 2.
Proof. reflexivity. Qed.

Example num_inputs_glow_is_one : SEQ_effect_get_num_inputs sample_ids 26 = 1.
Proof. reflexivity. Qed.

Example text_handle :
  execute (get_sequence_effect_impl sample_ids 41) = Some do_text_effect
  /\ execute_slice (get_sequence_effect_impl sample_ids 41) = None.
Proof. split; reflexivity. Qed.

(** C4.  For an effect type identifier that is none of the case labels of the
    registry, the handle has a null whole-image executor and a null slice
    executor, and the number of inputs reported for the type is 0. *)
Theorem unregistered_type_has_no_executor (ids : SeqTypeIds) (seq_type : Z) :
  ~ In seq_type (registered_types ids) ->
  execute (get_sequence_effect_impl ids seq_type) = None
  /\ execute_slice (get_sequence_effect_impl ids seq_type) = None
  /\ SEQ_effect_get_num_inputs ids seq_type = 0.
Proof.
  intros Hnot.
  assert (Hd : get_sequence_effect_impl ids seq_type = default_handle).
  { unfold get_sequence_effect_impl. rewrite switch_default; [reflexivity|].
    apply Forall_forall. intros c Hc Heq. apply Hnot.
    unfold registered_types. subst seq_type. apply in_map.
    now apply list_elem_of_In. }
  unfold SEQ_effect_get_num_inputs. rewrite Hd. repeat split.
Qed.

Lemma unregistered_type_has_no_executor_witness :
  execute (get_sequence_effect_impl sample_ids 3) = None
  /\ execute_slice (get_sequence_effect_impl sample_ids 3) = None
  /\ SEQ_effect_get_num_inputs sample_ids 3 = 0.
Proof.
  apply (unregistered_type_has_no_executor sample_ids 3).
  vm_compute. lia.
Defined.

End Registry.

(** ** Gaussian blur passes *)

(** [for (i = lo; i < lo + n; i++)] *)
Definition Zrange (lo n : Z) : list Z :=
  map (fun i => lo + Z.of_nat i) (seq 0 (Z.to_nat n)).

Lemma seq_from (a n : nat) : seq a n = map (fun q => (a + q)%nat) (seq 0 n).
Proof.
  induction n as [|n IH]; [reflexivity|].
  now rewrite !seq_S, map_app, IH.
Qed.

Lemma flat_map_ext_in {A B : Type} (f g : A -> list B) (l : list A) :
  (forall a, In a l -> f a = g a) -> flat_map f l = flat_map g l.
Proof.
  induction l as [|a l IH]; intros He; [reflexivity|].
  cbn. rewrite He by (now left). f_equal. apply IH.
  intros b Hb. apply He. now right.
Qed.

Module Blur.

Definition float4 : Type := float * float * float * float.

Definition f4_zero : float4 := (F32.zero, F32.zero, F32.zero, F32.zero).

Definition f4_add (a b : float4) : float4 :=
  let '(a0, a1, a2, a3) := a in
  let '(b0, b1, b2, b3) := b in
  (F32.add a0 b0, F32.add a1 b1, F32.add a2 b2, F32.add a3 b3).

Definition f4_scale (a : float4) (w : float) : float4 :=
  let '(a0, a1, a2, a3) := a in
  (F32.mul a0 w, F32.mul a1 w, F32.mul a2 w, F32.mul a3 w).

Section Generic.
Context {T : Type} `{!Inhabited T} `{!Channel T}.

(** [float4(rect + offset)] *)
Definition load_float4 (rect : list T) (offset : Z) : float4 :=
  let p := Z.to_nat offset in
  (channel_to_float (rect !!! p), channel_to_float (rect !!! (p + 1)%nat),
   channel_to_float (rect !!! (p + 2)%nat),
   channel_to_float (rect !!! (p + 3)%nat)).

Definition blur_store (accum : float4) : @pixel T :=
  let '(a0, a1, a2, a3) := accum in
  (channel_of_blur a0, channel_of_blur a1, channel_of_blur a2,
   channel_of_blur a3).

(** The weighted sum over the kernel window [lo .. hi] around position [at],
    normalised by the weight that fell inside the image; [offset_of] is the
    channel offset of a sample. *)
Definition blur_window (gaussian : list float) (half_size at_ lo hi : Z)
    (offset_of : Z -> Z) (rect : list T) : float4 :=
  let '(accum, accum_weight, _) :=
    fold_left
      (fun '(accum, accum_weight, index) n =>
         let weight := gaussian !!! Z.to_nat index in
         let offset := offset_of n in
         (f4_add accum (f4_scale (load_float4 rect offset) weight),
          F32.add accum_weight weight,
          index + 1))
      (Zrange lo (hi - lo + 1))
      (f4_zero, F32.zero, (lo - at_) + half_size) in
  f4_scale accum (F32.div F32.one accum_weight).

Definition blur_x_pixel (gaussian : list float) (half_size width : Z)
    (rect : list T) (x y : Z) : @pixel T :=
  let xmin := Z.max (x - half_size) 0 in
  let xmax := Z.min (x + half_size) (width - 1) in
  blur_store
    (blur_window gaussian half_size x xmin xmax
       (fun nx => (y * width + nx) * 4) rect).

Definition blur_y_pixel (gaussian : list float)
    (half_size width frame_height : Z) (rect : list T) (x y : Z) : @pixel T :=
  let ymin := Z.max (y - half_size) 0 in
  let ymax := Z.min (y + half_size) (frame_height - 1) in
  blur_store
    (blur_window gaussian half_size y ymin ymax
       (fun ny => (ny * width + x) * 4) rect).

(** The two loops over the rows of the slice and the columns, the
    destination pointer advancing by one pixel per turn. *)
Definition blur_rows (pixel_at : Z -> Z -> @pixel T)
    (start_line width height : Z) (dst : list T) : list T :=
  snd (fold_left
         (fun st y =>
            fold_left
              (fun (st : nat * list T) x =>
                 let '(p, dst) := st in
                 ((p + 4)%nat, store4 p (pixel_at x y) dst))
              (Zrange 0 width) st)
         (Zrange start_line height)
         (Z.to_nat (start_line * width * 4), dst)).

Definition gaussian_blur_x (gaussian : list float)
    (half_size start_line width height frame_height : Z)
    (rect dst : list T) : list T :=
  blur_rows (blur_x_pixel gaussian half_size width rect)
    start_line width height dst.

Definition gaussian_blur_y (gaussian : list float)
    (half_size start_line width height frame_height : Z)
    (rect dst : list T) : list T :=
  blur_rows (blur_y_pixel gaussian half_size width frame_height rect)
    start_line width height dst.

End Generic.

(** A 3-tap box kernel over a row of two grey byte pixels. *)
Example blur_x_two_pixels :
  gaussian_blur_x
    [F32.div F32.one (F32.of_int 3); F32.div F32.one (F32.of_int 3);
     F32.div F32.one (F32.of_int 3)] 1 0 2 1 1
    ["010"; "010"; "010"; "255"; "030"; "030"; "030"; "255"]%byte
    ["000"; "000"; "000"; "000"; "000"; "000"; "000"; "000"]%byte
  = ["020"; "020"; "020"; "255"; "020"; "020"; "020"; "255"]%byte.
Proof. vm_compute. reflexivity. Qed.

End Blur.

Module BlurFacts.

Import Blur.

Section Runs.
Context {T : Type} `{!Inhabited T}.

(** Writing a run of pixels through an advancing pointer. *)
Lemma write_run {A : Type} (f : A -> @pixel T) (l : list A) (p : nat)
    (dst : list T) :
  (p + 4 * length l <= length dst)%nat ->
  fold_left (fun (st : nat * list T) a =>
               let '(p, dst) := st in ((p + 4)%nat, store4 p (f a) dst))
    l (p, dst)
  = ((p + 4 * length l)%nat,
     take p dst ++ flat_map (fun a => pixel_list (f a)) l
       ++ drop (p + 4 * length l) dst).
Proof.
  revert p dst. induction l as [|a l IH]; intros p dst Hlen.
  - cbn. rewrite Nat.add_0_r, take_drop. reflexivity.
  - cbn [fold_left length flat_map] in *.
    assert (Hst : store4 p (f a) dst
                  = take p dst ++ pixel_list (f a) ++ drop (p + 4) dst).
    { rewrite <- (take_drop p dst) at 1.
      assert (Hp : length (take p dst) = p) by (rewrite length_take; lia).
      rewrite <- Hp at 1. rewrite store4_app by (rewrite length_drop; lia).
      now rewrite drop_drop. }
    rewrite Hst, IH.
    2:{ rewrite !length_app, length_take, length_drop.
        destruct (f a) as [[[? ?] ?] ?]. cbn. lia. }
    assert (Hv : length (pixel_list (f a)) = 4%nat)
      by (now destruct (f a) as [[[? ?] ?] ?]).
    f_equal; [lia|].
    assert (Hp : length (take p dst ++ pixel_list (f a)) = (p + 4)%nat)
      by (rewrite length_app, length_take; lia).
    rewrite (app_assoc (take p dst) (pixel_list (f a))).
    rewrite <- Hp at 1. rewrite take_app_length.
    rewrite drop_app_ge by lia. rewrite Hp, drop_drop, <- !app_assoc.
    do 4 f_equal. lia.
Qed.

Lemma fold_rows {A B St : Type} (step : St -> A -> B -> St) (xs : list A)
    (ys : list B) (st : St) :
  fold_left (fun st y => fold_left (fun st x => step st x y) xs st) ys st
  = fold_left (fun st c => step st (fst c) (snd c))
      (flat_map (fun y => map (fun x => (x, y)) xs) ys) st.
Proof.
  revert st. induction ys as [|y ys IH]; intros st; [reflexivity|].
  cbn [fold_left flat_map]. rewrite fold_left_app, <- IH. f_equal.
  clear. revert st. induction xs as [|x xs IH]; intros st; [reflexivity|].
  cbn. apply IH.
Qed.

(** A run of pixels copied from consecutive positions of a buffer. *)
Lemma copy_run (src : list T) (a n : nat) :
  (4 * (a + n) <= length src)%nat ->
  flat_map (fun q => pixel_list (load4 src (4 * q)%nat)) (seq a n)
  = take (4 * n) (drop (4 * a) src).
Proof.
  intros Hlen.
  rewrite <- (pixels_of_load4 (drop (4 * a) src))
    by (rewrite length_drop; lia).
  unfold pixels_of.
  rewrite (seq_from a n).
  rewrite flat_map_concat_map, map_map, <- flat_map_concat_map.
  apply flat_map_ext. intros q. unfold load4.
  rewrite !lookup_total_drop.
  replace (4 * (a + q))%nat with (4 * a + 4 * q)%nat by lia.
  now rewrite <- !Nat.add_assoc.
Qed.

End Runs.

(** The cells of a slice in row-major order are consecutive pixels. *)
Lemma cells_consecutive (start_line width height : Z) :
  0 <= start_line -> 0 <= width ->
  map (fun c => Z.to_nat (snd c * width + fst c))
    (flat_map (fun y => map (fun x => (x, y)) (Zrange 0 width))
       (Zrange start_line height))
  = seq (Z.to_nat (start_line * width)) (Z.to_nat height * Z.to_nat width).
Proof.
  intros Hs Hw. unfold Zrange at 2.
  induction (Z.to_nat height) as [|h IH].
  - reflexivity.
  - rewrite seq_S, map_app, flat_map_app, map_app, IH.
    cbn [map flat_map Nat.add]. rewrite app_nil_r.
    replace (S h * Z.to_nat width)%nat
      with (h * Z.to_nat width + Z.to_nat width)%nat by lia.
    rewrite seq_app. f_equal.
    unfold Zrange. rewrite !map_map. cbn [fst snd].
    rewrite (seq_from (Z.to_nat (start_line * width) + h * Z.to_nat width)).
    apply map_ext. intros i. nia.
Qed.

Lemma in_cells (start_line width height : Z) (c : Z * Z) :
  In c (flat_map (fun y => map (fun x => (x, y)) (Zrange 0 width))
          (Zrange start_line height)) ->
  0 <= fst c < width /\ start_line <= snd c < start_line + height.
Proof.
  intros Hin. apply in_flat_map in Hin as (y & Hy & Hc).
  apply in_map_iff in Hc as (x & <- & Hx).
  unfold Zrange in *.
  apply in_map_iff in Hy as (j & <- & Hj). apply in_seq in Hj.
  apply in_map_iff in Hx as (i & <- & Hi). apply in_seq in Hi.
  cbn [fst snd]. lia.
Qed.

Section Identity.
Context {T : Type} `{!Inhabited T} `{!Channel T}.

(** What a blur pass computes from a channel [v] with the one-element kernel
    [1.0f]: the sum [0 + v * 1], times [1 / (0 + 1)], then the store. *)
Definition unit_kernel_channel (v : T) : T :=
  channel_of_blur
    (F32.mul (F32.add F32.zero (F32.mul (channel_to_float v) F32.one))
       (F32.div F32.one (F32.add F32.zero F32.one))).

Lemma blur_window_unit (at_ : Z) (offset_of : Z -> Z) (rect : list T) :
  blur_store (blur_window [F32.one] 0 at_ at_ at_ offset_of rect)
  = (unit_kernel_channel (rect !!! Z.to_nat (offset_of at_)),
     unit_kernel_channel (rect !!! (Z.to_nat (offset_of at_) + 1)%nat),
     unit_kernel_channel (rect !!! (Z.to_nat (offset_of at_) + 2)%nat),
     unit_kernel_channel (rect !!! (Z.to_nat (offset_of at_) + 3)%nat)).
Proof.
  unfold blur_window.
  replace (at_ - at_ + 1) with 1 by lia.
  replace (at_ - at_ + 0) with 0 by lia.
  unfold Zrange. change (Z.to_nat 1) with 1%nat.
  cbn [seq map fold_left].
  change ([F32.one] !!! Z.to_nat 0) with F32.one.
  change (Z.of_nat 0) with 0. rewrite Z.add_0_r.
  reflexivity.
Qed.

Lemma lookup_total_map {A B : Type} `{!Inhabited A} `{!Inhabited B}
    (f : A -> B) (l : list A) (i : nat) :
  (i < length l)%nat -> map f l !!! i = f (l !!! i).
Proof.
  intros Hi. change (map f l) with (f <$> l).
  now apply list_lookup_total_fmap.
Qed.

Lemma unit_pixel (rect : list T) (p : nat) :
  (p + 4 <= length rect)%nat ->
  (unit_kernel_channel (rect !!! p),
   unit_kernel_channel (rect !!! (p + 1)%nat),
   unit_kernel_channel (rect !!! (p + 2)%nat),
   unit_kernel_channel (rect !!! (p + 3)%nat))
  = load4 (map unit_kernel_channel rect) p.
Proof.
  intros Hp. unfold load4. now rewrite !lookup_total_map by lia.
Qed.

(** A pass that writes, for every cell of the slice, the pixel of [rect] at
    the same place, copies the slice. *)
Lemma blur_rows_copy (pixel_at : Z -> Z -> @pixel T)
    (start_line width height : Z) (rect dst : list T) :
  let p0 := Z.to_nat (start_line * width * 4) in
  let n := (Z.to_nat height * Z.to_nat width)%nat in
  0 <= start_line -> 0 <= width ->
  (p0 + 4 * n <= length dst)%nat -> (p0 + 4 * n <= length rect)%nat ->
  (forall x y, 0 <= x < width -> start_line <= y < start_line + height ->
     pixel_at x y = load4 rect (4 * Z.to_nat (y * width + x))%nat) ->
  blur_rows pixel_at start_line width height dst
  = take p0 dst ++ take (4 * n) (drop p0 rect) ++ drop (p0 + 4 * n) dst.
Proof.
  intros p0 n Hs Hw Hd Hr Hpix. unfold blur_rows.
  rewrite (fold_rows
             (fun (st : nat * list T) x y =>
                let '(p, dst) := st in
                ((p + 4)%nat, store4 p (pixel_at x y) dst))).
  set (cells := flat_map (fun y => map (fun x => (x, y)) (Zrange 0 width))
                  (Zrange start_line height)).
  assert (Hlen : length cells = n).
  { rewrite <- (length_map (fun c => Z.to_nat (snd c * width + fst c))).
    unfold cells. rewrite cells_consecutive by assumption.
    apply length_seq. }
  change (fold_left _ cells ?s0)
    with (fold_left
            (fun (st : nat * list T) c =>
               let '(p, dst) := st in
               ((p + 4)%nat, store4 p (pixel_at (fst c) (snd c)) dst))
            cells s0).
  fold p0. rewrite write_run by (rewrite Hlen; exact Hd).
  cbn [snd]. rewrite Hlen. do 2 f_equal.
  rewrite (flat_map_ext_in _
             (fun c => pixel_list
                         (load4 rect (4 * Z.to_nat (snd c * width + fst c))%nat))
             cells).
  2:{ intros c Hc. apply in_cells in Hc as [Hx Hy]. now rewrite Hpix. }
  rewrite flat_map_concat_map.
  rewrite <- (map_map (fun c => Z.to_nat (snd c * width + fst c))
                (fun q => pixel_list (load4 rect (4 * q)%nat))).
  rewrite <- flat_map_concat_map.
  unfold cells. rewrite cells_consecutive by assumption.
  fold n. rewrite copy_run by (unfold p0 in Hr; lia).
  do 2 f_equal. unfold p0. lia.
Qed.

(** With the one-element kernel a pass writes, at every channel of its
    slice, what [unit_kernel_channel] makes of the channel of the input. *)
Lemma gaussian_blur_x_unit (start_line width height frame_height : Z)
    (rect dst : list T) :
  let p0 := Z.to_nat (start_line * width * 4) in
  let n := (Z.to_nat height * Z.to_nat width)%nat in
  0 <= start_line -> 0 <= width ->
  (p0 + 4 * n <= length dst)%nat -> (p0 + 4 * n <= length rect)%nat ->
  gaussian_blur_x [F32.one] 0 start_line width height frame_height rect dst
  = take p0 dst ++ take (4 * n) (drop p0 (map unit_kernel_channel rect))
      ++ drop (p0 + 4 * n) dst.
Proof.
  intros p0 n Hs Hw Hd Hr. unfold gaussian_blur_x.
  apply blur_rows_copy; try assumption; [now rewrite length_map|].
  intros x y Hx Hy. unfold blur_x_pixel.
  replace (Z.max (x - 0) 0) with x by lia.
  replace (Z.min (x + 0) (width - 1)) with x by lia.
  rewrite blur_window_unit.
  replace (Z.to_nat ((y * width + x) * 4))
    with (4 * Z.to_nat (y * width + x))%nat by nia.
  apply unit_pixel. subst p0 n. nia.
Qed.

Lemma gaussian_blur_y_unit (start_line width height frame_height : Z)
    (rect dst : list T) :
  let p0 := Z.to_nat (start_line * width * 4) in
  let n := (Z.to_nat height * Z.to_nat width)%nat in
  0 <= start_line -> 0 <= width -> start_line + height <= frame_height ->
  (p0 + 4 * n <= length dst)%nat -> (p0 + 4 * n <= length rect)%nat ->
  gaussian_blur_y [F32.one] 0 start_line width height frame_height rect dst
  = take p0 dst ++ take (4 * n) (drop p0 (map unit_kernel_channel rect))
      ++ drop (p0 + 4 * n) dst.
Proof.
  intros p0 n Hs Hw Hf Hd Hr. unfold gaussian_blur_y.
  apply blur_rows_copy; try assumption; [now rewrite length_map|].
  intros x y Hx Hy. unfold blur_y_pixel.
  replace (Z.max (y - 0) 0) with y by lia.
  replace (Z.min (y + 0) (frame_height - 1)) with y by lia.
  rewrite blur_window_unit.
  replace (Z.to_nat ((y * width + x) * 4))
    with (4 * Z.to_nat (y * width + x))%nat by nia.
  apply unit_pixel. subst p0 n. nia.
Qed.

(** What such a result holds: the rows of the slice channel by channel, and
    the destination before and after them. *)
Lemma unit_result (p0 n : nat) (rect dst : list T) :
  (p0 + 4 * n <= length dst)%nat -> (p0 + 4 * n <= length rect)%nat ->
  let out := take p0 dst ++ take (4 * n) (drop p0 (map unit_kernel_channel rect))
               ++ drop (p0 + 4 * n) dst in
  length out = length dst
  /\ take p0 out = take p0 dst
  /\ drop (p0 + 4 * n) out = drop (p0 + 4 * n) dst
  /\ forall i, (i < 4 * n)%nat ->
       out !!! (p0 + i)%nat = unit_kernel_channel (rect !!! (p0 + i)%nat).
Proof.
  intros Hd Hr out.
  assert (Hl0 : length (take p0 dst) = p0) by (rewrite length_take; lia).
  assert (Hl1 : length (take (4 * n) (drop p0 (map unit_kernel_channel rect)))
                = (4 * n)%nat)
    by (rewrite length_take, length_drop, length_map; lia).
  subst out. split; [|split; [|split]].
  - rewrite !length_app, Hl0, Hl1, length_drop. lia.
  - rewrite take_app_length' by (symmetry; exact Hl0). reflexivity.
  - rewrite app_assoc, drop_app_length'; [reflexivity|].
    rewrite length_app, Hl0, Hl1. reflexivity.
  - intros i Hi. rewrite <- Hl0 at 1.
    rewrite lookup_total_app_r by lia.
    replace (length (take p0 dst) + i - length (take p0 dst))%nat with i
      by lia.
    rewrite lookup_total_app_l by lia.
    rewrite lookup_total_take, decide_True by lia.
    rewrite lookup_total_drop. apply lookup_total_map. lia.
Qed.

End Identity.

Lemma byte_unit_kernel (b : byte) : unit_kernel_channel b = b.
Proof. destruct b; vm_compute; reflexivity. Qed.

Lemma map_byte_unit_kernel (l : list byte) : map unit_kernel_channel l = l.
Proof.
  induction l as [|b l IH]; [reflexivity|].
  cbn [map]. now rewrite byte_unit_kernel, IH.
Qed.

Lemma float_unit_kernel (v : float) :
  Cross.keeps v = true -> unit_kernel_channel v = v.
Proof.
  unfold Cross.keeps, unit_kernel_channel. intros Hk.
  apply andb_prop in Hk as [Hv Hz]. apply andb_prop in Hv as [Hv _].
  apply negb_true_iff in Hz.
  cbn [channel_to_float channel_of_blur float_channel].
  change (F32.div F32.one (F32.add F32.zero F32.one)) with F32.one.
  rewrite (F32.mul_one_r v) by assumption.
  unfold F32.zero. rewrite (F32.add_zero_l v) by assumption.
  now apply F32.mul_one_r.
Qed.

Lemma eqb_refl (v : float) : F32.is_nan v = false -> F32.eqb v v = true.
Proof.
  unfold F32.eqb, SFeqb, SFcompare.
  destruct v as [[]|[]| |[] m e]; try reflexivity; try discriminate;
    intros _; now rewrite Z.compare_refl, Pos.compare_cont_refl.
Qed.

(** What a pass with the one-element kernel leaves in the float channel
    [out] from the channel [v] of the input. *)
Definition float_copy (v out : float) : Prop :=
  (Cross.keeps v = true -> out = v)
  /\ (v = F32.neg_zero -> out = F32.zero)
  /\ (F32.is_nan v = true -> F32.is_nan out = true)
  /\ (F32.valid v = true -> F32.is_nan v = false -> F32.eqb out v = true).

Lemma float_unit_copy (v : float) : float_copy v (unit_kernel_channel v).
Proof.
  unfold float_copy. split; [|split; [|split]].
  - apply float_unit_kernel.
  - intros ->. vm_compute. reflexivity.
  - destruct v; try discriminate. intros _. vm_compute. reflexivity.
  - intros Hv Hn. destruct (F32.is_neg_zero v) eqn:Hz.
    + destruct v as [[]| | |]; try discriminate. vm_compute. reflexivity.
    + rewrite float_unit_kernel; [now apply eqb_refl|].
      unfold Cross.keeps. now rewrite Hv, Hn, Hz.
Qed.




End BlurFacts.

(** ** Blur kernels

    The kernels are computed in [float], as the code does: every product,
    quotient and sum below is a binary32 operation.  The exponential of the
    C maths library and the filter function of the renderer are not among
    the sources; they are parameters, of which nothing is assumed. *)

Module Kernel.

(** [float(M_PI)]: the binary32 value nearest to pi, [0x40490FDB]. *)
Definition M_PI_f : float := S754_finite false 13176795 (-22).

(** The literals [2.0f], [-1.0f] and [-0.5f]. *)
Definition two : float := S754_finite false 8388608 (-22).
Definition minus_one : float := S754_finite true 8388608 (-23).
Definition minus_half : float := S754_finite true 8388608 (-24).

Section Maths.

(** [float(exp(x))] for a [float] [x]: the exponential of the C maths
    library, which is not part of the sources.  Nothing is assumed of it. *)
Variable exp_float : float -> float.

(** The filter function [RE_filter_value(R_FILTER_GAUSS, x)] of the
    renderer, not among the sources either. *)
Variable RE_filter_value_gauss : float -> float.

(** The factor [k] of [glow_blur_bitmap]:
    [-1.0f / (2.0f * float(M_PI) * blur * blur)]. *)
Definition glow_k (blur : float) : float :=
  F32.div minus_one (F32.mul (F32.mul (F32.mul two M_PI_f) blur) blur).

(** The first loop of the filter set-up: [weight] and the array after the
    turns [ix = 0 .. halfWidth - 1]; the array is allocated with
    [halfWidth * 2] entries, each of which the set-up writes. *)
Definition glow_filter_fill (blur : float) (halfWidth : nat)
  : float * list float :=
  fold_left
    (fun (st : float * list float) (ix : nat) =>
       let '(_, filter) := st in
       let weight :=
         exp_float (F32.mul (glow_k blur) (F32.of_int (Z.of_nat (ix * ix)))) in
       (weight,
        <[(halfWidth + ix)%nat := weight]>
          (<[(halfWidth - ix)%nat := weight]> filter)))
    (seq 0 halfWidth)
    (F32.zero, replicate (halfWidth * 2) F32.zero).

(** The filter before normalisation: the loop, then [filter[0] = weight]. *)
Definition glow_filter_raw (blur : float) (halfWidth : nat) : list float :=
  let '(weight, filter) := glow_filter_fill blur halfWidth in
  <[0%nat := weight]> filter.

(** [fval = 0; for (...) fval += filter[ix];] *)
Definition sum_of (filter : list float) : float :=
  fold_left F32.add filter F32.zero.

(** The filter as the blur loops read it: [filter[ix] /= fval]. *)
Definition glow_filter (blur : float) (halfWidth : nat) : list float :=
  let filter := glow_filter_raw blur halfWidth in
  let fval := sum_of filter in
  map (fun w => F32.div w fval) filter.

(** The values and their sum in the first loop of
    [make_gaussian_blur_kernel]. *)
Definition gaussian_values (rad : float) (size : Z) : list float :=
  let n := 2 * size + 1 in
  let fac := if F32.ltb F32.zero rad then F32.div F32.one rad else F32.zero in
  map (fun i => RE_filter_value_gauss (F32.mul (F32.of_int i) fac))
    (Zrange (- size) n).

Definition make_gaussian_blur_kernel (rad : float) (size : Z) : list float :=
  let gaussian := gaussian_values rad size in
  let sum := sum_of gaussian in
  let inv_sum := F32.div F32.one sum in
  map (fun val => F32.mul val inv_sum) gaussian.

(** The weight of the offset [j] from the centre. *)
Definition glow_weight (blur : float) (j : nat) : float :=
  exp_float (F32.mul (glow_k blur) (F32.of_int (Z.of_nat (j * j)))).

(** The state of the filling loop after its first [m] turns. *)
Lemma glow_fill_prefix (blur : float) (halfWidth m : nat) :
  (m <= halfWidth)%nat ->
  let st := fold_left
    (fun (st : float * list float) (ix : nat) =>
       let '(_, filter) := st in
       let weight :=
         exp_float (F32.mul (glow_k blur) (F32.of_int (Z.of_nat (ix * ix)))) in
       (weight,
        <[(halfWidth + ix)%nat := weight]>
          (<[(halfWidth - ix)%nat := weight]> filter)))
    (seq 0 m) (F32.zero, replicate (halfWidth * 2) F32.zero) in
  length (snd st) = (halfWidth * 2)%nat
  /\ (forall j, (j < m)%nat ->
        snd st !! (halfWidth + j)%nat = Some (glow_weight blur j)
        /\ snd st !! (halfWidth - j)%nat = Some (glow_weight blur j))
  /\ (forall j, m = S j -> fst st = glow_weight blur j).
Proof.
  induction m as [|m IH]; intros Hm.
  - cbn. rewrite length_replicate. repeat split; intros; [lia|lia|discriminate].
  - rewrite seq_S, fold_left_app. cbn [fold_left Nat.add].
    specialize (IH ltac:(lia)). cbv zeta in IH.
    destruct (fold_left _ (seq 0 m) _) as [w filter].
    cbn [fst snd] in *. destruct IH as (Hlen & Hpre & _).
    fold (glow_weight blur m).
    split; [now rewrite !length_insert|]. split.
    + intros j Hj. destruct (decide (j = m)) as [->|Hne].
      * split.
        -- apply list_lookup_insert_eq. rewrite length_insert. lia.
        -- destruct (decide (m = 0)%nat) as [->|Hm0].
           ++ rewrite Nat.sub_0_r, Nat.add_0_r.
              apply list_lookup_insert_eq. rewrite length_insert. lia.
           ++ rewrite list_lookup_insert_ne by lia.
              apply list_lookup_insert_eq. lia.
      * destruct (Hpre j ltac:(lia)) as [Hp Hq].
        split; rewrite !list_lookup_insert_ne by lia; assumption.
    + intros j [= <-]. reflexivity.
Qed.

Lemma glow_filter_raw_spec (blur : float) (halfWidth : nat) :
  (1 <= halfWidth)%nat ->
  length (glow_filter_raw blur halfWidth) = (halfWidth * 2)%nat
  /\ (forall j, (j < halfWidth)%nat ->
        glow_filter_raw blur halfWidth !! (halfWidth + j)%nat
        = Some (glow_weight blur j)
        /\ glow_filter_raw blur halfWidth !! (halfWidth - j)%nat
           = Some (glow_weight blur j))
  /\ glow_filter_raw blur halfWidth !! 0%nat
     = Some (glow_weight blur (halfWidth - 1)).
Proof.
  intros Hh. unfold glow_filter_raw, glow_filter_fill.
  pose proof (glow_fill_prefix blur halfWidth halfWidth (Nat.le_refl _)) as H.
  cbv zeta in H. destruct (fold_left _ _ _) as [w filter].
  cbn [fst snd] in H. destruct H as (Hlen & Hpre & Hw).
  split; [now rewrite length_insert|]. split.
  - intros j Hj. destruct (Hpre j Hj) as [Hp Hq].
    split; rewrite list_lookup_insert_ne by lia; assumption.
  - rewrite (Hw (halfWidth - 1)%nat) by lia.
    apply list_lookup_insert_eq. lia.
Qed.

End Maths.




End Kernel.

(** ** Image buffers and the set-up of an effect's output *)

(** A [data] pointer in a condition. *)
Definition non_null_buffer {A : Type} (data : option A) : bool :=
  match data with Some _ => true | None => false end.

Module Prepare.

Section Buffers.

(** Colour spaces and metadata are opaque to the effects. *)
Variable Colorspace : Type.
Variable Metadata : Type.
Variable no_metadata : Metadata.

(** The pixel conversions of the colour management service. *)
Variable byte_to_float_pixels : list byte -> list float.
Variable float_to_byte_pixels : list float -> list byte.

(** An image buffer; [None] is a null [data] pointer. *)
Record ImBuf : Type := {
  ibuf_x : Z;
  ibuf_y : Z;
  byte_buffer : option (list byte);
  float_buffer : option (list float);
  float_colorspace : option Colorspace;
  metadata : Metadata
}.

Record SeqRenderData : Type := {
  rectx : Z;
  recty : Z;
  sequencer_colorspace : Colorspace
}.

(** The images in memory, by address; a null pointer is [None]. *)
Abbreviation heap := (gmap nat ImBuf).

(** [ibuf->field] tested on the image at address [p]. *)
Definition on_image (test : ImBuf -> bool) (h : heap) (p : nat) : bool :=
  match h !! p with
  | Some ibuf => test ibuf
  | None => false
  end.

Definition is_float (ibuf : ImBuf) : bool := non_null_buffer (float_buffer ibuf).
Definition is_byte (ibuf : ImBuf) : bool := non_null_buffer (byte_buffer ibuf).

Definition has_float : heap -> nat -> bool := on_image is_float.
Definition has_byte : heap -> nat -> bool := on_image is_byte.

Inductive AllocFlag : Type := IB_rect | IB_rectfloat.

(** Modelled from the spec: the buffer allocator is an external service,
    "allocate_image(width, height, format) -> Image" (section 6).  The new
    image has the one buffer its format flag asks for, of four channels per
    pixel; the model fills it with zeros whether or not the pixels were asked
    to be initialised, and places it at an address no image occupies. *)
Definition IMB_allocImBuf (x y : Z) (flag : AllocFlag) (h : heap)
  : nat * heap :=
  let n := Z.to_nat (4 * x * y) in
  let ibuf :=
    {| ibuf_x := x; ibuf_y := y;
       byte_buffer :=
         match flag with
         | IB_rect => Some (replicate n "000"%byte)
         | IB_rectfloat => None
         end;
       float_buffer :=
         match flag with
         | IB_rect => None
         | IB_rectfloat => Some (replicate n F32.zero)
         end;
       float_colorspace := None;
       metadata := no_metadata |} in
  let p := fresh (dom h) in
  (p, <[p := ibuf]> h).

(** Modelled from the spec: the conversion to the sequencer's working space
    is an external service, "convert_to_working_space(Image)", "used to
    guarantee both inputs share representation before blending" (section 6).
    Asked for a float result, it turns the byte pixels of the image into
    float pixels in place. *)
Definition seq_imbuf_to_sequencer_space (scene_colorspace : Colorspace)
    (make_float : bool) (ibuf : ImBuf) : ImBuf :=
  match float_buffer ibuf, byte_buffer ibuf with
  | None, Some bytes =>
      if make_float then
        {| ibuf_x := ibuf_x ibuf; ibuf_y := ibuf_y ibuf;
           byte_buffer := None;
           float_buffer := Some (byte_to_float_pixels bytes);
           float_colorspace := Some scene_colorspace;
           metadata := metadata ibuf |}
      else ibuf
  | _, _ => ibuf
  end.

(** Modelled from the spec: "byte_from_float(Image) -> Image" (section 6):
    an image with float pixels gets byte pixels made from them. *)
Definition IMB_rect_from_float (ibuf : ImBuf) : ImBuf :=
  match float_buffer ibuf with
  | Some floats =>
      {| ibuf_x := ibuf_x ibuf; ibuf_y := ibuf_y ibuf;
         byte_buffer := Some (float_to_byte_pixels floats);
         float_buffer := float_buffer ibuf;
         float_colorspace := float_colorspace ibuf;
         metadata := metadata ibuf |}
  | None => ibuf
  end.

Definition IMB_colormanagement_assign_float_colorspace (cs : Colorspace)
    (ibuf : ImBuf) : ImBuf :=
  {| ibuf_x := ibuf_x ibuf; ibuf_y := ibuf_y ibuf;
     byte_buffer := byte_buffer ibuf; float_buffer := float_buffer ibuf;
     float_colorspace := Some cs; metadata := metadata ibuf |}.

Definition IMB_metadata_copy (dst : ImBuf) (src : ImBuf) : ImBuf :=
  {| ibuf_x := ibuf_x dst; ibuf_y := ibuf_y dst;
     byte_buffer := byte_buffer dst; float_buffer := float_buffer dst;
     float_colorspace := float_colorspace dst; metadata := metadata src |}.

(** [if (ibuf && cond(ibuf)) f(ibuf);] on an image in memory. *)
Definition when (ibuf : option nat) (cond : heap -> nat -> bool)
    (f : ImBuf -> ImBuf) (h : heap) : heap :=
  match ibuf with
  | Some p => if cond h p then alter f p h else h
  | None => h
  end.

Definition prepare_effect_imbufs (context : SeqRenderData)
    (ibuf1 ibuf2 : option nat) (uninitialized_pixels : bool) (h : heap)
  : nat * heap :=
  let x := rectx context in
  let y := recty context in
  let float1 := from_option (has_float h) false ibuf1 in
  let float2 := from_option (has_float h) false ibuf2 in
  let '(out, h) :=
    match ibuf1, ibuf2 with
    | None, None => IMB_allocImBuf x y IB_rect h
    | _, _ =>
        if float1 || float2 then IMB_allocImBuf x y IB_rectfloat h
        else IMB_allocImBuf x y IB_rect h
    end in
  let h :=
    if has_float h out then
      let h :=
        when ibuf1 (fun h p => negb (has_float h p))
          (seq_imbuf_to_sequencer_space (sequencer_colorspace context) true) h in
      let h :=
        when ibuf2 (fun h p => negb (has_float h p))
          (seq_imbuf_to_sequencer_space (sequencer_colorspace context) true) h in
      alter (IMB_colormanagement_assign_float_colorspace
               (sequencer_colorspace context)) out h
    else
      let h := when ibuf1 (fun h p => negb (has_byte h p)) IMB_rect_from_float h in
      when ibuf2 (fun h p => negb (has_byte h p)) IMB_rect_from_float h in
  let h :=
    match ibuf1, ibuf2 with
    | Some p1, Some p2 =>
        if decide (p1 = p2) then
          match h !! p1 with
          | Some src => alter (fun dst => IMB_metadata_copy dst src) out h
          | None => h
          end
        else h
    | _, _ => h
    end in
  (out, h).

Lemma on_image_insert_ne test (h : heap) (q p : nat) (ibuf : ImBuf) :
  q <> p -> on_image test (<[q := ibuf]> h) p = on_image test h p.
Proof. intros Hne. unfold on_image. now rewrite lookup_insert_ne. Qed.

Lemma on_image_alter_same test g (h : heap) (q p : nat) :
  (forall ibuf, test (g ibuf) = test ibuf) ->
  on_image test (alter g q h) p = on_image test h p.
Proof.
  intros Hg. unfold on_image. destruct (decide (q = p)) as [->|Hne].
  - rewrite lookup_alter_eq. destruct (h !! p); cbn; [apply Hg|reflexivity].
  - now rewrite lookup_alter_ne.
Qed.

Lemma on_image_when_other test ibuf cond g (h : heap) (p : nat) :
  ibuf <> Some p -> on_image test (when ibuf cond g h) p = on_image test h p.
Proof.
  intros Hne. unfold when, on_image. destruct ibuf as [q|]; [|reflexivity].
  destruct (cond h q); [|reflexivity].
  rewrite lookup_alter_ne; [reflexivity|congruence].
Qed.

(** A conversion [g] that gives format [A] to an image of format [B]. *)
Section Conversion.
Variables (A B : ImBuf -> bool) (g : ImBuf -> ImBuf).
Hypothesis g_gives : forall ibuf, A (g ibuf) = A ibuf || B ibuf.

Lemma when_keeps ibuf (h : heap) (p : nat) :
  on_image A h p = true ->
  on_image A (when ibuf (fun h p => negb (on_image A h p)) g h) p = true.
Proof.
  intros Hp. unfold when. destruct ibuf as [q|]; [|exact Hp].
  destruct (negb (on_image A h q)) eqn:Hc; [|exact Hp].
  unfold on_image in *. destruct (decide (q = p)) as [->|Hne].
  - rewrite lookup_alter_eq. destruct (h !! p); cbn in *; [|discriminate].
    rewrite g_gives, Hp. reflexivity.
  - now rewrite lookup_alter_ne.
Qed.

Lemma when_converts (h : heap) (p : nat) :
  on_image A h p || on_image B h p = true ->
  on_image A (when (Some p) (fun h p => negb (on_image A h p)) g h) p = true.
Proof.
  intros Hp. unfold when.
  destruct (on_image A h p) eqn:Ha; cbn [negb]; [exact Ha|].
  unfold on_image in *. rewrite lookup_alter_eq.
  destruct (h !! p); cbn in *; [|discriminate].
  rewrite g_gives, Ha. exact Hp.
Qed.

Lemma when_keeps_some ibuf (h : heap) (p : nat) :
  on_image A h p || on_image B h p = true ->
  on_image A (when ibuf (fun h p => negb (on_image A h p)) g h) p
  || on_image B (when ibuf (fun h p => negb (on_image A h p)) g h) p = true.
Proof.
  intros Hp. destruct (decide (ibuf = Some p)) as [->|Hne].
  - now rewrite when_converts.
  - now rewrite !on_image_when_other.
Qed.

End Conversion.

Lemma to_float_gives cs ibuf :
  is_float (seq_imbuf_to_sequencer_space cs true ibuf)
  = is_float ibuf || is_byte ibuf.
Proof.
  now destruct ibuf as [x y [bytes|] [floats|] cs' m].
Qed.

Lemma from_float_gives ibuf :
  is_byte (IMB_rect_from_float ibuf) = is_byte ibuf || is_float ibuf.
Proof.
  now destruct ibuf as [x y [bytes|] [floats|] cs' m].
Qed.

(** The metadata step leaves the buffers alone. *)
Lemma metadata_step test (ibuf1 ibuf2 : option nat) (out p : nat) (h : heap) :
  (forall dst src, test (IMB_metadata_copy dst src) = test dst) ->
  on_image test
    match ibuf1, ibuf2 with
    | Some p1, Some p2 =>
        if decide (p1 = p2) then
          match h !! p1 with
          | Some src => alter (fun dst => IMB_metadata_copy dst src) out h
          | None => h
          end
        else h
    | _, _ => h
    end p
  = on_image test h p.
Proof.
  intros Ht. destruct ibuf1 as [p1|], ibuf2 as [p2|]; try reflexivity.
  destruct (decide (p1 = p2)); [|reflexivity].
  destruct (h !! p1) as [src|]; [|reflexivity].
  now apply on_image_alter_same.
Qed.

(** C1.  The output allocated for an effect has a float buffer exactly when
    one of the inputs that are present has one, and has a byte buffer
    otherwise (in particular when both inputs are byte images, and when both
    are absent); and when the call returns, every input that is present and
    held pixels has them in the representation of the output. *)
Theorem prepare_effect_imbufs_format (context : SeqRenderData)
    (ibuf1 ibuf2 : option nat) (uninitialized_pixels : bool) (h : heap) :
  (forall p, ibuf1 = Some p -> is_Some (h !! p)) ->
  (forall p, ibuf2 = Some p -> is_Some (h !! p)) ->
  let r := prepare_effect_imbufs context ibuf1 ibuf2 uninitialized_pixels h in
  let out := fst r in
  let h' := snd r in
  h !! out = None
  /\ has_float h' out
     = from_option (has_float h) false ibuf1
       || from_option (has_float h) false ibuf2
  /\ has_byte h' out = negb (has_float h' out)
  /\ (forall p, ibuf1 = Some p \/ ibuf2 = Some p ->
        has_float h p || has_byte h p = true ->
        if has_float h' out then has_float h' p = true
        else has_byte h' p = true).
Proof.
  intros H1 H2 r out h'. subst out h' r.
  assert (Hfresh : h !! fresh (dom h) = None).
  { apply not_elem_of_dom. apply is_fresh. }
  assert (Hin1 : forall p, ibuf1 = Some p -> p <> fresh (dom h)).
  { intros p Hp Heq. destruct (H1 p Hp) as [b Hb]. congruence. }
  assert (Hin2 : forall p, ibuf2 = Some p -> p <> fresh (dom h)).
  { intros p Hp Heq. destruct (H2 p Hp) as [b Hb]. congruence. }
  assert (Ho1 : ibuf1 <> Some (fresh (dom h))).
  { intros Heq. now apply (Hin1 _ Heq). }
  assert (Ho2 : ibuf2 <> Some (fresh (dom h))).
  { intros Heq. now apply (Hin2 _ Heq). }
  unfold prepare_effect_imbufs.
  set (fl := from_option (has_float h) false ibuf1
             || from_option (has_float h) false ibuf2).
  assert (Halloc :
    match ibuf1, ibuf2 with
    | None, None => IMB_allocImBuf (rectx context) (recty context) IB_rect h
    | _, _ =>
        if fl then IMB_allocImBuf (rectx context) (recty context) IB_rectfloat h
        else IMB_allocImBuf (rectx context) (recty context) IB_rect h
    end
    = IMB_allocImBuf (rectx context) (recty context)
        (if fl then IB_rectfloat else IB_rect) h).
  { subst fl. destruct ibuf1, ibuf2; cbn [from_option orb];
      try reflexivity;
      match goal with |- context [if ?c then _ else _] => now destruct c end. }
  rewrite Halloc. clear Halloc. unfold IMB_allocImBuf.
  set (out := fresh (dom h)) in *.
  cbv zeta. cbn [fst snd].
  match goal with
  | |- context [<[out := ?b]> h] => set (new := b)
  end.
  set (h0 := <[out := new]> h).
  assert (Hnf : has_float h0 out = fl).
  { unfold has_float, on_image, h0. rewrite lookup_insert_eq.
    subst new. now destruct fl. }
  assert (Hnb : has_byte h0 out = negb fl).
  { unfold has_byte, on_image, h0. rewrite lookup_insert_eq.
    subst new. now destruct fl. }
  assert (Hold : forall test p, p <> out -> on_image test h0 p = on_image test h p).
  { intros test p Hp. apply on_image_insert_ne. congruence. }
  split; [exact Hfresh|].
  unfold has_float, has_byte in *. rewrite Hnf.
  destruct fl; cbv iota.
  - (* float output *)
    set (h1 := when ibuf1 _ _ h0). set (h2 := when ibuf2 _ _ h1).
    set (h3 := alter _ out h2).
    match goal with |- context [on_image is_float ?m out] => set (h4 := m) end.
    assert (H43 : forall test p,
              (forall dst src, test (IMB_metadata_copy dst src) = test dst) ->
              on_image test h4 p = on_image test h3 p).
    { intros test p Ht. now apply metadata_step. }
    assert (H32 : forall test p,
              (forall ibuf, test (IMB_colormanagement_assign_float_colorspace
                                    (sequencer_colorspace context) ibuf)
                            = test ibuf) ->
              on_image test h3 p = on_image test h2 p).
    { intros test p Ht. now apply on_image_alter_same. }
    assert (Hout : forall test, on_image test h2 out = on_image test h0 out).
    { intros test. unfold h2, h1. now rewrite !on_image_when_other. }
    rewrite !H43, !H32, !Hout, Hnf, Hnb by reflexivity.
    split; [reflexivity|]. split; [reflexivity|].
    intros p Hp Hsome. rewrite H43, H32 by reflexivity.
    assert (Hpo : p <> out) by (destruct Hp; auto).
    rewrite <- !(Hold _ p Hpo) in Hsome.
    destruct Hp as [-> | ->].
    + apply (when_keeps is_float is_byte _ (to_float_gives _)).
      apply (when_converts is_float is_byte _ (to_float_gives _)).
      exact Hsome.
    + apply (when_converts is_float is_byte _ (to_float_gives _)).
      apply (when_keeps_some is_float is_byte _ (to_float_gives _)).
      exact Hsome.
  - (* byte output *)
    set (h1 := when ibuf1 _ _ h0). set (h2 := when ibuf2 _ _ h1).
    match goal with |- context [on_image is_float ?m out] => set (h4 := m) end.
    assert (H42 : forall test p,
              (forall dst src, test (IMB_metadata_copy dst src) = test dst) ->
              on_image test h4 p = on_image test h2 p).
    { intros test p Ht. now apply metadata_step. }
    assert (Hout : forall test, on_image test h2 out = on_image test h0 out).
    { intros test. unfold h2, h1. now rewrite !on_image_when_other. }
    rewrite !H42, !Hout, Hnf, Hnb by reflexivity.
    split; [reflexivity|]. split; [reflexivity|].
    intros p Hp Hsome. rewrite H42 by reflexivity.
    assert (Hpo : p <> out) by (destruct Hp; auto).
    rewrite <- !(Hold _ p Hpo) in Hsome.
    rewrite orb_comm in Hsome.
    destruct Hp as [-> | ->].
    + apply (when_keeps is_byte is_float _ from_float_gives).
      apply (when_converts is_byte is_float _ from_float_gives).
      exact Hsome.
    + apply (when_converts is_byte is_float _ from_float_gives).
      apply (when_keeps_some is_byte is_float _ from_float_gives).
      exact Hsome.
Qed.

End Buffers.

(** An example store: a byte image at address 0 and a float image at
    address 1, of one pixel each. *)
Definition sample_heap : gmap nat (ImBuf unit unit) :=
  {[ 0%nat := {| ibuf_x := 1; ibuf_y := 1;
                 byte_buffer := Some sample_bytes1; float_buffer := None;
                 float_colorspace := None; metadata := tt |};
     1%nat := {| ibuf_x := 1; ibuf_y := 1;
                 byte_buffer := None; float_buffer := Some sample_floats1;
                 float_colorspace := Some tt; metadata := tt |} ]}.

Definition sample_context : SeqRenderData unit :=
  {| rectx := 1; recty := 1; sequencer_colorspace := tt |}.

Definition sample_prepare : nat * gmap nat (ImBuf unit unit) :=
  prepare_effect_imbufs unit unit tt
    (map (fun b => F32.of_int (uchar_to_int b)))
    (map (fun f => int_to_uchar (F32.to_int f)))
    sample_context (Some 0%nat) (Some 1%nat) true sample_heap.

Lemma prepare_effect_imbufs_format_witness :
  has_float unit unit (snd sample_prepare) (fst sample_prepare) = true
  /\ has_byte unit unit (snd sample_prepare) (fst sample_prepare) = false
  /\ has_float unit unit (snd sample_prepare) 0%nat = true
  /\ has_float unit unit (snd sample_prepare) 1%nat = true.
Proof.
  assert (H1 : forall p, Some 0%nat = Some p -> is_Some (sample_heap !! p)).
  { intros p [= <-]. vm_compute. eauto. }
  assert (H2 : forall p, Some 1%nat = Some p -> is_Some (sample_heap !! p)).
  { intros p [= <-]. vm_compute. eauto. }
  destruct (prepare_effect_imbufs_format unit unit tt
              (map (fun b => F32.of_int (uchar_to_int b)))
              (map (fun f => int_to_uchar (F32.to_int f)))
              sample_context (Some 0%nat) (Some 1%nat) true sample_heap H1 H2)
    as (_ & Hf & Hb & Hin).
  fold sample_prepare in Hf, Hb, Hin.
  assert (Hfl : has_float unit unit (snd sample_prepare) (fst sample_prepare)
                = true).
  { rewrite Hf. vm_compute. reflexivity. }
  rewrite Hfl in Hb, Hin.
  split; [exact Hfl|]. split; [exact Hb|]. split.
  - apply Hin; [left; reflexivity | vm_compute; reflexivity].
  - apply Hin; [right; reflexivity | vm_compute; reflexivity].
Defined.

End Prepare.

(** ** Integer-valued floats

    The text layout and the outline flooding compute in [float] with values
    that are integers (sums of glyph advances, pixel coordinates and their
    squared distances).  Such a [float] is represented by the integer it
    holds, and each operation rounds its exact result to binary32, to
    nearest with ties to even; below [2 ^ 24] nothing is rounded.  The
    values at hand stay far below the overflow threshold. *)

Module FInt.

Definition round_int (z : Z) : Z :=
  let a := Z.abs z in
  if a <? 2 ^ 24 then z
  else
    let e := Z.log2 a - 23 in
    let q := a / 2 ^ e in
    let r := a mod 2 ^ e in
    let q' :=
      match 2 * r ?= 2 ^ e with
      | Lt => q
      | Gt => q + 1
      | Eq => if Z.even q then q else q + 1
      end in
    Z.sgn z * (q' * 2 ^ e).

(** [float(i)] of an [int], and the arithmetic on the represented values. *)
Definition of_int (i : Z) : Z := round_int i.
Definition add (a b : Z) : Z := round_int (a + b).
Definition sub (a b : Z) : Z := round_int (a - b).
Definition mul (a b : Z) : Z := round_int (a * b).

(** [FLT_MAX], an integer. *)
Definition FLT_MAX : Z := (2 ^ 24 - 1) * 2 ^ 104.

Lemma round_int_small (z : Z) : Z.abs z < 2 ^ 24 -> round_int z = z.
Proof.
  intros Hz. unfold round_int.
  destruct (Z.ltb_spec (Z.abs z) (2 ^ 24)); [reflexivity|lia].
Qed.

(** The rounding agrees with the conversion of the binary32 model. *)
Example round_int_is_binary32 :
  map (fun z => F32.trunc (F32.of_int z))
    [16777217; 16777219; 2147483647; -33554435; 1000; 16777216 * 3 + 2]
  = map (fun z => Some (round_int z))
    [16777217; 16777219; 2147483647; -33554435; 1000; 16777216 * 3 + 2].
Proof. vm_compute. reflexivity. Qed.

Example round_int_values :
  map round_int [16777217; 16777219; 2147483647; 5]
  = [16777216; 16777220; 2147483648; 5].
Proof. vm_compute. reflexivity. Qed.

End FInt.

(** ** Text layout: word wrapping *)

Module Text.

(** A [float2] whose components hold integers (see [FInt]). *)
Definition float2 : Type := Z * Z.

(** [str_ptr] is the offset of the character in the text of the strip. *)
Record CharInfo : Type := {
  index : Z;
  str_ptr : nat;
  byte_length : Z;
  advance_x : Z;
  position : float2;
  do_wrap : bool
}.

Record LineInfo : Type := {
  characters : list CharInfo;
  width : Z
}.

Record TextVars : Type := {
  text : list byte;
  wrap_width : float
}.

Record TextVarsRuntime : Type := {
  lines : list LineInfo;
  line_height : Z
}.

#[global] Instance CharInfo_inhabited : Inhabited CharInfo :=
  populate {| index := 0; str_ptr := 0; byte_length := 0; advance_x := 0;
              position := (0, 0); do_wrap := false |}.

Definition INT_MAX : Z := 2 ^ 31 - 1.

Definition wrap_width_get (data : TextVars) (image_size_x : Z) : Z :=
  if F32.eqb (wrap_width data) F32.zero then INT_MAX
  else F32.to_int (F32.mul (wrap_width data) (F32.of_int image_size_x)).

Definition set_position (pos : float2) (c : CharInfo) : CharInfo :=
  {| index := index c; str_ptr := str_ptr c; byte_length := byte_length c;
     advance_x := advance_x c; position := pos; do_wrap := do_wrap c |}.

Definition set_do_wrap (w : bool) (c : CharInfo) : CharInfo :=
  {| index := index c; str_ptr := str_ptr c; byte_length := byte_length c;
     advance_x := advance_x c; position := position c; do_wrap := w |}.

(** [character.str_ptr[0]] *)
Definition first_byte (data : TextVars) (c : CharInfo) : byte :=
  text data !!! str_ptr c.

Definition space : byte := "032"%byte.
Definition newline : byte := "010"%byte.
Definition nul : byte := "000"%byte.

(** One turn of the first pass; the state is the character vector, the
    running position and [last_space], an index into the vector. *)
Definition wrap_step (data : TextVars) (wrap_width : Z)
    (st : list CharInfo * float2 * option nat) (i : nat)
  : list CharInfo * float2 * option nat :=
  let '(chars, char_position, last_space) := st in
  let c0 := first_byte data (chars !!! i) in
  let '(chars, last_space) :=
    if Byte.eqb c0 space
    then (alter (set_position char_position) i chars, Some i)
    else (chars, last_space) in
  let '(char_position, last_space) :=
    if Byte.eqb c0 newline
    then ((0, snd char_position), None)
    else (char_position, last_space) in
  let '(chars, char_position) :=
    match last_space with
    | Some ls =>
        if negb (Byte.eqb c0 nul)
           && (FInt.of_int wrap_width <? fst char_position)
        then
          let sp := chars !!! ls in
          let adv := FInt.of_int (advance_x sp) in
          (alter (set_do_wrap true) ls chars,
           (FInt.sub (fst char_position) (FInt.add (fst (position sp)) adv),
            FInt.sub (snd char_position) (FInt.add (snd (position sp)) adv)))
        else (chars, char_position)
    | None => (chars, char_position)
    end in
  let char_position :=
    (FInt.add (fst char_position) (FInt.of_int (advance_x (chars !!! i))),
     snd char_position) in
  (chars, char_position, last_space).

(** [lines.last()] updated in place. *)
Definition on_last (f : LineInfo -> LineInfo) (lines : list LineInfo)
  : list LineInfo :=
  match reverse lines with
  | l :: before => reverse before ++ [f l]
  | [] => []
  end.

Definition empty_line : LineInfo := {| characters := []; width := 0 |}.

(** One turn of the second pass over a character. *)
Definition fill_step (data : TextVars) (line_height : Z)
    (st : list LineInfo * float2) (character : CharInfo)
  : list LineInfo * float2 :=
  let '(lines, char_position) := st in
  let character := set_position char_position character in
  let lines :=
    on_last (fun l => {| characters := characters l ++ [character];
                         width := width l |}) lines in
  let lines :=
    on_last (fun l => {| characters := characters l;
                         width := fst char_position |}) lines in
  let char_position :=
    (FInt.add (fst char_position) (FInt.of_int (advance_x character)),
     snd char_position) in
  if do_wrap character || Byte.eqb (first_byte data character) newline
  then (lines ++ [empty_line],
        (0, FInt.sub (snd char_position) (FInt.of_int line_height)))
  else (lines, char_position).

(** One turn of the second pass on the lines, the position and the
    characters of the vector the loop has gone through: the character gets
    its position in the vector, and the lines their copy of it. *)
Definition fill_turn (data : TextVars) (line_height : Z)
    (st : list LineInfo * float2 * list CharInfo) (character : CharInfo)
  : list LineInfo * float2 * list CharInfo :=
  let '(lines, char_position, filled) := st in
  let character := set_position char_position character in
  let '(lines, char_position') :=
    fill_step data line_height (lines, char_position) character in
  (lines, char_position', filled ++ [character]).

(** Returns the runtime with its lines filled, and the character vector as
    the two passes leave it. *)
Definition apply_word_wrapping (data : TextVars) (runtime : TextVarsRuntime)
    (image_size_x : Z) (characters : list CharInfo)
  : TextVarsRuntime * list CharInfo :=
  let wrap_width := wrap_width_get data image_size_x in
  let '(characters, _, _) :=
    fold_left (wrap_step data wrap_width) (seq 0 (length characters))
      (characters, (0, 0), None) in
  let '(lines, _, characters) :=
    fold_left (fill_turn data (line_height runtime)) characters
      (lines runtime ++ [empty_line], (0, 0), []) in
  ({| lines := lines; line_height := line_height runtime |}, characters).

(** The text [a b c] with advances 10, 4, 10, 4, 10 and a terminator, in an
    image 100 pixels wide. *)
Definition sample_text : list byte :=
  ["097"; "032"; "098"; "032"; "099"; "000"]%byte.

Definition sample_characters : list CharInfo :=
  map (fun i => {| index := Z.of_nat i; str_ptr := i; byte_length := 1;
                   advance_x := if Nat.even i then 10 else 4;
                   position := (0, 0); do_wrap := false |})
    (seq 0 6).

Definition sample_runtime : TextVarsRuntime :=
  {| lines := []; line_height := 20 |}.

(** A wrap width of 0.2 (20 pixels) breaks the sample text at its second
    space, where the running position, 24, first exceeds the width. *)
Example wrapping_breaks_lines :
  map width
    (lines (fst (apply_word_wrapping
                   {| text := sample_text;
                      wrap_width := F32.div F32.one (F32.of_int 5) |}
                   sample_runtime 100 sample_characters)))
  = [24; 10].
Proof. vm_compute. reflexivity. Qed.

(** The vector holds the positions of the second pass: the third character
    of the sample opens the second line. *)
Example wrapping_positions :
  map position
    (snd (apply_word_wrapping
            {| text := sample_text;
               wrap_width := F32.div F32.one (F32.of_int 5) |}
            sample_runtime 100 sample_characters))
  = [(0, 0); (10, 0); (14, 0); (24, 0); (0, -20); (10, -20)].
Proof. vm_compute. reflexivity. Qed.

End Text.

Module TextFacts.

Import Text.

Definition sum_advances (chars : list CharInfo) : Z :=
  foldr Z.add 0 (map advance_x chars).

(** A character with its position blanked: what the passes never change. *)
Definition erase (c : CharInfo) : CharInfo := set_position (0, 0) c.

(** A character of a text without line breaks, not marked for wrapping. *)
Definition plain (data : TextVars) (c : CharInfo) : bool :=
  negb (Byte.eqb (first_byte data c) newline)
  && negb (do_wrap c) && (0 <=? advance_x c).

Lemma plain_erase data c c' :
  erase c = erase c' -> plain data c = plain data c'.
Proof.
  unfold erase, set_position, plain, first_byte.
  destruct c, c'. cbn. now intros [= -> -> -> -> ->].
Qed.

Lemma advance_erase c c' : erase c = erase c' -> advance_x c = advance_x c'.
Proof. destruct c, c'. cbn. now intros [= -> -> -> -> ->]. Qed.

Lemma erase_set_position p c : erase (set_position p c) = erase c.
Proof. reflexivity. Qed.

Lemma map_erase_alter p i (l : list CharInfo) :
  map erase (alter (set_position p) i l) = map erase l.
Proof.
  revert i. induction l as [|c l IH]; intros [|i]; cbn; try reflexivity.
  f_equal. apply IH.
Qed.

Lemma sum_advances_app l1 l2 :
  sum_advances (l1 ++ l2) = sum_advances l1 + sum_advances l2.
Proof.
  unfold sum_advances. rewrite map_app, foldr_app.
  induction (map advance_x l1) as [|a l IH]; cbn; [reflexivity|].
  rewrite IH. lia.
Qed.

Lemma sum_advances_nonneg data l :
  forallb (plain data) l = true -> 0 <= sum_advances l.
Proof.
  induction l as [|c l IH]; cbn; [lia|].
  intros H. apply andb_prop in H as [Hc Hl]. unfold plain in Hc.
  apply andb_prop in Hc as [_ Ha]. apply Z.leb_le in Ha.
  specialize (IH Hl). unfold sum_advances in *. cbn. lia.
Qed.

Lemma sum_advances_erase l l' :
  map erase l = map erase l' -> sum_advances l = sum_advances l'.
Proof.
  revert l'. induction l as [|c l IH]; intros [|c' l']; cbn [map];
    try discriminate; [reflexivity|].
  intros H.
  assert (Hc : erase c = erase c') by congruence.
  assert (Hl : map erase l = map erase l') by congruence.
  unfold sum_advances in *. cbn [map foldr].
  rewrite (advance_erase _ _ Hc). f_equal. now apply IH.
Qed.

Lemma forallb_plain_erase data l l' :
  map erase l = map erase l' ->
  forallb (plain data) l = forallb (plain data) l'.
Proof.
  revert l'. induction l as [|c l IH]; intros [|c' l']; cbn [map forallb];
    try discriminate; [reflexivity|].
  intros H.
  assert (Hc : erase c = erase c') by congruence.
  assert (Hl : map erase l = map erase l') by congruence.
  rewrite (plain_erase data _ _ Hc). f_equal. now apply IH.
Qed.

Section NoWrap.
Variable data : TextVars.
Variable chars : list CharInfo.
Hypothesis chars_plain : forallb (plain data) chars = true.
Hypothesis chars_fit : sum_advances chars < 2 ^ 24.

Lemma prefix_bounds (i : nat) :
  0 <= sum_advances (take i chars) <= sum_advances chars.
Proof.
  rewrite <- (take_drop i chars) at 3. rewrite sum_advances_app.
  rewrite <- (take_drop i chars) in chars_plain.
  rewrite forallb_app in chars_plain.
  apply andb_prop in chars_plain as [Ht Hd].
  pose proof (sum_advances_nonneg data _ Ht).
  pose proof (sum_advances_nonneg data _ Hd). lia.
Qed.

(** The first pass with the width of "no wrapping": after [i] turns the
    position is the sum of the advances so far, and no character has
    changed but in its position. *)
Lemma first_pass_prefix (i : nat) :
  (i <= length chars)%nat ->
  exists chars' last_space,
    fold_left (wrap_step data INT_MAX) (seq 0 i) (chars, (0, 0), None)
    = (chars', (sum_advances (take i chars), 0), last_space)
    /\ map erase chars' = map erase chars.
Proof.
  induction i as [|i IH]; intros Hi.
  - exists chars, None. split; reflexivity.
  - destruct (IH ltac:(lia)) as (chars' & ls & Hfold & Herase).
    rewrite seq_S, fold_left_app, Hfold. cbn [fold_left Nat.add].
    destruct (lookup_lt_is_Some_2 chars i ltac:(lia)) as [c Hc].
    assert (Hc' : exists c', chars' !! i = Some c' /\ erase c' = erase c).
    { assert (Hl : map erase chars' !! i = Some (erase c)).
      { rewrite Herase. change (map erase chars) with (erase <$> chars).
        rewrite list_lookup_fmap, Hc. reflexivity. }
      change (map erase chars') with (erase <$> chars') in Hl.
      rewrite list_lookup_fmap in Hl.
      destruct (chars' !! i) as [c'|]; [|discriminate].
      exists c'. split; [reflexivity|]. cbn in Hl. congruence. }
    destruct Hc' as (c' & Hc' & Hec).
    assert (Hplain : plain data c = true).
    { rewrite forallb_forall in chars_plain. apply chars_plain.
      apply list_elem_of_In, list_elem_of_lookup. eauto. }
    assert (Hplain' : plain data c' = true)
      by (now rewrite (plain_erase data _ _ Hec)).
    unfold plain in Hplain'.
    apply andb_prop in Hplain' as [Hp Hadv].
    apply andb_prop in Hp as [Hnl _].
    apply negb_true_iff in Hnl. apply Z.leb_le in Hadv.
    pose proof (prefix_bounds i) as Hbi.
    pose proof (prefix_bounds (S i)) as Hbs.
    assert (Hsum : sum_advances (take (S i) chars)
                   = sum_advances (take i chars) + advance_x c').
    { rewrite (take_S_r _ _ _ Hc), sum_advances_app.
      pose proof (advance_erase _ _ Hec) as Ha.
      replace (sum_advances [c]) with (advance_x c)
        by (unfold sum_advances; cbn; lia).
      lia. }
    unfold wrap_step.
    rewrite (list_lookup_total_correct _ _ _ Hc'). rewrite Hnl.
    set (x := sum_advances (take i chars)) in *.
    assert (Hnowrap : (FInt.of_int INT_MAX <? x) = false).
    { apply Z.ltb_ge. change (FInt.of_int INT_MAX) with (2 ^ 31). lia. }
    assert (Hstep : FInt.add x (FInt.of_int (advance_x c')) = x + advance_x c').
    { unfold FInt.add, FInt.of_int.
      rewrite (FInt.round_int_small (advance_x c')) by lia.
      apply FInt.round_int_small. lia. }
    destruct (Byte.eqb (first_byte data c') space).
    + cbn [fst snd]. rewrite Hnowrap, andb_false_r.
      eexists _, _. split.
      * rewrite list_lookup_total_alter, (list_lookup_total_correct _ _ _ Hc').
        cbn [fst snd].
        destruct (decide _); cbn [advance_x set_position];
          rewrite Hstep, Hsum; reflexivity.
      * now rewrite map_erase_alter.
    + destruct ls as [ls|]; cbn [fst snd].
      * rewrite Hnowrap, andb_false_r.
        eexists _, _. split; [|exact Herase].
        rewrite (list_lookup_total_correct _ _ _ Hc').
        cbn [fst snd]. rewrite Hstep, Hsum. reflexivity.
      * eexists _, _. split; [|exact Herase].
        rewrite (list_lookup_total_correct _ _ _ Hc').
        cbn [fst snd]. rewrite Hstep, Hsum. reflexivity.
Qed.

End NoWrap.

(** The characters of a line as the second pass places them from [x]. *)
Fixpoint positioned (l : list CharInfo) (x y : Z) : list CharInfo :=
  match l with
  | [] => []
  | c :: l' => set_position (x, y) c :: positioned l' (x + advance_x c) y
  end.

Lemma map_erase_positioned l x y : map erase (positioned l x y) = map erase l.
Proof.
  revert x. induction l as [|c l IH]; intros x; [reflexivity|].
  cbn [positioned map]. now rewrite IH.
Qed.

(** The characters of [filled] are those of [l] with positions set. *)
Definition positions_set (filled l : list CharInfo) : Prop :=
  Forall2 (fun c' c => exists p, c' = set_position p c) filled l.

(** The turns of the second pass: the lines and the position go as
    [fill_step] takes them, and the vector gets the characters with their
    positions. *)
Lemma fill_turns data line_height (l : list CharInfo) :
  forall (lines : list LineInfo) (pos : float2) (filled : list CharInfo),
  exists filled',
    fold_left (fill_turn data line_height) l (lines, pos, filled)
    = (fold_left (fill_step data line_height) l (lines, pos),
       filled ++ filled')
    /\ positions_set filled' l.
Proof.
  induction l as [|c l IH]; intros lines pos filled.
  - exists []. cbn. rewrite app_nil_r. split; [reflexivity|constructor].
  - cbn [fold_left]. unfold fill_turn at 2.
    change (fill_step data line_height (lines, pos) (set_position pos c))
      with (fill_step data line_height (lines, pos) c).
    destruct (fill_step data line_height (lines, pos) c) as [lines1 pos1].
    destruct (IH lines1 pos1 (filled ++ [set_position pos c]))
      as (filled' & -> & Hset).
    exists (set_position pos c :: filled'). split.
    + now rewrite <- app_assoc.
    + constructor; [now exists pos|exact Hset].
Qed.

Lemma positions_set_erase filled l :
  positions_set filled l -> map erase filled = map erase l.
Proof.
  induction 1 as [|c' c filled l [p ->] _ IH]; [reflexivity|].
  cbn [map]. now rewrite erase_set_position, IH.
Qed.

Lemma positions_set_map {A : Type} (f : CharInfo -> A) filled l :
  (forall p c, f (set_position p c) = f c) ->
  positions_set filled l -> map f filled = map f l.
Proof.
  intros Hf. induction 1 as [|c' c filled l [p ->] _ IH]; [reflexivity|].
  cbn [map]. now rewrite Hf, IH.
Qed.

Lemma positions_set_Forall (P : CharInfo -> Prop) filled l :
  (forall p c, P c -> P (set_position p c)) ->
  positions_set filled l -> Forall P l -> Forall P filled.
Proof.
  intros HP. induction 1 as [|c' c filled l [p ->] _ IH]; intros Hl;
    [constructor|].
  apply Forall_cons in Hl as [Hc Hl]. constructor; [now apply HP|now apply IH].
Qed.

Lemma positions_set_filter (f : CharInfo -> bool) filled l :
  (forall p c, f (set_position p c) = f c) ->
  positions_set filled l ->
  length (List.filter f filled) = length (List.filter f l).
Proof.
  intros Hf. induction 1 as [|c' c filled l [p ->] _ IH]; [reflexivity|].
  cbn [List.filter]. rewrite Hf. destruct (f c); cbn [length]; now rewrite IH.
Qed.

(** The second pass over characters that are not marked and are no line
    breaks: they all go to the line that is open. *)
Lemma fill_single_line data line_height (l : list CharInfo) (line : LineInfo)
    (x y : Z) :
  forallb (plain data) l = true -> 0 <= x -> x + sum_advances l < 2 ^ 24 ->
  fold_left (fill_step data line_height) l ([line], (x, y))
  = ([ {| characters := characters line ++ positioned l x y;
          width := match l with
                   | [] => width line
                   | _ :: _ => x + sum_advances (removelast l)
                   end |} ],
     (x + sum_advances l, y)).
Proof.
  revert line x. induction l as [|c l IH]; intros line x Hp Hx Hfit.
  - cbn. rewrite app_nil_r, Z.add_0_r. now destruct line.
  - cbn [forallb] in Hp. apply andb_prop in Hp as [Hc Hl].
    assert (Hs : sum_advances (c :: l) = advance_x c + sum_advances l)
      by reflexivity.
    pose proof (sum_advances_nonneg data l Hl) as Hnn.
    unfold plain in Hc. apply andb_prop in Hc as [Hc Hadv].
    apply andb_prop in Hc as [Hnl Hdw].
    apply negb_true_iff in Hnl, Hdw. apply Z.leb_le in Hadv.
    cbn [fold_left]. unfold fill_step at 2.
    change (first_byte data (set_position (x, y) c)) with (first_byte data c).
    cbn [do_wrap set_position advance_x fst snd].
    rewrite Hdw, Hnl. cbn [orb].
    assert (Hstep : FInt.add x (FInt.of_int (advance_x c)) = x + advance_x c).
    { unfold FInt.add, FInt.of_int.
      rewrite (FInt.round_int_small (advance_x c)) by lia.
      apply FInt.round_int_small. lia. }
    rewrite Hstep.
    change (on_last ?f (on_last ?g [line])) with [f (g line)].
    rewrite IH by (try assumption; lia).
    cbn [characters width positioned]. rewrite <- app_assoc. cbn [app].
    rewrite Hs.
    replace (x + sum_advances (removelast (c :: l)))
      with (match l with
            | [] => x
            | _ :: _ => x + advance_x c + sum_advances (removelast l)
            end).
    { do 2 f_equal. lia. }
    destruct l as [|c' l]; [cbn; lia|].
    change (removelast (c :: c' :: l)) with (c :: removelast (c' :: l)).
    change (sum_advances (c :: removelast (c' :: l)))
      with (advance_x c + sum_advances (removelast (c' :: l))).
    lia.
Qed.

(** C9.  With a wrap width of 0 and characters none of which is a line break
    (the characters of the text, then its terminator), the word wrapping
    marks no character, fills exactly one line with all the characters, and
    gives that line the sum of the advances of the characters of the text as
    its width.  The advances are those of glyphs: not negative, and with a
    sum that a [float] holds exactly. *)
Theorem no_wrap_width_one_line (data : TextVars) (runtime : TextVarsRuntime)
    (image_size_x : Z) (chars : list CharInfo) (terminator : CharInfo) :
  F32.eqb (wrap_width data) F32.zero = true ->
  lines runtime = [] ->
  forallb (plain data) (chars ++ [terminator]) = true ->
  sum_advances (chars ++ [terminator]) < 2 ^ 24 ->
  wrap_width_get data image_size_x = INT_MAX
  /\ exists line,
       lines (fst (apply_word_wrapping data runtime image_size_x
                     (chars ++ [terminator]))) = [line]
       /\ width line = sum_advances chars
       /\ map erase (characters line) = map erase (chars ++ [terminator])
       /\ existsb do_wrap
            (snd (apply_word_wrapping data runtime image_size_x
                    (chars ++ [terminator]))) = false.
Proof.
  intros Hzero Hlines Hplain Hfit.
  assert (Hw : wrap_width_get data image_size_x = INT_MAX).
  { unfold wrap_width_get. now rewrite Hzero. }
  split; [exact Hw|].
  unfold apply_word_wrapping. rewrite Hw, Hlines.
  destruct (first_pass_prefix data _ Hplain Hfit (length (chars ++ [terminator]))
              (Nat.le_refl _)) as (chars' & ls & Hfold & Herase).
  rewrite Hfold. cbn [app].
  assert (Hplain' : forallb (plain data) chars' = true)
    by (now rewrite (forallb_plain_erase data _ _ Herase)).
  assert (Hsum' : sum_advances chars' = sum_advances (chars ++ [terminator]))
    by (now apply sum_advances_erase).
  destruct (fill_turns data (line_height runtime) chars' [empty_line] (0, 0)
              []) as (filled & Hturns & Hset).
  unfold float2 in *. rewrite Hturns.
  rewrite fill_single_line by (try assumption; lia).
  cbn [fst snd lines].
  eexists. split; [reflexivity|]. cbn [width characters app].
  assert (Hlen : length chars' = length (chars ++ [terminator])).
  { rewrite <- (length_map erase chars'), Herase. apply length_map. }
  split; [|split].
  - destruct chars' as [|c0 chars'].
    { rewrite length_app in Hlen. cbn in Hlen. lia. }
    rewrite Z.add_0_l. apply sum_advances_erase.
    rewrite <- (removelast_last chars terminator).
    clear -Herase. revert Herase. generalize (chars ++ [terminator]).
    generalize (c0 :: chars'). clear.
    induction l as [|a l IH]; intros [|b l']; cbn [map];
      try discriminate; [reflexivity|].
    intros H. assert (Ha : erase a = erase b) by congruence.
    assert (Hl : map erase l = map erase l') by congruence.
    destruct l as [|a' l], l' as [|b' l']; try discriminate; [reflexivity|].
    change (removelast (a :: a' :: l)) with (a :: removelast (a' :: l)).
    change (removelast (b :: b' :: l')) with (b :: removelast (b' :: l')).
    cbn [map]. rewrite Ha. f_equal. now apply IH.
  - change (characters empty_line) with (@nil CharInfo). cbn [app].
    now rewrite map_erase_positioned.
  - assert (Hmarks : map do_wrap filled = map do_wrap chars')
      by (now apply positions_set_map).
    assert (Hex : forall l : list CharInfo,
              existsb do_wrap l = existsb (fun b => b) (map do_wrap l)).
    { clear. induction l as [|c l IH]; [reflexivity|].
      cbn [map existsb]. now rewrite IH. }
    rewrite Hex, Hmarks, <- Hex.
    clear -Hplain'. induction chars' as [|c l IH]; [reflexivity|].
    cbn [forallb existsb] in *. apply andb_prop in Hplain' as [Hc Hl].
    unfold plain in Hc. apply andb_prop in Hc as [Hc _].
    apply andb_prop in Hc as [_ Hdw]. apply negb_true_iff in Hdw.
    rewrite Hdw. cbn [orb]. now apply IH.
Qed.

Definition sample_unwrapped : TextVars :=
  {| text := sample_text; wrap_width := F32.zero |}.

Definition sample_terminator : CharInfo :=
  {| index := 5; str_ptr := 5; byte_length := 1; advance_x := 4;
     position := (0, 0); do_wrap := false |}.

Lemma no_wrap_width_one_line_witness :
  map width
    (lines (fst (apply_word_wrapping sample_unwrapped sample_runtime 100
                   (take 5 sample_characters ++ [sample_terminator]))))
  = [38].
Proof.
  destruct (no_wrap_width_one_line sample_unwrapped sample_runtime 100
              (take 5 sample_characters) sample_terminator)
    as (_ & line & Hl & Hw & _).
  - vm_compute. reflexivity.
  - reflexivity.
  - vm_compute. reflexivity.
  - vm_compute. reflexivity.
  - rewrite Hl. cbn [map]. rewrite Hw. vm_compute. reflexivity.
Defined.

End TextFacts.

(** ** Text outline: jump flooding *)

Module Jfa.

Definition JFA_INVALID : Z := 65535.

(** Both fields are [uint16_t]. *)
Record JFACoord : Type := { coord_x : Z; coord_y : Z }.

Definition invalid_coord : JFACoord :=
  {| coord_x := JFA_INVALID; coord_y := JFA_INVALID |}.

#[global] Instance JFACoord_inhabited : Inhabited JFACoord :=
  populate invalid_coord.

(** The narrowing to [uint16_t]. *)
Definition uint16 (z : Z) : Z := z mod 65536.

(** An [IndexRange]: its start and its size. *)
Definition IndexRange : Type := Z * Z.
Definition range_list (r : IndexRange) : list Z := Zrange (fst r) (snd r).

(** [math::distance_squared] of the vector library, on [float2] values that
    hold integers: [dot (a - b) (a - b)]. *)
Definition distance_squared (a b : Z * Z) : Z :=
  let dx := FInt.sub (fst a) (fst b) in
  let dy := FInt.sub (snd a) (snd b) in
  FInt.add (FInt.mul dx dx) (FInt.mul dy dy).

(** [for (d; d <= step_size; d += step_size)]: the values [d] takes, when
    the loop ends within [fuel] tests of its condition, and [None] when it
    does not. *)
Fixpoint offsets_loop (fuel : nat) (d step_size : Z) : option (list Z) :=
  match fuel with
  | O => None
  | S fuel =>
      if d <=? step_size
      then cons d <$> offsets_loop fuel (d + step_size) step_size
      else Some []
  end.

(** The values of [d] in [for (d = -step_size; d <= step_size;
    d += step_size)].  With a step that is not 0 the loop ends within four
    tests; with a step of 0 it never ends, and there is no list. *)
Definition sample_offsets (step_size : Z) : option (list Z) :=
  offsets_loop 4 (- step_size) step_size.

(** A loop over [l] whose body may not end. *)
Definition for_each {St A : Type} (l : list A) (body : St -> A -> option St)
    (st : St) : option St :=
  fold_left (fun st a => st ≫= fun st => body st a) l (Some st).

(** [closest_texel] and [minimum_squared_distance] after a sample. *)
Definition take_closer (coord : Z * Z) (st : JFACoord * Z) (val : JFACoord)
  : JFACoord * Z :=
  let squared_distance :=
    distance_squared (FInt.of_int (coord_x val), FInt.of_int (coord_y val))
      coord in
  if squared_distance <? snd st then (val, squared_distance) else st.

(** The body of the pixel loop: the closest of the nine samples.  The loop
    over [dy] and, inside it, the loop over [dx] go through the same
    offsets. *)
Definition closest_texel_at (input : list JFACoord) (size_x size_y : Z)
    (step_size : Z) (x y : Z) : option JFACoord :=
  offsets ← sample_offsets step_size;
  let coord := (FInt.of_int x, FInt.of_int y) in
  Some
    (fst (fold_left
            (fun (st : JFACoord * Z) dy =>
               let yy := y + dy in
               if (yy <? 0) || (size_y <=? yy) then st
               else
                 fold_left
                   (fun (st : JFACoord * Z) dx =>
                      let xx := x + dx in
                      if (xx <? 0) || (size_x <=? xx) then st
                      else
                        let val := input !!! Z.to_nat (yy * size_x + xx) in
                        if coord_x val =? JFA_INVALID then st
                        else take_closer coord st val)
                   offsets st)
            offsets
            (invalid_coord, FInt.FLT_MAX))).

Definition jump_flooding_pass (input output : list JFACoord)
    (size_x size_y : Z) (x_range y_range : IndexRange) (step_size : Z)
  : option (list JFACoord) :=
  for_each (range_list y_range)
    (fun (output : list JFACoord) y =>
       let index := y * size_x in
       for_each (range_list x_range)
         (fun (output : list JFACoord) x =>
            closest_texel ← closest_texel_at input size_x size_y step_size x y;
            Some (<[Z.to_nat (index + x) := closest_texel]> output))
         output)
    output.

(** The initialisation of the flooding from the alpha of the text drawn in
    white: the coordinates of a pixel that is opaque, invalid otherwise. *)
Definition init_boundary (alpha : list byte) (size_x size_y : Z)
  : list JFACoord :=
  flat_map
    (fun y =>
       map (fun x =>
              let index := Z.to_nat (y * size_x + x) in
              let is_opaque := 128 <=? uchar_to_int (alpha !!! index) in
              {| coord_x := if is_opaque then uint16 x else JFA_INVALID;
                 coord_y := if is_opaque then uint16 y else JFA_INVALID |})
         (Zrange 0 size_x))
    (Zrange 0 size_y).

(** One turn of the flooding loop on the two buffers, the one to flood
    first: a pass from it into the other, then the swap. *)
Definition flood_turn (size_x size_y : Z) (x_range y_range : IndexRange)
    (bufs : list JFACoord * list JFACoord) (step_size : Z)
  : option (list JFACoord * list JFACoord) :=
  let '(result_to_flood, result_after_flooding) := bufs in
  flooded ← jump_flooding_pass result_to_flood result_after_flooding
              size_x size_y x_range y_range step_size;
  Some (flooded, result_to_flood).

(** [while (step_size != 0) { turn; step_size /= 2; }], by recursion on the
    binary digits of the step: halving drops the last one. *)
Fixpoint flood_from (turn : list JFACoord * list JFACoord -> Z ->
                            option (list JFACoord * list JFACoord))
    (negative : bool) (p : positive)
    (bufs : list JFACoord * list JFACoord)
  : option (list JFACoord * list JFACoord) :=
  bufs ← turn bufs (if negative then Zneg p else Zpos p);
  match p with
  | xH => Some bufs
  | xO q | xI q => flood_from turn negative q bufs
  end.

Definition flood_loop (turn : list JFACoord * list JFACoord -> Z ->
                            option (list JFACoord * list JFACoord))
    (step_size : Z) (bufs : list JFACoord * list JFACoord)
  : option (list JFACoord * list JFACoord) :=
  match step_size with
  | Z0 => Some bufs
  | Zpos p => flood_from turn false p bufs
  | Zneg p => flood_from turn true p bufs
  end.

Section Outline.

(** [power_of_2_max_i] belongs to a maths library that is not among the
    sources at hand: a parameter. *)
Variable power_of_2_max_i : Z -> Z.

(** The flooding of [draw_text_outline]: the buffer [result_to_flood] as the
    compositing loop reads it. *)
Definition outline_flood (alpha : list byte) (size_x size_y : Z)
    (outline_width : Z) (rect_x_range rect_y_range : IndexRange)
  : option (list JFACoord) :=
  let pixel_count := Z.to_nat (size_x * size_y) in
  let boundary := init_boundary alpha size_x size_y in
  initial_flooded_result ←
    jump_flooding_pass boundary (replicate pixel_count invalid_coord)
      size_x size_y rect_x_range rect_y_range 1;
  let intermediate_result := replicate pixel_count invalid_coord in
  let step_size := power_of_2_max_i outline_width ÷ 2 in
  fst <$> flood_loop (flood_turn size_x size_y rect_x_range rect_y_range)
            step_size (initial_flooded_result, intermediate_result).

End Outline.

(** The steps of the turns of the loop, first to last. *)
Fixpoint steps_from (negative : bool) (p : positive) : list Z :=
  (if negative then Zneg p else Zpos p)
  :: match p with
     | xH => []
     | xO q | xI q => steps_from negative q
     end.

Definition loop_steps (step_size : Z) : list Z :=
  match step_size with
  | Z0 => []
  | Zpos p => steps_from false p
  | Zneg p => steps_from true p
  end.

(** The step sizes of all the passes of an outline, in order. *)
Definition pass_steps (power_of_2_max_i : Z -> Z) (outline_width : Z)
  : list Z :=
  1 :: loop_steps (power_of_2_max_i outline_width ÷ 2).

(** Modelled from the spec: [power_of_2_max_i], as section 4.3 describes the
    first step of the loop, "the largest power-of-two <= half the desired
    outline width": the largest power of two that does not exceed its
    argument, whose half is that step. *)
Definition largest_power_of_2 (n : Z) : Z :=
  if 0 <? n then 2 ^ Z.log2 n else 0.

(** A 5 by 5 mask with one opaque pixel, in the middle. *)
Definition sample_mask : list byte :=
  replicate 12 "000"%byte ++ ["255"%byte] ++ replicate 12 "000"%byte.

Example flood_width_1 :
  map (fun c => coord_x c =? JFA_INVALID)
    <$> outline_flood largest_power_of_2 sample_mask 5 5 1 (0, 5) (0, 5)
  = Some [true; true; true; true; true;
          true; false; false; false; true;
          true; false; false; false; true;
          true; false; false; false; true;
          true; true; true; true; true].
Proof. vm_compute. reflexivity. Qed.

Example flood_width_2 :
  outline_flood largest_power_of_2 sample_mask 5 5 2 (0, 5) (0, 5)
  = Some (replicate 25 {| coord_x := 2; coord_y := 2 |}).
Proof. vm_compute. reflexivity. Qed.

(** With a step of 0 the pass has no result as soon as it has a pixel to
    go through. *)
Example pass_step_0 :
  jump_flooding_pass (init_boundary sample_mask 5 5)
    (replicate 25 invalid_coord) 5 5 (0, 5) (0, 5) 0 = None.
Proof. vm_compute. reflexivity. Qed.

End Jfa.

Module JfaFacts.

Import Jfa.

(** *** What the loops compute when they end

    The offsets, the closest sample, a pass and the turns as total
    functions; the lemmas of the last part show that they are what the
    loops return whenever no pass is run with a step of 0. *)

Definition offsets_of (step_size : Z) : list Z :=
  if 0 <? step_size then [- step_size; 0; step_size] else [].

Definition closest_value (input : list JFACoord) (size_x size_y : Z)
    (step_size : Z) (x y : Z) : JFACoord :=
  let coord := (FInt.of_int x, FInt.of_int y) in
  fst (fold_left
         (fun (st : JFACoord * Z) dy =>
            let yy := y + dy in
            if (yy <? 0) || (size_y <=? yy) then st
            else
              fold_left
                (fun (st : JFACoord * Z) dx =>
                   let xx := x + dx in
                   if (xx <? 0) || (size_x <=? xx) then st
                   else
                     let val := input !!! Z.to_nat (yy * size_x + xx) in
                     if coord_x val =? JFA_INVALID then st
                     else take_closer coord st val)
                (offsets_of step_size) st)
         (offsets_of step_size)
         (invalid_coord, FInt.FLT_MAX)).

Definition pass_value (input output : list JFACoord)
    (size_x size_y : Z) (x_range y_range : IndexRange) (step_size : Z)
  : list JFACoord :=
  fold_left
    (fun (output : list JFACoord) y =>
       let index := y * size_x in
       fold_left
         (fun (output : list JFACoord) x =>
            <[Z.to_nat (index + x) :=
                closest_value input size_x size_y step_size x y]> output)
         (range_list x_range) output)
    (range_list y_range) output.

Definition turn_value (size_x size_y : Z) (x_range y_range : IndexRange)
    (bufs : list JFACoord * list JFACoord) (step_size : Z)
  : list JFACoord * list JFACoord :=
  let '(result_to_flood, result_after_flooding) := bufs in
  (pass_value result_to_flood result_after_flooding size_x size_y
     x_range y_range step_size,
   result_to_flood).

Fixpoint flood_from_value (turn : list JFACoord * list JFACoord -> Z ->
                                  list JFACoord * list JFACoord)
    (negative : bool) (p : positive)
    (bufs : list JFACoord * list JFACoord)
  : list JFACoord * list JFACoord :=
  let bufs := turn bufs (if negative then Zneg p else Zpos p) in
  match p with
  | xH => bufs
  | xO q | xI q => flood_from_value turn negative q bufs
  end.

Definition flood_value (turn : list JFACoord * list JFACoord -> Z ->
                               list JFACoord * list JFACoord)
    (step_size : Z) (bufs : list JFACoord * list JFACoord)
  : list JFACoord * list JFACoord :=
  match step_size with
  | Z0 => bufs
  | Zpos p => flood_from_value turn false p bufs
  | Zneg p => flood_from_value turn true p bufs
  end.

Definition outline_value (power_of_2_max_i : Z -> Z) (alpha : list byte)
    (size_x size_y : Z) (outline_width : Z)
    (rect_x_range rect_y_range : IndexRange) : list JFACoord :=
  let pixel_count := Z.to_nat (size_x * size_y) in
  let boundary := init_boundary alpha size_x size_y in
  let initial_flooded_result :=
    pass_value boundary (replicate pixel_count invalid_coord)
      size_x size_y rect_x_range rect_y_range 1 in
  let intermediate_result := replicate pixel_count invalid_coord in
  let step_size := power_of_2_max_i outline_width ÷ 2 in
  fst (flood_value (turn_value size_x size_y rect_x_range rect_y_range)
         step_size (initial_flooded_result, intermediate_result)).

(** *** Loops that write an array *)

Lemma fold_left_ext {St A : Type} (f g : St -> A -> St) (l : list A) (st : St) :
  (forall st a, In a l -> f st a = g st a) ->
  fold_left f l st = fold_left g l st.
Proof.
  revert st. induction l as [|a l IH]; intros st He; [reflexivity|].
  cbn. rewrite He by (now left). apply IH. intros st' b Hb. apply He. now right.
Qed.

Lemma fold_left_flat_map {St A B : Type} (f : St -> B -> St) (g : A -> list B)
    (l : list A) (st : St) :
  fold_left f (flat_map g l) st
  = fold_left (fun st a => fold_left f (g a) st) l st.
Proof.
  revert st. induction l as [|a l IH]; intros st; [reflexivity|].
  cbn. now rewrite fold_left_app, IH.
Qed.

Section Writes.
Context {A B : Type}.
Variables (idx : B -> nat) (f : B -> A).

Definition write_all (cells : list B) (out : list A) : list A :=
  fold_left (fun out c => <[idx c := f c]> out) cells out.

Lemma write_all_length cells out : length (write_all cells out) = length out.
Proof.
  unfold write_all. revert out.
  induction cells as [|c cells IH]; intros out; [reflexivity|].
  cbn. now rewrite IH, length_insert.
Qed.

Lemma write_all_snoc cells c out :
  write_all (cells ++ [c]) out = <[idx c := f c]> (write_all cells out).
Proof. unfold write_all. now rewrite fold_left_app. Qed.

Lemma write_all_other cells out i :
  (forall c, In c cells -> idx c <> i) -> write_all cells out !! i = out !! i.
Proof.
  induction cells as [|c cells IH] using rev_ind; intros Hno; [reflexivity|].
  rewrite write_all_snoc, list_lookup_insert_ne.
  - apply IH. intros c' Hc'. apply Hno, in_or_app. now left.
  - apply Hno, in_or_app. right. now left.
Qed.

Lemma write_all_hit cells out c :
  In c cells -> (idx c < length out)%nat ->
  (forall c', In c' cells -> idx c' = idx c -> f c' = f c) ->
  write_all cells out !! idx c = Some (f c).
Proof.
  induction cells as [|c1 cells IH] using rev_ind; intros Hin Hlen Hsame;
    [destruct Hin|].
  rewrite write_all_snoc.
  destruct (decide (idx c1 = idx c)) as [Heq|Hne].
  - rewrite Heq, list_lookup_insert_eq by (now rewrite write_all_length).
    f_equal. apply Hsame; [apply in_or_app; right; now left|exact Heq].
  - rewrite list_lookup_insert_ne by exact Hne.
    apply in_app_or in Hin as [Hin|[->|[]]]; [|contradiction].
    apply IH; [assumption..|].
    intros c' Hc'. apply Hsame, in_or_app. now left.
Qed.

End Writes.

(** *** One pass *)

Definition in_range (r : IndexRange) (v : Z) : Prop :=
  fst r <= v < fst r + snd r.

Lemma in_range_list r v : In v (range_list r) <-> in_range r v.
Proof.
  unfold range_list, Zrange, in_range. rewrite in_map_iff. split.
  - intros (i & <- & Hi). apply in_seq in Hi. lia.
  - intros Hv. exists (Z.to_nat (v - fst r)). split; [lia|].
    apply in_seq. lia.
Qed.

(** The index of a pixel in a buffer. *)
Definition pixel_index (size_x x y : Z) : nat := Z.to_nat (y * size_x + x).

Definition texel (buf : list JFACoord) (size_x x y : Z) : JFACoord :=
  buf !!! pixel_index size_x x y.

Lemma pixel_index_inj size_x x y x' y' :
  0 <= x < size_x -> 0 <= x' < size_x -> 0 <= y -> 0 <= y' ->
  pixel_index size_x x y = pixel_index size_x x' y' -> x = x' /\ y = y'.
Proof.
  unfold pixel_index. intros Hx Hx' Hy Hy' Heq.
  assert (H : y * size_x + x = y' * size_x + x') by nia.
  assert (y = y') by nia. subst. lia.
Qed.

Lemma pixel_index_lt size_x size_y x y :
  0 <= x < size_x -> 0 <= y < size_y ->
  (pixel_index size_x x y < Z.to_nat (size_x * size_y))%nat.
Proof. unfold pixel_index. intros Hx Hy. nia. Qed.

Section Pass.
Variables (input output : list JFACoord) (size_x size_y : Z).
Variables (x_range y_range : IndexRange) (step_size : Z).
Hypothesis x_range_in : 0 <= fst x_range /\ fst x_range + snd x_range <= size_x.
Hypothesis y_range_in : 0 <= fst y_range /\ fst y_range + snd y_range <= size_y.
Hypothesis output_size : length output = Z.to_nat (size_x * size_y).

Lemma pass_as_writes :
  pass_value input output size_x size_y x_range y_range step_size
  = write_all (fun c => pixel_index size_x (fst c) (snd c))
      (fun c => closest_value input size_x size_y step_size (fst c) (snd c))
      (flat_map (fun y => map (fun x => (x, y)) (range_list x_range))
         (range_list y_range))
      output.
Proof.
  unfold pass_value, write_all. cbv zeta.
  apply (BlurFacts.fold_rows
           (fun (out : list JFACoord) x y =>
              <[Z.to_nat (y * size_x + x) :=
                  closest_value input size_x size_y step_size x y]> out)).
Qed.

Lemma pass_length :
  length (pass_value input output size_x size_y x_range y_range
            step_size) = length output.
Proof. rewrite pass_as_writes. apply write_all_length. Qed.

Lemma in_pass_cells (c : Z * Z) :
  In c (flat_map (fun y => map (fun x => (x, y)) (range_list x_range))
          (range_list y_range))
  <-> in_range x_range (fst c) /\ in_range y_range (snd c).
Proof.
  rewrite in_flat_map. split.
  - intros (y & Hy & Hc). apply in_map_iff in Hc as (x & <- & Hx).
    now rewrite <- !in_range_list.
  - intros [Hx Hy]. exists (snd c). rewrite in_range_list. split; [exact Hy|].
    apply in_map_iff. exists (fst c). rewrite in_range_list.
    split; [now destruct c|exact Hx].
Qed.

(** Inside the rectangle a pass writes the closest sample. *)
Lemma pass_inside (x y : Z) :
  in_range x_range x -> in_range y_range y ->
  texel (pass_value input output size_x size_y x_range y_range
           step_size) size_x x y
  = closest_value input size_x size_y step_size x y.
Proof.
  intros Hx Hy. unfold texel. rewrite pass_as_writes.
  unfold in_range in *.
  apply list_lookup_total_correct.
  apply (write_all_hit (fun c => pixel_index size_x (fst c) (snd c))
           (fun c => closest_value input size_x size_y step_size
                       (fst c) (snd c)) _ _ (x, y)).
  - apply in_pass_cells. cbn. unfold in_range. lia.
  - rewrite output_size. cbn. apply pixel_index_lt; lia.
  - intros [x' y'] Hc Heq. apply in_pass_cells in Hc as [Hx' Hy'].
    unfold in_range in *. cbn [fst snd] in *.
    apply pixel_index_inj in Heq as [-> ->]; [reflexivity|lia..].
Qed.

(** Outside the rectangle it leaves the output buffer as it was. *)
Lemma pass_outside (x y : Z) :
  0 <= x < size_x -> 0 <= y < size_y ->
  ~ (in_range x_range x /\ in_range y_range y) ->
  texel (pass_value input output size_x size_y x_range y_range
           step_size) size_x x y
  = texel output size_x x y.
Proof.
  intros Hx Hy Hout. unfold texel. rewrite pass_as_writes.
  rewrite !list_lookup_total_alt. f_equal.
  apply write_all_other. intros [x' y'] Hc Heq.
  apply in_pass_cells in Hc as [Hx' Hy']. cbn [fst snd] in *.
  unfold in_range in *.
  apply pixel_index_inj in Heq as [-> ->]; [|lia..].
  apply Hout. lia.
Qed.

End Pass.

(** *** The closest of the nine samples *)

Lemma round_int_bound (z : Z) : Z.abs (FInt.round_int z) <= 2 * Z.abs z.
Proof.
  unfold FInt.round_int.
  destruct (Z.ltb_spec (Z.abs z) (2 ^ 24)) as [|Hbig]; [lia|].
  cbv zeta.
  set (a := Z.abs z) in *.
  set (e := Z.log2 a - 23).
  assert (Ha : 0 < a) by lia.
  pose proof (Z.log2_spec a Ha) as [Hlo _].
  assert (Hlog : 24 <= Z.log2 a)
    by (apply (Z.log2_le_pow2 a 24); lia).
  assert (He : 0 <= e) by (unfold e; lia).
  assert (Hpow : 2 ^ Z.log2 a = 2 ^ e * 2 ^ 23)
    by (rewrite <- Z.pow_add_r by lia; f_equal; unfold e; lia).
  assert (Hpos : 0 < 2 ^ e) by (apply Z.pow_pos_nonneg; lia).
  pose proof (Z.mul_div_le a (2 ^ e) Hpos) as Hq.
  assert (Hq0 : 0 <= a / 2 ^ e) by (apply Z.div_pos; lia).
  set (q := a / 2 ^ e) in *.
  assert (Hle : 2 ^ e <= a) by nia.
  assert (Hres : forall q', 0 <= q' <= q + 1 ->
            Z.abs (Z.sgn z * (q' * 2 ^ e)) <= 2 * a).
  { intros q' Hq'. rewrite Z.abs_mul.
    replace (Z.abs (Z.sgn z)) with 1 by (destruct z; cbn in *; lia).
    rewrite Z.abs_eq by nia. nia. }
  destruct (2 * (a mod 2 ^ e) ?= 2 ^ e); [destruct (Z.even q)|..];
    apply Hres; lia.
Qed.

Lemma round_abs_le (z b : Z) :
  Z.abs z <= b -> Z.abs (FInt.round_int z) <= 2 * b.
Proof. intros Hz. pose proof (round_int_bound z). lia. Qed.

Lemma abs_square_le (d b : Z) : Z.abs d <= b -> Z.abs (d * d) <= b * b.
Proof.
  intros Hd. rewrite Z.abs_mul.
  apply Z.mul_le_mono_nonneg; try exact Hd; apply Z.abs_nonneg.
Qed.

Lemma distance_squared_lt_max (vx vy x y : Z) :
  0 <= vx <= 65535 -> 0 <= vy <= 65535 ->
  Z.abs x <= 2 ^ 31 -> Z.abs y <= 2 ^ 31 ->
  distance_squared (FInt.of_int vx, FInt.of_int vy)
    (FInt.of_int x, FInt.of_int y) < FInt.FLT_MAX.
Proof.
  intros Hvx Hvy Hx Hy.
  unfold distance_squared, FInt.of_int, FInt.add, FInt.sub, FInt.mul.
  cbn [fst snd].
  rewrite (FInt.round_int_small vx), (FInt.round_int_small vy) by lia.
  assert (Hside : forall v c, 0 <= v <= 65535 -> Z.abs c <= 2 ^ 31 ->
            let d := FInt.round_int (v - FInt.round_int c) in
            Z.abs (FInt.round_int (d * d)) <= 2 ^ 69).
  { intros v c Hv Hc d.
    pose proof (round_abs_le c _ Hc) as Hfc.
    assert (Hdiff : Z.abs (v - FInt.round_int c) <= 2 ^ 33)
      by (clear - Hv Hfc; lia).
    pose proof (round_abs_le _ _ Hdiff) as Hd. fold d in Hd.
    change (2 * 2 ^ 33) with (2 ^ 34) in Hd.
    pose proof (abs_square_le d _ Hd) as Hsq.
    apply (round_abs_le _ _ Hsq). }
  pose proof (Hside vx x Hvx Hx) as Hxx.
  pose proof (Hside vy y Hvy Hy) as Hyy.
  cbv zeta in Hxx, Hyy.
  set (xx := FInt.round_int _) in Hxx |- *.
  set (yy := FInt.round_int _) in Hyy |- *.
  clearbody xx yy.
  assert (Hsum : Z.abs (xx + yy) <= 2 ^ 70) by (clear - Hxx Hyy; lia).
  pose proof (round_abs_le _ _ Hsum) as Hres.
  assert (Hmax : 2 * 2 ^ 70 < FInt.FLT_MAX) by (vm_compute; reflexivity).
  clear - Hres Hmax. lia.
Qed.

Lemma square_lt (d b : Z) : - b < d < b -> 0 <= d * d < b * b.
Proof. intros Hd. destruct (Z.le_ge_cases 0 d); nia. Qed.

(** Below [2 ^ 24] the distance is the squared Euclidean distance. *)
Lemma distance_squared_exact (vx vy x y : Z) :
  0 <= x < 2896 -> 0 <= y < 2896 -> 0 <= vx < 2896 -> 0 <= vy < 2896 ->
  distance_squared (FInt.of_int vx, FInt.of_int vy)
    (FInt.of_int x, FInt.of_int y)
  = (vx - x) * (vx - x) + (vy - y) * (vy - y).
Proof.
  intros Hx Hy Hvx Hvy.
  unfold distance_squared, FInt.of_int, FInt.add, FInt.sub, FInt.mul.
  cbn [fst snd].
  rewrite (FInt.round_int_small vx), (FInt.round_int_small vy),
    (FInt.round_int_small x), (FInt.round_int_small y) by lia.
  rewrite (FInt.round_int_small (vx - x)), (FInt.round_int_small (vy - y))
    by lia.
  assert (Hbx : 0 <= (vx - x) * (vx - x) < 2896 * 2896)
    by (apply square_lt; lia).
  assert (Hby : 0 <= (vy - y) * (vy - y) < 2896 * 2896)
    by (apply square_lt; lia).
  rewrite (FInt.round_int_small ((vx - x) * (vx - x))) by lia.
  rewrite (FInt.round_int_small ((vy - y) * (vy - y))) by lia.
  apply FInt.round_int_small. lia.
Qed.

(** The positions a pass samples around a pixel, in the order of its two
    loops (nine for a step above 0, none for a step below 0, whose loops
    have no turn), those inside the image, and the valid entries found
    there. *)
Definition neighbours (step_size x y : Z) : list (Z * Z) :=
  flat_map (fun dy => map (fun dx => (x + dx, y + dy))
                        (offsets_of step_size))
    (offsets_of step_size).

Definition inside (size_x size_y : Z) (p : Z * Z) : bool :=
  negb ((fst p <? 0) || (size_x <=? fst p))
  && negb ((snd p <? 0) || (size_y <=? snd p)).

Definition is_valid (c : JFACoord) : bool := negb (coord_x c =? JFA_INVALID).

Definition candidates (input : list JFACoord) (size_x size_y : Z)
    (step_size x y : Z) : list JFACoord :=
  List.filter is_valid
    (map (fun p => texel input size_x (fst p) (snd p))
       (List.filter (inside size_x size_y) (neighbours step_size x y))).

(** The distance of a pixel to the coordinate an entry holds, as the pass
    computes it. *)
Definition distance_to (x y : Z) (c : JFACoord) : Z :=
  distance_squared (FInt.of_int (coord_x c), FInt.of_int (coord_y c))
    (FInt.of_int x, FInt.of_int y).

(** [r] is the closest of the candidates [l]: the first of those at the
    least distance, and the invalid coordinate when there is none. *)
Definition closest_of (dist : JFACoord -> Z) (l : list JFACoord)
    (r : JFACoord) : Prop :=
  (l = [] /\ r = invalid_coord)
  \/ exists l1 l2, l = l1 ++ r :: l2
       /\ (forall v, In v l1 -> dist r < dist v)
       /\ (forall v, In v l2 -> dist r <= dist v).

(** The entries are [uint16_t] pairs. *)
Definition is_uint16_pair (c : JFACoord) : Prop :=
  0 <= coord_x c <= 65535 /\ 0 <= coord_y c <= 65535.

Lemma inside_spec size_x size_y p :
  inside size_x size_y p = true
  <-> 0 <= fst p < size_x /\ 0 <= snd p < size_y.
Proof. unfold inside. lia. Qed.

Lemma fold_left_skip {St A B : Type} (skip : A -> bool) (m : A -> B)
    (inv : B -> bool) (f : St -> B -> St) (l : list A) (st : St) :
  fold_left (fun st a => if skip a then st
                         else if inv (m a) then st else f st (m a)) l st
  = fold_left f
      (List.filter (fun b => negb (inv b))
         (map m (List.filter (fun a => negb (skip a)) l))) st.
Proof.
  revert st. induction l as [|a l IH]; intros st; [reflexivity|].
  cbn. destruct (skip a); cbn; [apply IH|].
  destruct (inv (m a)); cbn; apply IH.
Qed.

Lemma fold_left_skip_rows {St A B : Type} (skip : A -> bool)
    (g : A -> list B) (f : St -> B -> St) (l : list A) (st : St) :
  fold_left (fun st a => if skip a then st else fold_left f (g a) st) l st
  = fold_left f (flat_map g (List.filter (fun a => negb (skip a)) l)) st.
Proof.
  revert st. induction l as [|a l IH]; intros st; [reflexivity|].
  cbn. destruct (skip a); cbn; [apply IH|].
  now rewrite fold_left_app, IH.
Qed.

Lemma candidates_rows (input : list JFACoord) (size_x size_y x y : Z)
    (ys xs : list Z) :
  flat_map
    (fun dy =>
       List.filter is_valid
         (map (fun dx => texel input size_x (x + dx) (y + dy))
            (List.filter
               (fun dx => negb ((x + dx <? 0) || (size_x <=? x + dx))) xs)))
    (List.filter (fun dy => negb ((y + dy <? 0) || (size_y <=? y + dy))) ys)
  = List.filter is_valid
      (map (fun p => texel input size_x (fst p) (snd p))
         (List.filter (inside size_x size_y)
            (flat_map (fun dy => map (fun dx => (x + dx, y + dy)) xs) ys))).
Proof.
  induction ys as [|dy ys IH]; [reflexivity|].
  cbn [flat_map List.filter].
  rewrite List.filter_app, List.map_app, List.filter_app, <- IH.
  assert (Hrow :
    List.filter (inside size_x size_y) (map (fun dx => (x + dx, y + dy)) xs)
    = if negb ((y + dy <? 0) || (size_y <=? y + dy))
      then map (fun dx => (x + dx, y + dy))
             (List.filter
                (fun dx => negb ((x + dx <? 0) || (size_x <=? x + dx))) xs)
      else []).
  { clear IH. induction xs as [|dx xs IHx];
      [now destruct (negb _)|].
    cbn [map List.filter]. rewrite IHx. unfold inside. cbn [fst snd].
    destruct (negb ((y + dy <? 0) || (size_y <=? y + dy)));
      destruct (negb ((x + dx <? 0) || (size_x <=? x + dx))); reflexivity. }
  rewrite Hrow.
  destruct (negb ((y + dy <? 0) || (size_y <=? y + dy))); cbn [flat_map].
  - f_equal. now rewrite List.map_map.
  - reflexivity.
Qed.

(** The two loops over the offsets are one loop over the candidates. *)
Lemma closest_texel_at_fold (input : list JFACoord)
    (size_x size_y step_size x y : Z) :
  closest_value input size_x size_y step_size x y
  = fst (fold_left (take_closer (FInt.of_int x, FInt.of_int y))
           (candidates input size_x size_y step_size x y)
           (invalid_coord, FInt.FLT_MAX)).
Proof.
  unfold closest_value, candidates, neighbours. cbv zeta. f_equal.
  rewrite <- candidates_rows.
  rewrite <- (fold_left_skip_rows
                (fun dy => (y + dy <? 0) || (size_y <=? y + dy))).
  apply fold_left_ext. intros st dy _.
  destruct ((y + dy <? 0) || (size_y <=? y + dy)); [reflexivity|].
  apply (fold_left_skip
           (fun dx => (x + dx <? 0) || (size_x <=? x + dx))
           (fun dx => texel input size_x (x + dx) (y + dy))
           (fun val => coord_x val =? JFA_INVALID)).
Qed.

Lemma take_closer_eq (x y : Z) (st : JFACoord * Z) (a : JFACoord) :
  take_closer (FInt.of_int x, FInt.of_int y) st a
  = if distance_to x y a <? snd st then (a, distance_to x y a) else st.
Proof. unfold take_closer, distance_to. cbv zeta. reflexivity. Qed.

Lemma distance_to_lt_max (x y : Z) (v : JFACoord) :
  is_uint16_pair v -> Z.abs x <= 2 ^ 31 -> Z.abs y <= 2 ^ 31 ->
  distance_to x y v < FInt.FLT_MAX.
Proof.
  intros [Hvx Hvy] Hx Hy. unfold distance_to.
  now apply distance_squared_lt_max.
Qed.

Section Closest.
Variable dist : JFACoord -> Z.

(** The update of the closest sample, for a distance [dist]. *)
Definition closer (st : JFACoord * Z) (a : JFACoord) : JFACoord * Z :=
  if dist a <? snd st then (a, dist a) else st.

Lemma fold_closer (l : list JFACoord) :
  forall (v0 : JFACoord) (d0 : Z) (r : JFACoord) (d : Z),
  fold_left closer l (v0, d0) = (r, d) ->
  (r = v0 /\ forall v, In v l -> d0 <= dist v)
  \/ exists l1 l2, l = l1 ++ r :: l2
       /\ dist r < d0
       /\ (forall v, In v l1 -> dist r < dist v)
       /\ (forall v, In v l2 -> dist r <= dist v).
Proof.
  induction l as [|a l IH]; intros v0 d0 r d Hfold.
  - left. cbn in Hfold. split; [congruence|]. intros v [].
  - cbn [fold_left] in Hfold. unfold closer at 2 in Hfold. cbn [snd] in Hfold.
    destruct (Z.ltb_spec (dist a) d0) as [Hlt|Hge].
    + destruct (IH _ _ _ _ Hfold)
        as [[-> Hall]|(l1 & l2 & Hl & Hd & H1 & H2)].
      * right. exists [], l.
        repeat split; [exact Hlt| |exact Hall]. intros v [].
      * right. exists (a :: l1), l2.
        repeat split; [now rewrite Hl|lia| |exact H2].
        intros v [<-|Hv]; [exact Hd|now apply H1].
    + destruct (IH _ _ _ _ Hfold)
        as [[-> Hall]|(l1 & l2 & Hl & Hd & H1 & H2)].
      * left. split; [reflexivity|].
        intros v [<-|Hv]; [exact Hge|now apply Hall].
      * right. exists (a :: l1), l2.
        repeat split; [now rewrite Hl|exact Hd| |exact H2].
        intros v [<-|Hv]; [lia|now apply H1].
Qed.

End Closest.

(** What the body of the pixel loop computes. *)
Lemma closest_texel_at_spec (input : list JFACoord)
    (size_x size_y step_size x y : Z) :
  (forall v, In v (candidates input size_x size_y step_size x y) ->
     is_uint16_pair v) ->
  Z.abs x <= 2 ^ 31 -> Z.abs y <= 2 ^ 31 ->
  closest_of (distance_to x y)
    (candidates input size_x size_y step_size x y)
    (closest_value input size_x size_y step_size x y).
Proof.
  intros Hwf Hx Hy. rewrite closest_texel_at_fold.
  rewrite (fold_left_ext _ (closer (distance_to x y)))
    by (intros st a _; apply take_closer_eq).
  destruct (fold_left (closer (distance_to x y))
              (candidates input size_x size_y step_size x y)
              (invalid_coord, FInt.FLT_MAX)) as [r d] eqn:Hfold.
  cbn [fst].
  destruct (fold_closer _ _ _ _ _ _ Hfold)
    as [[-> Hall]|(l1 & l2 & Hl & _ & H1 & H2)].
  - left. split; [|reflexivity].
    destruct (candidates input size_x size_y step_size x y) as [|v l];
      [reflexivity|].
    exfalso.
    assert (Hin : In v (v :: l)) by (now left).
    pose proof (Hall v Hin) as Hd.
    pose proof (distance_to_lt_max x y v (Hwf v Hin) Hx Hy) as Hlt.
    apply (Z.lt_irrefl FInt.FLT_MAX).
    now apply (Z.le_lt_trans _ (distance_to x y v)).
  - right. exists l1, l2. now repeat split.
Qed.

Lemma in_sample_offsets (step_size d : Z) :
  In d (offsets_of step_size)
  <-> 0 < step_size /\ (d = - step_size \/ d = 0 \/ d = step_size).
Proof.
  unfold offsets_of.
  destruct (Z.ltb_spec 0 step_size); cbn; intuition lia.
Qed.

Lemma in_neighbours (step_size x y : Z) (p : Z * Z) :
  In p (neighbours step_size x y)
  <-> exists dx dy, In dx (offsets_of step_size)
        /\ In dy (offsets_of step_size) /\ p = (x + dx, y + dy).
Proof.
  unfold neighbours. rewrite in_flat_map. split.
  - intros (dy & Hdy & Hp). apply in_map_iff in Hp as (dx & <- & Hdx).
    now exists dx, dy.
  - intros (dx & dy & Hdx & Hdy & ->). exists dy. split; [exact Hdy|].
    apply in_map_iff. now exists dx.
Qed.

Lemma in_candidates (input : list JFACoord)
    (size_x size_y step_size x y : Z) (v : JFACoord) :
  In v (candidates input size_x size_y step_size x y)
  <-> is_valid v = true
      /\ exists p, In p (neighbours step_size x y)
           /\ inside size_x size_y p = true
           /\ v = texel input size_x (fst p) (snd p).
Proof.
  unfold candidates. rewrite List.filter_In, in_map_iff. split.
  - intros [(p & <- & Hp) Hv]. apply List.filter_In in Hp as [Hp Hi].
    split; [exact Hv|]. now exists p.
  - intros [Hv (p & Hp & Hi & ->)]. split; [|exact Hv].
    exists p. split; [reflexivity|]. now apply List.filter_In.
Qed.

Lemma lookup_total_uint16 (buf : list JFACoord) (i : nat) :
  Forall is_uint16_pair buf -> is_uint16_pair (buf !!! i).
Proof.
  intros Hall. rewrite list_lookup_total_alt.
  destruct (buf !! i) as [c|] eqn:Hc.
  - apply list_elem_of_lookup_2, list_elem_of_In in Hc.
    rewrite List.Forall_forall in Hall. now apply Hall.
  - change (is_uint16_pair invalid_coord).
    unfold is_uint16_pair, invalid_coord, JFA_INVALID. cbn. lia.
Qed.

(** *** The loop over the step sizes *)

Lemma flood_from_fold (turn : list JFACoord * list JFACoord -> Z ->
                              list JFACoord * list JFACoord)
    (negative : bool) (p : positive) (bufs : list JFACoord * list JFACoord) :
  flood_from_value turn negative p bufs
  = fold_left turn (steps_from negative p) bufs.
Proof.
  revert bufs. induction p as [q IH|q IH|]; intros bufs; cbn;
    [apply IH|apply IH|reflexivity].
Qed.

Lemma flood_loop_fold (turn : list JFACoord * list JFACoord -> Z ->
                              list JFACoord * list JFACoord)
    (step_size : Z) (bufs : list JFACoord * list JFACoord) :
  flood_value turn step_size bufs = fold_left turn (loop_steps step_size) bufs.
Proof.
  destruct step_size as [|p|p]; [reflexivity|apply flood_from_fold..].
Qed.

Lemma quot_2_pos (p : positive) :
  Z.pos p~0 ÷ 2 = Z.pos p /\ Z.pos p~1 ÷ 2 = Z.pos p.
Proof.
  split; rewrite Z.quot_div_nonneg by lia; symmetry.
  - apply (Z.div_unique _ 2 _ 0); lia.
  - apply (Z.div_unique _ 2 _ 1); lia.
Qed.

(** The steps are those of [while (step_size != 0) { ...; step_size /= 2; }]. *)
Lemma loop_steps_unfold (step_size : Z) :
  step_size <> 0 ->
  loop_steps step_size = step_size :: loop_steps (step_size ÷ 2).
Proof.
  intros Hs. destruct step_size as [|p|p]; [contradiction|..].
  - destruct p as [q|q|]; [| |reflexivity]; cbn [loop_steps steps_from];
      f_equal; [rewrite (proj2 (quot_2_pos q))|rewrite (proj1 (quot_2_pos q))];
      reflexivity.
  - change (Z.neg p) with (- Z.pos p). rewrite Z.quot_opp_l by lia.
    destruct p as [q|q|]; [| |reflexivity];
      change (- Z.pos ?r) with (Z.neg r); cbn [loop_steps steps_from];
      f_equal; [rewrite (proj2 (quot_2_pos q))|rewrite (proj1 (quot_2_pos q))];
      reflexivity.
Qed.

Lemma length_steps_from (negative : bool) (p : positive) :
  Z.of_nat (length (steps_from negative p)) = Z.log2 (Z.pos p) + 1.
Proof.
  assert (H : Z.of_nat (length (steps_from negative p)) = Z.pos (Pos.size p)).
  { induction p as [q IH|q IH|]; cbn [steps_from length Pos.size];
      [| |reflexivity]; rewrite Nat2Z.inj_succ, IH; lia. }
  rewrite H. destruct p; cbn [Z.log2 Pos.size]; lia.
Qed.

Lemma last_steps_from (p : positive) (d : Z) :
  List.last (steps_from false p) d = 1.
Proof.
  induction p as [q IH|q IH|]; [| |reflexivity]; cbn [steps_from];
    (assert (Hne : exists a l, steps_from false q = a :: l)
       by (destruct q; eexists _, _; reflexivity));
    destruct Hne as (a & l & Hl); rewrite Hl in *; exact IH.
Qed.

(** The steps from a power of two. *)
Fixpoint halving (k : nat) : list Z :=
  2 ^ Z.of_nat k :: match k with
                    | O => []
                    | S k' => halving k'
                    end.

Lemma pow2_succ (k : nat) : 2 ^ Z.of_nat (S k) = 2 * 2 ^ Z.of_nat k.
Proof. rewrite Nat2Z.inj_succ, Z.pow_succ_r by lia. reflexivity. Qed.

Lemma pow2_pos (k : nat) : 0 < 2 ^ Z.of_nat k.
Proof. apply Z.pow_pos_nonneg; lia. Qed.

Lemma pow2_quot (k : nat) : 2 ^ Z.of_nat (S k) ÷ 2 = 2 ^ Z.of_nat k.
Proof.
  rewrite pow2_succ. pose proof (pow2_pos k).
  rewrite Z.quot_div_nonneg by lia.
  rewrite Z.mul_comm. apply Z.div_mul. lia.
Qed.

Lemma loop_steps_pow2 (k : nat) : loop_steps (2 ^ Z.of_nat k) = halving k.
Proof.
  induction k as [|k IH]; [reflexivity|].
  pose proof (pow2_pos (S k)).
  rewrite loop_steps_unfold by lia. rewrite pow2_quot, IH. reflexivity.
Qed.

(** *** The initial buffer *)

Lemma rows_as_cells {A : Type} (F : Z -> Z -> A) (xs ys : list Z) :
  flat_map (fun y => map (fun x => F x y) xs) ys
  = map (fun c => F (fst c) (snd c))
      (flat_map (fun y => map (fun x => (x, y)) xs) ys).
Proof.
  induction ys as [|y ys IH]; [reflexivity|].
  cbn [flat_map]. rewrite List.map_app, IH, List.map_map. reflexivity.
Qed.

Lemma texel_init_boundary (alpha : list byte) (size_x size_y x y : Z) :
  0 <= x < size_x -> 0 <= y < size_y ->
  texel (init_boundary alpha size_x size_y) size_x x y
  = if 128 <=? uchar_to_int (alpha !!! pixel_index size_x x y)
    then {| coord_x := uint16 x; coord_y := uint16 y |}
    else invalid_coord.
Proof.
  intros Hx Hy. unfold texel, init_boundary. cbv zeta.
  rewrite (rows_as_cells
             (fun x y =>
                {| coord_x :=
                     if 128 <=? uchar_to_int (alpha !!! Z.to_nat (y * size_x + x))
                     then uint16 x else JFA_INVALID;
                   coord_y :=
                     if 128 <=? uchar_to_int (alpha !!! Z.to_nat (y * size_x + x))
                     then uint16 y else JFA_INVALID |})).
  set (cells := flat_map (fun y => map (fun x => (x, y)) (Zrange 0 size_x))
                  (Zrange 0 size_y)).
  assert (Hcell : cells !! pixel_index size_x x y = Some (x, y)).
  { assert (Hin : In (x, y) cells).
    { apply (in_pass_cells size_x size_y (0, size_x) (0, size_y)
               ltac:(cbn; lia) ltac:(cbn; lia) (x, y)).
      unfold in_range. cbn. lia. }
    apply list_elem_of_In, list_elem_of_lookup_1 in Hin as [k Hk].
    pose proof (BlurFacts.cells_consecutive 0 size_x size_y
                  ltac:(lia) ltac:(lia)) as Hidx.
    fold cells in Hidx.
    assert (Hk' : map (fun c => Z.to_nat (snd c * size_x + fst c)) cells !! k
                  = Some (pixel_index size_x x y))
      by (change (map ?f cells) with (f <$> cells);
          now rewrite list_lookup_fmap, Hk).
    rewrite Hidx in Hk'. apply lookup_seq in Hk' as [Hk' _].
    rewrite Z.mul_0_l in Hk'. change (Z.to_nat 0) with 0%nat in Hk'.
    cbn [Nat.add] in Hk'. now rewrite Hk'. }
  apply list_lookup_total_correct.
  change (map ?f cells) with (f <$> cells).
  rewrite list_lookup_fmap, Hcell. cbn [fmap option_fmap option_map fst snd].
  unfold pixel_index, invalid_coord.
  now destruct (128 <=? _).
Qed.

(** *** Flooding from one opaque pixel *)

(** The offsets a pass with step [s] adds to a set [M] of offsets from the
    opaque pixel, moving away from it. *)
Definition grow (s : Z) (M : Z -> Prop) (d : Z) : Prop :=
  M d \/ (s <= d /\ M (d - s)) \/ (d <= - s /\ M (d + s)).

Fixpoint grow_all (steps : list Z) (M : Z -> Prop) : Z -> Prop :=
  match steps with
  | [] => M
  | s :: steps => grow_all steps (grow s M)
  end.

Fixpoint sum_steps (steps : list Z) : Z :=
  match steps with
  | [] => 0
  | s :: steps => s + sum_steps steps
  end.

Section Seed.
Variables (size_x size_y : Z) (x_range y_range : IndexRange) (x0 y0 : Z).
Hypothesis size_x_ok : size_x <= 65535.
Hypothesis size_y_ok : size_y <= 65535.
Hypothesis x_range_in : 0 <= fst x_range /\ fst x_range + snd x_range <= size_x.
Hypothesis y_range_in : 0 <= fst y_range /\ fst y_range + snd y_range <= size_y.
Hypothesis seed_x : in_range x_range x0.
Hypothesis seed_y : in_range y_range y0.

Definition seed : JFACoord := {| coord_x := x0; coord_y := y0 |}.

Definition in_image (x y : Z) : Prop := 0 <= x < size_x /\ 0 <= y < size_y.
Definition in_rect (x y : Z) : Prop := in_range x_range x /\ in_range y_range y.

(** A buffer of the flooding that no pass has written outside the
    rectangle. *)
Definition blank_outside (buf : list JFACoord) : Prop :=
  length buf = Z.to_nat (size_x * size_y)
  /\ forall x y, in_image x y -> ~ in_rect x y ->
       texel buf size_x x y = invalid_coord.

(** What is known of a flooded buffer: it holds the opaque pixel or nothing,
    the former no further than [S] from it, and wherever the offsets are in
    [M]. *)
Definition flooded (S : Z) (M : Z -> Prop) (buf : list JFACoord) : Prop :=
  (forall x y, in_image x y ->
     texel buf size_x x y = seed \/ texel buf size_x x y = invalid_coord)
  /\ (forall x y, in_image x y -> texel buf size_x x y = seed ->
        Z.abs (x - x0) <= S /\ Z.abs (y - y0) <= S)
  /\ (forall x y, in_rect x y -> M (x - x0) -> M (y - y0) ->
        texel buf size_x x y = seed).

Lemma in_rect_image (x y : Z) : in_rect x y -> in_image x y.
Proof.
  unfold in_rect, in_image, in_range. lia.
Qed.

Lemma in_rect_dec (x y : Z) : in_rect x y \/ ~ in_rect x y.
Proof. unfold in_rect, in_range. lia. Qed.

Lemma seed_valid : is_valid seed = true /\ seed <> invalid_coord.
Proof.
  unfold in_range in seed_x.
  assert (Hx : x0 <> JFA_INVALID) by (unfold JFA_INVALID; lia).
  split.
  - unfold is_valid, seed. cbn. now apply negb_true_iff, Z.eqb_neq.
  - unfold seed, invalid_coord. congruence.
Qed.

Lemma candidates_seed (buf : list JFACoord) (S : Z) (M : Z -> Prop)
    (s x y : Z) (v : JFACoord) :
  flooded S M buf ->
  In v (candidates buf size_x size_y s x y) ->
  v = seed /\ exists dx dy, In dx (offsets_of s)
      /\ In dy (offsets_of s) /\ in_image (x + dx) (y + dy)
      /\ texel buf size_x (x + dx) (y + dy) = seed.
Proof.
  intros (Honly & _ & _) Hin.
  apply in_candidates in Hin as [Hv (p & Hp & Hi & ->)].
  apply in_neighbours in Hp as (dx & dy & Hdx & Hdy & ->).
  apply inside_spec in Hi. cbn [fst snd] in *.
  destruct (Honly (x + dx) (y + dy) Hi) as [Hs|Hs].
  - split; [exact Hs|]. now exists dx, dy.
  - rewrite Hs in Hv. discriminate Hv.
Qed.

(** The closest sample around a pixel of a flooded buffer. *)
Lemma closest_flooded (buf : list JFACoord) (S : Z) (M : Z -> Prop)
    (s x y : Z) :
  flooded S M buf -> in_image x y ->
  (candidates buf size_x size_y s x y = []
   /\ closest_value buf size_x size_y s x y = invalid_coord)
  \/ (closest_value buf size_x size_y s x y = seed
      /\ exists dx dy, In dx (offsets_of s)
           /\ In dy (offsets_of s) /\ in_image (x + dx) (y + dy)
           /\ texel buf size_x (x + dx) (y + dy) = seed).
Proof.
  intros Hf Hxy. unfold in_image in Hxy.
  assert (Hwf : forall v, In v (candidates buf size_x size_y s x y) ->
                  is_uint16_pair v).
  { intros v Hv. destruct (candidates_seed _ _ _ _ _ _ _ Hf Hv) as [-> _].
    unfold is_uint16_pair, seed, in_range in *. cbn. lia. }
  destruct (closest_texel_at_spec buf size_x size_y s x y Hwf
              ltac:(lia) ltac:(lia))
    as [[Hnil Hr]|(l1 & l2 & Hl & _)].
  - now left.
  - right. apply (candidates_seed _ _ _ _ _ _ _ Hf).
    rewrite Hl. apply in_or_app. right. now left.
Qed.

Lemma grow_offset (r : IndexRange) (c0 s c : Z) (M : Z -> Prop) :
  0 < s -> in_range r c0 -> in_range r c -> grow s M (c - c0) ->
  exists d, In d (offsets_of s) /\ in_range r (c + d)
    /\ M (c + d - c0).
Proof.
  unfold in_range. intros Hs H0 Hc [Hm|[[Hd Hm]|[Hd Hm]]].
  - exists 0. rewrite in_sample_offsets, Z.add_0_r. repeat split; auto; lia.
  - exists (- s). rewrite in_sample_offsets.
    replace (c + - s - c0) with (c - c0 - s) by lia.
    repeat split; auto; lia.
  - exists s. rewrite in_sample_offsets.
    replace (c + s - c0) with (c - c0 + s) by lia.
    repeat split; auto; lia.
Qed.

(** One pass on a flooded buffer. *)
Lemma pass_flooded (S : Z) (M : Z -> Prop) (input output : list JFACoord)
    (s : Z) :
  0 < s -> flooded S M input -> blank_outside output ->
  flooded (S + s) (grow s M)
    (pass_value input output size_x size_y x_range y_range s)
  /\ blank_outside
       (pass_value input output size_x size_y x_range y_range s).
Proof.
  intros Hs Hf [Hlen Hout].
  pose proof seed_valid as [Hvalid Hne].
  assert (Hin : forall x y, in_rect x y ->
            texel (pass_value input output size_x size_y
                     x_range y_range s) size_x x y
            = closest_value input size_x size_y s x y).
  { intros x y [Hx Hy]. now apply pass_inside. }
  assert (Hoff : forall x y, in_image x y -> ~ in_rect x y ->
            texel (pass_value input output size_x size_y
                     x_range y_range s) size_x x y = invalid_coord).
  { intros x y Hi Hr.
    rewrite (pass_outside input output size_x size_y x_range y_range s
               x_range_in y_range_in Hlen x y (proj1 Hi) (proj2 Hi) Hr).
    now apply Hout. }
  split; [split; [|split]|split].
  - intros x y Hi. destruct (in_rect_dec x y) as [Hr|Hr].
    + rewrite (Hin x y Hr).
      destruct (closest_flooded _ _ _ s x y Hf Hi) as [[_ ->]|[-> _]]; auto.
    + right. now apply Hoff.
  - intros x y Hi Ht. destruct (in_rect_dec x y) as [Hr|Hr].
    + rewrite (Hin x y Hr) in Ht.
      destruct (closest_flooded _ _ _ s x y Hf Hi) as [[_ Hc]|[_ Hc]];
        [congruence|].
      destruct Hc as (dx & dy & Hdx & Hdy & Hi' & Ht').
      destruct Hf as (_ & Hup & _). destruct (Hup _ _ Hi' Ht') as [Hux Huy].
      apply in_sample_offsets in Hdx, Hdy. lia.
    + rewrite (Hoff x y Hi Hr) in Ht. congruence.
  - intros x y Hr Hmx Hmy. rewrite (Hin x y Hr).
    destruct Hr as [Hrx Hry].
    destruct (grow_offset x_range x0 s x M Hs seed_x Hrx Hmx)
      as (dx & Hdx & Hix & Hx).
    destruct (grow_offset y_range y0 s y M Hs seed_y Hry Hmy)
      as (dy & Hdy & Hiy & Hy).
    assert (Hr' : in_rect (x + dx) (y + dy)) by (now split).
    assert (Hseed : texel input size_x (x + dx) (y + dy) = seed)
      by (destruct Hf as (_ & _ & Hlow); now apply Hlow).
    assert (Hcand : In seed (candidates input size_x size_y s x y)).
    { apply in_candidates. split; [exact Hvalid|].
      exists (x + dx, y + dy). split; [|split].
      - apply in_neighbours. now exists dx, dy.
      - apply inside_spec. apply (in_rect_image _ _ Hr').
      - symmetry. exact Hseed. }
    destruct (closest_flooded _ _ _ s x y Hf
                (in_rect_image x y (conj Hrx Hry))) as [[Hnil _]|[-> _]];
      [|reflexivity].
    rewrite Hnil in Hcand. destruct Hcand.
  - now rewrite pass_length.
  - exact Hoff.
Qed.

(** The turns of the loop on a flooded buffer. *)
Lemma turns_flooded (steps : list Z) :
  forall (S : Z) (M : Z -> Prop) (to_flood after_flooding : list JFACoord),
  (forall s, In s steps -> 0 < s) ->
  flooded S M to_flood -> blank_outside to_flood ->
  blank_outside after_flooding ->
  flooded (S + sum_steps steps) (grow_all steps M)
    (fst (fold_left (turn_value size_x size_y x_range y_range) steps
            (to_flood, after_flooding)))
  /\ blank_outside
       (fst (fold_left (turn_value size_x size_y x_range y_range) steps
               (to_flood, after_flooding))).
Proof.
  induction steps as [|s steps IH]; intros S M A B Hpos Hf HA HB.
  - cbn [fold_left fst sum_steps grow_all]. rewrite Z.add_0_r. now split.
  - cbn [fold_left sum_steps grow_all]. unfold turn_value at 2.
    assert (Hs : 0 < s) by (apply Hpos; now left).
    destruct (pass_flooded S M A B s Hs Hf HB) as [Hf' HA'].
    rewrite Z.add_assoc. apply IH; [|assumption..].
    intros s' Hs'. apply Hpos. now right.
Qed.

(** The buffer the flooding starts from, for a mask with one opaque pixel. *)
Lemma boundary_flooded (alpha : list byte) :
  (forall x y, in_image x y ->
     128 <= uchar_to_int (alpha !!! pixel_index size_x x y)
     <-> x = x0 /\ y = y0) ->
  flooded 0 (fun d => d = 0) (init_boundary alpha size_x size_y).
Proof.
  intros Hmask. pose proof seed_valid as [_ Hne].
  assert (Ht : forall x y, in_image x y ->
            texel (init_boundary alpha size_x size_y) size_x x y
            = if 128 <=? uchar_to_int (alpha !!! pixel_index size_x x y)
              then seed else invalid_coord).
  { intros x y Hi. rewrite texel_init_boundary by apply Hi.
    destruct (Z.leb_spec 128
                (uchar_to_int (alpha !!! pixel_index size_x x y)))
      as [Hop|_]; [|reflexivity].
    apply (Hmask x y Hi) in Hop as [-> ->]. unfold seed, uint16.
    unfold in_image in Hi. now rewrite !Z.mod_small by lia. }
  split; [|split].
  - intros x y Hi. rewrite (Ht x y Hi). destruct (128 <=? _); auto.
  - intros x y Hi. rewrite (Ht x y Hi).
    destruct (Z.leb_spec 128
                (uchar_to_int (alpha !!! pixel_index size_x x y)))
      as [Hop|_]; [|congruence].
    apply (Hmask x y Hi) in Hop. lia.
  - intros x y Hr Hx Hy. pose proof (in_rect_image x y Hr) as Hi.
    rewrite (Ht x y Hi).
    destruct (Z.leb_spec 128
                (uchar_to_int (alpha !!! pixel_index size_x x y)))
      as [_|Hno]; [reflexivity|].
    assert (Hop : x = x0 /\ y = y0) by lia.
    apply (Hmask x y Hi) in Hop. lia.
Qed.

Lemma blank_replicate :
  blank_outside (replicate (Z.to_nat (size_x * size_y)) invalid_coord).
Proof.
  split; [apply length_replicate|].
  intros x y [Hx Hy] _. unfold texel.
  apply lookup_total_replicate_2. now apply pixel_index_lt.
Qed.

(** The flooding of an outline from one opaque pixel. *)
Lemma outline_flooded (power_of_2_max_i : Z -> Z) (alpha : list byte)
    (outline_width : Z) :
  (forall x y, in_image x y ->
     128 <= uchar_to_int (alpha !!! pixel_index size_x x y)
     <-> x = x0 /\ y = y0) ->
  (forall s, In s (loop_steps (power_of_2_max_i outline_width ÷ 2)) ->
     0 < s) ->
  flooded (1 + sum_steps (loop_steps (power_of_2_max_i outline_width ÷ 2)))
    (grow_all (loop_steps (power_of_2_max_i outline_width ÷ 2))
       (grow 1 (fun d => d = 0)))
    (outline_value power_of_2_max_i alpha size_x size_y outline_width
       x_range y_range)
  /\ blank_outside
       (outline_value power_of_2_max_i alpha size_x size_y outline_width
          x_range y_range).
Proof.
  intros Hmask Hpos. unfold outline_value. cbv zeta.
  rewrite flood_loop_fold.
  destruct (pass_flooded 0 (fun d => d = 0)
              (init_boundary alpha size_x size_y)
              (replicate (Z.to_nat (size_x * size_y)) invalid_coord) 1
              ltac:(lia) (boundary_flooded alpha Hmask) blank_replicate)
    as [Hf Hb].
  apply turns_flooded; [exact Hpos|exact Hf|exact Hb|exact blank_replicate].
Qed.

End Seed.

(** The offsets reached by the steps from a power of two. *)
Lemma sum_halving (k : nat) : sum_steps (halving k) = 2 ^ Z.of_nat (S k) - 1.
Proof.
  induction k as [|k IH]; [reflexivity|].
  cbn [halving sum_steps]. rewrite IH, (pow2_succ (S k)). lia.
Qed.

Lemma halving_pos (k : nat) (s : Z) : In s (halving k) -> 0 < s.
Proof.
  induction k as [|k IH]; cbn [halving].
  - intros [<-|[]]. reflexivity.
  - intros [<-|Hs]; [apply pow2_pos|now apply IH].
Qed.

Lemma grow_double (t : Z) (M : Z -> Prop) (A : Z) :
  0 < t ->
  (forall a b, 0 <= a <= A -> 0 <= b <= 1 ->
     M (a * (2 * t) + b) /\ M (- (a * (2 * t) + b))) ->
  forall a b, 0 <= a <= 2 * A + 1 -> 0 <= b <= 1 ->
  grow t M (a * t + b) /\ grow t M (- (a * t + b)).
Proof.
  intros Ht HM a b Ha Hb. unfold grow.
  destruct (Z.Even_or_Odd a) as [[q ->]|[q ->]].
  - destruct (HM q b ltac:(lia) Hb) as [Hp Hn].
    replace (2 * q * t + b) with (q * (2 * t) + b) by ring. auto.
  - destruct (HM q b ltac:(lia) Hb) as [Hp Hn].
    assert (Hq : 0 <= q * t) by nia.
    split.
    + right. left. split; [nia|].
      replace ((2 * q + 1) * t + b - t) with (q * (2 * t) + b) by ring.
      exact Hp.
    + right. right. split; [nia|].
      replace (- ((2 * q + 1) * t + b) + t) with (- (q * (2 * t) + b))
        by ring.
      exact Hn.
Qed.

Lemma grow_halving (k : nat) :
  forall (M : Z -> Prop) (A : Z),
  0 <= A ->
  (forall a b, 0 <= a <= A -> 0 <= b <= 1 ->
     M (a * 2 ^ Z.of_nat (S k) + b) /\ M (- (a * 2 ^ Z.of_nat (S k) + b))) ->
  forall d, Z.abs d <= (A + 1) * 2 ^ Z.of_nat (S k) ->
  grow_all (halving k) M d.
Proof.
  induction k as [|k IH]; intros M A HA HM.
  - pose proof (grow_double 1 M A ltac:(lia) HM) as HQ.
    intros d Hd. change (2 ^ Z.of_nat 1) with 2 in Hd.
    cbn [halving grow_all]. change (2 ^ Z.of_nat 0) with 1.
    destruct (Z.le_gt_cases (Z.abs d) (2 * A + 1)) as [Hsmall|Hbig].
    + destruct (HQ (Z.abs d) 0 ltac:(lia) ltac:(lia)) as [Hp Hn].
      rewrite Z.mul_1_r, Z.add_0_r in Hp, Hn.
      destruct (Z.abs_spec d) as [[_ He]|[_ He]]; rewrite He in *;
        [exact Hp|now rewrite Z.opp_involutive in Hn].
    + destruct (HQ (2 * A + 1) 1 ltac:(lia) ltac:(lia)) as [Hp Hn].
      rewrite Z.mul_1_r in Hp, Hn.
      destruct (Z.abs_spec d) as [[_ He]|[_ He]].
      * now replace d with (2 * A + 1 + 1) by lia.
      * now replace d with (- (2 * A + 1 + 1)) by lia.
  - intros d Hd. cbn [halving grow_all].
    apply (IH (grow (2 ^ Z.of_nat (S k)) M) (2 * A + 1)); [lia| |].
    + apply grow_double; [apply pow2_pos|].
      intros a b Ha Hb. rewrite <- (pow2_succ (S k)). now apply HM.
    + rewrite (pow2_succ (S k)) in Hd. lia.
Qed.

Lemma init_boundary_uint16 (alpha : list byte) (size_x size_y : Z) :
  Forall is_uint16_pair (init_boundary alpha size_x size_y).
Proof.
  unfold init_boundary. apply List.Forall_forall. intros c Hc.
  apply in_flat_map in Hc as (y & _ & Hc).
  apply in_map_iff in Hc as (x & <- & _). cbv zeta.
  pose proof (Z.mod_pos_bound x 65536 ltac:(lia)).
  pose proof (Z.mod_pos_bound y 65536 ltac:(lia)).
  unfold is_uint16_pair, uint16, JFA_INVALID. cbn [coord_x coord_y].
  destruct (128 <=? _); lia.
Qed.

(** *** The loops end *)

(** With a step of 0 the loop over the offsets never ends, whatever the
    number of tests allowed. *)
Lemma offsets_loop_zero (fuel : nat) : offsets_loop fuel 0 0 = None.
Proof.
  induction fuel as [|fuel IH]; [reflexivity|].
  change (offsets_loop (S fuel) 0 0) with (cons 0 <$> offsets_loop fuel 0 0).
  now rewrite IH.
Qed.

(** With any other step it ends at the fourth test, and more tests allowed
    change nothing. *)
Lemma offsets_loop_ends (extra : nat) (step_size : Z) :
  step_size <> 0 ->
  offsets_loop (4 + extra) (- step_size) step_size
  = Some (offsets_of step_size).
Proof.
  intros Hs. unfold offsets_of. cbn [Nat.add offsets_loop].
  destruct (Z.ltb_spec 0 step_size) as [Hpos|Hneg].
  - rewrite (proj2 (Z.leb_le (- step_size) step_size)) by lia.
    replace (- step_size + step_size) with 0 by lia.
    rewrite (proj2 (Z.leb_le 0 step_size)) by lia.
    rewrite !Z.add_0_l, Z.leb_refl.
    rewrite (proj2 (Z.leb_gt (step_size + step_size) step_size)) by lia.
    reflexivity.
  - rewrite (proj2 (Z.leb_gt (- step_size) step_size)) by lia.
    reflexivity.
Qed.

Lemma sample_offsets_some (step_size : Z) :
  step_size <> 0 -> sample_offsets step_size = Some (offsets_of step_size).
Proof. apply (offsets_loop_ends 0). Qed.

Lemma closest_texel_at_value (input : list JFACoord) (size_x size_y : Z)
    (step_size x y : Z) :
  step_size <> 0 ->
  closest_texel_at input size_x size_y step_size x y
  = Some (closest_value input size_x size_y step_size x y).
Proof.
  intros Hs. unfold closest_texel_at.
  rewrite sample_offsets_some by exact Hs. reflexivity.
Qed.

Lemma for_each_none {St A : Type} (l : list A) (body : St -> A -> option St) :
  fold_left (fun st a => st ≫= fun st => body st a) l None = None.
Proof. induction l as [|a l IH]; [reflexivity|exact IH]. Qed.

Lemma for_each_cons {St A : Type} (a : A) (l : list A)
    (body : St -> A -> option St) (st : St) :
  for_each (a :: l) body st = body st a ≫= for_each l body.
Proof.
  unfold for_each. cbn [fold_left]. cbn.
  destruct (body st a) as [st'|]; [reflexivity|apply for_each_none].
Qed.

Lemma for_each_some {St A : Type} (l : list A) (f : St -> A -> St)
    (body : St -> A -> option St) :
  (forall st a, In a l -> body st a = Some (f st a)) ->
  forall st, for_each l body st = Some (fold_left f l st).
Proof.
  induction l as [|a l IH]; intros Hbody st; [reflexivity|].
  rewrite for_each_cons, Hbody by (left; reflexivity). cbn.
  apply IH. intros st' a' Ha'. apply Hbody. now right.
Qed.

Lemma jump_flooding_pass_value (input output : list JFACoord)
    (size_x size_y : Z) (x_range y_range : IndexRange) (step_size : Z) :
  step_size <> 0 ->
  jump_flooding_pass input output size_x size_y x_range y_range step_size
  = Some (pass_value input output size_x size_y x_range y_range step_size).
Proof.
  intros Hs. unfold jump_flooding_pass, pass_value.
  apply for_each_some. intros out y _. cbv zeta.
  apply for_each_some. intros out' x _.
  rewrite closest_texel_at_value by exact Hs. reflexivity.
Qed.

Lemma flood_turn_value (size_x size_y : Z) (x_range y_range : IndexRange)
    (bufs : list JFACoord * list JFACoord) (step_size : Z) :
  step_size <> 0 ->
  flood_turn size_x size_y x_range y_range bufs step_size
  = Some (turn_value size_x size_y x_range y_range bufs step_size).
Proof.
  intros Hs. destruct bufs as [result_to_flood result_after_flooding].
  unfold flood_turn, turn_value.
  rewrite jump_flooding_pass_value by exact Hs. reflexivity.
Qed.

Lemma flood_from_some (size_x size_y : Z) (x_range y_range : IndexRange)
    (negative : bool) (p : positive) :
  forall bufs,
  flood_from (flood_turn size_x size_y x_range y_range) negative p bufs
  = Some (flood_from_value (turn_value size_x size_y x_range y_range)
            negative p bufs).
Proof.
  induction p as [q IH|q IH|]; intros bufs; cbn [flood_from flood_from_value];
    (rewrite flood_turn_value by (now destruct negative)); cbn;
    [apply IH|apply IH|reflexivity].
Qed.

Lemma flood_loop_value (size_x size_y : Z) (x_range y_range : IndexRange)
    (step_size : Z) (bufs : list JFACoord * list JFACoord) :
  flood_loop (flood_turn size_x size_y x_range y_range) step_size bufs
  = Some (flood_value (turn_value size_x size_y x_range y_range) step_size
            bufs).
Proof.
  destruct step_size as [|p|p]; [reflexivity|apply flood_from_some..].
Qed.

(** The flooding of an outline returns, whatever the width. *)
Lemma outline_flood_value (power_of_2_max_i : Z -> Z) (alpha : list byte)
    (size_x size_y outline_width : Z) (x_range y_range : IndexRange) :
  outline_flood power_of_2_max_i alpha size_x size_y outline_width
    x_range y_range
  = Some (outline_value power_of_2_max_i alpha size_x size_y outline_width
            x_range y_range).
Proof.
  unfold outline_flood, outline_value. cbv zeta.
  rewrite jump_flooding_pass_value by discriminate. cbn.
  rewrite flood_loop_value. reflexivity.
Qed.

Lemma flood_from_for_each (turn : list JFACoord * list JFACoord -> Z ->
                                  option (list JFACoord * list JFACoord))
    (negative : bool) (p : positive) :
  forall bufs,
  flood_from turn negative p bufs = for_each (steps_from negative p) turn bufs.
Proof.
  induction p as [q IH|q IH|]; intros bufs; cbn [flood_from steps_from];
    rewrite for_each_cons;
    (destruct (turn bufs (if negative then Z.neg _ else Z.pos _))
       as [bufs'|]; cbn; [|reflexivity]);
    [apply IH|apply IH|reflexivity].
Qed.

Lemma flood_loop_for_each (turn : list JFACoord * list JFACoord -> Z ->
                                  option (list JFACoord * list JFACoord))
    (step_size : Z) (bufs : list JFACoord * list JFACoord) :
  flood_loop turn step_size bufs = for_each (loop_steps step_size) turn bufs.
Proof.
  destruct step_size as [|p|p]; [reflexivity|apply flood_from_for_each..].
Qed.

(** The flooding as its passes: the first one, then the turns of the
    loop. *)
Lemma outline_flood_turns (power_of_2_max_i : Z -> Z) (alpha : list byte)
    (size_x size_y outline_width : Z) (x_range y_range : IndexRange) :
  outline_flood power_of_2_max_i alpha size_x size_y outline_width
    x_range y_range
  = (first ←
       jump_flooding_pass (init_boundary alpha size_x size_y)
         (replicate (Z.to_nat (size_x * size_y)) invalid_coord)
         size_x size_y x_range y_range 1;
     fst <$> for_each (loop_steps (power_of_2_max_i outline_width ÷ 2))
               (flood_turn size_x size_y x_range y_range)
               (first, replicate (Z.to_nat (size_x * size_y)) invalid_coord)).
Proof.
  unfold outline_flood. cbv zeta.
  destruct (jump_flooding_pass _ _ _ _ _ _ _) as [first|]; [|reflexivity].
  cbn. now rewrite flood_loop_for_each.
Qed.

Lemma steps_from_nonzero (negative : bool) (p : positive) (s : Z) :
  In s (steps_from negative p) -> s <> 0.
Proof.
  induction p as [q IH|q IH|]; cbn [steps_from];
    (intros [<-|Hin]; [now destruct negative|]);
    [now apply IH|now apply IH|destruct Hin].
Qed.

Lemma loop_steps_nonzero (step_size s : Z) :
  In s (loop_steps step_size) -> s <> 0.
Proof.
  destruct step_size as [|p|p]; [intros []|apply steps_from_nonzero..].
Qed.

Lemma nth_loop_steps (i : nat) :
  forall step_size : Z,
  nth i (loop_steps step_size) 0 = step_size ÷ 2 ^ Z.of_nat i.
Proof.
  induction i as [|i IH]; intros step_size.
  - change (2 ^ Z.of_nat 0) with 1. rewrite Z.quot_1_r.
    now destruct step_size as [|[q|q|]|[q|q|]].
  - destruct (Z.eq_dec step_size 0) as [->|Hs]; [reflexivity|].
    rewrite loop_steps_unfold by exact Hs. cbn [nth]. rewrite IH.
    pose proof (pow2_pos i). rewrite pow2_succ.
    rewrite Z.quot_quot by lia. reflexivity.
Qed.

Lemma length_loop_steps (step_size : Z) :
  Z.of_nat (length (loop_steps step_size))
  = if step_size =? 0 then 0 else Z.log2 (Z.abs step_size) + 1.
Proof.
  destruct step_size as [|p|p]; [reflexivity|apply length_steps_from..].
Qed.

(** What a pass leaves at a pixel of the image. *)
Lemma pass_closest (input output : list JFACoord)
    (size_x size_y : Z) (x_range y_range : IndexRange) (step_size x y : Z) :
  0 <= fst x_range /\ fst x_range + snd x_range <= size_x ->
  0 <= fst y_range /\ fst y_range + snd y_range <= size_y ->
  size_x <= 2 ^ 31 -> size_y <= 2 ^ 31 ->
  length output = Z.to_nat (size_x * size_y) ->
  Forall is_uint16_pair input ->
  in_range x_range x -> in_range y_range y ->
  closest_of (distance_to x y)
    (candidates input size_x size_y step_size x y)
    (texel (pass_value input output size_x size_y x_range y_range step_size)
       size_x x y).
Proof.
  intros Hxr Hyr Hsx Hsy Hlen Hin Hx Hy.
  rewrite (pass_inside input output size_x size_y x_range y_range step_size
             Hxr Hyr Hlen x y Hx Hy).
  unfold in_range in Hx, Hy.
  apply closest_texel_at_spec; [|lia..].
  intros v Hv. apply in_candidates in Hv as [_ (p & _ & _ & ->)].
  now apply lookup_total_uint16.
Qed.

(** What the flooding leaves from one opaque pixel. *)
Lemma one_opaque_pixel_value (power_of_2_max_i : Z -> Z)
    (alpha : list byte) (size_x size_y outline_width : Z)
    (x_range y_range : IndexRange) (x0 y0 : Z) (n : nat) :
  size_x <= 65535 -> size_y <= 65535 ->
  0 <= fst x_range /\ fst x_range + snd x_range <= size_x ->
  0 <= fst y_range /\ fst y_range + snd y_range <= size_y ->
  in_range x_range x0 -> in_range y_range y0 ->
  (forall x y, 0 <= x < size_x /\ 0 <= y < size_y ->
     128 <= uchar_to_int (alpha !!! pixel_index size_x x y)
     <-> x = x0 /\ y = y0) ->
  power_of_2_max_i outline_width = 2 ^ Z.of_nat n ->
  forall x y, 0 <= x < size_x -> 0 <= y < size_y ->
  texel (outline_value power_of_2_max_i alpha size_x size_y outline_width
           x_range y_range) size_x x y
  = if bool_decide (in_range x_range x /\ in_range y_range y
                    /\ Z.abs (x - x0) <= 2 ^ Z.of_nat n
                    /\ Z.abs (y - y0) <= 2 ^ Z.of_nat n)
    then {| coord_x := x0; coord_y := y0 |}
    else invalid_coord.
Proof.
  intros Hsx Hsy Hxr Hyr Hx0 Hy0 Hmask Hpow x y Hx Hy.
  set (result := outline_value power_of_2_max_i alpha size_x size_y
                   outline_width x_range y_range).
  assert (Hfl : exists M,
            flooded size_x size_y x_range y_range x0 y0 (2 ^ Z.of_nat n) M
              result
            /\ (forall d, Z.abs d <= 2 ^ Z.of_nat n -> M d)
            /\ blank_outside size_x size_y x_range y_range result).
  { assert (Hone : forall b, 0 <= b <= 1 ->
              grow 1 (fun d => d = 0) b /\ grow 1 (fun d => d = 0) (- b)).
    { intros b Hb. unfold grow. split; lia. }
    destruct n as [|k].
    - destruct (outline_flooded size_x size_y x_range y_range x0 y0
                  Hsx Hsy Hxr Hyr Hx0 Hy0 power_of_2_max_i alpha
                  outline_width Hmask) as [Hf Hb].
      + rewrite Hpow. intros s [].
      + rewrite Hpow in Hf. exists (grow 1 (fun d => d = 0)).
        split; [exact Hf|split; [|exact Hb]].
        intros d Hd. change (2 ^ Z.of_nat 0) with 1 in Hd.
        unfold grow. lia.
    - destruct (outline_flooded size_x size_y x_range y_range x0 y0
                  Hsx Hsy Hxr Hyr Hx0 Hy0 power_of_2_max_i alpha
                  outline_width Hmask) as [Hf Hb].
      + rewrite Hpow, pow2_quot, loop_steps_pow2. apply halving_pos.
      + rewrite Hpow, pow2_quot, loop_steps_pow2, sum_halving in Hf.
        replace (1 + (2 ^ Z.of_nat (S k) - 1)) with (2 ^ Z.of_nat (S k))
          in Hf by lia.
        eexists. split; [exact Hf|split; [|exact Hb]].
        intros d Hd. apply (grow_halving k _ 0); [lia| |lia].
        intros a b Ha Hb'. replace a with 0 by lia. cbn [Z.mul Z.add].
        now apply Hone. }
  destruct Hfl as (M & (Honly & Hup & Hlow) & HM & _ & Hout).
  pose proof (seed_valid size_x x_range x0 y0 Hsx Hxr Hx0) as [_ Hne].
  fold (seed x0 y0).
  destruct (bool_decide_reflect
              (in_range x_range x /\ in_range y_range y
               /\ Z.abs (x - x0) <= 2 ^ Z.of_nat n
               /\ Z.abs (y - y0) <= 2 ^ Z.of_nat n))
    as [(Hrx & Hry & Hdx & Hdy)|Hno].
  - apply Hlow; [now split|now apply HM..].
  - destruct (Honly x y (conj Hx Hy)) as [Hs|Hi]; [|exact Hi].
    exfalso. apply Hno.
    destruct (Hup x y (conj Hx Hy) Hs) as [Hdx Hdy].
    destruct (in_rect_dec x_range y_range x y) as [[Hrx Hry]|Hr];
      [exact (conj Hrx (conj Hry (conj Hdx Hdy)))|].
    rewrite (Hout x y (conj Hx Hy) Hr) in Hs. congruence.
Qed.

(** The mask with one opaque pixel in the middle. *)
Lemma sample_mask_one_pixel (x y : Z) :
  0 <= x < 5 /\ 0 <= y < 5 ->
  128 <= uchar_to_int (sample_mask !!! pixel_index 5 x y)
  <-> x = 2 /\ y = 2.
Proof.
  intros [Hx Hy].
  assert (Hxs : x = 0 \/ x = 1 \/ x = 2 \/ x = 3 \/ x = 4) by lia.
  assert (Hys : y = 0 \/ y = 1 \/ y = 2 \/ y = 3 \/ y = 4) by lia.
  destruct Hxs as [->|[->|[->|[->| ->]]]];
    destruct Hys as [->|[->|[->|[->| ->]]]]; vm_compute;
    split; intros H; try (exfalso; apply H; reflexivity);
    try (destruct H; discriminate); try discriminate;
    try (split; reflexivity).
Qed.

(** *** The flooding of an outline *)

(** X1.  A pass with a step that is not 0 returns: it keeps the size of its
    output buffer, writes every pixel of the rectangle with the closest
    sample around it in the input, and leaves every pixel of the image
    outside the rectangle as the output buffer had it. *)
Theorem jump_flooding_pass_writes_rectangle (input output : list JFACoord)
    (size_x size_y : Z) (x_range y_range : IndexRange) (step_size : Z) :
  step_size <> 0 ->
  0 <= fst x_range /\ fst x_range + snd x_range <= size_x ->
  0 <= fst y_range /\ fst y_range + snd y_range <= size_y ->
  length output = Z.to_nat (size_x * size_y) ->
  exists result,
    jump_flooding_pass input output size_x size_y x_range y_range step_size
    = Some result
    /\ length result = length output
    /\ forall x y, 0 <= x < size_x -> 0 <= y < size_y ->
         if bool_decide (in_range x_range x /\ in_range y_range y)
         then closest_texel_at input size_x size_y step_size x y
              = Some (texel result size_x x y)
         else texel result size_x x y = texel output size_x x y.
Proof.
  intros Hs Hxr Hyr Hlen.
  exists (pass_value input output size_x size_y x_range y_range step_size).
  split; [now apply jump_flooding_pass_value|split].
  - apply pass_length.
  - intros x y Hx Hy.
    destruct (bool_decide_reflect (in_range x_range x /\ in_range y_range y))
      as [[Hrx Hry]|Hout].
    + rewrite closest_texel_at_value by exact Hs. f_equal. symmetry.
      now apply pass_inside.
    + now apply pass_outside.
Qed.

Lemma jump_flooding_pass_writes_rectangle_witness :
  exists result,
    jump_flooding_pass (init_boundary sample_mask 5 5)
      (replicate 25 invalid_coord) 5 5 (1, 3) (2, 1) 1 = Some result
    /\ length result = length (replicate 25 invalid_coord)
    /\ forall x y, 0 <= x < 5 -> 0 <= y < 5 ->
         if bool_decide (in_range (1, 3) x /\ in_range (2, 1) y)
         then closest_texel_at (init_boundary sample_mask 5 5) 5 5 1 x y
              = Some (texel result 5 x y)
         else texel result 5 x y = texel (replicate 25 invalid_coord) 5 x y.
Proof.
  apply (jump_flooding_pass_writes_rectangle
           (init_boundary sample_mask 5 5) (replicate 25 invalid_coord)
           5 5 (1, 3) (2, 1) 1).
  - discriminate.
  - vm_compute. split; discriminate.
  - vm_compute. split; discriminate.
  - reflexivity.
Defined.

(** X2.  A pass with a step that is not 0 returns, and what it has written
    at a pixel of the rectangle is the closest of the valid entries of the
    input at the nine positions at the offsets [- step], 0, [step], those
    outside the image left out: the first, in the order of the two loops,
    of those at the least distance, and the invalid coordinate when there
    is none.  The distance is the squared Euclidean one as long as the
    coordinates are below 2896. *)
Theorem jump_flooding_pass_closest (input output : list JFACoord)
    (size_x size_y : Z) (x_range y_range : IndexRange) (step_size x y : Z) :
  step_size <> 0 ->
  0 <= fst x_range /\ fst x_range + snd x_range <= size_x ->
  0 <= fst y_range /\ fst y_range + snd y_range <= size_y ->
  size_x <= 2 ^ 31 -> size_y <= 2 ^ 31 ->
  length output = Z.to_nat (size_x * size_y) ->
  Forall is_uint16_pair input ->
  in_range x_range x -> in_range y_range y ->
  (exists result,
     jump_flooding_pass input output size_x size_y x_range y_range step_size
     = Some result
     /\ closest_of (distance_to x y)
          (candidates input size_x size_y step_size x y)
          (texel result size_x x y))
  /\ forall c, 0 <= coord_x c < 2896 -> 0 <= coord_y c < 2896 ->
       0 <= x < 2896 -> 0 <= y < 2896 ->
       distance_to x y c
       = (coord_x c - x) * (coord_x c - x) + (coord_y c - y) * (coord_y c - y).
Proof.
  intros Hs Hxr Hyr Hsx Hsy Hlen Hin Hx Hy. split.
  - exists (pass_value input output size_x size_y x_range y_range step_size).
    split; [now apply jump_flooding_pass_value|now apply pass_closest].
  - intros c Hcx Hcy Hx' Hy'. unfold distance_to.
    now apply distance_squared_exact.
Qed.

Lemma jump_flooding_pass_closest_witness :
  exists result,
    jump_flooding_pass (init_boundary sample_mask 5 5)
      (replicate 25 invalid_coord) 5 5 (0, 5) (0, 5) 1 = Some result
    /\ closest_of (distance_to 1 1)
         (candidates (init_boundary sample_mask 5 5) 5 5 1 1 1)
         (texel result 5 1 1).
Proof.
  apply (jump_flooding_pass_closest (init_boundary sample_mask 5 5)
           (replicate 25 invalid_coord) 5 5 (0, 5) (0, 5) 1 1 1).
  - discriminate.
  - vm_compute. split; discriminate.
  - vm_compute. split; discriminate.
  - vm_compute. discriminate.
  - vm_compute. discriminate.
  - reflexivity.
  - apply init_boundary_uint16.
  - vm_compute. split; [discriminate|reflexivity].
  - vm_compute. split; [discriminate|reflexivity].
Defined.

(** X3.  The flooding of an outline returns, whatever the width; it is a
    first pass with step 1 from the boundary into a blank buffer, then the
    turns of the loop from the step
    [s = power_of_2_max_i outline_width / 2]: turn [i] has step [s / 2 ^ i]
    (the division of C, towards zero), and there are [log2 |s| + 1] turns,
    none when [s] is 0. *)
Theorem outline_flood_passes (power_of_2_max_i : Z -> Z) (alpha : list byte)
    (size_x size_y outline_width : Z) (x_range y_range : IndexRange) :
  let s := power_of_2_max_i outline_width ÷ 2 in
  let blank := replicate (Z.to_nat (size_x * size_y)) invalid_coord in
  is_Some (outline_flood power_of_2_max_i alpha size_x size_y outline_width
             x_range y_range)
  /\ outline_flood power_of_2_max_i alpha size_x size_y outline_width
       x_range y_range
     = (first ←
          jump_flooding_pass (init_boundary alpha size_x size_y) blank
            size_x size_y x_range y_range 1;
        fst <$> for_each (loop_steps s)
                  (flood_turn size_x size_y x_range y_range) (first, blank))
  /\ (forall i, nth i (loop_steps s) 0 = s ÷ 2 ^ Z.of_nat i)
  /\ Z.of_nat (length (loop_steps s))
     = if s =? 0 then 0 else Z.log2 (Z.abs s) + 1.
Proof.
  intros s blank. split; [|split; [|split]].
  - rewrite outline_flood_value. now eexists.
  - apply outline_flood_turns.
  - intros i. apply nth_loop_steps.
  - apply length_loop_steps.
Qed.

(** X4.  From a mask with one opaque pixel, inside the rectangle, and an
    outline width whose [power_of_2_max_i] is [2 ^ n], the flooding returns
    with the coordinate of that pixel at the pixels of the rectangle that
    are no further than [2 ^ n] from it along both axes, and with the
    invalid coordinate at every other pixel of the image. *)
Theorem outline_flood_one_opaque_pixel (power_of_2_max_i : Z -> Z)
    (alpha : list byte) (size_x size_y outline_width : Z)
    (x_range y_range : IndexRange) (x0 y0 : Z) (n : nat) :
  size_x <= 65535 -> size_y <= 65535 ->
  0 <= fst x_range /\ fst x_range + snd x_range <= size_x ->
  0 <= fst y_range /\ fst y_range + snd y_range <= size_y ->
  in_range x_range x0 -> in_range y_range y0 ->
  (forall x y, 0 <= x < size_x /\ 0 <= y < size_y ->
     128 <= uchar_to_int (alpha !!! pixel_index size_x x y)
     <-> x = x0 /\ y = y0) ->
  power_of_2_max_i outline_width = 2 ^ Z.of_nat n ->
  exists result,
    outline_flood power_of_2_max_i alpha size_x size_y outline_width
      x_range y_range = Some result
    /\ forall x y, 0 <= x < size_x -> 0 <= y < size_y ->
         texel result size_x x y
         = if bool_decide (in_range x_range x /\ in_range y_range y
                           /\ Z.abs (x - x0) <= 2 ^ Z.of_nat n
                           /\ Z.abs (y - y0) <= 2 ^ Z.of_nat n)
           then {| coord_x := x0; coord_y := y0 |}
           else invalid_coord.
Proof.
  intros Hsx Hsy Hxr Hyr Hx0 Hy0 Hmask Hpow. eexists.
  split; [apply outline_flood_value|].
  now apply one_opaque_pixel_value.
Qed.

Lemma outline_flood_one_opaque_pixel_witness :
  exists result,
    outline_flood largest_power_of_2 sample_mask 5 5 2 (0, 5) (0, 5)
    = Some result
    /\ texel result 5 0 0 = {| coord_x := 2; coord_y := 2 |}
    /\ texel result 5 1 3 = {| coord_x := 2; coord_y := 2 |}.
Proof.
  destruct (outline_flood_one_opaque_pixel largest_power_of_2 sample_mask
              5 5 2 (0, 5) (0, 5) 2 2 1 ltac:(lia) ltac:(lia)
              ltac:(cbn; lia) ltac:(cbn; lia)
              ltac:(unfold in_range; cbn; lia)
              ltac:(unfold in_range; cbn; lia) sample_mask_one_pixel
              ltac:(reflexivity))
    as (result & Hres & Hflood).
  exists result. split; [exact Hres|].
  split; rewrite Hflood by lia; reflexivity.
Defined.

(** C6, as amended.  The flooding of an outline returns and is made of a
    first pass with step 1 from the boundary into a blank buffer, followed
    by the passes of the loop with the steps [s], [s / 2], ... down to 1,
    where [s = power_of_2_max_i outline_width / 2] (the division of C): no
    step is 0, step [i] of the loop is [s / 2 ^ i], and there are
    [log2 |s| + 2] passes in all, one when [s] is 0.  A pass with a step
    that is not 0 returns; at every pixel of the rectangle it has written
    the closest of the valid entries of its input at the nine positions at
    the offsets [- step], 0, [step] that lie in the image, the first in the
    order of the loops among those at the least distance and the invalid
    coordinate when there is none, and it leaves the pixels outside the
    rectangle as its output buffer had them.  The distance is the squared
    Euclidean one as long as the coordinates are below 2896. *)
Theorem outline_flood_steps (power_of_2_max_i : Z -> Z) (alpha : list byte)
    (size_x size_y outline_width : Z) (x_range y_range : IndexRange) :
  0 <= fst x_range /\ fst x_range + snd x_range <= size_x ->
  0 <= fst y_range /\ fst y_range + snd y_range <= size_y ->
  size_x <= 2 ^ 31 -> size_y <= 2 ^ 31 ->
  let s := power_of_2_max_i outline_width ÷ 2 in
  let blank := replicate (Z.to_nat (size_x * size_y)) invalid_coord in
  (exists first result,
     jump_flooding_pass (init_boundary alpha size_x size_y) blank
       size_x size_y x_range y_range 1 = Some first
     /\ for_each (loop_steps s) (flood_turn size_x size_y x_range y_range)
          (first, blank) = Some result
     /\ outline_flood power_of_2_max_i alpha size_x size_y outline_width
          x_range y_range = Some (fst result))
  /\ pass_steps power_of_2_max_i outline_width = 1 :: loop_steps s
  /\ (forall step, In step (pass_steps power_of_2_max_i outline_width) ->
        step <> 0)
  /\ (forall i, nth i (loop_steps s) 0 = s ÷ 2 ^ Z.of_nat i)
  /\ Z.of_nat (length (pass_steps power_of_2_max_i outline_width))
     = (if s =? 0 then 1 else Z.log2 (Z.abs s) + 2)
  /\ (forall input output step_size,
        step_size <> 0 ->
        length output = Z.to_nat (size_x * size_y) ->
        Forall is_uint16_pair input ->
        exists result,
          jump_flooding_pass input output size_x size_y x_range y_range
            step_size = Some result
          /\ forall x y, 0 <= x < size_x -> 0 <= y < size_y ->
               if bool_decide (in_range x_range x /\ in_range y_range y)
               then closest_of (distance_to x y)
                      (candidates input size_x size_y step_size x y)
                      (texel result size_x x y)
               else texel result size_x x y = texel output size_x x y)
  /\ forall x y c, 0 <= coord_x c < 2896 -> 0 <= coord_y c < 2896 ->
       0 <= x < 2896 -> 0 <= y < 2896 ->
       distance_to x y c
       = (coord_x c - x) * (coord_x c - x) + (coord_y c - y) * (coord_y c - y).
Proof.
  intros Hxr Hyr Hsx Hsy s blank.
  split; [|split; [|split; [|split; [|split; [|split]]]]].
  - pose proof (outline_flood_turns power_of_2_max_i alpha size_x size_y
                  outline_width x_range y_range) as Hturns.
    rewrite outline_flood_value in Hturns.
    fold s blank in Hturns.
    destruct (jump_flooding_pass (init_boundary alpha size_x size_y) blank
                size_x size_y x_range y_range 1) as [first|] eqn:Hfirst;
      [|discriminate Hturns].
    cbn in Hturns.
    destruct (for_each (loop_steps s)
                (flood_turn size_x size_y x_range y_range) (first, blank))
      as [result|] eqn:Hresult; [|discriminate Hturns].
    exists first, result. split; [reflexivity|split; [exact Hresult|]].
    rewrite outline_flood_value. exact Hturns.
  - reflexivity.
  - intros step [<-|Hin]; [discriminate|].
    now apply loop_steps_nonzero in Hin.
  - intros i. apply nth_loop_steps.
  - unfold pass_steps. fold s. cbn [length].
    rewrite Nat2Z.inj_succ, length_loop_steps.
    destruct (s =? 0); lia.
  - intros input output step_size Hs Hlen Hin.
    exists (pass_value input output size_x size_y x_range y_range step_size).
    split; [now apply jump_flooding_pass_value|].
    intros x y Hx Hy.
    destruct (bool_decide_reflect (in_range x_range x /\ in_range y_range y))
      as [[Hrx Hry]|Hout].
    + now apply pass_closest.
    + now apply pass_outside.
  - intros x y c Hcx Hcy Hx Hy. unfold distance_to.
    now apply distance_squared_exact.
Qed.

Lemma outline_flood_steps_witness :
  pass_steps largest_power_of_2 2 = [1; 1]
  /\ Z.of_nat (length (pass_steps largest_power_of_2 2)) = 2.
Proof.
  destruct (outline_flood_steps largest_power_of_2 sample_mask 5 5 2
              (0, 5) (0, 5))
    as (_ & Hsteps & _ & _ & Hlen & _).
  - vm_compute. split; discriminate.
  - vm_compute. split; discriminate.
  - vm_compute. discriminate.
  - vm_compute. discriminate.
  - split; [exact Hsteps|exact Hlen].
Defined.

(** For an outline width of 4, whose half is the power of two 2, the passes
    have the steps 1, 2 and 1: three passes, not the two from 2 down to 1,
    and the first step is not the largest. *)
Lemma outline_flood_steps_width_4 :
  (forall power_of_2_max_i : Z -> Z, power_of_2_max_i 4 = 4 ->
     pass_steps power_of_2_max_i 4 = [1; 2; 1])
  /\ pass_steps largest_power_of_2 4 = [1; 2; 1]
  /\ pass_steps largest_power_of_2 4 <> [2; 1].
Proof.
  split; [|split].
  - intros power_of_2_max_i Hpow. unfold pass_steps. rewrite Hpow.
    reflexivity.
  - reflexivity.
  - discriminate.
Qed.

(** C7, as amended.  From a mask with one opaque pixel [(x0, y0)], inside
    the rectangle, in an image of sides up to 65535, and an outline width
    whose [power_of_2_max_i] is [2 ^ n], the flooding returns, and in its
    result: the pixels of the rectangle no further than [2 ^ n] from
    [(x0, y0)] along both axes hold [(x0, y0)]; every other pixel of the
    image, further away or outside the rectangle, holds the invalid
    coordinate; so no pixel holds a valid coordinate other than
    [(x0, y0)]. *)
Theorem one_opaque_pixel_reach (power_of_2_max_i : Z -> Z)
    (alpha : list byte) (size_x size_y outline_width : Z)
    (x_range y_range : IndexRange) (x0 y0 : Z) (n : nat) :
  size_x <= 65535 -> size_y <= 65535 ->
  0 <= fst x_range /\ fst x_range + snd x_range <= size_x ->
  0 <= fst y_range /\ fst y_range + snd y_range <= size_y ->
  in_range x_range x0 -> in_range y_range y0 ->
  (forall x y, 0 <= x < size_x /\ 0 <= y < size_y ->
     128 <= uchar_to_int (alpha !!! pixel_index size_x x y)
     <-> x = x0 /\ y = y0) ->
  power_of_2_max_i outline_width = 2 ^ Z.of_nat n ->
  exists result,
    outline_flood power_of_2_max_i alpha size_x size_y outline_width
      x_range y_range = Some result
    /\ (forall x y, in_range x_range x -> in_range y_range y ->
          Z.abs (x - x0) <= 2 ^ Z.of_nat n ->
          Z.abs (y - y0) <= 2 ^ Z.of_nat n ->
          texel result size_x x y = {| coord_x := x0; coord_y := y0 |})
    /\ (forall x y, 0 <= x < size_x -> 0 <= y < size_y ->
          ~ (in_range x_range x /\ in_range y_range y
             /\ Z.abs (x - x0) <= 2 ^ Z.of_nat n
             /\ Z.abs (y - y0) <= 2 ^ Z.of_nat n) ->
          texel result size_x x y = invalid_coord)
    /\ (forall x y, 0 <= x < size_x -> 0 <= y < size_y ->
          is_valid (texel result size_x x y) = true ->
          texel result size_x x y = {| coord_x := x0; coord_y := y0 |}).
Proof.
  intros Hsx Hsy Hxr Hyr Hx0 Hy0 Hmask Hpow.
  pose proof (one_opaque_pixel_value power_of_2_max_i alpha size_x size_y
                outline_width x_range y_range x0 y0 n Hsx Hsy Hxr Hyr
                Hx0 Hy0 Hmask Hpow) as Hval.
  eexists. split; [apply outline_flood_value|split; [|split]].
  - intros x y Hrx Hry Hdx Hdy.
    rewrite Hval by (unfold in_range in Hrx, Hry; lia).
    now rewrite bool_decide_eq_true_2.
  - intros x y Hx Hy Hno. rewrite Hval by assumption.
    now rewrite bool_decide_eq_false_2.
  - intros x y Hx Hy. rewrite Hval by assumption.
    destruct (bool_decide _); [reflexivity|discriminate].
Qed.

Lemma one_opaque_pixel_reach_witness :
  exists result,
    outline_flood largest_power_of_2 sample_mask 5 5 1 (0, 5) (0, 5)
    = Some result
    /\ texel result 5 1 3 = {| coord_x := 2; coord_y := 2 |}
    /\ texel result 5 4 2 = invalid_coord.
Proof.
  destruct (one_opaque_pixel_reach largest_power_of_2 sample_mask
              5 5 1 (0, 5) (0, 5) 2 2 0 ltac:(lia) ltac:(lia)
              ltac:(cbn; lia) ltac:(cbn; lia)
              ltac:(unfold in_range; cbn; lia)
              ltac:(unfold in_range; cbn; lia) sample_mask_one_pixel
              ltac:(reflexivity))
    as (result & Hres & Hnear & Hfar & _).
  exists result. split; [exact Hres|split].
  - apply Hnear; unfold in_range; cbn; lia.
  - apply Hfar; [lia..|]. cbn. lia.
Defined.

(** With an outline width of 1 the flooding is the first pass alone: from
    the opaque pixel in the middle of the 5 by 5 mask, the corner of the
    rectangle, two pixels away, ends with the invalid coordinate and not
    with [(2, 2)]. *)
Lemma one_opaque_pixel_out_of_reach :
  (forall power_of_2_max_i : Z -> Z, power_of_2_max_i 1 = 1 ->
     exists result,
       outline_flood power_of_2_max_i sample_mask 5 5 1 (0, 5) (0, 5)
       = Some result
       /\ texel result 5 0 0 = invalid_coord)
  /\ exists result,
       outline_flood largest_power_of_2 sample_mask 5 5 1 (0, 5) (0, 5)
       = Some result
       /\ texel result 5 0 0 = invalid_coord
       /\ texel result 5 0 0 <> {| coord_x := 2; coord_y := 2 |}.
Proof.
  split.
  - intros power_of_2_max_i Hpow. unfold outline_flood. rewrite Hpow.
    vm_compute. eexists. split; reflexivity.
  - vm_compute. eexists. split; [reflexivity|split; [reflexivity|]].
    discriminate.
Qed.

End JfaFacts.

(** ** Multiply and drop effects *)

Module ByteEffects.

Definition do_mul_effect_byte (fac : float) (x y : Z)
    (rect1 rect2 out : list byte) : list byte :=
  let temp_fac := F32.to_int (F32.mul (F32.of_int 256) fac) in
  let rt (p : nat) : byte :=
    int_to_uchar
      (uchar_to_int (rect1 !!! p)
       + Z.shiftr (temp_fac * uchar_to_int (rect1 !!! p)
                   * (uchar_to_int (rect2 !!! p) - 255)) 16) in
  pixel_loop x y
    (fun p => (rt p, rt (p + 1)%nat, rt (p + 2)%nat, rt (p + 3)%nat)) out.

Definition do_mul_effect_float (fac : float) (x y : Z)
    (rect1 rect2 out : list float) : list float :=
  let rt (p : nat) : float :=
    F32.add (rect1 !!! p)
      (F32.mul (F32.mul fac (rect1 !!! p)) (F32.sub (rect2 !!! p) F32.one)) in
  pixel_loop x y
    (fun p => (rt p, rt (p + 1)%nat, rt (p + 2)%nat, rt (p + 3)%nat)) out.

Example mul_byte_half :
  do_mul_effect_byte F32.half 1 1
    ["200"; "100"; "000"; "255"]%byte ["000"; "255"; "128"; "127"]%byte
    ["000"; "000"; "000"; "000"]%byte
  = ["100"; "100"; "000"; "191"]%byte.
Proof. vm_compute. reflexivity. Qed.

End ByteEffects.

Module ByteFacts.

Import Cross AddSub ByteEffects.

Lemma uchar_of_int_to_int (z : Z) : uchar_to_int (int_to_uchar z) = z mod 256.
Proof.
  unfold int_to_uchar, uchar_to_int.
  pose proof (Z.mod_pos_bound z 256 ltac:(lia)) as Hm.
  destruct (Byte.of_N (Z.to_N (z mod 256))) as [b|] eqn:Hb.
  - cbn. apply Byte.to_of_N in Hb. rewrite Hb. lia.
  - apply Byte.of_N_None_iff in Hb. lia.
Qed.

Lemma uchar_of_small (z : Z) :
  0 <= z <= 255 -> uchar_to_int (int_to_uchar z) = z.
Proof. intros Hz. rewrite uchar_of_int_to_int. apply Z.mod_small. lia. Qed.

Section Channels.
Context {T : Type} `{!Inhabited T}.

(** The channel at index [i] of what a pixel loop leaves. *)
Lemma pixel_loop_index (x y : Z) (px : nat -> @pixel T) (dst : list T)
    (i : nat) :
  (4 * (Z.to_nat y * Z.to_nat x) <= length dst)%nat ->
  (i < 4 * (Z.to_nat y * Z.to_nat x))%nat ->
  pixel_loop x y px dst !!! i
  = pixel_list (px (4 * (i / 4))%nat) !!! (i mod 4)%nat.
Proof.
  intros Hn Hi. rewrite !list_lookup_total_alt. f_equal.
  rewrite pixel_loop_spec by exact Hn.
  pose proof (Nat.div_mod_eq i 4) as Hdm.
  pose proof (Nat.mod_upper_bound i 4 ltac:(lia)) as Hmod.
  rewrite lookup_app_l by (rewrite length_pixels_of; lia).
  rewrite Hdm at 1. apply pixels_of_lookup; lia.
Qed.

Lemma pixel_loop_length (x y : Z) (px : nat -> @pixel T) (dst : list T) :
  (4 * (Z.to_nat y * Z.to_nat x) <= length dst)%nat ->
  length (pixel_loop x y px dst) = length dst.
Proof.
  intros Hn. rewrite pixel_loop_spec by exact Hn.
  rewrite length_app, length_pixels_of, length_drop. lia.
Qed.

Lemma pixel_loop_beyond (x y : Z) (px : nat -> @pixel T) (dst : list T)
    (i : nat) :
  (4 * (Z.to_nat y * Z.to_nat x) <= length dst)%nat ->
  (4 * (Z.to_nat y * Z.to_nat x) <= i)%nat ->
  pixel_loop x y px dst !! i = dst !! i.
Proof.
  intros Hn Hi. rewrite pixel_loop_spec by exact Hn.
  rewrite lookup_app_r by (rewrite length_pixels_of; lia).
  rewrite length_pixels_of, lookup_drop. f_equal. lia.
Qed.

(** A loop that computes every channel from its own index. *)
Lemma pixel_loop_pointwise (x y : Z) (rt : nat -> T) (dst : list T) (i : nat) :
  (4 * (Z.to_nat y * Z.to_nat x) <= length dst)%nat ->
  (i < 4 * (Z.to_nat y * Z.to_nat x))%nat ->
  pixel_loop x y
    (fun p => (rt p, rt (p + 1)%nat, rt (p + 2)%nat, rt (p + 3)%nat)) dst
    !!! i = rt i.
Proof.
  intros Hn Hi. rewrite pixel_loop_index by assumption.
  pose proof (Nat.div_mod_eq i 4) as Hdm.
  pose proof (Nat.mod_upper_bound i 4 ltac:(lia)) as Hmod.
  set (q := (i / 4)%nat) in *. set (c := (i mod 4)%nat) in *.
  clearbody q c. subst i. cbn [pixel_list].
  destruct c as [|[|[|[|c]]]]; try lia;
    rewrite list_lookup_total_alt; cbn; f_equal; lia.
Qed.

(** A loop that computes the colour channels of a pixel from its offset and
    takes the alpha elsewhere. *)
Lemma pixel_loop_colour_alpha (x y : Z) (rt : nat -> nat -> T) (al : nat -> T)
    (dst : list T) (i : nat) :
  (4 * (Z.to_nat y * Z.to_nat x) <= length dst)%nat ->
  (i < 4 * (Z.to_nat y * Z.to_nat x))%nat ->
  pixel_loop x y
    (fun p => (rt p 0%nat, rt p 1%nat, rt p 2%nat, al p)) dst !!! i
  = if (i mod 4 <? 3)%nat then rt (i - i mod 4)%nat (i mod 4)%nat
    else al (i - i mod 4)%nat.
Proof.
  intros Hn Hi. rewrite pixel_loop_index by assumption.
  pose proof (Nat.div_mod_eq i 4) as Hdm.
  pose proof (Nat.mod_upper_bound i 4 ltac:(lia)) as Hmod.
  replace (i - i mod 4)%nat with (4 * (i / 4))%nat by lia.
  set (q := (i / 4)%nat) in *. set (c := (i mod 4)%nat) in *.
  clearbody q c. subst i. cbn [pixel_list].
  destruct c as [|[|[|[|c]]]]; try lia; reflexivity.
Qed.

End Channels.

(** The shift of the products of the add, subtract and multiply effects. *)
Lemma scaled_channel_range (f a b : Z) :
  0 <= f <= 256 -> 0 <= a <= 255 -> 0 <= b ->
  0 <= Z.shiftr (f * a * b) 16 <= b.
Proof.
  intros Hf Ha Hb. rewrite Z.shiftr_div_pow2 by lia.
  change (2 ^ 16) with 65536.
  assert (Hfa : 0 <= f * a <= 65280) by nia.
  split.
  - apply Z.div_pos; [nia|lia].
  - apply Z.div_le_upper_bound; [lia|]. nia.
Qed.

(** X5.  With a factor whose fixed-point value [int(256 * fac)] lies in
    [0, 256], every channel the byte cross effect writes lies between the
    channels of the two inputs at the same place. *)
Theorem cross_byte_between (fac : float) (x y : Z)
    (rect1 rect2 out : list byte) (i : nat) :
  0 <= F32.to_int (F32.mul (F32.of_int 256) fac) <= 256 ->
  (4 * (Z.to_nat y * Z.to_nat x) <= length out)%nat ->
  (i < 4 * (Z.to_nat y * Z.to_nat x))%nat ->
  Z.min (uchar_to_int (rect1 !!! i)) (uchar_to_int (rect2 !!! i))
  <= uchar_to_int (do_cross_effect_byte fac x y rect1 rect2 out !!! i)
  <= Z.max (uchar_to_int (rect1 !!! i)) (uchar_to_int (rect2 !!! i)).
Proof.
  intros Hf Hn Hi. unfold do_cross_effect_byte. cbv zeta.
  rewrite pixel_loop_pointwise by assumption.
  set (f := F32.to_int (F32.mul (F32.of_int 256) fac)) in *.
  pose proof (uchar_to_int_range (rect1 !!! i)) as Ha.
  pose proof (uchar_to_int_range (rect2 !!! i)) as Hb.
  set (a := uchar_to_int (rect1 !!! i)) in *.
  set (b := uchar_to_int (rect2 !!! i)) in *.
  rewrite Z.shiftr_div_pow2 by lia. change (2 ^ 8) with 256.
  assert (Hlo : Z.min a b <= ((256 - f) * a + f * b) / 256)
    by (apply Z.div_le_lower_bound; [lia|nia]).
  assert (Hhi : ((256 - f) * a + f * b) / 256 <= Z.max a b)
    by (apply Z.div_le_upper_bound; [lia|nia]).
  rewrite uchar_of_small by lia. lia.
Qed.

Lemma cross_byte_between_witness :
  Z.min 10 200
  <= uchar_to_int
       (do_cross_effect_byte F32.half 1 1 sample_bytes1 sample_bytes2
          sample_bytes1 !!! 0%nat)
  <= Z.max 10 200.
Proof.
  apply (cross_byte_between F32.half 1 1 sample_bytes1 sample_bytes2
           sample_bytes1 0).
  - vm_compute. split; discriminate.
  - vm_compute. lia.
  - vm_compute. lia.
Defined.

(** X6.  With a factor whose fixed-point value lies in [0, 256], the byte
    add effect never darkens the first input and adds no more than the
    second input holds, and the byte subtract effect never brightens it and
    takes off no more than the second input holds; neither leaves the range
    of a byte. *)
Theorem add_sub_byte_bounds (fac : float) (x y : Z)
    (rect1 rect2 out : list byte) (i : nat) :
  0 <= F32.to_int (F32.mul (F32.of_int 256) fac) <= 256 ->
  (4 * (Z.to_nat y * Z.to_nat x) <= length out)%nat ->
  (i < 4 * (Z.to_nat y * Z.to_nat x))%nat ->
  let a := uchar_to_int (rect1 !!! i) in
  let b := uchar_to_int (rect2 !!! i) in
  a <= uchar_to_int (do_add_effect_byte fac x y rect1 rect2 out !!! i)
    <= Z.min (a + b) 255
  /\ Z.max (a - b) 0
     <= uchar_to_int (do_sub_effect_byte fac x y rect1 rect2 out !!! i)
     <= a.
Proof.
  intros Hf Hn Hi a b. unfold do_add_effect_byte, do_sub_effect_byte.
  cbv zeta.
  set (f := F32.to_int (F32.mul (F32.of_int 256) fac)) in *.
  rewrite (pixel_loop_colour_alpha x y
             (fun p c =>
                int_to_uchar
                  (Z.min (uchar_to_int (rect1 !!! (p + c)%nat)
                          + Z.shiftr
                              (f * uchar_to_int (rect2 !!! (p + 3)%nat)
                               * uchar_to_int (rect2 !!! (p + c)%nat)) 16)
                     255))
             (fun p => rect1 !!! (p + 3)%nat)) by assumption.
  rewrite (pixel_loop_colour_alpha x y
             (fun p c =>
                int_to_uchar
                  (Z.max (uchar_to_int (rect1 !!! (p + c)%nat)
                          - Z.shiftr
                              (f * uchar_to_int (rect2 !!! (p + 3)%nat)
                               * uchar_to_int (rect2 !!! (p + c)%nat)) 16)
                     0))
             (fun p => rect1 !!! (p + 3)%nat)) by assumption.
  clearbody f. subst a b.
  pose proof (Nat.div_mod_eq i 4) as Hdm.
  pose proof (Nat.mod_upper_bound i 4 ltac:(lia)) as Hmod.
  pose proof (uchar_to_int_range (rect1 !!! i)) as Ha.
  pose proof (uchar_to_int_range (rect2 !!! i)) as Hb.
  destruct (Nat.ltb_spec (i mod 4) 3) as [Hc|Hc].
  - replace (i - i mod 4 + i mod 4)%nat with i by lia.
    pose proof (uchar_to_int_range (rect2 !!! (i - i mod 4 + 3)%nat)) as Hal.
    set (a := uchar_to_int (rect1 !!! i)) in *.
    set (b := uchar_to_int (rect2 !!! i)) in *.
    set (al := uchar_to_int (rect2 !!! (i - i mod 4 + 3)%nat)) in *.
    clearbody a b al.
    assert (Hal' : 0 <= al <= 255) by lia.
    assert (Hb' : 0 <= b) by lia.
    pose proof (scaled_channel_range f al b Hf Hal' Hb') as Hs.
    set (d := Z.shiftr (f * al * b) 16) in *. clearbody d.
    rewrite !uchar_of_small by lia. lia.
  - replace (i - i mod 4 + 3)%nat with i by lia. lia.
Qed.

Lemma add_sub_byte_bounds_witness :
  10 <= uchar_to_int
          (do_add_effect_byte F32.half 1 1 sample_bytes1 sample_bytes2
             sample_bytes1 !!! 0%nat)
     <= Z.min (10 + 200) 255
  /\ Z.max (10 - 200) 0
     <= uchar_to_int
          (do_sub_effect_byte F32.half 1 1 sample_bytes1 sample_bytes2
             sample_bytes1 !!! 0%nat)
     <= 10.
Proof.
  apply (add_sub_byte_bounds F32.half 1 1 sample_bytes1 sample_bytes2
           sample_bytes1 0).
  - vm_compute. split; discriminate.
  - vm_compute. lia.
  - vm_compute. lia.
Defined.

(** X7.  With a factor whose fixed-point value lies in [0, 256], the byte
    multiply effect never brightens the first input and stays in the range
    of a byte; where the second input is white (255) it returns the first
    input. *)
Theorem mul_byte_bounds (fac : float) (x y : Z)
    (rect1 rect2 out : list byte) (i : nat) :
  0 <= F32.to_int (F32.mul (F32.of_int 256) fac) <= 256 ->
  (4 * (Z.to_nat y * Z.to_nat x) <= length out)%nat ->
  (i < 4 * (Z.to_nat y * Z.to_nat x))%nat ->
  0 <= uchar_to_int (do_mul_effect_byte fac x y rect1 rect2 out !!! i)
    <= uchar_to_int (rect1 !!! i)
  /\ (uchar_to_int (rect2 !!! i) = 255 ->
      do_mul_effect_byte fac x y rect1 rect2 out !!! i = rect1 !!! i).
Proof.
  intros Hf Hn Hi. unfold do_mul_effect_byte. cbv zeta.
  rewrite pixel_loop_pointwise by assumption.
  set (f := F32.to_int (F32.mul (F32.of_int 256) fac)) in *. clearbody f.
  pose proof (uchar_to_int_range (rect1 !!! i)) as Ha.
  pose proof (uchar_to_int_range (rect2 !!! i)) as Hb.
  split.
  - set (a := uchar_to_int (rect1 !!! i)) in *.
    set (b := uchar_to_int (rect2 !!! i)) in *. clearbody a b.
    rewrite Z.shiftr_div_pow2 by lia. change (2 ^ 16) with 65536.
    assert (Hfa : 0 <= f * a <= 256 * a) by nia.
    assert (Hlo : - a <= f * a * (b - 255) / 65536)
      by (apply Z.div_le_lower_bound; [lia|nia]).
    assert (Hhi : f * a * (b - 255) / 65536 <= 0)
      by (apply Z.div_le_upper_bound; [lia|nia]).
    rewrite uchar_of_small by lia. lia.
  - intros ->. rewrite Z.sub_diag, Z.mul_0_r, Z.shiftr_0_l, Z.add_0_r.
    apply int_to_uchar_to_int.
Qed.

Lemma mul_byte_bounds_witness :
  0 <= uchar_to_int
         (do_mul_effect_byte F32.half 1 1 sample_bytes1 sample_bytes2
            sample_bytes1 !!! 1%nat)
    <= 20.
Proof.
  apply (mul_byte_bounds F32.half 1 1 sample_bytes1 sample_bytes2
           sample_bytes1 1).
  - vm_compute. split; discriminate.
  - vm_compute. lia.
  - vm_compute. lia.
Defined.

Lemma early_out_zero_factor (fac : float) :
  EarlyOut.early_out_mul_input2 fac = UseInput1 ->
  F32.to_int (F32.mul (F32.of_int 256) fac) = 0.
Proof.
  unfold EarlyOut.early_out_mul_input2. intros Hc.
  destruct fac as [[]|[]| |[] m e];
    first [reflexivity | lazy in Hc; discriminate Hc].
Qed.

Lemma copies_first_input (x y : Z) (px : nat -> @pixel byte)
    (rect1 out : list byte) :
  length rect1 = (4 * (Z.to_nat y * Z.to_nat x))%nat ->
  length out = length rect1 ->
  (forall p, px p = load4 rect1 p) ->
  pixel_loop x y px out = rect1.
Proof.
  intros H1 Ho Hpx. rewrite pixel_loop_spec by lia.
  rewrite drop_ge, app_nil_r by lia.
  rewrite (pixels_of_ext px (load4 rect1)) by (intros; apply Hpx).
  rewrite pixels_of_load4 by lia. apply take_ge. lia.
Qed.

(** X8.  Where the early-out of the add, subtract and multiply effects
    answers that the first input is to be used (the factor is zero), the
    byte loops of the three effects would write the first input, byte for
    byte: skipping them changes nothing. *)
Theorem byte_effects_agree_with_early_out (fac : float) (x y : Z)
    (rect1 rect2 out : list byte) :
  EarlyOut.early_out_mul_input2 fac = UseInput1 ->
  length rect1 = (4 * (Z.to_nat y * Z.to_nat x))%nat ->
  length out = length rect1 ->
  do_add_effect_byte fac x y rect1 rect2 out = rect1
  /\ do_sub_effect_byte fac x y rect1 rect2 out = rect1
  /\ do_mul_effect_byte fac x y rect1 rect2 out = rect1.
Proof.
  intros He H1 Ho. apply early_out_zero_factor in He.
  unfold do_add_effect_byte, do_sub_effect_byte, do_mul_effect_byte.
  cbv zeta. rewrite He.
  assert (Hmin : forall b : byte,
            int_to_uchar (Z.min (uchar_to_int b + 0) 255) = b).
  { intros b. pose proof (uchar_to_int_range b).
    rewrite Z.add_0_r, Z.min_l by lia. apply int_to_uchar_to_int. }
  assert (Hmax : forall b : byte,
            int_to_uchar (Z.max (uchar_to_int b - 0) 0) = b).
  { intros b. pose proof (uchar_to_int_range b).
    rewrite Z.sub_0_r, Z.max_l by lia. apply int_to_uchar_to_int. }
  assert (Hmul : forall b : byte,
            int_to_uchar (uchar_to_int b + 0) = b).
  { intros b. rewrite Z.add_0_r. apply int_to_uchar_to_int. }
  repeat split; apply copies_first_input; try assumption;
    intros p; unfold load4; rewrite ?Z.mul_0_l, ?Z.shiftr_0_l;
    rewrite ?Hmin, ?Hmax, ?Hmul, ?Nat.add_0_r; reflexivity.
Qed.

Lemma byte_effects_agree_with_early_out_witness :
  do_add_effect_byte F32.neg_zero 1 1 sample_bytes1 sample_bytes2
    sample_bytes2 = sample_bytes1
  /\ do_sub_effect_byte F32.neg_zero 1 1 sample_bytes1 sample_bytes2
       sample_bytes2 = sample_bytes1
  /\ do_mul_effect_byte F32.neg_zero 1 1 sample_bytes1 sample_bytes2
       sample_bytes2 = sample_bytes1.
Proof.
  apply (byte_effects_agree_with_early_out F32.neg_zero 1 1 sample_bytes1
           sample_bytes2 sample_bytes2); reflexivity.
Defined.

End ByteFacts.

(** ** Alpha over and alpha under *)

Module Alpha.

Import Blur.

(** The tests on an alpha channel: [alpha <= 0.0f], the channel converted to
    [float], and [alpha_opaque]. *)
Class AlphaChannel (T : Type) : Type := {
  alpha_le_zero : T -> bool;
  alpha_opaque : T -> bool
}.

#[global] Instance byte_alpha : AlphaChannel byte :=
  {| alpha_le_zero b := SFleb (F32.of_int (uchar_to_int b)) F32.zero;
     alpha_opaque b := uchar_to_int b =? 255 |}.

#[global] Instance float_alpha : AlphaChannel float :=
  {| alpha_le_zero a := SFleb a F32.zero;
     alpha_opaque a := SFleb F32.one a |}.

(** [load_premul_pixel] and [store_premul_pixel].  The float pair copies the
    pixel; the byte pair calls the colour conversions of a maths library
    that is not among the sources at hand, which an instance takes as
    given. *)
Class Premul (T : Type) : Type := {
  load_premul_pixel : T * T * T * T -> float4;
  store_premul_pixel : float4 -> T * T * T * T
}.

#[global] Instance float_premul : Premul float :=
  {| load_premul_pixel v := v; store_premul_pixel v := v |}.

Definition byte_premul
    (straight_uchar_to_premul_float : byte * byte * byte * byte -> float4)
    (premul_float_to_straight_uchar : float4 -> byte * byte * byte * byte)
  : Premul byte :=
  {| load_premul_pixel := straight_uchar_to_premul_float;
     store_premul_pixel := premul_float_to_straight_uchar |}.

(** [w * v] for a [float] and a [float4]. *)
Definition f4_smul (w : float) (v : float4) : float4 :=
  let '(v0, v1, v2, v3) := v in
  (F32.mul w v0, F32.mul w v1, F32.mul w v2, F32.mul w v3).

Definition f4_w (v : float4) : float := snd v.

Section Generic.
Context {T : Type} `{!Inhabited T} `{!AlphaChannel T} `{!Premul T}.

(** [memcpy(dst, src, n * sizeof(T))]; both buffers hold [n] elements. *)
Definition memcpy (dst src : list T) (n : nat) : list T :=
  take n src ++ drop n dst.

(** The pixel the loop of [do_alphaover_effect] writes at offset [p]. *)
Definition alphaover_pixel (fac : float) (src1 src2 : list T) (p : nat)
  : @pixel T :=
  if alpha_le_zero (src1 !!! (p + 3)%nat) then load4 src2 p
  else if F32.eqb fac F32.one && alpha_opaque (src1 !!! (p + 3)%nat)
  then load4 src1 p
  else
    let col1 := load_premul_pixel (load4 src1 p) in
    let mfac := F32.sub F32.one (F32.mul fac (f4_w col1)) in
    let col2 := load_premul_pixel (load4 src2 p) in
    let col := f4_add (f4_smul fac col1) (f4_smul mfac col2) in
    store_premul_pixel col.

Definition do_alphaover_effect (fac : float) (width height : Z)
    (src1 src2 dst : list T) : list T :=
  if SFleb fac F32.zero
  then memcpy dst src2 (Z.to_nat (4 * width * height))
  else snd (for_n (width * height)
              (pixel_step (alphaover_pixel fac src1 src2)) (0%nat, dst)).

(** The pixel the loop of [do_alphaunder_effect] writes at offset [p]. *)
Definition alphaunder_pixel (fac : float) (src1 src2 : list T) (p : nat)
  : @pixel T :=
  if alpha_le_zero (src2 !!! (p + 3)%nat) && SFleb F32.one fac
  then load4 src1 p
  else if alpha_opaque (src2 !!! (p + 3)%nat) then load4 src2 p
  else
    let col2 := load_premul_pixel (load4 src2 p) in
    let mfac := F32.mul fac (F32.sub F32.one (f4_w col2)) in
    let col1 := load_premul_pixel (load4 src1 p) in
    let col := f4_add (f4_smul mfac col1) col2 in
    store_premul_pixel col.

Definition do_alphaunder_effect (fac : float) (width height : Z)
    (src1 src2 dst : list T) : list T :=
  if SFleb fac F32.zero
  then memcpy dst src2 (Z.to_nat (4 * width * height))
  else snd (for_n (width * height)
              (pixel_step (alphaunder_pixel fac src1 src2)) (0%nat, dst)).

End Generic.

Example alphaover_float_half :
  do_alphaover_effect F32.half 1 1
    [F32.one; F32.zero; F32.zero; F32.one]
    [F32.zero; F32.one; F32.zero; F32.one]
    [F32.zero; F32.zero; F32.zero; F32.zero]
  = [F32.half; F32.half; F32.zero; F32.one].
Proof. vm_compute. reflexivity. Qed.

End Alpha.

Module AlphaFacts.

Import Blur Alpha.

Lemma eqb_one_not_le_zero (fac : float) :
  F32.eqb fac F32.one = true -> SFleb fac F32.zero = false.
Proof.
  intros Hc.
  destruct fac as [[]|[]| |[] m e];
    first [reflexivity | lazy in Hc; discriminate Hc].
Qed.

Lemma ge_one_not_le_zero (fac : float) :
  SFleb F32.one fac = true -> SFleb fac F32.zero = false.
Proof.
  intros Hc.
  destruct fac as [[]|[]| |[] m e];
    first [reflexivity | lazy in Hc; discriminate Hc].
Qed.

Section Generic.
Context {T : Type} `{!Inhabited T} `{!AlphaChannel T} `{!Premul T}.

(** The pixel a loop over [n] pixels leaves at pixel [q]. *)
Lemma pixel_iter_load4 (px : nat -> @pixel T) (n : nat) (dst : list T)
    (q : nat) :
  (4 * n <= length dst)%nat -> (q < n)%nat ->
  load4 (snd (Nat.iter n (pixel_step px) (0%nat, dst))) (4 * q)%nat
  = px (4 * q)%nat.
Proof.
  intros Hn Hq. rewrite pixel_iter_spec by exact Hn. cbn [snd].
  unfold load4. rewrite !list_lookup_total_alt.
  rewrite <- (Nat.add_0_r (4 * q)) at 1.
  rewrite !lookup_app_l by (rewrite length_pixels_of; lia).
  rewrite !pixels_of_lookup by lia.
  now destruct (px (4 * q)%nat) as [[[v0 v1] v2] v3].
Qed.

Lemma pixel_iter_length (px : nat -> @pixel T) (n : nat) (dst : list T) :
  (4 * n <= length dst)%nat ->
  length (snd (Nat.iter n (pixel_step px) (0%nat, dst))) = length dst.
Proof.
  intros Hn. rewrite pixel_iter_spec by exact Hn. cbn [snd].
  rewrite length_app, length_pixels_of, length_drop. lia.
Qed.

Lemma memcpy_load4 (dst src : list T) (n q : nat) :
  (4 * n <= length src)%nat -> (q < n)%nat ->
  load4 (memcpy dst src (4 * n)) (4 * q)%nat = load4 src (4 * q)%nat.
Proof.
  intros Hn Hq. unfold memcpy, load4. rewrite !list_lookup_total_alt.
  rewrite !lookup_app_l by (rewrite length_take; lia).
  rewrite !lookup_take_lt by lia. reflexivity.
Qed.

Lemma memcpy_length (dst src : list T) (n : nat) :
  (n <= length src)%nat -> (n <= length dst)%nat ->
  length (memcpy dst src n) = length dst.
Proof.
  intros Hs Hd. unfold memcpy. rewrite length_app, length_take, length_drop.
  lia.
Qed.

Lemma to_nat_4 (width height : Z) :
  Z.to_nat (4 * width * height) = (4 * Z.to_nat (width * height))%nat.
Proof. lia. Qed.

(** X9.  Alpha over keeps the size of the destination and writes, at every
    pixel of the slice: the pixel of the second source unchanged when the
    factor is not positive or the first source is transparent there; the
    pixel of the first source unchanged when the factor is 1 and the first
    source is opaque there. *)
Theorem alphaover_passes_inputs (fac : float) (width height : Z)
    (src1 src2 dst : list T) (q : nat) :
  (4 * Z.to_nat (width * height) <= length dst)%nat ->
  (4 * Z.to_nat (width * height) <= length src2)%nat ->
  (q < Z.to_nat (width * height))%nat ->
  let result := do_alphaover_effect fac width height src1 src2 dst in
  length result = length dst
  /\ (SFleb fac F32.zero = true
      \/ alpha_le_zero (src1 !!! (4 * q + 3)%nat) = true ->
      load4 result (4 * q)%nat = load4 src2 (4 * q)%nat)
  /\ (F32.eqb fac F32.one = true ->
      alpha_le_zero (src1 !!! (4 * q + 3)%nat) = false ->
      alpha_opaque (src1 !!! (4 * q + 3)%nat) = true ->
      load4 result (4 * q)%nat = load4 src1 (4 * q)%nat).
Proof.
  intros Hd Hs Hq result. subst result. unfold do_alphaover_effect, for_n.
  rewrite to_nat_4.
  destruct (SFleb fac F32.zero) eqn:Hfac.
  - split; [apply memcpy_length; lia|]. split.
    + intros _. now apply memcpy_load4.
    + intros H1. apply eqb_one_not_le_zero in H1. congruence.
  - split; [now apply pixel_iter_length|].
    rewrite pixel_iter_load4 by assumption. unfold alphaover_pixel. split.
    + intros [Hf|Ha]; [discriminate|]. now rewrite Ha.
    + intros H1 Ha Ho. now rewrite Ha, H1, Ho.
Qed.

(** X10.  Alpha under keeps the size of the destination and writes, at
    every pixel of the slice: the pixel of the second source unchanged when
    the factor is not positive or the second source is opaque there; the
    pixel of the first source unchanged when the factor is at least 1 and
    the second source is transparent there. *)
Theorem alphaunder_passes_inputs (fac : float) (width height : Z)
    (src1 src2 dst : list T) (q : nat) :
  (4 * Z.to_nat (width * height) <= length dst)%nat ->
  (4 * Z.to_nat (width * height) <= length src2)%nat ->
  (q < Z.to_nat (width * height))%nat ->
  let result := do_alphaunder_effect fac width height src1 src2 dst in
  length result = length dst
  /\ (SFleb fac F32.zero = true
      \/ (alpha_le_zero (src2 !!! (4 * q + 3)%nat) = false
          /\ alpha_opaque (src2 !!! (4 * q + 3)%nat) = true) ->
      load4 result (4 * q)%nat = load4 src2 (4 * q)%nat)
  /\ (SFleb F32.one fac = true ->
      alpha_le_zero (src2 !!! (4 * q + 3)%nat) = true ->
      load4 result (4 * q)%nat = load4 src1 (4 * q)%nat).
Proof.
  intros Hd Hs Hq result. subst result. unfold do_alphaunder_effect, for_n.
  rewrite to_nat_4.
  destruct (SFleb fac F32.zero) eqn:Hfac.
  - split; [apply memcpy_length; lia|]. split.
    + intros _. now apply memcpy_load4.
    + intros H1. apply ge_one_not_le_zero in H1. congruence.
  - split; [now apply pixel_iter_length|].
    rewrite pixel_iter_load4 by assumption. unfold alphaunder_pixel. split.
    + intros [Hf|[Ha Ho]]; [discriminate|]. now rewrite Ha, Ho.
    + intros H1 Ha. now rewrite Ha, H1.
Qed.

End Generic.

Lemma alphaover_passes_inputs_witness :
  load4 (do_alphaover_effect F32.one 1 1 sample_floats1 sample_floats2
           sample_floats2) 0
  = load4 sample_floats1 0.
Proof.
  destruct (alphaover_passes_inputs F32.one 1 1 sample_floats1 sample_floats2
              sample_floats2 0) as (_ & _ & Hone).
  - vm_compute. lia.
  - vm_compute. lia.
  - vm_compute. lia.
  - apply Hone; reflexivity.
Defined.

Lemma alphaunder_passes_inputs_witness :
  load4 (do_alphaunder_effect F32.half 1 1 sample_floats2 sample_floats1
           sample_floats2) 0
  = load4 sample_floats1 0.
Proof.
  destruct (alphaunder_passes_inputs F32.half 1 1 sample_floats2
              sample_floats1 sample_floats2 0) as (_ & Hop & _).
  - vm_compute. lia.
  - vm_compute. lia.
  - vm_compute. lia.
  - apply Hop. right. split; reflexivity.
Defined.

End AlphaFacts.

(** ** Word wrapping: what every wrap width keeps *)

Module WrapFacts.

Import Text.

(** A character with its position and its wrap mark blanked: what is left
    is what [build_character_info] gave. *)
Definition blank (c : CharInfo) : CharInfo :=
  set_do_wrap false (set_position (0, 0) c).

(** A character after which the second pass opens a line. *)
Definition ends_line (data : TextVars) (c : CharInfo) : bool :=
  do_wrap c || Byte.eqb (first_byte data c) newline.

Lemma first_byte_blank data c c' :
  blank c' = blank c -> first_byte data c' = first_byte data c.
Proof.
  intros Hb. apply (f_equal str_ptr) in Hb. cbn in Hb.
  unfold first_byte. now rewrite Hb.
Qed.

Lemma on_last_snoc (f : LineInfo -> LineInfo) (ls : list LineInfo) (l : LineInfo) :
  on_last f (ls ++ [l]) = ls ++ [f l].
Proof. unfold on_last. now rewrite reverse_snoc, reverse_involutive. Qed.

Section Passes.
Variable data : TextVars.

(** The first pass changes positions and sets wrap marks, the latter on
    spaces only. *)
Definition marked_from (c c' : CharInfo) : Prop :=
  blank c' = blank c
  /\ (do_wrap c' = true ->
      do_wrap c = true \/ Byte.eqb (first_byte data c) space = true).

Lemma marked_refl (chars : list CharInfo) : Forall2 marked_from chars chars.
Proof. apply Forall2_same_length_lookup_2; [done|].
  intros i c c' Hc Hc'. rewrite Hc in Hc'. injection Hc' as <-.
  split; [reflexivity|auto].
Qed.

Lemma marked_position (chars chars' : list CharInfo) (p : float2) (i : nat) :
  Forall2 marked_from chars chars' ->
  Forall2 marked_from chars (alter (set_position p) i chars').
Proof.
  intros Hm. apply Forall2_alter_r; [exact Hm|].
  intros c c' _ _ [Hb Hw]. split; [exact Hb|exact Hw].
Qed.

Lemma marked_wrap (chars chars' : list CharInfo) (k : nat) :
  Forall2 marked_from chars chars' ->
  Byte.eqb (first_byte data (chars !!! k)) space = true ->
  Forall2 marked_from chars (alter (set_do_wrap true) k chars').
Proof.
  intros Hm Hk. apply Forall2_alter_r; [exact Hm|].
  intros c c' Hc _ [Hb _]. split; [exact Hb|].
  intros _. right. now rewrite (list_lookup_total_correct _ _ _ Hc) in Hk.
Qed.

Lemma marked_first_byte (chars chars' : list CharInfo) (i : nat) :
  Forall2 marked_from chars chars' ->
  first_byte data (chars' !!! i) = first_byte data (chars !!! i).
Proof.
  intros Hm. rewrite !list_lookup_total_alt.
  destruct (chars !! i) as [c|] eqn:Hc.
  - destruct (Forall2_lookup_l _ _ _ _ _ Hm Hc) as (c' & -> & Hb & _).
    now apply first_byte_blank.
  - apply Forall2_length in Hm.
    apply lookup_ge_None in Hc.
    now rewrite (proj2 (lookup_ge_None chars' i)) by lia.
Qed.

Lemma first_pass_marks (wrap_width : Z) (chars : list CharInfo) (i : nat) :
  (i <= length chars)%nat ->
  exists chars' pos last_space,
    fold_left (wrap_step data wrap_width) (seq 0 i) (chars, (0, 0), None)
    = (chars', pos, last_space)
    /\ Forall2 marked_from chars chars'
    /\ forall k, last_space = Some k ->
         Byte.eqb (first_byte data (chars !!! k)) space = true.
Proof.
  induction i as [|i IH]; intros Hi.
  - exists chars, (0, 0), None. repeat split; [apply marked_refl|discriminate].
  - destruct (IH ltac:(lia)) as (chars' & pos & ls & Hfold & Hm & Hls).
    rewrite seq_S, fold_left_app, Hfold. cbn [fold_left Nat.add].
    unfold wrap_step.
    rewrite (marked_first_byte chars chars' i Hm).
    destruct (Byte.eqb (first_byte data (chars !!! i)) space) eqn:Hsp;
      destruct (Byte.eqb (first_byte data (chars !!! i)) newline) eqn:Hnl;
      try destruct ls as [k|];
      repeat match goal with
             | |- context [if ?b then _ else _] => destruct b
             end;
      eexists _, _, _; (split; [reflexivity|]);
      (split;
       [repeat first [apply marked_wrap | apply marked_position];
        first [exact Hm | exact Hsp | now apply Hls]
       |intros k' Hk'; first [discriminate Hk'
                             | injection Hk' as <-; first [exact Hsp | now apply Hls]
                             | now apply Hls]]).
Qed.

(** A line the second pass has closed: it ends with the character that
    closed it, the only one of its kind in the line. *)
Definition closed_line (l : LineInfo) : Prop :=
  exists cs c, characters l = cs ++ [c]
    /\ ends_line data c = true
    /\ forallb (fun c => negb (ends_line data c)) cs = true.

Definition open_line (l : LineInfo) : Prop :=
  forallb (fun c => negb (ends_line data c)) (characters l) = true.

Lemma fill_step_snoc (line_height : Z) (before : list LineInfo)
    (last : LineInfo) (pos : float2) (c : CharInfo) :
  exists pos',
    fill_step data line_height (before ++ [last], pos) c
    = (let last' := {| characters := characters last ++ [set_position pos c];
                       width := fst pos |} in
       if ends_line data c then (before ++ [last']) ++ [empty_line]
       else before ++ [last'],
       pos').
Proof.
  unfold fill_step. rewrite !on_last_snoc. cbn [characters width].
  change (do_wrap (set_position pos c)
          || Byte.eqb (first_byte data (set_position pos c)) newline)
    with (ends_line data c).
  destruct (ends_line data c); eexists; reflexivity.
Qed.

Lemma concat_characters_snoc (before : list LineInfo) (last : LineInfo) :
  concat (map characters (before ++ [last]))
  = concat (map characters before) ++ characters last.
Proof. rewrite map_app, concat_app. cbn. now rewrite app_nil_r. Qed.

(** The second pass appends every character to the lines, in order. *)
Lemma fill_keeps (line_height : Z) (l : list CharInfo) :
  forall (before : list LineInfo) (last : LineInfo) (pos : float2),
  exists before' last' pos',
    fold_left (fill_step data line_height) l (before ++ [last], pos)
    = (before' ++ [last'], pos')
    /\ map TextFacts.erase (concat (map characters (before' ++ [last'])))
       = map TextFacts.erase (concat (map characters (before ++ [last])))
         ++ map TextFacts.erase l.
Proof.
  induction l as [|c l IH]; intros before last pos.
  - exists before, last, pos. cbn. now rewrite app_nil_r.
  - cbn [fold_left].
    destruct (fill_step_snoc line_height before last pos c) as (pos1 & ->).
    cbv zeta.
    set (last1 := {| characters := characters last ++ [set_position pos c];
                     width := fst pos |}).
    assert (Hcat : map TextFacts.erase
                     (concat (map characters (before ++ [last1])))
                   = map TextFacts.erase
                       (concat (map characters (before ++ [last])))
                     ++ [TextFacts.erase c]).
    { rewrite !concat_characters_snoc. subst last1. cbn [characters].
      rewrite app_assoc, map_app. reflexivity. }
    destruct (ends_line data c).
    + destruct (IH (before ++ [last1]) empty_line pos1)
        as (before' & last' & pos' & -> & Hk).
      exists before', last', pos'. split; [reflexivity|].
      rewrite Hk. rewrite (concat_characters_snoc (before ++ [last1])).
      change (characters empty_line) with (@nil CharInfo).
      rewrite app_nil_r, Hcat, <- app_assoc. reflexivity.
    + destruct (IH before last1 pos1) as (before' & last' & pos' & -> & Hk).
      exists before', last', pos'. split; [reflexivity|].
      rewrite Hk, Hcat, <- app_assoc. reflexivity.
Qed.

(** It closes a line at each character that ends one, and nowhere else. *)
Lemma fill_closes (line_height : Z) (l : list CharInfo) :
  forall (before : list LineInfo) (last : LineInfo) (pos : float2),
  Forall closed_line before -> open_line last ->
  exists before' last' pos',
    fold_left (fill_step data line_height) l (before ++ [last], pos)
    = (before' ++ [last'], pos')
    /\ Forall closed_line before' /\ open_line last'
    /\ length before'
       = (length before + length (List.filter (ends_line data) l))%nat.
Proof.
  induction l as [|c l IH]; intros before last pos Hb Hl.
  - exists before, last, pos. cbn. repeat split; try assumption. lia.
  - cbn [fold_left List.filter].
    destruct (fill_step_snoc line_height before last pos c) as (pos1 & ->).
    cbv zeta.
    set (last1 := {| characters := characters last ++ [set_position pos c];
                     width := fst pos |}).
    destruct (ends_line data c) eqn:Hc.
    + destruct (IH (before ++ [last1]) empty_line pos1)
        as (before' & last' & pos' & -> & Hb' & Hl' & Hn).
      * apply Forall_app. split; [exact Hb|]. constructor; [|constructor].
        exists (characters last), (set_position pos c). repeat split.
        -- exact Hc.
        -- exact Hl.
      * reflexivity.
      * exists before', last', pos'. repeat split; try assumption.
        rewrite Hn, length_app. cbn [length]. lia.
    + destruct (IH before last1 pos1)
        as (before' & last' & pos' & -> & Hb' & Hl' & Hn).
      * exact Hb.
      * unfold open_line, last1. cbn [characters].
        rewrite forallb_app. unfold open_line in Hl. rewrite Hl.
        cbn [forallb andb].
        change (ends_line data (set_position pos c)) with (ends_line data c).
        now rewrite Hc.
      * exists before', last', pos'. repeat split; assumption.
Qed.

End Passes.

Lemma marked_blank (data : TextVars) (chars chars' : list CharInfo) :
  Forall2 (marked_from data) chars chars' -> map blank chars' = map blank chars.
Proof.
  induction 1 as [|c c' l l' [Hb _] _ IH]; [reflexivity|].
  cbn [map]. now rewrite Hb, IH.
Qed.

Lemma map_blank_erase (l : list CharInfo) :
  map blank l = map (set_do_wrap false) (map TextFacts.erase l).
Proof. now rewrite map_map. Qed.

(** X11.  Whatever the wrap width, the word wrapping keeps every character,
    in order: the characters of the lines it leaves, one line after the
    other, are those of the lines the runtime had followed by the characters
    it was given, and so is the character vector it leaves, up to the
    positions and the wrap marks it sets.  The line height stays. *)
Theorem word_wrapping_keeps_characters (data : TextVars)
    (runtime : TextVarsRuntime) (image_size_x : Z) (chars : list CharInfo) :
  let result := apply_word_wrapping data runtime image_size_x chars in
  map blank (concat (map characters (lines (fst result))))
  = map blank (concat (map characters (lines runtime))) ++ map blank chars
  /\ map blank (snd result) = map blank chars
  /\ line_height (fst result) = line_height runtime.
Proof.
  unfold apply_word_wrapping. cbv zeta.
  destruct (first_pass_marks data (wrap_width_get data image_size_x) chars
              (length chars) (Nat.le_refl _))
    as (chars' & pos & ls & -> & Hm & _).
  cbv beta iota zeta.
  destruct (TextFacts.fill_turns data (line_height runtime) chars'
              (lines runtime ++ [empty_line]) (0, 0) [])
    as (filled & Hturns & Hset).
  destruct (fill_keeps data (line_height runtime) chars' (lines runtime)
              empty_line (0, 0)) as (before' & last' & pos' & Hfold & Hk).
  unfold float2 in *. rewrite Hturns, Hfold.
  cbn [fst snd lines line_height app].
  pose proof (marked_blank data chars chars' Hm) as Hb.
  assert (Hfilled : map blank filled = map blank chars')
    by (now apply TextFacts.positions_set_map).
  repeat split; [|now rewrite Hfilled].
  rewrite map_blank_erase, Hk, concat_characters_snoc.
  change (characters empty_line) with (@nil CharInfo).
  rewrite app_nil_r, map_app, <- !map_blank_erase. now rewrite Hb.
Qed.

(** X12.  On characters that carry no wrap mark yet, the word wrapping sets
    marks on spaces only, and closes a line exactly after each marked space
    and each newline: every line but the last ends with such a character
    and holds no other, the last line holds none, and there is one line
    more than there are such characters. *)
Theorem word_wrapping_line_ends (data : TextVars) (runtime : TextVarsRuntime)
    (image_size_x : Z) (chars : list CharInfo) :
  lines runtime = [] ->
  forallb (fun c => negb (do_wrap c)) chars = true ->
  let result := apply_word_wrapping data runtime image_size_x chars in
  Forall (fun c => do_wrap c = true ->
                   Byte.eqb (first_byte data c) space = true) (snd result)
  /\ exists before last,
       lines (fst result) = before ++ [last]
       /\ Forall (closed_line data) before
       /\ open_line data last
       /\ length before
          = length (List.filter (ends_line data) (snd result)).
Proof.
  intros Hlines Hnone. unfold apply_word_wrapping. cbv zeta.
  destruct (first_pass_marks data (wrap_width_get data image_size_x) chars
              (length chars) (Nat.le_refl _))
    as (chars' & pos & ls & -> & Hm & _).
  cbv beta iota zeta. rewrite Hlines.
  destruct (TextFacts.fill_turns data (line_height runtime) chars'
              [empty_line] (0, 0) []) as (filled & Hturns & Hset).
  destruct (fill_closes data (line_height runtime) chars' [] empty_line
              (0, 0) (List.Forall_nil _) eq_refl)
    as (before' & last' & pos' & Hfold & Hb & Hl & Hn).
  cbn [app] in Hfold, Hturns |- *. unfold float2 in *. rewrite Hturns, Hfold.
  cbn [fst snd lines app].
  split.
  - apply (TextFacts.positions_set_Forall _ filled chars');
      [intros p c Hc; exact Hc|exact Hset|].
    clear - Hm Hnone. induction Hm as [|c c' l l' [Hb Hw] _ IH];
      [constructor|].
    cbn [forallb] in Hnone. apply andb_prop in Hnone as [Hc Hrest].
    apply negb_true_iff in Hc. constructor; [|now apply IH].
    intros Hd. rewrite (first_byte_blank data c c' Hb).
    destruct (Hw Hd) as [Hc'|Hsp]; [congruence|exact Hsp].
  - exists before', last'. repeat split; try assumption.
    rewrite Hn. symmetry. now apply TextFacts.positions_set_filter.
Qed.

Lemma word_wrapping_line_ends_witness :
  length
    (lines (fst (apply_word_wrapping
                   {| text := sample_text;
                      wrap_width := F32.div F32.one (F32.of_int 5) |}
                   sample_runtime 100 sample_characters)))
  = 2%nat.
Proof.
  destruct (word_wrapping_line_ends
              {| text := sample_text;
                 wrap_width := F32.div F32.one (F32.of_int 5) |}
              sample_runtime 100 sample_characters)
    as (_ & before & last & Hl & _ & _ & Hn).
  - reflexivity.
  - vm_compute. reflexivity.
  - rewrite Hl, length_app, Hn. vm_compute. reflexivity.
Defined.

End WrapFacts.

(** ** The handles of the registry and the public entry points *)

Module Api.

Import Registry.

(** The parameter block of the text effect, as far as
    [SEQ_effects_can_render_text] reads it; [color], [shadow_color] and
    [outline_color] are the alpha components. *)
Record TextStyle : Type := {
  text_size : float;
  color_alpha : float;
  shadow_color_alpha : float;
  outline_color_alpha : float;
  outline_width : float;
  text_flag : Z
}.

Record GaussianBlurVars : Type := { size_x : float; size_y : float }.

(** What the early-out functions read of a strip and of the call. *)
Record EarlyOutArgs : Type := {
  fac : float;
  text_data : TextStyle;
  blur_data : GaussianBlurVars
}.

Section Flags.

(** The flag bits belong to a header that is not among the sources at hand:
    parameters. *)
Variables (SEQ_TEXT_SHADOW SEQ_TEXT_OUTLINE : Z).
Variables (SEQ_EFFECT_NOT_LOADED : Z).

Definition SEQ_effects_can_render_text (data : TextStyle) : bool :=
  if F32.ltb (text_size data) F32.one
     || (F32.eqb (color_alpha data) F32.zero
         && (F32.eqb (shadow_color_alpha data) F32.zero
             || (Z.land (text_flag data) SEQ_TEXT_SHADOW =? 0))
         && (F32.eqb (outline_color_alpha data) F32.zero
             || SFleb (outline_width data) F32.zero
             || (Z.land (text_flag data) SEQ_TEXT_OUTLINE =? 0)))
  then false else true.

(** The call of an early-out function. *)
Definition call_early_out (f : EarlyOutFn) (args : EarlyOutArgs)
  : StripEarlyOut :=
  match f with
  | early_out_noop => EarlyOut.early_out_noop (fac args)
  | early_out_fade => EarlyOut.early_out_fade (fac args)
  | early_out_mul_input2 => EarlyOut.early_out_mul_input2 (fac args)
  | early_out_mul_input1 => EarlyOut.early_out_mul_input1 (fac args)
  | early_out_speed => DoEffect
  | early_out_color | early_out_multicam | early_out_adjustment => NoInput
  | early_out_gaussian_blur =>
      if F32.eqb (size_x (blur_data args)) F32.zero
         && F32.eqb (size_y (blur_data args)) (F32.of_int 0)
      then UseInput1 else DoEffect
  | early_out_text =>
      if negb (SEQ_effects_can_render_text (text_data args))
      then UseInput1 else NoInput
  end.

(** A strip, as far as the entry points read and write it, and the [load]
    functions called on it so far, the latest first. *)
Record Sequence : Type := {
  type : Z;
  flag : Z;
  blend_mode : Z;
  loaded : list LoadFn
}.

Definition set_flag (v : Z) (seq : Sequence) : Sequence :=
  {| type := type seq; flag := v; blend_mode := blend_mode seq;
     loaded := loaded seq |}.

(** [rval.load(seq)]; every handle of the registry has a [load]. *)
Definition call_load (rval : SeqEffectHandle) (seq : Sequence) : Sequence :=
  match load rval with
  | Some f => {| type := type seq; flag := flag seq;
                 blend_mode := blend_mode seq; loaded := f :: loaded seq |}
  | None => seq
  end.

(** [SeqEffectHandle rval = {false, false, nullptr}]: the members that are
    not listed are null as well. *)
Definition empty_handle : SeqEffectHandle :=
  {| multithreaded := false; supports_mask := false; init := None;
     num_inputs := None; load := None; free := None; early_out := None;
     get_default_fac := None; execute := None; init_execution := None;
     execute_slice := None; copy := None |}.

Variable ids : SeqTypeIds.

Definition SEQ_effect_handle_get (seq : Sequence)
  : SeqEffectHandle * Sequence :=
  let rval := empty_handle in
  if negb (Z.land (type seq) (SEQ_TYPE_EFFECT ids) =? 0) then
    let rval := get_sequence_effect_impl ids (type seq) in
    if negb (Z.land (flag seq) SEQ_EFFECT_NOT_LOADED =? 0) then
      let seq := call_load rval seq in
      let seq :=
        set_flag (Z.land (flag seq) (Z.lnot SEQ_EFFECT_NOT_LOADED)) seq in
      (rval, seq)
    else (rval, seq)
  else (rval, seq).

Definition seq_effect_get_sequence_blend (seq : Sequence)
  : SeqEffectHandle * Sequence :=
  let rval := empty_handle in
  if negb (blend_mode seq =? 0) then
    let seq :=
      if negb (Z.land (flag seq) SEQ_EFFECT_NOT_LOADED =? 0)
      then call_load (get_sequence_effect_impl ids (type seq)) seq
      else seq in
    let rval := get_sequence_effect_impl ids (blend_mode seq) in
    if negb (Z.land (flag seq) SEQ_EFFECT_NOT_LOADED =? 0) then
      let seq := call_load rval seq in
      let seq :=
        set_flag (Z.land (flag seq) (Z.lnot SEQ_EFFECT_NOT_LOADED)) seq in
      (rval, seq)
    else (rval, seq)
  else (rval, seq).

End Flags.

(** A speed strip that is not loaded yet, with the bit 1 for "not loaded"
    and the bit 8 for "effect". *)
Definition sample_strip : Sequence :=
  {| type := 29; flag := 1; blend_mode := 0; loaded := [] |}.

Example handle_get_loads :
  snd (SEQ_effect_handle_get 1 sample_ids sample_strip)
  = {| type := 29; flag := 0; blend_mode := 0;
       loaded := [load_speed_effect] |}.
Proof. reflexivity. Qed.

End Api.

Module ApiFacts.

Import Registry Api.

Lemma switch_in {A : Type} (k : Z) (cases : list (Z * A)) (dflt : A) :
  switch k cases dflt = dflt \/ In (switch k cases dflt) (map snd cases).
Proof.
  induction cases as [|[l r] rest IH]; [now left|].
  cbn. destruct (k =? l); [right; now left|].
  destruct IH as [IH|IH]; [now left|right; now right].
Qed.

(** A property of every handle the registry builds follows from its checks
    on the defaults and on every case of the [switch]. *)
Lemma every_handle (P : SeqEffectHandle -> bool) (ids : SeqTypeIds)
    (seq_type : Z) :
  P default_handle = true ->
  forallb (fun body => P (assign body default_handle))
    (map snd (effect_cases ids)) = true ->
  P (get_sequence_effect_impl ids seq_type) = true.
Proof.
  intros Hd Hc. unfold get_sequence_effect_impl. cbv zeta.
  destruct (switch_in seq_type (effect_cases ids) []) as [->|Hin].
  - exact Hd.
  - rewrite forallb_forall in Hc. now apply Hc.
Qed.

(** What the callers of a handle rely on. *)
Definition callable (h : SeqEffectHandle) : bool :=
  non_null (init h) && non_null (num_inputs h) && non_null (load h)
  && non_null (free h) && non_null (early_out h)
  && non_null (get_default_fac h) && non_null (init_execution h)
  && implb (multithreaded h) (non_null (execute_slice h))
  && negb (non_null (execute h) && non_null (execute_slice h)).

(** X13.  Whatever the type, registered or not, the handle of the registry
    has non-null [init], [num_inputs], [load], [free], [early_out],
    [get_default_fac] and [init_execution]; it is multithreaded only with a
    slice executor; and it never has both executors. *)
Theorem every_handle_is_callable (ids : SeqTypeIds) (seq_type : Z) :
  callable (get_sequence_effect_impl ids seq_type) = true.
Proof. apply every_handle; reflexivity. Qed.

(** The count [SEQ_effect_get_num_inputs] reports for a handle. *)
Definition reported_inputs (h : SeqEffectHandle) : Z :=
  if non_null (execute h) || (non_null (execute_slice h)
                              && non_null (init_execution h))
  then from_option call_num_inputs 0 (num_inputs h) else 0.

Definition executable (h : SeqEffectHandle) : bool :=
  xorb (non_null (execute h)) (non_null (execute_slice h)).

(** X14.  For a type that is a case label of the registry exactly one of
    the two executors is set, so the number of inputs reported for the type
    is the answer of the handle's [num_inputs], never the fallback; it is 0,
    1 or 2. *)
Theorem registered_type_reports_its_inputs (ids : SeqTypeIds) (seq_type : Z) :
  In seq_type (registered_types ids) ->
  let h := get_sequence_effect_impl ids seq_type in
  executable h = true
  /\ SEQ_effect_get_num_inputs ids seq_type
     = from_option call_num_inputs 0 (num_inputs h)
  /\ 0 <= SEQ_effect_get_num_inputs ids seq_type <= 2.
Proof.
  intros Hin h.
  assert (Hex : executable h = true
                /\ reported_inputs h
                   = from_option call_num_inputs 0 (num_inputs h)).
  { subst h. unfold get_sequence_effect_impl. cbv zeta.
    destruct (switch_case seq_type (effect_cases ids) [] Hin)
      as (body & Hbody & ->).
    assert (Hall : forallb
              (fun body =>
                 executable (assign body default_handle)
                 && (reported_inputs (assign body default_handle)
                     =? from_option call_num_inputs 0
                          (num_inputs (assign body default_handle))))
              (map snd (effect_cases ids)) = true) by reflexivity.
    rewrite forallb_forall in Hall.
    specialize (Hall body (in_map snd _ _ Hbody)).
    apply andb_prop in Hall as [He Hn]. apply Z.eqb_eq in Hn. now split. }
  destruct Hex as [He Hn].
  change (SEQ_effect_get_num_inputs ids seq_type) with (reported_inputs h).
  repeat split; [exact He|exact Hn|..];
    assert (Hr : ((0 <=? reported_inputs h) && (reported_inputs h <=? 2))
                 = true)
      by (apply (every_handle
                   (fun h => (0 <=? reported_inputs h)
                             && (reported_inputs h <=? 2))); reflexivity);
    lia.
Qed.

Lemma registered_type_reports_its_inputs_witness :
  SEQ_effect_get_num_inputs sample_ids 26 = 1.
Proof.
  destruct (registered_type_reports_its_inputs sample_ids 26)
    as (_ & Hn & _).
  - vm_compute. tauto.
  - rewrite Hn. reflexivity.
Defined.

(** The early-out functions that can answer [UseInput2]. *)
Definition may_use_input2 (f : EarlyOutFn) : bool :=
  match f with
  | early_out_fade | early_out_mul_input1 => true
  | _ => false
  end.

Lemma use_input2_from (shadow outline : Z) (f : EarlyOutFn)
    (args : EarlyOutArgs) :
  call_early_out shadow outline f args = UseInput2 ->
  may_use_input2 f = true.
Proof.
  destruct f; cbn [call_early_out may_use_input2]; try reflexivity;
    unfold EarlyOut.early_out_noop, EarlyOut.early_out_mul_input2;
    repeat match goal with
           | |- context [if ?b then _ else _] => destruct b
           end; discriminate.
Qed.

(** X15.  Whatever the type, the factor and the strip data, the early-out
    function of a handle answers [UseInput2] only for an effect that reports
    two inputs. *)
Theorem use_input2_needs_two_inputs (SEQ_TEXT_SHADOW SEQ_TEXT_OUTLINE : Z)
    (ids : SeqTypeIds) (seq_type : Z) (f : EarlyOutFn) (args : EarlyOutArgs) :
  early_out (get_sequence_effect_impl ids seq_type) = Some f ->
  call_early_out SEQ_TEXT_SHADOW SEQ_TEXT_OUTLINE f args = UseInput2 ->
  SEQ_effect_get_num_inputs ids seq_type = 2.
Proof.
  intros Hf Hcall. apply use_input2_from in Hcall.
  change (SEQ_effect_get_num_inputs ids seq_type)
    with (reported_inputs (get_sequence_effect_impl ids seq_type)).
  assert (Hall : implb (from_option may_use_input2 false
                          (early_out (get_sequence_effect_impl ids seq_type)))
                   (reported_inputs (get_sequence_effect_impl ids seq_type)
                    =? 2) = true)
    by (apply (every_handle
                 (fun h => implb (from_option may_use_input2 false
                                    (early_out h))
                             (reported_inputs h =? 2))); reflexivity).
  rewrite Hf in Hall. cbn [from_option] in Hall. rewrite Hcall in Hall.
  now apply Z.eqb_eq in Hall.
Qed.

Lemma use_input2_needs_two_inputs_witness :
  SEQ_effect_get_num_inputs sample_ids 8 = 2.
Proof.
  apply (use_input2_needs_two_inputs 1 2 sample_ids 8 early_out_fade
           {| fac := F32.one;
              text_data := {| text_size := F32.one; color_alpha := F32.one;
                              shadow_color_alpha := F32.one;
                              outline_color_alpha := F32.one;
                              outline_width := F32.one; text_flag := 0 |};
              blur_data := {| size_x := F32.zero; size_y := F32.zero |} |});
    reflexivity.
Defined.

Section Loading.
Variables (SEQ_EFFECT_NOT_LOADED : Z) (ids : SeqTypeIds).

Lemma cleared_flag (flag : Z) :
  Z.land (Z.land flag (Z.lnot SEQ_EFFECT_NOT_LOADED)) SEQ_EFFECT_NOT_LOADED
  = 0.
Proof.
  rewrite <- Z.land_assoc, (Z.land_comm (Z.lnot _)), Z.land_lnot_diag.
  apply Z.land_0_r.
Qed.

(** X16.  [SEQ_effect_handle_get] gives a strip whose type has no effect
    bit the handle with every member null and leaves the strip as it is;
    for an effect type it gives the handle of the registry, calls its [load]
    exactly when the strip has the not-loaded bit, and leaves that bit
    cleared: a second call gives the same handle and changes nothing. *)
Theorem handle_get_loads_once (seq : Sequence) :
  let '(rval, seq1) := SEQ_effect_handle_get SEQ_EFFECT_NOT_LOADED ids seq in
  (if Z.land (type seq) (SEQ_TYPE_EFFECT ids) =? 0
   then rval = empty_handle /\ seq1 = seq
   else rval = get_sequence_effect_impl ids (type seq)
        /\ Z.land (flag seq1) SEQ_EFFECT_NOT_LOADED = 0
        /\ loaded seq1
           = (if Z.land (flag seq) SEQ_EFFECT_NOT_LOADED =? 0 then []
              else option_list (load rval)) ++ loaded seq)
  /\ SEQ_effect_handle_get SEQ_EFFECT_NOT_LOADED ids seq1 = (rval, seq1).
Proof.
  unfold SEQ_effect_handle_get. cbv zeta.
  destruct (Z.land (type seq) (SEQ_TYPE_EFFECT ids) =? 0) eqn:Ht;
    cbn [negb].
  - rewrite Ht. cbn [negb]. repeat split.
  - destruct (Z.eqb_spec (Z.land (flag seq) SEQ_EFFECT_NOT_LOADED) 0)
      as [Hf|Hf]; cbn [negb].
    + rewrite Ht. cbn [negb]. rewrite Hf. cbn. repeat split; exact Hf.
    + assert (Hl : load (get_sequence_effect_impl ids (type seq)) <> None).
      { assert (Hc : callable (get_sequence_effect_impl ids (type seq))
                     = true) by (apply every_handle; reflexivity).
        unfold callable in Hc.
        destruct (load (get_sequence_effect_impl ids (type seq)));
          [discriminate|].
        cbn in Hc. now rewrite !andb_false_r in Hc. }
      unfold call_load.
      destruct (load (get_sequence_effect_impl ids (type seq))) as [f|];
        [|contradiction].
      cbn [set_flag flag type blend_mode loaded].
      rewrite Ht, cleared_flag. cbn. repeat split.
Qed.

(** X17.  [seq_effect_get_sequence_blend] gives a strip without a blend
    mode the handle with every member null and leaves the strip as it is;
    otherwise it gives the handle of the blend mode and, when the strip has
    the not-loaded bit, calls the [load] of the strip's own type, then that
    of the blend mode, and clears the bit. *)
Theorem sequence_blend_loads (seq : Sequence) :
  let '(rval, seq1) :=
    seq_effect_get_sequence_blend SEQ_EFFECT_NOT_LOADED ids seq in
  if blend_mode seq =? 0
  then rval = empty_handle /\ seq1 = seq
  else rval = get_sequence_effect_impl ids (blend_mode seq)
       /\ Z.land (flag seq1) SEQ_EFFECT_NOT_LOADED = 0
       /\ loaded seq1
          = (if Z.land (flag seq) SEQ_EFFECT_NOT_LOADED =? 0 then []
             else option_list (load rval)
                  ++ option_list
                       (load (get_sequence_effect_impl ids (type seq))))
            ++ loaded seq.
Proof.
  unfold seq_effect_get_sequence_blend. cbv zeta.
  destruct (blend_mode seq =? 0) eqn:Hb; cbn [negb]; [now split|].
  destruct (Z.eqb_spec (Z.land (flag seq) SEQ_EFFECT_NOT_LOADED) 0)
    as [Hf|Hf]; cbn [negb].
  - rewrite Hf. cbn. repeat split; exact Hf.
  - assert (Hsame : forall h, flag (call_load h seq) = flag seq
                              /\ blend_mode (call_load h seq) = blend_mode seq)
      by (intros h; unfold call_load; now destruct (load h)).
    destruct (Hsame (get_sequence_effect_impl ids (type seq))) as [-> ->].
    destruct (Z.eqb_spec (Z.land (flag seq) SEQ_EFFECT_NOT_LOADED) 0)
      as [|_]; [contradiction|]. cbn [negb].
    split; [reflexivity|]. split.
    + cbn [set_flag flag]. apply cleared_flag.
    + unfold call_load.
      destruct (load (get_sequence_effect_impl ids (blend_mode seq)));
        destruct (load (get_sequence_effect_impl ids (type seq)));
        reflexivity.
Qed.

End Loading.

End ApiFacts.

(** ** Slices of the blur passes *)

Module BlurSlices.

Import Blur BlurFacts.

Lemma Zrange_app (lo n m : Z) :
  0 <= n -> 0 <= m -> Zrange lo (n + m) = Zrange lo n ++ Zrange (lo + n) m.
Proof.
  intros Hn Hm. unfold Zrange.
  rewrite Z2Nat.inj_add, seq_app, map_app by lia. f_equal.
  cbn [Nat.add]. rewrite (seq_from (Z.to_nat n)), map_map.
  apply map_ext. intros i. lia.
Qed.

Section Rows.
Context {T : Type} `{!Inhabited T}.
Variable pixel_at : Z -> Z -> @pixel T.

(** The cells of the rows of a slice, in the order of the two loops. *)
Definition slice_cells (start_line width height : Z) : list (Z * Z) :=
  flat_map (fun y => map (fun x => (x, y)) (Zrange 0 width))
    (Zrange start_line height).

Lemma length_slice_cells (start_line width height : Z) :
  0 <= start_line -> 0 <= width ->
  length (slice_cells start_line width height)
  = (Z.to_nat height * Z.to_nat width)%nat.
Proof.
  intros Hs Hw.
  rewrite <- (length_map (fun c => Z.to_nat (snd c * width + fst c))).
  unfold slice_cells. rewrite cells_consecutive by assumption.
  apply length_seq.
Qed.

(** The two loops of a pass, from any pointer. *)
Lemma rows_fold (start_line width height : Z) (p : nat) (dst : list T) :
  0 <= start_line -> 0 <= width ->
  (p + 4 * (Z.to_nat height * Z.to_nat width) <= length dst)%nat ->
  fold_left
    (fun st y =>
       fold_left
         (fun (st : nat * list T) x =>
            let '(p, dst) := st in
            ((p + 4)%nat, store4 p (pixel_at x y) dst))
         (Zrange 0 width) st)
    (Zrange start_line height) (p, dst)
  = ((p + 4 * (Z.to_nat height * Z.to_nat width))%nat,
     take p dst
     ++ flat_map (fun c => pixel_list (pixel_at (fst c) (snd c)))
          (slice_cells start_line width height)
     ++ drop (p + 4 * (Z.to_nat height * Z.to_nat width)) dst).
Proof.
  intros Hs Hw Hlen.
  rewrite (fold_rows
             (fun (st : nat * list T) x y =>
                let '(p, dst) := st in
                ((p + 4)%nat, store4 p (pixel_at x y) dst))).
  fold (slice_cells start_line width height).
  change (fold_left _ (slice_cells start_line width height) ?s0)
    with (fold_left
            (fun (st : nat * list T) c =>
               let '(p, dst) := st in
               ((p + 4)%nat, store4 p (pixel_at (fst c) (snd c)) dst))
            (slice_cells start_line width height) s0).
  pose proof (length_slice_cells start_line width height Hs Hw) as Hc.
  rewrite write_run by (rewrite Hc; exact Hlen).
  now rewrite Hc.
Qed.

Lemma length_slice_pixels (start_line width height : Z) :
  0 <= start_line -> 0 <= width ->
  length (flat_map (fun c => pixel_list (pixel_at (fst c) (snd c)))
            (slice_cells start_line width height))
  = (4 * (Z.to_nat height * Z.to_nat width))%nat.
Proof.
  intros Hs Hw. rewrite <- (length_slice_cells start_line width height Hs Hw).
  induction (slice_cells start_line width height) as [|c l IH];
    [reflexivity|].
  cbn [flat_map length]. rewrite length_app, IH.
  destruct (pixel_at (fst c) (snd c)) as [[[? ?] ?] ?]. cbn. lia.
Qed.

(** A pass over a slice touches the rows of the slice only, and a pass over
    the next slice continues it. *)
Lemma blur_rows_slices (start_line width h1 h2 : Z) (dst : list T) :
  0 <= start_line -> 0 <= width -> 0 <= h1 -> 0 <= h2 ->
  (Z.to_nat (4 * (start_line + h1 + h2) * width) <= length dst)%nat ->
  let first := blur_rows pixel_at start_line width h1 dst in
  length first = length dst
  /\ take (Z.to_nat (4 * start_line * width)) first
     = take (Z.to_nat (4 * start_line * width)) dst
  /\ drop (Z.to_nat (4 * (start_line + h1) * width)) first
     = drop (Z.to_nat (4 * (start_line + h1) * width)) dst
  /\ blur_rows pixel_at (start_line + h1) width h2 first
     = blur_rows pixel_at start_line width (h1 + h2) dst.
Proof.
  intros Hs Hw H1 H2 Hlen first.
  set (p0 := Z.to_nat (start_line * width * 4)).
  set (n1 := (Z.to_nat h1 * Z.to_nat width)%nat).
  set (n2 := (Z.to_nat h2 * Z.to_nat width)%nat).
  assert (Hp1 : Z.to_nat ((start_line + h1) * width * 4) = (p0 + 4 * n1)%nat)
    by (unfold p0, n1; nia).
  assert (Hfit : (p0 + 4 * n1 + 4 * n2 <= length dst)%nat)
    by (unfold p0, n1, n2; nia).
  assert (Hfirst : fold_left
            (fun st y =>
               fold_left
                 (fun (st : nat * list T) x =>
                    let '(p, dst) := st in
                    ((p + 4)%nat, store4 p (pixel_at x y) dst))
                 (Zrange 0 width) st)
            (Zrange start_line h1) (p0, dst)
          = ((p0 + 4 * n1)%nat,
             take p0 dst
             ++ flat_map (fun c => pixel_list (pixel_at (fst c) (snd c)))
                  (slice_cells start_line width h1)
             ++ drop (p0 + 4 * n1) dst))
    by (apply rows_fold; [assumption..|fold n1; lia]).
  assert (Hval : first
                 = take p0 dst
                   ++ flat_map (fun c => pixel_list (pixel_at (fst c) (snd c)))
                        (slice_cells start_line width h1)
                   ++ drop (p0 + 4 * n1) dst).
  { subst first. unfold blur_rows. fold p0. now rewrite Hfirst. }
  pose proof (length_slice_pixels start_line width h1 Hs Hw) as Hpix.
  fold n1 in Hpix.
  replace (Z.to_nat (4 * start_line * width)) with p0 by (unfold p0; lia).
  replace (Z.to_nat (4 * (start_line + h1) * width)) with (p0 + 4 * n1)%nat
    by (rewrite <- Hp1; lia).
  assert (Htake : length (take p0 dst) = p0) by (rewrite length_take; lia).
  repeat split.
  - rewrite Hval, !length_app, Htake, Hpix, length_drop. lia.
  - rewrite Hval. rewrite take_app_le by lia. rewrite take_take.
    f_equal. lia.
  - rewrite Hval, app_assoc.
    rewrite drop_app_ge by (rewrite length_app, Htake, Hpix; lia).
    rewrite length_app, Htake, Hpix, drop_drop. f_equal. lia.
  - unfold blur_rows at 2. rewrite Zrange_app by assumption.
    rewrite fold_left_app. fold p0. rewrite Hfirst.
    unfold blur_rows. rewrite Hp1. subst first. unfold blur_rows.
    fold p0. rewrite Hfirst. reflexivity.
Qed.

End Rows.

(** X18.  A pass of the Gaussian blur over a slice of rows, horizontal or
    vertical, keeps the size of the destination and leaves the rows before
    and after the slice as they were; the pass over the next slice, run on
    its result, gives what one pass over both slices gives. *)
Theorem gaussian_blur_slices {T : Type} `{!Inhabited T} `{!Channel T}
    (gaussian : list float)
    (half_size start_line width h1 h2 frame_height : Z) (rect dst : list T) :
  0 <= start_line -> 0 <= width -> 0 <= h1 -> 0 <= h2 ->
  (Z.to_nat (4 * (start_line + h1 + h2) * width) <= length dst)%nat ->
  let first_x :=
    gaussian_blur_x gaussian half_size start_line width h1 frame_height
      rect dst in
  let first_y :=
    gaussian_blur_y gaussian half_size start_line width h1 frame_height
      rect dst in
  (length first_x = length dst
   /\ take (Z.to_nat (4 * start_line * width)) first_x
      = take (Z.to_nat (4 * start_line * width)) dst
   /\ drop (Z.to_nat (4 * (start_line + h1) * width)) first_x
      = drop (Z.to_nat (4 * (start_line + h1) * width)) dst
   /\ gaussian_blur_x gaussian half_size (start_line + h1) width h2
        frame_height rect first_x
      = gaussian_blur_x gaussian half_size start_line width (h1 + h2)
          frame_height rect dst)
  /\ (length first_y = length dst
      /\ take (Z.to_nat (4 * start_line * width)) first_y
         = take (Z.to_nat (4 * start_line * width)) dst
      /\ drop (Z.to_nat (4 * (start_line + h1) * width)) first_y
         = drop (Z.to_nat (4 * (start_line + h1) * width)) dst
      /\ gaussian_blur_y gaussian half_size (start_line + h1) width h2
           frame_height rect first_y
         = gaussian_blur_y gaussian half_size start_line width (h1 + h2)
             frame_height rect dst).
Proof.
  intros Hs Hw H1 H2 Hlen first_x first_y. split.
  - apply (blur_rows_slices (blur_x_pixel gaussian half_size width rect));
      assumption.
  - apply (blur_rows_slices
             (blur_y_pixel gaussian half_size width frame_height rect));
      assumption.
Qed.

Lemma gaussian_blur_slices_witness :
  gaussian_blur_x [F32.one] 0 1 1 1 2 (sample_bytes1 ++ sample_bytes2)
    (gaussian_blur_x [F32.one] 0 0 1 1 2 (sample_bytes1 ++ sample_bytes2)
       (sample_bytes2 ++ sample_bytes1))
  = gaussian_blur_x [F32.one] 0 0 1 (1 + 1) 2 (sample_bytes1 ++ sample_bytes2)
      (sample_bytes2 ++ sample_bytes1).
Proof.
  destruct (gaussian_blur_slices [F32.one] 0 0 1 1 1 2
              (sample_bytes1 ++ sample_bytes2)
              (sample_bytes2 ++ sample_bytes1))
    as [(_ & _ & _ & Hx) _]; try lia.
  - vm_compute. lia.
  - exact Hx.
Defined.

End BlurSlices.

(** ** Slices of the per-pixel effects *)

Module Slices.

(** [do_cross_effect], [do_add_effect], [do_sub_effect] and [do_mul_effect]
    on the buffers of the representation of [out], byte or float:
    [slice_get_byte_buffers] and [slice_get_float_buffers] advance the three
    pointers by [4 * start_line * rectx] channels, and the loop of the
    effect runs over [total_lines] rows from there. *)
Definition slice_effect {T : Type}
    (loop : float -> Z -> Z -> list T -> list T -> list T -> list T)
    (rectx : Z) (fac : float) (ibuf1 ibuf2 : list T)
    (start_line total_lines : Z) (out : list T) : list T :=
  let offset := Z.to_nat (4 * start_line * rectx) in
  take offset out
  ++ loop fac rectx total_lines (drop offset ibuf1) (drop offset ibuf2)
       (drop offset out).

Definition byte_loops
  : list (float -> Z -> Z -> list byte -> list byte -> list byte -> list byte) :=
  [ Cross.do_cross_effect_byte; AddSub.do_add_effect_byte;
    AddSub.do_sub_effect_byte; ByteEffects.do_mul_effect_byte ].

Definition float_loops
  : list (float -> Z -> Z -> list float -> list float -> list float
          -> list float) :=
  [ Cross.do_cross_effect_float; AddSub.do_add_effect_float;
    AddSub.do_sub_effect_float; ByteEffects.do_mul_effect_float ].

Section Pointwise.
Context {T : Type} `{!Inhabited T}.

(** A loop that writes each pixel from the inputs at the same offset. *)
Definition pointwise
    (loop : float -> Z -> Z -> list T -> list T -> list T -> list T) : Prop :=
  exists px : float -> list T -> list T -> nat -> @pixel T,
    (forall fac x y r1 r2 o, loop fac x y r1 r2 o = pixel_loop x y (px fac r1 r2) o)
    /\ forall fac r1 r2 d p,
         px fac (drop d r1) (drop d r2) p = px fac r1 r2 (d + p)%nat.

(** What a slice of a pointwise loop writes, from the offset [off]. *)
Lemma slice_value loop px (rectx : Z) (fac : float) (ibuf1 ibuf2 : list T)
    (start_line total_lines : Z) (out : list T) :
  (forall fac x y r1 r2 o, loop fac x y r1 r2 o = pixel_loop x y (px fac r1 r2) o) ->
  (forall fac r1 r2 d p,
     px fac (drop d r1) (drop d r2) p = px fac r1 r2 (d + p)%nat) ->
  let off := Z.to_nat (4 * start_line * rectx) in
  let n := (Z.to_nat total_lines * Z.to_nat rectx)%nat in
  (off + 4 * n <= length out)%nat ->
  slice_effect loop rectx fac ibuf1 ibuf2 start_line total_lines out
  = take off out
    ++ flat_map (fun q => pixel_list (px fac ibuf1 ibuf2 (off + 4 * q)%nat))
         (seq 0 n)
    ++ drop (off + 4 * n) out.
Proof.
  intros Hloop Hshift off n Hlen. unfold slice_effect. fold off.
  rewrite Hloop, pixel_loop_spec by (rewrite length_drop; fold n; lia).
  fold n. rewrite drop_drop. do 2 f_equal.
  unfold pixels_of. apply flat_map_ext. intros q. now rewrite Hshift.
Qed.

Lemma length_segment (f : nat -> @pixel T) (a n : nat) :
  length (flat_map (fun q => pixel_list (f q)) (seq a n)) = (4 * n)%nat.
Proof.
  revert a. induction n as [|n IH]; intros a; [reflexivity|].
  cbn [seq flat_map]. rewrite length_app, IH.
  destruct (f a) as [[[? ?] ?] ?]. cbn. lia.
Qed.

Lemma slices_compose loop (rectx : Z) (fac : float) (ibuf1 ibuf2 : list T)
    (start_line h1 h2 : Z) (out : list T) :
  pointwise loop ->
  0 <= start_line -> 0 <= rectx -> 0 <= h1 -> 0 <= h2 ->
  (Z.to_nat (4 * (start_line + h1 + h2) * rectx) <= length out)%nat ->
  let first := slice_effect loop rectx fac ibuf1 ibuf2 start_line h1 out in
  length first = length out
  /\ take (Z.to_nat (4 * start_line * rectx)) first
     = take (Z.to_nat (4 * start_line * rectx)) out
  /\ drop (Z.to_nat (4 * (start_line + h1) * rectx)) first
     = drop (Z.to_nat (4 * (start_line + h1) * rectx)) out
  /\ slice_effect loop rectx fac ibuf1 ibuf2 (start_line + h1) h2 first
     = slice_effect loop rectx fac ibuf1 ibuf2 start_line (h1 + h2) out.
Proof.
  intros (px & Hloop & Hshift) Hs Hx H1 H2 Hlen first.
  set (off := Z.to_nat (4 * start_line * rectx)).
  set (n1 := (Z.to_nat h1 * Z.to_nat rectx)%nat).
  set (n2 := (Z.to_nat h2 * Z.to_nat rectx)%nat).
  assert (Hoff1 : Z.to_nat (4 * (start_line + h1) * rectx)
                  = (off + 4 * n1)%nat) by (unfold off, n1; nia).
  assert (Hn : (Z.to_nat (h1 + h2) * Z.to_nat rectx)%nat = (n1 + n2)%nat)
    by (unfold n1, n2; nia).
  assert (Hfit : (off + 4 * n1 + 4 * n2 <= length out)%nat)
    by (unfold off, n1, n2; nia).
  set (seg := fun a n =>
                flat_map (fun q => pixel_list
                                     (px fac ibuf1 ibuf2 (off + 4 * q)%nat))
                  (seq a n)).
  assert (Hfirst : first = take off out ++ seg 0%nat n1
                           ++ drop (off + 4 * n1) out).
  { subst first. rewrite (slice_value loop px) by (try assumption; fold off n1; lia).
    reflexivity. }
  assert (Htake : length (take off out) = off) by (rewrite length_take; lia).
  assert (Hseg : forall a n, length (seg a n) = (4 * n)%nat)
    by (intros; apply length_segment).
  assert (Hlen1 : length first = length out)
    by (rewrite Hfirst, !length_app, Htake, Hseg, length_drop; lia).
  rewrite Hoff1. repeat split.
  - exact Hlen1.
  - rewrite Hfirst, take_app_le by lia. rewrite take_take. f_equal. lia.
  - rewrite Hfirst, app_assoc.
    rewrite drop_app_ge by (rewrite length_app, Htake, Hseg; lia).
    rewrite length_app, Htake, Hseg, drop_drop. f_equal. lia.
  - rewrite (slice_value loop px _ _ _ _ (start_line + h1))
      by (try assumption; rewrite Hoff1, Hlen1; fold n2; lia).
    rewrite (slice_value loop px _ _ _ _ start_line (h1 + h2))
      by (try assumption; fold off; rewrite Hn; lia).
    rewrite Hoff1, Hn. fold off n2.
    change (flat_map _ (seq 0 (n1 + n2))) with (seg 0%nat (n1 + n2)%nat).
    assert (Hsplit : seg 0%nat (n1 + n2)%nat
                     = seg 0%nat n1
                       ++ flat_map
                            (fun q => pixel_list
                                        (px fac ibuf1 ibuf2
                                           (off + 4 * n1 + 4 * q)%nat))
                            (seq 0 n2)).
    { unfold seg. rewrite seq_app, flat_map_app. f_equal.
      cbn [Nat.add]. rewrite (seq_from n1 n2).
      rewrite flat_map_concat_map, map_map, <- flat_map_concat_map.
      apply flat_map_ext. intros q. do 2 f_equal. lia. }
    rewrite Hsplit, Hfirst.
    rewrite (app_assoc (take off out)).
    rewrite take_app_length' by (rewrite length_app, Htake, Hseg; lia).
    rewrite drop_app_ge by (rewrite length_app, Htake, Hseg; lia).
    rewrite length_app, Htake, Hseg, drop_drop, <- !app_assoc.
    do 3 f_equal. f_equal. lia.
Qed.

End Pointwise.

Ltac shifted_pixel :=
  intros; cbv beta zeta; rewrite ?lookup_total_drop, ?Nat.add_assoc;
  reflexivity.

Lemma byte_loops_pointwise loop : In loop byte_loops -> pointwise loop.
Proof.
  intros [<- | [<- | [<- | [<- | []]]]].
  - eexists (fun fac r1 r2 p => _). split.
    + intros. unfold Cross.do_cross_effect_byte. cbv zeta. reflexivity.
    + shifted_pixel.
  - eexists (fun fac r1 r2 p => _). split.
    + intros. unfold AddSub.do_add_effect_byte. cbv zeta. reflexivity.
    + shifted_pixel.
  - eexists (fun fac r1 r2 p => _). split.
    + intros. unfold AddSub.do_sub_effect_byte. cbv zeta. reflexivity.
    + shifted_pixel.
  - eexists (fun fac r1 r2 p => _). split.
    + intros. unfold ByteEffects.do_mul_effect_byte. cbv zeta. reflexivity.
    + shifted_pixel.
Qed.

Lemma float_loops_pointwise loop : In loop float_loops -> pointwise loop.
Proof.
  intros [<- | [<- | [<- | [<- | []]]]].
  - eexists (fun fac r1 r2 p => _). split.
    + intros. unfold Cross.do_cross_effect_float. cbv zeta. reflexivity.
    + shifted_pixel.
  - eexists (fun fac r1 r2 p => _). split.
    + intros. unfold AddSub.do_add_effect_float. cbv zeta. reflexivity.
    + shifted_pixel.
  - eexists (fun fac r1 r2 p => _). split.
    + intros. unfold AddSub.do_sub_effect_float. cbv zeta. reflexivity.
    + shifted_pixel.
  - eexists (fun fac r1 r2 p => _). split.
    + intros. unfold ByteEffects.do_mul_effect_float. cbv zeta. reflexivity.
    + shifted_pixel.
Qed.

(** What running a slice is claimed to do: the size of [out] is kept, the
    rows outside the slice are as they were, and the next slice run on the
    result gives what one run over both slices gives. *)
Definition composes {T : Type}
    (loop : float -> Z -> Z -> list T -> list T -> list T -> list T)
    (rectx : Z) (fac : float) (ibuf1 ibuf2 : list T)
    (start_line h1 h2 : Z) (out : list T) : Prop :=
  let first := slice_effect loop rectx fac ibuf1 ibuf2 start_line h1 out in
  length first = length out
  /\ take (Z.to_nat (4 * start_line * rectx)) first
     = take (Z.to_nat (4 * start_line * rectx)) out
  /\ drop (Z.to_nat (4 * (start_line + h1) * rectx)) first
     = drop (Z.to_nat (4 * (start_line + h1) * rectx)) out
  /\ slice_effect loop rectx fac ibuf1 ibuf2 (start_line + h1) h2 first
     = slice_effect loop rectx fac ibuf1 ibuf2 start_line (h1 + h2) out.

(** X19.  The cross, add, subtract and multiply effects, on byte and on
    float buffers, run on a slice of rows keep the size of the output and
    leave its rows outside the slice as they were, and running the next
    slice on the result gives what one run over both slices gives: the
    rows of a frame can be rendered slice by slice. *)
Theorem per_pixel_effect_slices (rectx : Z) (fac : float)
    (start_line h1 h2 : Z) :
  0 <= start_line -> 0 <= rectx -> 0 <= h1 -> 0 <= h2 ->
  4 * (start_line + h1 + h2) * rectx < 2 ^ 31 ->
  (forall loop ibuf1 ibuf2 out,
     In loop byte_loops ->
     (Z.to_nat (4 * (start_line + h1 + h2) * rectx) <= length out)%nat ->
     composes loop rectx fac ibuf1 ibuf2 start_line h1 h2 out)
  /\ (forall loop ibuf1 ibuf2 out,
        In loop float_loops ->
        (Z.to_nat (4 * (start_line + h1 + h2) * rectx) <= length out)%nat ->
        composes loop rectx fac ibuf1 ibuf2 start_line h1 h2 out).
Proof.
  intros Hs Hx H1 H2 _. split; intros loop ibuf1 ibuf2 out Hin Hlen.
  - apply slices_compose; auto using byte_loops_pointwise.
  - apply slices_compose; auto using float_loops_pointwise.
Qed.

Lemma per_pixel_effect_slices_witness :
  composes Cross.do_cross_effect_byte 1 F32.half
    (sample_bytes1 ++ sample_bytes2) (sample_bytes2 ++ sample_bytes1) 0 1 1
    (sample_bytes1 ++ sample_bytes1)
  /\ composes ByteEffects.do_mul_effect_float 1 F32.half
       (sample_floats1 ++ sample_floats2) (sample_floats2 ++ sample_floats1)
       0 1 1 (sample_floats1 ++ sample_floats1).
Proof.
  pose proof (per_pixel_effect_slices 1 F32.half 0 1 1
                ltac:(lia) ltac:(lia) ltac:(lia) ltac:(lia) ltac:(lia))
    as [Hb Hf].
  split.
  - apply Hb; [left; reflexivity | vm_compute; lia].
  - apply Hf; [do 3 right; left; reflexivity | vm_compute; lia].
Defined.

End Slices.

(** ** Drop and over-drop *)

Module Drop.

Import Blur Alpha.

Definition XOFF : Z := 8.
Definition YOFF : Z := 8.

(** [min_ii] of the maths library. *)
Definition min_ii (a b : Z) : Z := if a <? b then a else b.

Section Generic.
Context {T : Type} `{!Inhabited T}.

(** [memcpy(out, rt, n * sizeof(T))] with [out] a position in [buf] and
    [rt] a position in [src], element by element. *)
Definition memcpy_at (buf : list T) (out : nat) (src : list T) (rt : nat)
    (n : nat) : list T :=
  foldl (fun b i => <[(out + i)%nat := src !!! (rt + i)%nat]> b) buf (seq 0 n).

(** The channel written from the alpha [rt2[3]] and the channel [*rt1]. *)
Variable shade : T -> T -> T.

(** The pointers [rt2], [rt1] and [out], as positions in [rect2i], [rect1i]
    and the output, and the output. *)
Definition DropState : Type := nat * nat * nat * list T.

(** The body of the loop over [j]. *)
Definition drop_pixel (rect2i rect1i : list T) (st : DropState) : DropState :=
  let '(rt2, rt1, out, buf) := st in
  let a := rect2i !!! (rt2 + 3)%nat in
  let buf :=
    store4 out
      (shade a (rect1i !!! rt1), shade a (rect1i !!! (rt1 + 1)%nat),
       shade a (rect1i !!! (rt1 + 2)%nat), shade a (rect1i !!! (rt1 + 3)%nat))
      buf in
  ((rt2 + 4)%nat, (rt1 + 4)%nat, (out + 4)%nat, buf).

(** The body of the loop over [i]. *)
Definition drop_row (xoff x : Z) (rect2i rect1i : list T) (st : DropState)
  : DropState :=
  let '(rt2, rt1, out, buf) := st in
  let buf := memcpy_at buf out rect1i rt1 (Z.to_nat (xoff * 4)) in
  let rt1 := (rt1 + Z.to_nat (xoff * 4))%nat in
  let out := (out + Z.to_nat (xoff * 4))%nat in
  let '(rt2, rt1, out, buf) :=
    for_n (x - xoff) (drop_pixel rect2i rect1i) (rt2, rt1, out, buf) in
  ((rt2 + Z.to_nat (xoff * 4))%nat, rt1, out, buf).

(** [do_drop_effect_byte] and [do_drop_effect_float], which differ in
    [shade] only. *)
Definition do_drop_effect (x y : Z) (rect2i rect1i outi : list T) : list T :=
  let xoff := min_ii XOFF x in
  let yoff := min_ii YOFF y in
  let '(rt2, rt1, out, buf) :=
    for_n (y - yoff) (drop_row xoff x rect2i rect1i)
      (Z.to_nat (yoff * 4 * x), 0%nat, 0%nat, outi) in
  memcpy_at buf out rect1i rt1 (Z.to_nat (yoff * 4 * x)).

End Generic.

(** [std::max(0, *rt1 - temp_fac2)] stored in a byte, with
    [temp_fac = int(70.0f * fac)] and [temp_fac2 = (temp_fac * rt2[3]) >> 8]. *)
Definition shade_byte (fac : float) (a c : byte) : byte :=
  let temp_fac := F32.to_int (F32.mul (F32.of_int 70) fac) in
  let temp_fac2 := Z.shiftr (temp_fac * uchar_to_int a) 8 in
  int_to_uchar (Z.max 0 (uchar_to_int c - temp_fac2)).

(** [std::max(0.0f, *rt1 - temp_fac2)] with [temp_fac = 70.0f * fac] and
    [temp_fac2 = temp_fac * rt2[3]]; [std::max(a, b)] is [(a < b) ? b : a]. *)
Definition shade_float (fac : float) (a c : float) : float :=
  let temp_fac := F32.mul (F32.of_int 70) fac in
  let temp_fac2 := F32.mul temp_fac a in
  let v := F32.sub c temp_fac2 in
  if F32.ltb F32.zero v then v else F32.zero.

Definition do_drop_effect_byte (fac : float) (x y : Z)
    (rect2i rect1i outi : list byte) : list byte :=
  do_drop_effect (shade_byte fac) x y rect2i rect1i outi.

Definition do_drop_effect_float (fac : float) (x y : Z)
    (rect2i rect1i outi : list float) : list float :=
  do_drop_effect (shade_float fac) x y rect2i rect1i outi.

Section Slices.
Context {T : Type} `{!Inhabited T} `{!AlphaChannel T} `{!Premul T}.

(** [do_alphaover_effect] on a slice of the output: the three pointers
    advanced by [4 * start_line * rectx] channels. *)
Definition do_alphaover_effect_slice (rectx : Z) (fac : float)
    (ibuf1 ibuf2 : list T) (start_line total_lines : Z) (out : list T)
  : list T :=
  let offset := Z.to_nat (4 * start_line * rectx) in
  take offset out
  ++ do_alphaover_effect fac rectx total_lines
       (drop offset ibuf1) (drop offset ibuf2) (drop offset out).

(** [do_overdrop_effect]: the drop pass, then alpha over, on the same
    slice.  [drop] is [do_drop_effect_byte] or [do_drop_effect_float]. *)
Definition do_overdrop_effect
    (drop_effect : float -> Z -> Z -> list T -> list T -> list T -> list T)
    (rectx : Z) (fac : float) (ibuf1 ibuf2 : list T)
    (start_line total_lines : Z) (out : list T) : list T :=
  let x := rectx in
  let y := total_lines in
  let offset := Z.to_nat (4 * start_line * rectx) in
  let rect1 := drop offset ibuf1 in
  let rect2 := drop offset ibuf2 in
  let rect_out := drop offset out in
  let rect_out := drop_effect fac x y rect1 rect2 rect_out in
  take offset out ++ do_alphaover_effect fac x y rect1 rect2 rect_out.

End Slices.

Example drop_byte_row :
  do_drop_effect_byte F32.one 1 1 sample_bytes1 sample_bytes2 sample_bytes1
  = sample_bytes2.
Proof. vm_compute. reflexivity. Qed.

End Drop.

Module DropFacts.

Import Blur Alpha Drop.

Section Generic.
Context {T : Type} `{!Inhabited T}.

(** Two buffers of one size that agree from position [n] on. *)
Definition same_beyond (n : nat) (a b : list T) : Prop :=
  length a = length b /\ drop n a = drop n b.

Lemma same_beyond_refl n a : same_beyond n a a.
Proof. now split. Qed.

Lemma same_beyond_trans n a b c :
  same_beyond n a b -> same_beyond n b c -> same_beyond n a c.
Proof. intros [? ?] [? ?]. split; congruence. Qed.

Lemma same_beyond_insert n i v (a : list T) :
  (i < n)%nat -> same_beyond n (<[i := v]> a) a.
Proof.
  intros Hi. split; [apply length_insert|]. now apply drop_insert_lt.
Qed.

Lemma same_beyond_store4 n p v (a : list T) :
  (p + 4 <= n)%nat -> same_beyond n (store4 p v a) a.
Proof.
  intros Hp. destruct v as [[[v0 v1] v2] v3]. unfold store4.
  repeat (eapply same_beyond_trans; [apply same_beyond_insert; lia|]).
  apply same_beyond_refl.
Qed.

Lemma same_beyond_memcpy_at n (buf src : list T) out rt k :
  (out + k <= n)%nat -> same_beyond n (memcpy_at buf out src rt k) buf.
Proof.
  unfold memcpy_at. induction k as [|k IH]; intros Hk.
  - apply same_beyond_refl.
  - rewrite seq_S, foldl_app. cbn [foldl Nat.add].
    eapply same_beyond_trans; [apply same_beyond_insert; lia|].
    apply IH. lia.
Qed.

Variable shade : T -> T -> T.

Lemma drop_pixels_frame n rect2i rect1i k rt2 rt1 out buf :
  (out + 4 * k <= n)%nat ->
  exists rt2' rt1' buf',
    Nat.iter k (drop_pixel shade rect2i rect1i) (rt2, rt1, out, buf)
    = (rt2', rt1', (out + 4 * k)%nat, buf')
    /\ same_beyond n buf' buf.
Proof.
  induction k as [|k IH]; intros Hk.
  - exists rt2, rt1, buf. rewrite Nat.add_0_r. split; [reflexivity|].
    apply same_beyond_refl.
  - destruct IH as (rt2' & rt1' & buf' & Hit & Hsame); [lia|].
    rewrite Nat.iter_succ, Hit. cbn [drop_pixel].
    replace (out + 4 * S k)%nat with (out + 4 * k + 4)%nat by lia.
    eexists _, _, _. split; [reflexivity|].
    eapply same_beyond_trans; [apply same_beyond_store4; lia | exact Hsame].
Qed.

Lemma drop_row_frame n xoff x rect2i rect1i rt2 rt1 out buf :
  0 <= xoff <= x ->
  (out + 4 * Z.to_nat x <= n)%nat ->
  exists rt2' rt1' buf',
    drop_row shade xoff x rect2i rect1i (rt2, rt1, out, buf)
    = (rt2', rt1', (out + 4 * Z.to_nat x)%nat, buf')
    /\ same_beyond n buf' buf.
Proof.
  intros Hx Hn. unfold drop_row, for_n.
  destruct (drop_pixels_frame n rect2i rect1i (Z.to_nat (x - xoff)) rt2
              (rt1 + Z.to_nat (xoff * 4))%nat (out + Z.to_nat (xoff * 4))%nat
              (memcpy_at buf out rect1i rt1 (Z.to_nat (xoff * 4))))
    as (rt2' & rt1' & buf' & Hit & Hsame); [lia|].
  rewrite Hit.
  replace (out + 4 * Z.to_nat x)%nat
    with (out + Z.to_nat (xoff * 4) + 4 * Z.to_nat (x - xoff))%nat by lia.
  eexists _, _, _. split; [reflexivity|].
  eapply same_beyond_trans; [exact Hsame|].
  apply same_beyond_memcpy_at. lia.
Qed.

Lemma drop_rows_frame n xoff x rect2i rect1i k rt2 rt1 buf :
  0 <= xoff <= x ->
  (4 * Z.to_nat x * k <= n)%nat ->
  exists rt2' rt1' buf',
    Nat.iter k (drop_row shade xoff x rect2i rect1i) (rt2, rt1, 0%nat, buf)
    = (rt2', rt1', (4 * Z.to_nat x * k)%nat, buf')
    /\ same_beyond n buf' buf.
Proof.
  intros Hx. induction k as [|k IH]; intros Hk.
  - exists rt2, rt1, buf. rewrite Nat.mul_0_r. split; [reflexivity|].
    apply same_beyond_refl.
  - destruct IH as (rt2' & rt1' & buf' & Hit & Hsame); [lia|].
    rewrite Nat.iter_succ, Hit.
    destruct (drop_row_frame n xoff x rect2i rect1i rt2' rt1'
                (4 * Z.to_nat x * k)%nat buf' Hx)
      as (rt2'' & rt1'' & buf'' & Hrow & Hsame'); [lia|].
    rewrite Hrow.
    replace (4 * Z.to_nat x * S k)%nat
      with (4 * Z.to_nat x * k + 4 * Z.to_nat x)%nat by lia.
    eexists _, _, _. split; [reflexivity|].
    eapply same_beyond_trans; eassumption.
Qed.

Lemma min_ii_bounds (a b : Z) : 0 <= a -> 0 <= b -> 0 <= min_ii a b <= b.
Proof. intros Ha Hb. unfold min_ii. destruct (Z.ltb_spec a b); lia. Qed.

(** The drop pass writes inside the [x * y] pixels of its slice only. *)
Lemma do_drop_effect_frame (x y : Z) (rect2i rect1i outi : list T) :
  0 <= x -> 0 <= y ->
  same_beyond (4 * Z.to_nat (x * y))
    (do_drop_effect shade x y rect2i rect1i outi) outi.
Proof.
  intros Hx Hy. unfold do_drop_effect, for_n.
  pose proof (min_ii_bounds XOFF x ltac:(unfold XOFF; lia) Hx) as Hxo.
  pose proof (min_ii_bounds YOFF y ltac:(unfold YOFF; lia) Hy) as Hyo.
  set (xoff := min_ii XOFF x) in *. set (yoff := min_ii YOFF y) in *.
  assert (Hrows : (4 * Z.to_nat x * Z.to_nat (y - yoff)
                   + Z.to_nat (yoff * 4 * x)
                   = 4 * Z.to_nat (x * y))%nat) by nia.
  destruct (drop_rows_frame (4 * Z.to_nat (x * y)) xoff x rect2i rect1i
              (Z.to_nat (y - yoff)) (Z.to_nat (yoff * 4 * x)) 0%nat outi Hxo)
    as (rt2' & rt1' & buf' & Hit & Hsame); [lia|].
  rewrite Hit.
  eapply same_beyond_trans; [|exact Hsame].
  apply same_beyond_memcpy_at. lia.
Qed.

End Generic.

Section Over.
Context {T : Type} `{!Inhabited T} `{!AlphaChannel T} `{!Premul T}.

(** Alpha over reads nothing of the [width * height] pixels of the
    destination it writes. *)
Lemma alphaover_overwrites (fac : float) (width height : Z)
    (src1 src2 dst dst' : list T) :
  (4 * Z.to_nat (width * height) <= length dst)%nat ->
  same_beyond (4 * Z.to_nat (width * height)) dst' dst ->
  do_alphaover_effect fac width height src1 src2 dst'
  = do_alphaover_effect fac width height src1 src2 dst.
Proof.
  intros Hlen [Hl Hd]. unfold do_alphaover_effect, for_n, memcpy.
  rewrite AlphaFacts.to_nat_4.
  destruct (SFleb fac F32.zero); [now rewrite Hd|].
  rewrite !pixel_iter_spec by lia. cbn [snd]. now rewrite Hd.
Qed.

Lemma overdrop_slice
    (drop_effect : float -> Z -> Z -> list T -> list T -> list T -> list T)
    (rectx : Z) (fac : float) (ibuf1 ibuf2 : list T)
    (start_line total_lines : Z) (out : list T) :
  (forall x y r2 r1 o,
     0 <= x -> 0 <= y ->
     same_beyond (4 * Z.to_nat (x * y)) (drop_effect fac x y r2 r1 o) o) ->
  0 <= start_line -> 0 <= rectx -> 0 <= total_lines ->
  (Z.to_nat (4 * (start_line + total_lines) * rectx) <= length out)%nat ->
  do_overdrop_effect drop_effect rectx fac ibuf1 ibuf2 start_line total_lines
    out
  = do_alphaover_effect_slice rectx fac ibuf1 ibuf2 start_line total_lines
      out.
Proof.
  intros Hdrop Hs Hx Hy Hlen.
  unfold do_overdrop_effect, do_alphaover_effect_slice. cbv zeta. f_equal.
  apply alphaover_overwrites; [rewrite length_drop; nia|].
  now apply Hdrop.
Qed.

End Over.

(** X20.  Over-drop renders what alpha over renders: on every slice that
    lies inside the output, on byte and on float buffers, the result of
    the drop pass followed by alpha over is the result of alpha over alone,
    as alpha over writes every pixel the drop pass has written. *)
Theorem overdrop_is_alphaover (rectx : Z) (fac : float)
    (start_line total_lines : Z) :
  0 <= start_line -> 0 <= rectx -> 0 <= total_lines ->
  4 * (start_line + total_lines) * rectx < 2 ^ 31 ->
  (forall to_premul to_straight (ibuf1 ibuf2 out : list byte),
     (Z.to_nat (4 * (start_line + total_lines) * rectx) <= length out)%nat ->
     @do_overdrop_effect byte _ _ (byte_premul to_premul to_straight)
       do_drop_effect_byte rectx fac ibuf1 ibuf2 start_line total_lines out
     = @do_alphaover_effect_slice byte _ _ (byte_premul to_premul to_straight)
         rectx fac ibuf1 ibuf2 start_line total_lines out)
  /\ (forall ibuf1 ibuf2 out : list float,
        (Z.to_nat (4 * (start_line + total_lines) * rectx) <= length out)%nat ->
        do_overdrop_effect do_drop_effect_float rectx fac ibuf1 ibuf2
          start_line total_lines out
        = do_alphaover_effect_slice rectx fac ibuf1 ibuf2 start_line
            total_lines out).
Proof.
  intros Hs Hx Hy _. split; intros.
  - apply overdrop_slice; try assumption.
    intros. now apply do_drop_effect_frame.
  - apply overdrop_slice; try assumption.
    intros. now apply do_drop_effect_frame.
Qed.

Lemma overdrop_is_alphaover_witness :
  do_overdrop_effect do_drop_effect_float 1 F32.half
    (sample_floats1 ++ sample_floats2) (sample_floats2 ++ sample_floats1)
    1 1 (sample_floats1 ++ sample_floats1)
  = do_alphaover_effect_slice 1 F32.half
      (sample_floats1 ++ sample_floats2) (sample_floats2 ++ sample_floats1)
      1 1 (sample_floats1 ++ sample_floats1).
Proof.
  apply (overdrop_is_alphaover 1 F32.half 1 1
           ltac:(lia) ltac:(lia) ltac:(lia) ltac:(lia)).
  vm_compute. lia.
Defined.

End DropFacts.

(** ** The shadow of a text *)

Module Shadow.

Import Blur Alpha.

(** [rcti] of the rectangle library. *)
Record rcti : Type := {
  xmin : Z;
  xmax : Z;
  ymin : Z;
  ymax : Z
}.

(** [math::clamp], which is [std::clamp]:
    [(a < min) ? min : (max < a) ? max : a]. *)
Definition clamp (a min max : Z) : Z :=
  if a <? min then min else if max <? a then max else a.

Definition clamp_rect (width height : Z) (r_rect : rcti) : rcti :=
  {| xmin := clamp (xmin r_rect) 0 (width - 1);
     xmax := clamp (xmax r_rect) 0 (width - 1);
     ymin := clamp (ymin r_rect) 0 (height - 1);
     ymax := clamp (ymax r_rect) 0 (height - 1) |}.

(** The rows of the rectangle are one range, which the threads split; each
    row writes cells of its own, so the ranges are run one after the other
    here. *)
Definition initialize_shadow_alpha (width height : Z) (offset : Z * Z)
    (shadow_rect : rcti) (input : list byte) (r_shadow_mask : list byte)
  : list byte :=
  fold_left
    (fun (r_shadow_mask : list byte) y =>
       let src_y := clamp (y + snd offset) 0 (height - 1) in
       fold_left
         (fun (r_shadow_mask : list byte) x =>
            let src_x := clamp (x - fst offset) 0 (width - 1) in
            let src_offset := width * src_y + src_x in
            let dst_offset := width * y + x in
            <[Z.to_nat dst_offset := input !!! Z.to_nat (src_offset * 4 + 3)]>
              r_shadow_mask)
         (Zrange (xmin shadow_rect) (xmax shadow_rect - xmin shadow_rect + 1))
         r_shadow_mask)
    (Zrange (ymin shadow_rect) (ymax shadow_rect - ymin shadow_rect + 1))
    r_shadow_mask.

(** [v * w] for a [float4] and a [float]. *)
Definition f4_muls (v : float4) (w : float) : float4 :=
  let '(v0, v1, v2, v3) := v in
  (F32.mul v0 w, F32.mul v1 w, F32.mul v2 w, F32.mul v3 w).

Section Composite.
Context `{!Premul byte}.

(** The body of the loop over [x] of [composite_shadow], on the counters
    [offset] and [dst] of the loop and the output. *)
Definition composite_pixel (shadow_color : float4) (shadow_mask : list byte)
    (st : Z * Z * list byte) : Z * Z * list byte :=
  let '(offset, dst, output) := st in
  let a := shadow_mask !!! Z.to_nat offset in
  if uchar_to_int a =? 0 then (offset + 1, dst + 4, output)
  else
    let col1 := load_premul_pixel (load4 output (Z.to_nat dst)) in
    let col2 :=
      f4_muls shadow_color
        (F32.mul (F32.of_int (uchar_to_int a))
           (F32.div F32.one (F32.of_int 255))) in
    let fac := F32.sub F32.one (f4_w col1) in
    let col := f4_add col1 (f4_smul fac col2) in
    (offset + 1, dst + 4, store4 (Z.to_nat dst) (store_premul_pixel col) output).

Definition composite_shadow (width : Z) (shadow_rect : rcti)
    (shadow_color : float4) (shadow_mask : list byte) (output : list byte)
  : list byte :=
  fold_left
    (fun (output : list byte) y =>
       let offset := y * width + xmin shadow_rect in
       let dst := offset * 4 in
       snd (for_n (xmax shadow_rect - xmin shadow_rect + 1)
              (composite_pixel shadow_color shadow_mask)
              (offset, dst, output)))
    (Zrange (ymin shadow_rect) (ymax shadow_rect - ymin shadow_rect + 1))
    output.

End Composite.

End Shadow.

Module ShadowFacts.

Import Blur Alpha Shadow.

(** A pixel of the rectangle, its sides included. *)
Definition inside (r : rcti) (x y : Z) : bool :=
  (xmin r <=? x) && (x <=? xmax r) && (ymin r <=? y) && (y <=? ymax r).

Lemma clamp_bounds (a lo hi : Z) : lo <= hi -> lo <= clamp a lo hi <= hi.
Proof.
  intros H. unfold clamp.
  destruct (Z.ltb_spec a lo); [lia|]. destruct (Z.ltb_spec hi a); lia.
Qed.

Lemma in_Zrange (lo n v : Z) : In v (Zrange lo n) <-> lo <= v < lo + n.
Proof. apply (JfaFacts.in_range_list (lo, n)). Qed.

Lemma in_rect_cells (r : rcti) (c : Z * Z) :
  In c (flat_map (fun y => map (fun x => (x, y))
                             (Zrange (xmin r) (xmax r - xmin r + 1)))
          (Zrange (ymin r) (ymax r - ymin r + 1)))
  <-> inside r (fst c) (snd c) = true.
Proof.
  unfold inside. rewrite !andb_true_iff, !Z.leb_le, in_flat_map. split.
  - intros (y & Hy & Hc). apply in_map_iff in Hc as (x & <- & Hx).
    cbn [fst snd]. apply in_Zrange in Hx, Hy. lia.
  - intros Hc. exists (snd c). split; [apply in_Zrange; lia|].
    apply in_map_iff. exists (fst c). split; [now destruct c|].
    apply in_Zrange. lia.
Qed.

Lemma cell_index_inj (width x y x' y' : Z) :
  0 <= x < width -> 0 <= x' < width -> 0 <= y -> 0 <= y' ->
  Z.to_nat (width * y + x) = Z.to_nat (width * y' + x') -> x = x' /\ y = y'.
Proof.
  intros Hx Hx' Hy Hy' Heq.
  assert (H : width * y + x = width * y' + x') by nia.
  assert (y = y') by nia. subst. lia.
Qed.

(** X21.  In an image of at least one pixel and for a rectangle clamped to
    it, the shadow mask keeps its size and gets, at every pixel (x, y) of
    the rectangle, the alpha of the input at (x - offset.x, y + offset.y)
    clamped to the image, a position inside the input; outside the
    rectangle the mask is as it was. *)
Theorem shadow_alpha_displaced (width height : Z) (offset : Z * Z)
    (rect : rcti) (input r_shadow_mask : list byte) (x y : Z) :
  1 <= width -> 1 <= height ->
  length r_shadow_mask = Z.to_nat (width * height) ->
  0 <= x < width -> 0 <= y < height ->
  let shadow_rect := clamp_rect width height rect in
  let mask :=
    initialize_shadow_alpha width height offset shadow_rect input
      r_shadow_mask in
  let src_x := clamp (x - fst offset) 0 (width - 1) in
  let src_y := clamp (y + snd offset) 0 (height - 1) in
  length mask = length r_shadow_mask
  /\ 0 <= (width * src_y + src_x) * 4 + 3 < 4 * (width * height)
  /\ mask !!! Z.to_nat (width * y + x)
     = if inside shadow_rect x y
       then input !!! Z.to_nat ((width * src_y + src_x) * 4 + 3)
       else r_shadow_mask !!! Z.to_nat (width * y + x).
Proof.
  intros Hw Hh Hlen Hx Hy shadow_rect mask src_x src_y.
  pose proof (clamp_bounds (x - fst offset) 0 (width - 1) ltac:(lia)) as Hsx.
  pose proof (clamp_bounds (y + snd offset) 0 (height - 1) ltac:(lia)) as Hsy.
  pose proof (clamp_bounds (xmin rect) 0 (width - 1) ltac:(lia)) as Hx0.
  pose proof (clamp_bounds (xmax rect) 0 (width - 1) ltac:(lia)) as Hx1.
  pose proof (clamp_bounds (ymin rect) 0 (height - 1) ltac:(lia)) as Hy0.
  pose proof (clamp_bounds (ymax rect) 0 (height - 1) ltac:(lia)) as Hy1.
  fold src_x in Hsx. fold src_y in Hsy.
  set (idx := fun c : Z * Z => Z.to_nat (width * snd c + fst c)).
  set (val := fun c : Z * Z =>
                input !!! Z.to_nat
                  ((width * clamp (snd c + snd offset) 0 (height - 1)
                    + clamp (fst c - fst offset) 0 (width - 1)) * 4 + 3)).
  assert (Hwrites :
            mask = JfaFacts.write_all idx val
                     (flat_map
                        (fun y => map (fun x => (x, y))
                                    (Zrange (xmin shadow_rect)
                                       (xmax shadow_rect - xmin shadow_rect + 1)))
                        (Zrange (ymin shadow_rect)
                           (ymax shadow_rect - ymin shadow_rect + 1)))
                     r_shadow_mask).
  { subst mask. unfold initialize_shadow_alpha, JfaFacts.write_all. cbv zeta.
    apply (BlurFacts.fold_rows
             (fun (m : list byte) x y =>
                <[Z.to_nat (width * y + x) :=
                    input !!! Z.to_nat
                      ((width * clamp (y + snd offset) 0 (height - 1)
                        + clamp (x - fst offset) 0 (width - 1)) * 4 + 3)]> m)). }
  assert (Hcells : forall c,
            In c (flat_map
                    (fun y => map (fun x => (x, y))
                                (Zrange (xmin shadow_rect)
                                   (xmax shadow_rect - xmin shadow_rect + 1)))
                    (Zrange (ymin shadow_rect)
                       (ymax shadow_rect - ymin shadow_rect + 1))) ->
            0 <= fst c < width /\ 0 <= snd c < height).
  { intros c Hc. apply in_rect_cells in Hc. unfold inside in Hc.
    rewrite !andb_true_iff, !Z.leb_le in Hc.
    subst shadow_rect. cbn [clamp_rect xmin xmax ymin ymax] in Hc. lia. }
  split; [rewrite Hwrites; apply JfaFacts.write_all_length|].
  split; [nia|].
  rewrite Hwrites.
  destruct (inside shadow_rect x y) eqn:Hin.
  - apply list_lookup_total_correct.
    apply (JfaFacts.write_all_hit idx val _ _ (x, y)).
    + now apply in_rect_cells.
    + rewrite Hlen. unfold idx. cbn [fst snd]. nia.
    + intros c' Hc' Heq. apply Hcells in Hc'. unfold idx in Heq.
      cbn [fst snd] in Heq.
      apply cell_index_inj in Heq as [Hfst Hsnd]; [|lia..].
      destruct c' as [x' y']. cbn [fst snd] in *. now subst.
  - rewrite !list_lookup_total_alt. f_equal.
    apply JfaFacts.write_all_other. intros c' Hc' Heq.
    pose proof (Hcells c' Hc') as Hb. unfold idx in Heq.
    apply cell_index_inj in Heq as [Hfst Hsnd]; [|lia..].
    apply in_rect_cells in Hc'. rewrite Hfst, Hsnd in Hc'. congruence.
Qed.

Lemma shadow_alpha_displaced_witness :
  initialize_shadow_alpha 2 1 (1, 0)
    (clamp_rect 2 1 {| xmin := -3; xmax := 9; ymin := 0; ymax := 0 |})
    (sample_bytes1 ++ sample_bytes2) ["000"; "000"]%byte
  !!! Z.to_nat (2 * 0 + 1)
  = "255"%byte.
Proof.
  destruct (shadow_alpha_displaced 2 1 (1, 0)
              {| xmin := -3; xmax := 9; ymin := 0; ymax := 0 |}
              (sample_bytes1 ++ sample_bytes2) ["000"; "000"]%byte 1 0
              ltac:(lia) ltac:(lia) ltac:(reflexivity) ltac:(lia) ltac:(lia))
    as (_ & _ & Hmask).
  exact Hmask.
Defined.

(** *** Pixels updated in place *)

Lemma NoDup_map_in {A B : Type} (f : A -> B) (l : list A) :
  (forall a b, In a l -> In b l -> f a = f b -> a = b) ->
  List.NoDup l -> List.NoDup (map f l).
Proof.
  intros Hinj Hl. induction Hl as [|a l Ha Hl IH]; [constructor|].
  cbn. constructor.
  - intros Hin. apply in_map_iff in Hin as (b & Hb & Hin).
    assert (b = a) by (apply Hinj; [now right|now left|exact Hb]).
    now subst.
  - apply IH. intros x y Hx Hy. apply Hinj; now right.
Qed.

Lemma NoDup_flat_map {A B : Type} (f : A -> list B) (ys : list A) :
  List.NoDup ys ->
  (forall y, In y ys -> List.NoDup (f y)) ->
  (forall y y' b, In y ys -> In y' ys -> In b (f y) -> In b (f y') -> y = y') ->
  List.NoDup (flat_map f ys).
Proof.
  intros Hys. induction Hys as [|y ys Hy Hys IH]; intros Hrow Hcross;
    [constructor|].
  cbn [flat_map]. apply List.NoDup_app.
  - apply Hrow. now left.
  - apply IH.
    + intros y' Hy'. apply Hrow. now right.
    + intros y1 y2 b H1 H2. apply Hcross; now right.
  - intros b Hb Hin. apply in_flat_map in Hin as (y' & Hy' & Hb').
    assert (y = y') by (apply (Hcross y y' b); [now left|now right|assumption..]).
    now subst.
Qed.

Lemma NoDup_Zrange (lo n : Z) : List.NoDup (Zrange lo n).
Proof.
  unfold Zrange. apply NoDup_map_in; [|apply seq_NoDup]. intros; lia.
Qed.

Section Updates.
Context {T : Type} `{!Inhabited T}.

(** What is written over a pixel at index [q], from the pixel there; [None]
    when the pixel is skipped. *)
Variable g : nat -> @pixel T -> option (@pixel T).

Definition update_at (out : list T) (q : nat) : list T :=
  match g q (load4 out (4 * q)%nat) with
  | Some v => store4 (4 * q)%nat v out
  | None => out
  end.

Definition update_all (qs : list nat) (out : list T) : list T :=
  fold_left update_at qs out.

Lemma length_store4 p v (out : list T) : length (store4 p v out) = length out.
Proof.
  destruct v as [[[v0 v1] v2] v3]. unfold store4.
  now rewrite !length_insert.
Qed.

Lemma load4_store4_eq p v (out : list T) :
  (p + 4 <= length out)%nat -> load4 (store4 p v out) p = v.
Proof.
  intros Hp. destruct v as [[[v0 v1] v2] v3]. unfold store4, load4.
  repeat first
    [ rewrite list_lookup_total_insert_eq by (rewrite ?length_insert; lia)
    | rewrite list_lookup_total_insert_ne by lia ].
  reflexivity.
Qed.

Lemma load4_store4_ne p p' v (out : list T) :
  (p + 4 <= p' \/ p' + 4 <= p)%nat ->
  load4 (store4 p v out) p' = load4 out p'.
Proof.
  intros Hp. destruct v as [[[v0 v1] v2] v3]. unfold store4, load4.
  now rewrite !list_lookup_total_insert_ne by lia.
Qed.

Lemma update_at_length out q : length (update_at out q) = length out.
Proof.
  unfold update_at. destruct (g q _); [apply length_store4|reflexivity].
Qed.

Lemma update_at_other out q q' :
  q <> q' -> load4 (update_at out q) (4 * q')%nat = load4 out (4 * q')%nat.
Proof.
  intros Hq. unfold update_at. destruct (g q _); [|reflexivity].
  apply load4_store4_ne. lia.
Qed.

Lemma update_all_length qs out : length (update_all qs out) = length out.
Proof.
  unfold update_all. revert out.
  induction qs as [|q qs IH]; intros out; [reflexivity|].
  cbn. now rewrite IH, update_at_length.
Qed.

Lemma update_all_other qs out q' :
  ~ In q' qs ->
  load4 (update_all qs out) (4 * q')%nat = load4 out (4 * q')%nat.
Proof.
  unfold update_all. revert out.
  induction qs as [|q qs IH]; intros out Hq; [reflexivity|].
  cbn. rewrite IH by (intros ?; apply Hq; now right).
  apply update_at_other. intros ->. apply Hq. now left.
Qed.

Lemma update_all_hit qs out q :
  List.NoDup qs -> In q qs -> (4 * q + 4 <= length out)%nat ->
  load4 (update_all qs out) (4 * q)%nat
  = match g q (load4 out (4 * q)%nat) with
    | Some v => v
    | None => load4 out (4 * q)%nat
    end.
Proof.
  intros Hnd. revert out.
  induction Hnd as [|q0 qs Hq0 Hnd IH]; intros out Hin Hlen; [destruct Hin|].
  change (update_all (q0 :: qs) out) with (update_all qs (update_at out q0)).
  destruct Hin as [->|Hin].
  - rewrite update_all_other by exact Hq0. unfold update_at.
    destruct (g q _); [|reflexivity].
    now apply load4_store4_eq.
  - rewrite IH by (rewrite ?update_at_length; assumption).
    assert (q0 <> q) by (intros ->; contradiction).
    now rewrite update_at_other.
Qed.

End Updates.

Section Composite.
Context `{!Premul byte}.
Variables (shadow_color : float4) (shadow_mask : list byte).

(** The pixel [composite_shadow] blends under a pixel [px] of the output
    where the mask holds [a]. *)
Definition under (a : byte) (px : @pixel byte) : @pixel byte :=
  let col1 := load_premul_pixel px in
  let col2 :=
    f4_muls shadow_color
      (F32.mul (F32.of_int (uchar_to_int a))
         (F32.div F32.one (F32.of_int 255))) in
  let fac := F32.sub F32.one (f4_w col1) in
  store_premul_pixel (f4_add col1 (f4_smul fac col2)).

Definition shaded (q : nat) (px : @pixel byte) : option (@pixel byte) :=
  if uchar_to_int (shadow_mask !!! q) =? 0 then None
  else Some (under (shadow_mask !!! q) px).

Lemma composite_row (n : nat) (offset : Z) (output : list byte) :
  0 <= offset ->
  Nat.iter n (composite_pixel shadow_color shadow_mask)
    (offset, offset * 4, output)
  = (offset + Z.of_nat n, (offset + Z.of_nat n) * 4,
     update_all shaded (map (fun i => (Z.to_nat offset + i)%nat) (seq 0 n))
       output).
Proof.
  intros Ho. induction n as [|n IH].
  - cbn. now rewrite Z.add_0_r.
  - rewrite Nat.iter_succ, IH, seq_S, map_app. cbn [map Nat.add].
    unfold update_all at 2. rewrite fold_left_app. cbn [fold_left].
    fold (update_all shaded (map (fun i => (Z.to_nat offset + i)%nat)
                               (seq 0 n)) output).
    set (out := update_all _ _ output).
    unfold composite_pixel, update_at, shaded, under.
    replace (Z.to_nat (offset + Z.of_nat n))
      with (Z.to_nat offset + n)%nat by lia.
    replace (Z.to_nat ((offset + Z.of_nat n) * 4))
      with (4 * (Z.to_nat offset + n))%nat by lia.
    replace (offset + Z.of_nat (S n)) with (offset + Z.of_nat n + 1) by lia.
    replace ((offset + Z.of_nat n + 1) * 4)
      with ((offset + Z.of_nat n) * 4 + 4) by lia.
    now destruct (uchar_to_int (shadow_mask !!! (Z.to_nat offset + n)%nat)
                  =? 0).
Qed.

Definition rect_offsets (width : Z) (r : rcti) : list nat :=
  flat_map
    (fun y => map (fun i => (Z.to_nat (y * width + xmin r) + i)%nat)
                (seq 0 (Z.to_nat (xmax r - xmin r + 1))))
    (Zrange (ymin r) (ymax r - ymin r + 1)).

Lemma composite_as_updates (width : Z) (r : rcti) (output : list byte) :
  0 <= width -> 0 <= xmin r -> 0 <= ymin r ->
  composite_shadow width r shadow_color shadow_mask output
  = update_all shaded (rect_offsets width r) output.
Proof.
  intros Hw Hx Hy. unfold composite_shadow, rect_offsets, update_all.
  rewrite JfaFacts.fold_left_flat_map.
  apply JfaFacts.fold_left_ext. intros st y Hin. cbv zeta.
  apply in_Zrange in Hin. unfold for_n.
  rewrite composite_row by nia. reflexivity.
Qed.

Lemma in_rect_offsets (width : Z) (r : rcti) (q : nat) :
  0 <= width -> 0 <= xmin r -> 0 <= ymin r ->
  In q (rect_offsets width r)
  <-> exists x y, inside r x y = true /\ q = Z.to_nat (y * width + x).
Proof.
  intros Hw Hx Hy. unfold rect_offsets, inside. rewrite in_flat_map. split.
  - intros (y & Hin & Hq). apply in_Zrange in Hin.
    apply in_map_iff in Hq as (i & <- & Hi). apply in_seq in Hi.
    exists (xmin r + Z.of_nat i), y. split; [|nia].
    rewrite !andb_true_iff, !Z.leb_le. lia.
  - intros (x & y & Hin & ->).
    rewrite !andb_true_iff, !Z.leb_le in Hin.
    exists y. split; [apply in_Zrange; lia|].
    apply in_map_iff. exists (Z.to_nat (x - xmin r)). split; [nia|].
    apply in_seq. lia.
Qed.

Lemma NoDup_rect_offsets (width : Z) (r : rcti) :
  0 <= xmin r -> 0 <= ymin r -> xmax r < width ->
  List.NoDup (rect_offsets width r).
Proof.
  intros Hx Hy Hw. unfold rect_offsets. apply NoDup_flat_map.
  - apply NoDup_Zrange.
  - intros y _. apply NoDup_map_in; [|apply seq_NoDup]. intros; lia.
  - intros y y' q Hin Hin' Hq Hq'.
    apply in_Zrange in Hin, Hin'.
    apply in_map_iff in Hq as (i & <- & Hi).
    apply in_map_iff in Hq' as (i' & Heq & Hi').
    apply in_seq in Hi, Hi'.
    assert (H : y' * width + xmin r + Z.of_nat i'
                = y * width + xmin r + Z.of_nat i) by nia.
    nia.
Qed.

End Composite.

(** X22.  In an image of at least one pixel and for a rectangle clamped to
    it, compositing the shadow keeps the size of the output; a pixel outside
    the rectangle, or where the mask is 0, is as it was; any other pixel is
    the shadow colour, scaled by the mask over 255, blended under the pixel
    that was there. *)
Theorem composite_shadow_under `{!Premul byte} (width height : Z) (rect : rcti)
    (shadow_color : float4) (shadow_mask output : list byte) (x y : Z) :
  1 <= width -> 1 <= height ->
  length output = Z.to_nat (4 * (width * height)) ->
  0 <= x < width -> 0 <= y < height ->
  let shadow_rect := clamp_rect width height rect in
  let result :=
    composite_shadow width shadow_rect shadow_color shadow_mask output in
  let q := Z.to_nat (y * width + x) in
  length result = length output
  /\ load4 result (4 * q)%nat
     = if inside shadow_rect x y
          && negb (uchar_to_int (shadow_mask !!! q) =? 0)
       then under shadow_color (shadow_mask !!! q) (load4 output (4 * q)%nat)
       else load4 output (4 * q)%nat.
Proof.
  intros Hw Hh Hlen Hx Hy shadow_rect result q.
  pose proof (clamp_bounds (xmin rect) 0 (width - 1) ltac:(lia)) as Hx0.
  pose proof (clamp_bounds (xmax rect) 0 (width - 1) ltac:(lia)) as Hx1.
  pose proof (clamp_bounds (ymin rect) 0 (height - 1) ltac:(lia)) as Hy0.
  pose proof (clamp_bounds (ymax rect) 0 (height - 1) ltac:(lia)) as Hy1.
  assert (Hres : result
                 = update_all (shaded shadow_color shadow_mask)
                     (rect_offsets width shadow_rect) output).
  { subst result. apply composite_as_updates;
      subst shadow_rect; cbn [clamp_rect xmin ymin]; lia. }
  rewrite Hres. split; [apply update_all_length|].
  destruct (inside shadow_rect x y) eqn:Hin; cbn [andb].
  - rewrite update_all_hit.
    + unfold shaded.
      now destruct (uchar_to_int (shadow_mask !!! q) =? 0).
    + apply NoDup_rect_offsets;
        subst shadow_rect; cbn [clamp_rect xmin xmax ymin]; lia.
    + apply in_rect_offsets;
        [subst shadow_rect; cbn [clamp_rect xmin ymin]; lia..|].
      exists x, y. now split.
    + rewrite Hlen. subst q. nia.
  - apply update_all_other. intros Hq.
    apply in_rect_offsets in Hq as (x' & y' & Hin' & Heq);
      [|subst shadow_rect; cbn [clamp_rect xmin ymin]; lia..].
    assert (Hb : 0 <= x' < width /\ 0 <= y' < height).
    { unfold inside in Hin'. rewrite !andb_true_iff, !Z.leb_le in Hin'.
      subst shadow_rect. cbn [clamp_rect xmin xmax ymin ymax] in Hin'. lia. }
    subst q.
    assert (H : y * width + x = y' * width + x') by nia.
    assert (y = y') by nia.
    assert (x = x') by nia.
    subst. congruence.
Qed.

Lemma composite_shadow_under_witness :
  load4
    (@composite_shadow
       (byte_premul (fun _ => f4_zero) (fun _ => load4 sample_bytes2 0))
       2 (clamp_rect 2 1 {| xmin := 1; xmax := 9; ymin := 0; ymax := 0 |})
       f4_zero ["000"; "255"]%byte (sample_bytes1 ++ sample_bytes1))
    (4 * Z.to_nat (0 * 2 + 1))
  = load4 sample_bytes2 0.
Proof.
  destruct (@composite_shadow_under
              (byte_premul (fun _ => f4_zero) (fun _ => load4 sample_bytes2 0))
              2 1 {| xmin := 1; xmax := 9; ymin := 0; ymax := 0 |}
              f4_zero ["000"; "255"]%byte (sample_bytes1 ++ sample_bytes1) 1 0
              ltac:(lia) ltac:(lia) ltac:(reflexivity) ltac:(lia) ltac:(lia))
    as (_ & Hpx).
  exact Hpx.
Defined.

End ShadowFacts.

(** ** Solid colour *)

Module Solid.

Section Generic.
Context {T : Type} `{!Inhabited T}.

(** [while (dst < dst_end) { memcpy(dst, color, sizeof(color)); dst += 4; }]
    with the pointers as positions in the buffer of [out]. *)
Fixpoint fill_pixels (fuel : nat) (color : @pixel T) (dst dst_end : Z)
    (data : list T) : list T :=
  match fuel with
  | O => data
  | S fuel =>
      if dst <? dst_end
      then fill_pixels fuel color (dst + 4) dst_end
             (store4 (Z.to_nat dst) color data)
      else data
  end.

(** The body of the loop of [do_solid_color] over a range of rows, for one
    representation of [out]; the loop over the pixels ends within
    [y_size * out_x] rounds. *)
Definition solid_color_rows (color : @pixel T) (out_x : Z)
    (y_first y_size : Z) (data : list T) : list T :=
  let dst := y_first * out_x * 4 in
  let dst_end := dst + y_size * out_x * 4 in
  fill_pixels (Z.to_nat (y_size * out_x)) color dst dst_end data.

End Generic.

(** The colour of a byte image; [rgb_float_to_uchar] belongs to the colour
    maths library. *)
Definition byte_color
    (rgb_float_to_uchar : float * float * float -> byte * byte * byte)
    (col : float * float * float) : @pixel byte :=
  let '(c0, c1, c2) := rgb_float_to_uchar col in (c0, c1, c2, "255"%byte).

Definition float_color (col : float * float * float) : @pixel float :=
  let '(c0, c1, c2) := col in (c0, c1, c2, F32.one).

Example solid_float_row :
  solid_color_rows (float_color (F32.half, F32.zero, F32.one)) 1 1 1
    (sample_floats1 ++ sample_floats2)
  = sample_floats1 ++ [F32.half; F32.zero; F32.one; F32.one].
Proof. vm_compute. reflexivity. Qed.

End Solid.

Module SolidFacts.

Import Solid.

Section Generic.
Context {T : Type} `{!Inhabited T}.

Lemma store4_at (p : nat) (v : @pixel T) (data : list T) :
  (p + 4 <= length data)%nat ->
  store4 p v data = take p data ++ pixel_list v ++ drop (p + 4) data.
Proof.
  intros Hp. rewrite <- (take_drop p data) at 1.
  assert (Hl : length (take p data) = p) by (rewrite length_take; lia).
  rewrite <- Hl at 1. rewrite store4_app by (rewrite length_drop; lia).
  rewrite drop_drop. reflexivity.
Qed.

(** The loop writes [n] pixels from [dst] and stops, whatever is left of the
    fuel. *)
Lemma fill_pixels_spec (n extra : nat) (color : @pixel T) (dst : Z)
    (data : list T) :
  0 <= dst ->
  (Z.to_nat dst + 4 * n <= length data)%nat ->
  fill_pixels (n + extra) color dst (dst + 4 * Z.of_nat n) data
  = take (Z.to_nat dst) data
    ++ concat (replicate n (pixel_list color))
    ++ drop (Z.to_nat dst + 4 * n) data.
Proof.
  revert dst data. induction n as [|n IH]; intros dst data Hd Hlen.
  - cbn [Nat.add replicate concat app]. rewrite Nat.mul_0_r, Nat.add_0_r.
    rewrite take_drop.
    destruct extra as [|extra]; [reflexivity|]. cbn [fill_pixels].
    destruct (Z.ltb_spec dst (dst + 4 * Z.of_nat 0)); [lia|reflexivity].
  - cbn [Nat.add fill_pixels].
    destruct (Z.ltb_spec dst (dst + 4 * Z.of_nat (S n))); [|lia].
    replace (dst + 4 * Z.of_nat (S n)) with (dst + 4 + 4 * Z.of_nat n) by lia.
    assert (Hl : length (take (Z.to_nat dst) data) = Z.to_nat dst)
      by (rewrite length_take; lia).
    rewrite IH by (rewrite ?ShadowFacts.length_store4; lia).
    rewrite store4_at by lia.
    replace (Z.to_nat (dst + 4)) with (Z.to_nat dst + 4)%nat by lia.
    rewrite (app_assoc (take _ data)).
    assert (Hl4 : length (take (Z.to_nat dst) data ++ pixel_list color)
                  = (Z.to_nat dst + 4)%nat).
    { rewrite length_app, Hl. now destruct color as [[[? ?] ?] ?]. }
    rewrite take_app_length' by (symmetry; exact Hl4).
    rewrite drop_app_ge by lia. rewrite Hl4, drop_drop.
    cbn [replicate concat]. rewrite <- !app_assoc. do 3 f_equal.
    f_equal. lia.
Qed.

Lemma solid_color_rows_spec (color : @pixel T) (out_x y_first y_size : Z)
    (extra : nat) (data : list T) :
  0 <= out_x -> 0 <= y_first -> 0 <= y_size ->
  (Z.to_nat (4 * (y_first + y_size) * out_x) <= length data)%nat ->
  let dst := y_first * out_x * 4 in
  solid_color_rows color out_x y_first y_size data
  = take (Z.to_nat dst) data
    ++ concat (replicate (Z.to_nat (y_size * out_x)) (pixel_list color))
    ++ drop (Z.to_nat (4 * (y_first + y_size) * out_x)) data
  /\ fill_pixels (Z.to_nat (y_size * out_x) + extra) color dst
       (dst + y_size * out_x * 4) data
     = solid_color_rows color out_x y_first y_size data.
Proof.
  intros Hx Hf Hs Hlen dst. unfold solid_color_rows. fold dst.
  set (n := Z.to_nat (y_size * out_x)).
  assert (Hfuel : forall e,
            fill_pixels (n + e) color dst (dst + y_size * out_x * 4) data
            = take (Z.to_nat dst) data
              ++ concat (replicate n (pixel_list color))
              ++ drop (Z.to_nat (4 * (y_first + y_size) * out_x)) data).
  { intros e.
    replace (dst + y_size * out_x * 4) with (dst + 4 * Z.of_nat n)
      by (subst n; nia).
    rewrite fill_pixels_spec by (subst dst n; nia).
    do 3 f_equal. subst dst n. nia. }
  pose proof (Hfuel 0%nat) as H0. rewrite Nat.add_0_r in H0.
  split; [exact H0|]. now rewrite Hfuel, H0.
Qed.

End Generic.

(** X23.  The solid colour effect, run over a range of rows inside a byte or
    a float image, leaves the rows before and after the range as they were
    and fills every pixel of the range with the three colour channels of the
    strip and the opaque alpha, 255 or 1.0; its loop over the pixels ends,
    and further rounds change nothing. *)
Theorem solid_color_fills_rows (out_x y_first y_size : Z) (extra : nat)
    (col : float * float * float) :
  0 <= out_x -> 0 <= y_first -> 0 <= y_size ->
  4 * (y_first + y_size) * out_x < 2 ^ 31 ->
  let dst := y_first * out_x * 4 in
  let dst_end := dst + y_size * out_x * 4 in
  (forall rgb_float_to_uchar (data : list byte),
     (Z.to_nat (4 * (y_first + y_size) * out_x) <= length data)%nat ->
     let color := byte_color rgb_float_to_uchar col in
     solid_color_rows color out_x y_first y_size data
     = take (Z.to_nat dst) data
       ++ concat (replicate (Z.to_nat (y_size * out_x))
                    [fst (fst (fst color)); snd (fst (fst color));
                     snd (fst color); "255"%byte])
       ++ drop (Z.to_nat dst_end) data
     /\ fill_pixels (Z.to_nat (y_size * out_x) + extra) color dst dst_end data
        = solid_color_rows color out_x y_first y_size data)
  /\ (forall data : list float,
        (Z.to_nat (4 * (y_first + y_size) * out_x) <= length data)%nat ->
        let color := float_color col in
        solid_color_rows color out_x y_first y_size data
        = take (Z.to_nat dst) data
          ++ concat (replicate (Z.to_nat (y_size * out_x))
                       [fst (fst col); snd (fst col); snd col; F32.one])
          ++ drop (Z.to_nat dst_end) data
        /\ fill_pixels (Z.to_nat (y_size * out_x) + extra) color dst dst_end
             data
           = solid_color_rows color out_x y_first y_size data).
Proof.
  intros Hx Hf Hs _ dst dst_end.
  assert (He : Z.to_nat dst_end = Z.to_nat (4 * (y_first + y_size) * out_x))
    by (subst dst_end dst; nia).
  split.
  - intros rgb data Hlen color.
    destruct (solid_color_rows_spec color out_x y_first y_size extra data
                Hx Hf Hs Hlen) as [Hrows Hfuel].
    split; [|exact Hfuel]. rewrite Hrows, He. do 3 f_equal.
    subst color. unfold byte_color. now destruct (rgb col) as [[c0 c1] c2].
  - intros data Hlen color.
    destruct (solid_color_rows_spec color out_x y_first y_size extra data
                Hx Hf Hs Hlen) as [Hrows Hfuel].
    split; [|exact Hfuel]. rewrite Hrows, He. do 3 f_equal.
    subst color. now destruct col as [[c0 c1] c2].
Qed.

Lemma solid_color_fills_rows_witness :
  solid_color_rows (float_color (F32.half, F32.zero, F32.one)) 1 1 1
    (sample_floats1 ++ sample_floats2)
  = take 4 (sample_floats1 ++ sample_floats2)
    ++ concat (replicate 1 [F32.half; F32.zero; F32.one; F32.one])
    ++ drop 8 (sample_floats1 ++ sample_floats2).
Proof.
  destruct (solid_color_fills_rows 1 1 1 0 (F32.half, F32.zero, F32.one)
              ltac:(lia) ltac:(lia) ltac:(lia) ltac:(lia)) as [_ Hfloat].
  destruct (Hfloat (sample_floats1 ++ sample_floats2)) as [Hrows _].
  - vm_compute. lia.
  - exact Hrows.
Defined.

End SolidFacts.

(** ** The frame map of the speed effect *)

Module Speed.

(** The macro [CLAMP(a, b, c)] on a [float] variable with [int] bounds:
    [if (a < b) a = b; else if (a > c) a = c;]. *)
Definition CLAMP (a : float) (b c : Z) : float :=
  if F32.ltb a (F32.of_int b) then F32.of_int b
  else if F32.ltb (F32.of_int c) a then F32.of_int c
  else a.

Section Strip.

(** What the timeline reports of the effect strip and of its input:
    [SEQ_time_left_handle_frame_get] and [SEQ_time_right_handle_frame_get]
    of the strip, and [SEQ_time_strip_length_get] of [seq->seq1]. *)
Variables (left_handle_frame right_handle_frame : Z).
Variable seq1_strip_length : Z.

(** The body of the loop: [target_frame] and the entries of the map written
    so far, [frame_index] being the next one. *)
Definition rebuild_step (evaluate_fcurve : float -> float)
    (st : float * list float) (frame_index : Z) : float * list float :=
  let '(target_frame, frameMap) := st in
  let target_frame :=
    F32.add target_frame
      (evaluate_fcurve (F32.of_int (left_handle_frame + frame_index))) in
  let target_frame_max := seq1_strip_length in
  let target_frame := CLAMP target_frame 0 target_frame_max in
  (target_frame, frameMap ++ [target_frame]).

(** [seq_effect_speed_rebuild_map] on [v->frameMap], [None] being the null
    pointer.  [has_seq1] is [seq->seq1 != nullptr]; [fcu] is the curve of
    the speed factor, [evaluate_fcurve] applied to it, if there is one.
    The new map is allocated uninitialised and every entry is written once,
    in order. *)
Definition seq_effect_speed_rebuild_map (has_seq1 : bool)
    (fcu : option (float -> float)) (frameMap : option (list float))
  : option (list float) :=
  let effect_strip_length := right_handle_frame - left_handle_frame in
  if negb has_seq1 || (effect_strip_length <? 1) then frameMap
  else
    match fcu with
    | None => frameMap
    | Some evaluate_fcurve =>
        Some (snd (fold_left (rebuild_step evaluate_fcurve)
                     (Zrange 1 (effect_strip_length - 1))
                     (F32.zero, [F32.zero])))
    end.

(** [seq_effect_speed_frame_map_ensure]. *)
Definition seq_effect_speed_frame_map_ensure (has_seq1 : bool)
    (fcu : option (float -> float)) (frameMap : option (list float))
  : option (list float) :=
  match frameMap with
  | Some _ => frameMap
  | None => seq_effect_speed_rebuild_map has_seq1 fcu frameMap
  end.

End Strip.

Example rebuild_map_constant_speed :
  seq_effect_speed_rebuild_map 10 14 2 true (Some (fun _ => F32.one)) None
  = Some [F32.zero; F32.one; F32.of_int 2; F32.of_int 2].
Proof. vm_compute. reflexivity. Qed.

End Speed.

Module SpeedFacts.

Import Speed.

Lemma ltb_irrefl (a : float) : F32.ltb a a = false.
Proof.
  unfold F32.ltb, SFltb, SFcompare.
  destruct a as [[]|[]| |[] m e]; try reflexivity;
    now rewrite Z.compare_refl, Pos.compare_cont_refl.
Qed.

(** The conversion of an [int] that is not negative is not below zero. *)
Lemma of_int_not_negative (z : Z) :
  0 <= z -> F32.ltb (F32.of_int z) F32.zero = false.
Proof.
  intros Hz. unfold F32.of_int, binary_normalize.
  destruct z as [|p|p]; [reflexivity| |lia].
  unfold binary_round.
  destruct (shl_align p 0 _) as [mz ez].
  unfold binary_round_aux.
  destruct (shr_fexp _ _ (Z.pos mz) ez loc_Exact) as [mrs' e'].
  destruct (shr_fexp _ _ _ e' loc_Exact) as [mrs'' e''].
  destruct (shr_m mrs'') as [|m|m]; [reflexivity| |reflexivity].
  now destruct (e'' <=? F32.emax - F32.prec).
Qed.

(** A value neither below 0 nor above [c], as the comparisons of the type
    see it. *)
Definition within (c : Z) (a : float) : Prop :=
  F32.ltb a (F32.of_int 0) = false /\ F32.ltb (F32.of_int c) a = false.

Lemma CLAMP_within (a : float) (c : Z) : 0 <= c -> within c (CLAMP a 0 c).
Proof.
  intros Hc. unfold CLAMP, within.
  destruct (F32.ltb a (F32.of_int 0)) eqn:Hlo.
  - split; [apply ltb_irrefl|]. now apply of_int_not_negative.
  - destruct (F32.ltb (F32.of_int c) a) eqn:Hhi.
    + split; [now apply of_int_not_negative|apply ltb_irrefl].
    + now split.
Qed.

Section Strip.
Variables (left_handle_frame right_handle_frame seq1_strip_length : Z).
Variable evaluate_fcurve : float -> float.

Lemma rebuild_steps (frames : list Z) (target_frame : float)
    (frameMap : list float) :
  0 <= seq1_strip_length ->
  Forall (within seq1_strip_length) frameMap ->
  let st :=
    fold_left (rebuild_step left_handle_frame seq1_strip_length evaluate_fcurve)
      frames (target_frame, frameMap) in
  length (snd st) = (length frameMap + length frames)%nat
  /\ Forall (within seq1_strip_length) (snd st)
  /\ take (length frameMap) (snd st) = frameMap.
Proof.
  intros Hc. revert target_frame frameMap.
  induction frames as [|f frames IH]; intros target_frame frameMap Hall st.
  - subst st. cbn. rewrite Nat.add_0_r, firstn_all. now repeat split.
  - subst st. cbn [fold_left rebuild_step].
    set (t := CLAMP _ 0 seq1_strip_length).
    destruct (IH t (frameMap ++ [t])) as (Hlen & Hin & Hpre).
    { apply Forall_app. split; [exact Hall|].
      constructor; [now apply CLAMP_within|constructor]. }
    rewrite length_app in Hlen, Hpre. cbn [length] in Hlen, Hpre.
    split; [rewrite Hlen; cbn [length]; lia|]. split; [exact Hin|].
    apply (f_equal (take (length frameMap))) in Hpre.
    rewrite take_take, take_app_length in Hpre.
    now rewrite Nat.min_l in Hpre by lia.
Qed.

End Strip.

(** X24.  With an input strip that is not shorter than 0, rebuilding the
    frame map of a speed strip either leaves the map as it was, when the
    strip has no input, is shorter than one frame or has no speed curve, or
    gives a map with one entry per frame of the strip, the first one 0, in
    which no entry compares below 0 or above the length of the input strip,
    whatever the curve evaluates to. *)
Theorem speed_map_within_input
    (left_handle_frame right_handle_frame seq1_strip_length : Z)
    (has_seq1 : bool) (fcu : option (float -> float))
    (frameMap : option (list float)) :
  0 <= seq1_strip_length ->
  let rebuilt :=
    seq_effect_speed_rebuild_map left_handle_frame right_handle_frame
      seq1_strip_length has_seq1 fcu frameMap in
  if has_seq1 && (1 <=? right_handle_frame - left_handle_frame)
     && bool_decide (is_Some fcu)
  then exists map,
      rebuilt = Some map
      /\ length map = Z.to_nat (right_handle_frame - left_handle_frame)
      /\ map !! 0%nat = Some F32.zero
      /\ Forall (within seq1_strip_length) map
  else rebuilt = frameMap.
Proof.
  intros Hc rebuilt. subst rebuilt. unfold seq_effect_speed_rebuild_map.
  destruct has_seq1; cbn [negb orb andb]; [|reflexivity].
  destruct (Z.ltb_spec (right_handle_frame - left_handle_frame) 1) as [Hl|Hl];
    destruct (Z.leb_spec 1 (right_handle_frame - left_handle_frame)); try lia;
    cbn [andb]; [reflexivity|].
  destruct fcu as [evaluate_fcurve|]; [|reflexivity].
  rewrite bool_decide_true by (now eexists).
  eexists. split; [reflexivity|].
  destruct (rebuild_steps left_handle_frame seq1_strip_length evaluate_fcurve
              (Zrange 1 (right_handle_frame - left_handle_frame - 1))
              F32.zero [F32.zero] Hc) as (Hlen & Hin & Hpre).
  { constructor; [|constructor].
    split; [reflexivity|now apply of_int_not_negative]. }
  split; [|split; [|exact Hin]].
  - rewrite Hlen. unfold Zrange. rewrite length_map, length_seq.
    cbn [length]. lia.
  - cbn [length] in Hpre.
    apply (f_equal (fun l => l !! 0%nat)) in Hpre.
    now rewrite lookup_take_lt in Hpre by lia.
Qed.

Lemma speed_map_within_input_witness :
  exists map,
    seq_effect_speed_rebuild_map 10 14 2 true (Some (fun _ => F32.one)) None
    = Some map
    /\ length map = 4%nat
    /\ map !! 0%nat = Some F32.zero
    /\ Forall (within 2) map.
Proof.
  exact (speed_map_within_input 10 14 2 true (Some (fun _ => F32.one)) None
           ltac:(lia)).
Defined.

End SpeedFacts.

(** ** The characters of a text *)

Module Characters.

Import Text.

Section Font.

(** [BLI_strnlen(data->text, sizeof(data->text))], [BLI_str_utf8_size_safe]
    and [BLF_glyph_advance] at an offset of the text, and a
    default-constructed [CharInfo], whose declaration is in a header: none
    of them is part of this file. *)
Variable len_max : Z.
Variable BLI_str_utf8_size_safe : nat -> Z.
Variable BLF_glyph_advance : nat -> Z.
Variable default_char_info : CharInfo.

(** The character appended at [byte_offset]. *)
Definition char_info_at (byte_offset char_index : Z) : CharInfo :=
  let str := Z.to_nat byte_offset in
  let char_length := BLI_str_utf8_size_safe str in
  {| index := char_index;
     str_ptr := str;
     byte_length := char_length;
     advance_x := BLF_glyph_advance str;
     position := position default_char_info;
     do_wrap := do_wrap default_char_info |}.

(** [while (byte_offset <= len_max) { ... }] *)
Fixpoint build_characters (fuel : nat) (byte_offset char_index : Z)
    (characters : list CharInfo) : list CharInfo :=
  match fuel with
  | O => characters
  | S fuel =>
      if byte_offset <=? len_max
      then
        let char_info := char_info_at byte_offset char_index in
        build_characters fuel (byte_offset + byte_length char_info)
          (char_index + 1) (characters ++ [char_info])
      else characters
  end.

(** [build_character_info]; with characters of one byte at least the loop
    ends within [len_max + 1] rounds. *)
Definition build_character_info : list CharInfo :=
  build_characters (Z.to_nat (len_max + 1)) 0 0 [].

End Font.

Example characters_of_two_bytes :
  map (fun c => (index c, str_ptr c, byte_length c))
    (build_character_info 3 (fun p => if Nat.eqb p 1 then 2 else 1)
       (fun _ => 7) inhabitant)
  = [(0, 0%nat, 1); (1, 1%nat, 2); (2, 3%nat, 1)].
Proof. vm_compute. reflexivity. Qed.

End Characters.

Module CharactersFacts.

Import Text Characters.

Section Font.
Variable len_max : Z.
Variable BLI_str_utf8_size_safe : nat -> Z.
Variable BLF_glyph_advance : nat -> Z.
Variable default_char_info : CharInfo.

(** Characters that follow one another from the byte [byte_offset] and the
    index [char_index] on, each one starting no later than [len_max], up to
    the first offset beyond [len_max]. *)
Fixpoint chained (byte_offset char_index : Z) (characters : list CharInfo)
  : Prop :=
  match characters with
  | [] => len_max < byte_offset
  | c :: characters =>
      byte_offset <= len_max
      /\ c = char_info_at BLI_str_utf8_size_safe BLF_glyph_advance
               default_char_info byte_offset char_index
      /\ chained (byte_offset + byte_length c) (char_index + 1) characters
  end.

Hypothesis size_positive : forall p, 1 <= BLI_str_utf8_size_safe p.

Lemma build_characters_app fuel byte_offset char_index characters :
  build_characters len_max BLI_str_utf8_size_safe BLF_glyph_advance
    default_char_info fuel byte_offset char_index characters
  = characters
    ++ build_characters len_max BLI_str_utf8_size_safe BLF_glyph_advance
         default_char_info fuel byte_offset char_index [].
Proof.
  revert byte_offset char_index characters.
  induction fuel as [|fuel IH]; intros byte_offset char_index characters.
  - cbn. now rewrite app_nil_r.
  - cbn [build_characters].
    destruct (byte_offset <=? len_max); [|now rewrite app_nil_r].
    rewrite IH, (IH _ _ ([] ++ _)). cbn [app]. now rewrite <- app_assoc.
Qed.

Lemma build_characters_chained fuel extra byte_offset char_index :
  len_max + 1 - byte_offset <= Z.of_nat fuel ->
  chained byte_offset char_index
    (build_characters len_max BLI_str_utf8_size_safe BLF_glyph_advance
       default_char_info fuel byte_offset char_index [])
  /\ build_characters len_max BLI_str_utf8_size_safe BLF_glyph_advance
       default_char_info (fuel + extra) byte_offset char_index []
     = build_characters len_max BLI_str_utf8_size_safe BLF_glyph_advance
         default_char_info fuel byte_offset char_index [].
Proof.
  revert byte_offset char_index.
  induction fuel as [|fuel IH]; intros byte_offset char_index Hfuel.
  - split; [cbn; lia|]. destruct extra as [|extra]; [reflexivity|].
    cbn [Nat.add build_characters].
    destruct (Z.leb_spec byte_offset len_max); [lia|reflexivity].
  - cbn [Nat.add build_characters].
    destruct (Z.leb_spec byte_offset len_max) as [Hle|Hgt];
      [|split; [cbn; lia|reflexivity]].
    set (c := char_info_at _ _ _ byte_offset char_index).
    assert (Hc : 1 <= byte_length c) by apply size_positive.
    destruct (IH (byte_offset + byte_length c) (char_index + 1)) as [Hch Hex];
      [lia|].
    rewrite build_characters_app, (build_characters_app (fuel + extra)).
    cbn [app]. split; [|now rewrite Hex].
    cbn [chained]. now repeat split.
Qed.

End Font.

(** X25.  When every character is one byte long at least and the text is
    not longer than an [int], the loop that builds the characters of a text
    ends, further rounds changing nothing, and gives characters numbered
    from 0 that follow one another from the first byte on, each with its
    length and its advance, the first one that would start beyond the end of
    the text being left out; there is one character at least. *)
Theorem characters_tile_the_text (len_max : Z)
    (BLI_str_utf8_size_safe BLF_glyph_advance : nat -> Z)
    (default_char_info : Text.CharInfo) (extra : nat) :
  0 <= len_max < 2 ^ 31 ->
  (forall p, 1 <= BLI_str_utf8_size_safe p) ->
  let characters :=
    build_character_info len_max BLI_str_utf8_size_safe BLF_glyph_advance
      default_char_info in
  chained len_max BLI_str_utf8_size_safe BLF_glyph_advance default_char_info
    0 0 characters
  /\ characters <> []
  /\ build_characters len_max BLI_str_utf8_size_safe BLF_glyph_advance
       default_char_info (Z.to_nat (len_max + 1) + extra) 0 0 []
     = characters.
Proof.
  intros Hlen Hsize characters.
  destruct (build_characters_chained len_max BLI_str_utf8_size_safe
              BLF_glyph_advance default_char_info Hsize
              (Z.to_nat (len_max + 1)) extra 0 0) as [Hch Hex]; [lia|].
  fold (build_character_info len_max BLI_str_utf8_size_safe BLF_glyph_advance
          default_char_info) in Hch, Hex.
  fold characters in Hch, Hex.
  split; [exact Hch|]. split; [|exact Hex].
  intros Hnil. rewrite Hnil in Hch. cbn in Hch. lia.
Qed.

Lemma characters_tile_the_text_witness :
  chained 3 (fun p => if Nat.eqb p 1 then 2 else 1) (fun _ => 7) inhabitant
    0 0
    (build_character_info 3 (fun p => if Nat.eqb p 1 then 2 else 1)
       (fun _ => 7) inhabitant).
Proof.
  apply (characters_tile_the_text 3 (fun p => if Nat.eqb p 1 then 2 else 1)
           (fun _ => 7) inhabitant 0).
  - lia.
  - intros p. destruct (Nat.eqb p 1); lia.
Defined.

End CharactersFacts.

(** ** The blur of the shadow of a text *)

Module ShadowBlur.

Import Shadow.

(** [*dst = accum]: the conversion of a [float] to [uchar] truncates; out
    of the range of the byte the model keeps the low byte of the truncated
    value. *)
Definition float_to_uchar (f : float) : byte := int_to_uchar (F32.to_int f).

(** The body of the loops over [nx] and [ny]: [index], [accum] and
    [accum_weight], [sample n] being [rect[offset]]. *)
Definition blur_step (gaussian : list float) (sample : Z -> byte)
    (st : Z * float * float) (n : Z) : Z * float * float :=
  let '(index, accum, accum_weight) := st in
  let weight := gaussian !!! Z.to_nat index in
  (index + 1,
   F32.add accum (F32.mul (F32.of_int (uchar_to_int (sample n))) weight),
   F32.add accum_weight weight).

(** [accum] of [text_gaussian_blur_x] at the pixel [(x, y)]. *)
Definition blur_x_accum (gaussian : list float) (half_size width : Z)
    (rect : list byte) (shadow_rect : rcti) (x y : Z) : float :=
  if (xmin shadow_rect <=? x) && (x <=? xmax shadow_rect)
  then
    let xmin := Z.max (x - half_size) (xmin shadow_rect) in
    let xmax := Z.min (x + half_size) (xmax shadow_rect) in
    let '(_, accum, accum_weight) :=
      fold_left
        (blur_step gaussian (fun nx => rect !!! Z.to_nat (y * width + nx)))
        (Zrange xmin (xmax - xmin + 1))
        ((xmin - x) + half_size, F32.zero, F32.zero) in
    F32.mul accum (F32.div F32.one accum_weight)
  else F32.zero.

(** [accum] of [text_gaussian_blur_y] at the pixel [(x, y)]. *)
Definition blur_y_accum (gaussian : list float) (half_size width : Z)
    (rect : list byte) (shadow_rect : rcti) (x y : Z) : float :=
  if (xmin shadow_rect <=? x) && (x <=? xmax shadow_rect)
  then
    let ymin := Z.max (y - half_size) (ymin shadow_rect) in
    let ymax := Z.min (y + half_size) (ymax shadow_rect) in
    let '(_, accum, accum_weight) :=
      fold_left
        (blur_step gaussian (fun ny => rect !!! Z.to_nat (ny * width + x)))
        (Zrange ymin (ymax - ymin + 1))
        ((ymin - y) + half_size, F32.zero, F32.zero) in
    F32.mul accum (F32.div F32.one accum_weight)
  else F32.zero.

(** The two loops over [y] and [x], which write [*dst] and advance [dst]. *)
Definition blur_rows (accum : Z -> Z -> float) (start_line width height : Z)
    (dst : list byte) : list byte :=
  snd (fold_left
         (fun (st : Z * list byte) y =>
            fold_left
              (fun (st : Z * list byte) x =>
                 let '(dst, buf) := st in
                 (dst + 1, <[Z.to_nat dst := float_to_uchar (accum x y)]> buf))
              (Zrange 0 width) st)
         (Zrange start_line height)
         (start_line * width, dst)).

Definition text_gaussian_blur_x (gaussian : list float)
    (half_size start_line width height : Z) (rect dst : list byte)
    (shadow_rect : rcti) : list byte :=
  blur_rows (blur_x_accum gaussian half_size width rect shadow_rect)
    start_line width height dst.

Definition text_gaussian_blur_y (gaussian : list float)
    (half_size start_line width height : Z) (rect dst : list byte)
    (shadow_rect : rcti) : list byte :=
  blur_rows (blur_y_accum gaussian half_size width rect shadow_rect)
    start_line width height dst.

(** The two passes of [draw_text_shadow] over the rows of the rectangle:
    [shadow_mask] is blurred into [blur_buffer], which is allocated without
    initialisation, and [blur_buffer] back into [shadow_mask].  The rows are
    one range, which the threads split, each row writing cells of its own. *)
Definition blur_shadow_mask (gaussian : list float) (half_size width : Z)
    (shadow_rect : rcti) (shadow_mask blur_buffer : list byte) : list byte :=
  let y_first := ymin shadow_rect in
  let y_size := ymax shadow_rect - ymin shadow_rect + 1 in
  let blur_buffer :=
    text_gaussian_blur_x gaussian half_size y_first width y_size shadow_mask
      blur_buffer shadow_rect in
  text_gaussian_blur_y gaussian half_size y_first width y_size blur_buffer
    shadow_mask shadow_rect.

End ShadowBlur.

Module ShadowBlurFacts.

Import Shadow ShadowFacts ShadowBlur.

(** The cell of the pixel [(x, y)] and the cells of a range of rows. *)
Definition cell (width : Z) (c : Z * Z) : nat :=
  Z.to_nat (snd c * width + fst c).

Definition row_cells (start_line width height : Z) : list (Z * Z) :=
  flat_map (fun y => map (fun x => (x, y)) (Zrange 0 width))
    (Zrange start_line height).

Lemma Zrange_snoc (lo : Z) (n : nat) :
  Zrange lo (Z.of_nat (S n)) = Zrange lo (Z.of_nat n) ++ [lo + Z.of_nat n].
Proof.
  unfold Zrange. rewrite !Nat2Z.id, seq_S, map_app. reflexivity.
Qed.

Lemma blur_row (val : Z -> byte) (n : nat) (d : Z) (buf : list byte) :
  fold_left
    (fun (st : Z * list byte) x =>
       let '(dst, buf) := st in (dst + 1, <[Z.to_nat dst := val x]> buf))
    (Zrange 0 (Z.of_nat n)) (d, buf)
  = (d + Z.of_nat n,
     fold_left (fun buf x => <[Z.to_nat (d + x) := val x]> buf)
       (Zrange 0 (Z.of_nat n)) buf).
Proof.
  induction n as [|n IH].
  - cbn. now rewrite Z.add_0_r.
  - rewrite Zrange_snoc, !fold_left_app, IH. cbn [fold_left].
    f_equal. lia.
Qed.

Lemma blur_rows_writes (accum : Z -> Z -> float)
    (start_line width height : Z) (dst : list byte) :
  0 <= width ->
  blur_rows accum start_line width height dst
  = JfaFacts.write_all (cell width)
      (fun c => float_to_uchar (accum (fst c) (snd c)))
      (row_cells start_line width height) dst.
Proof.
  intros Hw. unfold blur_rows, row_cells, JfaFacts.write_all.
  rewrite <- (BlurFacts.fold_rows
                (fun (buf : list byte) x y =>
                   <[Z.to_nat (y * width + x) :=
                       float_to_uchar (accum x y)]> buf)).
  assert (Hheight : Zrange start_line height
                    = Zrange start_line (Z.of_nat (Z.to_nat height)))
    by (unfold Zrange; now rewrite Nat2Z.id).
  rewrite Hheight. generalize (Z.to_nat height) as k. intros k.
  enough (Hrows :
            fold_left
              (fun (st : Z * list byte) y =>
                 fold_left
                   (fun (st : Z * list byte) x =>
                      let '(dst, buf) := st in
                      (dst + 1,
                       <[Z.to_nat dst := float_to_uchar (accum x y)]> buf))
                   (Zrange 0 width) st)
              (Zrange start_line (Z.of_nat k)) (start_line * width, dst)
            = ((start_line + Z.of_nat k) * width,
               fold_left
                 (fun buf y =>
                    fold_left
                      (fun buf x =>
                         <[Z.to_nat (y * width + x) :=
                             float_to_uchar (accum x y)]> buf)
                      (Zrange 0 width) buf)
                 (Zrange start_line (Z.of_nat k)) dst))
    by now rewrite Hrows.
  induction k as [|k IH].
  - cbn. now rewrite Z.add_0_r.
  - rewrite Zrange_snoc, !fold_left_app, IH. cbn [fold_left].
    rewrite <- (Z2Nat.id width) at 1 3 by exact Hw.
    rewrite (blur_row (fun x => float_to_uchar
                                  (accum x (start_line + Z.of_nat k)))).
    rewrite Z2Nat.id by exact Hw. f_equal. lia.
Qed.

Lemma in_row_cells (start_line width height : Z) (c : Z * Z) :
  In c (row_cells start_line width height)
  <-> 0 <= fst c < width /\ start_line <= snd c < start_line + height.
Proof.
  unfold row_cells. rewrite in_flat_map. split.
  - intros (y & Hy & Hc). apply in_map_iff in Hc as (x & <- & Hx).
    apply in_Zrange in Hx, Hy. cbn [fst snd]. lia.
  - intros [Hx Hy]. exists (snd c). split; [apply in_Zrange; lia|].
    apply in_map_iff. exists (fst c). split; [now destruct c|].
    apply in_Zrange. lia.
Qed.

Lemma cell_inj (width : Z) (c c' : Z * Z) :
  0 <= fst c < width -> 0 <= fst c' < width -> 0 <= snd c -> 0 <= snd c' ->
  cell width c = cell width c' -> c = c'.
Proof.
  unfold cell. destruct c as [x y], c' as [x' y']. cbn [fst snd].
  intros Hx Hx' Hy Hy' Heq.
  assert (H : y * width + x = y' * width + x') by nia.
  assert (y = y') by nia. subst. f_equal. lia.
Qed.

(** Inside the rows of a pass every cell holds the value of the pass. *)
Lemma blur_rows_inside (accum : Z -> Z -> float)
    (start_line width height : Z) (dst : list byte) (x y : Z) :
  0 <= start_line ->
  (Z.to_nat ((start_line + height) * width) <= length dst)%nat ->
  0 <= x < width -> start_line <= y < start_line + height ->
  blur_rows accum start_line width height dst !!! Z.to_nat (y * width + x)
  = float_to_uchar (accum x y).
Proof.
  intros Hs Hlen Hx Hy. rewrite blur_rows_writes by lia.
  apply list_lookup_total_correct.
  apply (JfaFacts.write_all_hit (cell width)
           (fun c => float_to_uchar (accum (fst c) (snd c))) _ _ (x, y)).
  - apply in_row_cells. cbn [fst snd]. lia.
  - unfold cell. cbn [fst snd]. nia.
  - intros c' Hc' Heq. apply in_row_cells in Hc'.
    apply cell_inj in Heq; [now subst|cbn [fst snd]; lia..].
Qed.

Lemma write_all_ext {A B : Type} (idx : B -> nat) (f g : B -> A)
    (cells : list B) (out : list A) :
  (forall c, In c cells -> f c = g c) ->
  JfaFacts.write_all idx f cells out = JfaFacts.write_all idx g cells out.
Proof.
  intros He. unfold JfaFacts.write_all. apply JfaFacts.fold_left_ext.
  intros st c Hc. now rewrite He.
Qed.

(** The vertical pass reads the rows of the rectangle only. *)
Lemma blur_y_accum_reads (gaussian : list float) (half_size width : Z)
    (rect rect' : list byte) (shadow_rect : rcti) (x y : Z) :
  (forall ny, ymin shadow_rect <= ny <= ymax shadow_rect ->
              rect !!! Z.to_nat (ny * width + x)
              = rect' !!! Z.to_nat (ny * width + x)) ->
  blur_y_accum gaussian half_size width rect shadow_rect x y
  = blur_y_accum gaussian half_size width rect' shadow_rect x y.
Proof.
  intros Hsame. unfold blur_y_accum.
  destruct ((xmin shadow_rect <=? x) && (x <=? xmax shadow_rect));
    [|reflexivity].
  cbv zeta.
  rewrite (JfaFacts.fold_left_ext
             (blur_step gaussian
                (fun ny => rect !!! Z.to_nat (ny * width + x)))
             (blur_step gaussian
                (fun ny => rect' !!! Z.to_nat (ny * width + x))));
    [reflexivity|].
  intros [[index accum] accum_weight] ny Hny. apply in_Zrange in Hny.
  unfold blur_step. rewrite Hsame by lia. reflexivity.
Qed.

(** X26.  In an image of at least one pixel across and for a rectangle
    whose rows lie inside it, the blurred shadow mask does not depend on
    what the blur buffer, which is allocated without initialisation, holds:
    the vertical pass reads only cells the horizontal pass has written.
    The mask keeps its size. *)
Theorem shadow_blur_ignores_buffer (gaussian : list float)
    (half_size width height : Z) (shadow_rect : rcti)
    (shadow_mask blur_buffer blur_buffer' : list byte) :
  1 <= width ->
  0 <= ymin shadow_rect -> ymax shadow_rect < height ->
  length blur_buffer = Z.to_nat (width * height) ->
  length blur_buffer' = Z.to_nat (width * height) ->
  blur_shadow_mask gaussian half_size width shadow_rect shadow_mask
    blur_buffer
  = blur_shadow_mask gaussian half_size width shadow_rect shadow_mask
      blur_buffer'
  /\ length (blur_shadow_mask gaussian half_size width shadow_rect
               shadow_mask blur_buffer)
     = length shadow_mask.
Proof.
  intros Hw Hy0 Hy1 Hlen Hlen'. unfold blur_shadow_mask. cbv zeta.
  unfold text_gaussian_blur_y.
  rewrite !(blur_rows_writes (blur_y_accum _ _ _ _ _)) by lia.
  split; [|apply JfaFacts.write_all_length].
  apply write_all_ext. intros [x y] Hc. apply in_row_cells in Hc.
  cbn [fst snd] in *. f_equal.
  apply blur_y_accum_reads. intros ny Hny.
  unfold text_gaussian_blur_x.
  rewrite !blur_rows_inside by (rewrite ?Hlen, ?Hlen'; nia).
  reflexivity.
Qed.

Lemma shadow_blur_ignores_buffer_witness :
  blur_shadow_mask [F32.half; F32.one; F32.half] 1 2
    {| xmin := 0; xmax := 1; ymin := 0; ymax := 0 |}
    ["000"; "255"]%byte ["007"; "009"]%byte
  = blur_shadow_mask [F32.half; F32.one; F32.half] 1 2
      {| xmin := 0; xmax := 1; ymin := 0; ymax := 0 |}
      ["000"; "255"]%byte ["200"; "100"]%byte.
Proof.
  apply (shadow_blur_ignores_buffer [F32.half; F32.one; F32.half] 1 2 1
           {| xmin := 0; xmax := 1; ymin := 0; ymax := 0 |}
           ["000"; "255"]%byte ["007"; "009"]%byte ["200"; "100"]%byte);
    cbn; first [lia | reflexivity].
Defined.

End ShadowBlurFacts.
